(** * WhatsApp backup viewer: export parsing, merge, bubble grouping, media cache

    A shallow embedding of the algorithmic core of the viewer
    (utils/chatParser.ts, utils/chatMerger.ts, utils/timelineBuilder.ts,
    services/mediaCache.ts, config/userIdentity.ts) together with the
    properties its design document states about it.

    Conventions of the embedding:
    - a JavaScript string is the list of its UTF-16 code units ([list N]);
    - a [Date] is its time value, the milliseconds since the epoch ([Z]);
      only valid dates are represented;
    - [Array.prototype.sort] is stable, so with a comparator that orders by
      one numeric field its result is the stable sort by that field;
    - mutable locals of a loop become the accumulator of a fold;
    - an async method of the media cache is a task that is suspended at
      each [await], so that calls overlap and an awaited promise may be
      rejected. *)

From Stdlib Require Import ZArith NArith Lia Ascii String.
From stdpp Require Import base list gmap sets sorting.

Local Open Scope Z_scope.

(** ** JavaScript strings *)

Abbreviation jsstring := (list N).

(** Code units of an ASCII literal. *)
Definition js (s : string) : jsstring :=
  (fun a => N_of_ascii a) <$> list_ascii_of_string s.

(** ** Unicode case conversion

    [String.prototype.toLowerCase] and [toUpperCase] convert the code
    points of the string by the default case conversion of the Unicode
    standard.  The tables below are those of the Unicode Character Database,
    version 14.0: the simple mappings of UnicodeData.txt, as runs
    [(first, last, step, image of first)] of code points whose images lie
    at a constant distance; the unconditional mappings of SpecialCasing.txt
    to several code points; and the properties Cased and Case_Ignorable of
    DerivedCoreProperties.txt, as intervals, which the one conditional
    mapping of the default conversion (a capital sigma at the end of a word
    becomes a final sigma) consults. *)

Definition lowerCaseRanges : list (N * N * N * N) :=
  [(65, 90, 1, 97); (192, 214, 1, 224); (216, 222, 1, 248);
   (256, 302, 2, 257); (306, 310, 2, 307); (313, 327, 2, 314);
   (330, 374, 2, 331); (376, 376, 1, 255); (377, 381, 2, 378);
   (385, 385, 1, 595); (386, 388, 2, 387); (390, 390, 1, 596);
   (391, 391, 1, 392); (393, 394, 1, 598); (395, 395, 1, 396);
   (398, 398, 1, 477); (399, 399, 1, 601); (400, 400, 1, 603);
   (401, 401, 1, 402); (403, 403, 1, 608); (404, 404, 1, 611);
   (406, 406, 1, 617); (407, 407, 1, 616); (408, 408, 1, 409);
   (412, 412, 1, 623); (413, 413, 1, 626); (415, 415, 1, 629);
   (416, 420, 2, 417); (422, 422, 1, 640); (423, 423, 1, 424);
   (425, 425, 1, 643); (428, 428, 1, 429); (430, 430, 1, 648);
   (431, 431, 1, 432); (433, 434, 1, 650); (435, 437, 2, 436);
   (439, 439, 1, 658); (440, 440, 1, 441); (444, 444, 1, 445);
   (452, 452, 1, 454); (453, 453, 1, 454); (455, 455, 1, 457);
   (456, 456, 1, 457); (458, 458, 1, 460); (459, 475, 2, 460);
   (478, 494, 2, 479); (497, 497, 1, 499); (498, 500, 2, 499);
   (502, 502, 1, 405); (503, 503, 1, 447); (504, 542, 2, 505);
   (544, 544, 1, 414); (546, 562, 2, 547); (570, 570, 1, 11365);
   (571, 571, 1, 572); (573, 573, 1, 410); (574, 574, 1, 11366);
   (577, 577, 1, 578); (579, 579, 1, 384); (580, 580, 1, 649);
   (581, 581, 1, 652); (582, 590, 2, 583); (880, 882, 2, 881);
   (886, 886, 1, 887); (895, 895, 1, 1011); (902, 902, 1, 940);
   (904, 906, 1, 941); (908, 908, 1, 972); (910, 911, 1, 973);
   (913, 929, 1, 945); (931, 939, 1, 963); (975, 975, 1, 983);
   (984, 1006, 2, 985); (1012, 1012, 1, 952); (1015, 1015, 1, 1016);
   (1017, 1017, 1, 1010); (1018, 1018, 1, 1019); (1021, 1023, 1, 891);
   (1024, 1039, 1, 1104); (1040, 1071, 1, 1072); (1120, 1152, 2, 1121);
   (1162, 1214, 2, 1163); (1216, 1216, 1, 1231); (1217, 1229, 2, 1218);
   (1232, 1326, 2, 1233); (1329, 1366, 1, 1377); (4256, 4293, 1, 11520);
   (4295, 4295, 1, 11559); (4301, 4301, 1, 11565); (5024, 5103, 1, 43888);
   (5104, 5109, 1, 5112); (7312, 7354, 1, 4304); (7357, 7359, 1, 4349);
   (7680, 7828, 2, 7681); (7838, 7838, 1, 223); (7840, 7934, 2, 7841);
   (7944, 7951, 1, 7936); (7960, 7965, 1, 7952); (7976, 7983, 1, 7968);
   (7992, 7999, 1, 7984); (8008, 8013, 1, 8000); (8025, 8031, 2, 8017);
   (8040, 8047, 1, 8032); (8072, 8079, 1, 8064); (8088, 8095, 1, 8080);
   (8104, 8111, 1, 8096); (8120, 8121, 1, 8112); (8122, 8123, 1, 8048);
   (8124, 8124, 1, 8115); (8136, 8139, 1, 8050); (8140, 8140, 1, 8131);
   (8152, 8153, 1, 8144); (8154, 8155, 1, 8054); (8168, 8169, 1, 8160);
   (8170, 8171, 1, 8058); (8172, 8172, 1, 8165); (8184, 8185, 1, 8056);
   (8186, 8187, 1, 8060); (8188, 8188, 1, 8179); (8486, 8486, 1, 969);
   (8490, 8490, 1, 107); (8491, 8491, 1, 229); (8498, 8498, 1, 8526);
   (8544, 8559, 1, 8560); (8579, 8579, 1, 8580); (9398, 9423, 1, 9424);
   (11264, 11311, 1, 11312); (11360, 11360, 1, 11361);
   (11362, 11362, 1, 619); (11363, 11363, 1, 7549); (11364, 11364, 1, 637);
   (11367, 11371, 2, 11368); (11373, 11373, 1, 593); (11374, 11374, 1, 625);
   (11375, 11375, 1, 592); (11376, 11376, 1, 594); (11378, 11378, 1, 11379);
   (11381, 11381, 1, 11382); (11390, 11391, 1, 575);
   (11392, 11490, 2, 11393); (11499, 11501, 2, 11500);
   (11506, 11506, 1, 11507); (42560, 42604, 2, 42561);
   (42624, 42650, 2, 42625); (42786, 42798, 2, 42787);
   (42802, 42862, 2, 42803); (42873, 42875, 2, 42874);
   (42877, 42877, 1, 7545); (42878, 42886, 2, 42879);
   (42891, 42891, 1, 42892); (42893, 42893, 1, 613);
   (42896, 42898, 2, 42897); (42902, 42920, 2, 42903);
   (42922, 42922, 1, 614); (42923, 42923, 1, 604); (42924, 42924, 1, 609);
   (42925, 42925, 1, 620); (42926, 42926, 1, 618); (42928, 42928, 1, 670);
   (42929, 42929, 1, 647); (42930, 42930, 1, 669); (42931, 42931, 1, 43859);
   (42932, 42946, 2, 42933); (42948, 42948, 1, 42900);
   (42949, 42949, 1, 642); (42950, 42950, 1, 7566); (42951, 42953, 2, 42952);
   (42960, 42960, 1, 42961); (42966, 42968, 2, 42967);
   (42997, 42997, 1, 42998); (65313, 65338, 1, 65345);
   (66560, 66599, 1, 66600); (66736, 66771, 1, 66776);
   (66928, 66938, 1, 66967); (66940, 66954, 1, 66979);
   (66956, 66962, 1, 66995); (66964, 66965, 1, 67003);
   (68736, 68786, 1, 68800); (71840, 71871, 1, 71872);
   (93760, 93791, 1, 93792); (125184, 125217, 1, 125218)]%N.

Definition lowerCaseSpecial : list (N * list N) :=
  [(304, [105; 775])]%N.

Definition upperCaseRanges : list (N * N * N * N) :=
  [(97, 122, 1, 65); (181, 181, 1, 924); (224, 246, 1, 192);
   (248, 254, 1, 216); (255, 255, 1, 376); (257, 303, 2, 256);
   (305, 305, 1, 73); (307, 311, 2, 306); (314, 328, 2, 313);
   (331, 375, 2, 330); (378, 382, 2, 377); (383, 383, 1, 83);
   (384, 384, 1, 579); (387, 389, 2, 386); (392, 392, 1, 391);
   (396, 396, 1, 395); (402, 402, 1, 401); (405, 405, 1, 502);
   (409, 409, 1, 408); (410, 410, 1, 573); (414, 414, 1, 544);
   (417, 421, 2, 416); (424, 424, 1, 423); (429, 429, 1, 428);
   (432, 432, 1, 431); (436, 438, 2, 435); (441, 441, 1, 440);
   (445, 445, 1, 444); (447, 447, 1, 503); (453, 453, 1, 452);
   (454, 454, 1, 452); (456, 456, 1, 455); (457, 457, 1, 455);
   (459, 459, 1, 458); (460, 460, 1, 458); (462, 476, 2, 461);
   (477, 477, 1, 398); (479, 495, 2, 478); (498, 498, 1, 497);
   (499, 499, 1, 497); (501, 501, 1, 500); (505, 543, 2, 504);
   (547, 563, 2, 546); (572, 572, 1, 571); (575, 576, 1, 11390);
   (578, 578, 1, 577); (583, 591, 2, 582); (592, 592, 1, 11375);
   (593, 593, 1, 11373); (594, 594, 1, 11376); (595, 595, 1, 385);
   (596, 596, 1, 390); (598, 599, 1, 393); (601, 601, 1, 399);
   (603, 603, 1, 400); (604, 604, 1, 42923); (608, 608, 1, 403);
   (609, 609, 1, 42924); (611, 611, 1, 404); (613, 613, 1, 42893);
   (614, 614, 1, 42922); (616, 616, 1, 407); (617, 617, 1, 406);
   (618, 618, 1, 42926); (619, 619, 1, 11362); (620, 620, 1, 42925);
   (623, 623, 1, 412); (625, 625, 1, 11374); (626, 626, 1, 413);
   (629, 629, 1, 415); (637, 637, 1, 11364); (640, 640, 1, 422);
   (642, 642, 1, 42949); (643, 643, 1, 425); (647, 647, 1, 42929);
   (648, 648, 1, 430); (649, 649, 1, 580); (650, 651, 1, 433);
   (652, 652, 1, 581); (658, 658, 1, 439); (669, 669, 1, 42930);
   (670, 670, 1, 42928); (837, 837, 1, 921); (881, 883, 2, 880);
   (887, 887, 1, 886); (891, 893, 1, 1021); (940, 940, 1, 902);
   (941, 943, 1, 904); (945, 961, 1, 913); (962, 962, 1, 931);
   (963, 971, 1, 931); (972, 972, 1, 908); (973, 974, 1, 910);
   (976, 976, 1, 914); (977, 977, 1, 920); (981, 981, 1, 934);
   (982, 982, 1, 928); (983, 983, 1, 975); (985, 1007, 2, 984);
   (1008, 1008, 1, 922); (1009, 1009, 1, 929); (1010, 1010, 1, 1017);
   (1011, 1011, 1, 895); (1013, 1013, 1, 917); (1016, 1016, 1, 1015);
   (1019, 1019, 1, 1018); (1072, 1103, 1, 1040); (1104, 1119, 1, 1024);
   (1121, 1153, 2, 1120); (1163, 1215, 2, 1162); (1218, 1230, 2, 1217);
   (1231, 1231, 1, 1216); (1233, 1327, 2, 1232); (1377, 1414, 1, 1329);
   (4304, 4346, 1, 7312); (4349, 4351, 1, 7357); (5112, 5117, 1, 5104);
   (7296, 7296, 1, 1042); (7297, 7297, 1, 1044); (7298, 7298, 1, 1054);
   (7299, 7300, 1, 1057); (7301, 7301, 1, 1058); (7302, 7302, 1, 1066);
   (7303, 7303, 1, 1122); (7304, 7304, 1, 42570); (7545, 7545, 1, 42877);
   (7549, 7549, 1, 11363); (7566, 7566, 1, 42950); (7681, 7829, 2, 7680);
   (7835, 7835, 1, 7776); (7841, 7935, 2, 7840); (7936, 7943, 1, 7944);
   (7952, 7957, 1, 7960); (7968, 7975, 1, 7976); (7984, 7991, 1, 7992);
   (8000, 8005, 1, 8008); (8017, 8023, 2, 8025); (8032, 8039, 1, 8040);
   (8048, 8049, 1, 8122); (8050, 8053, 1, 8136); (8054, 8055, 1, 8154);
   (8056, 8057, 1, 8184); (8058, 8059, 1, 8170); (8060, 8061, 1, 8186);
   (8112, 8113, 1, 8120); (8126, 8126, 1, 921); (8144, 8145, 1, 8152);
   (8160, 8161, 1, 8168); (8165, 8165, 1, 8172); (8526, 8526, 1, 8498);
   (8560, 8575, 1, 8544); (8580, 8580, 1, 8579); (9424, 9449, 1, 9398);
   (11312, 11359, 1, 11264); (11361, 11361, 1, 11360);
   (11365, 11365, 1, 570); (11366, 11366, 1, 574); (11368, 11372, 2, 11367);
   (11379, 11379, 1, 11378); (11382, 11382, 1, 11381);
   (11393, 11491, 2, 11392); (11500, 11502, 2, 11499);
   (11507, 11507, 1, 11506); (11520, 11557, 1, 4256);
   (11559, 11559, 1, 4295); (11565, 11565, 1, 4301);
   (42561, 42605, 2, 42560); (42625, 42651, 2, 42624);
   (42787, 42799, 2, 42786); (42803, 42863, 2, 42802);
   (42874, 42876, 2, 42873); (42879, 42887, 2, 42878);
   (42892, 42892, 1, 42891); (42897, 42899, 2, 42896);
   (42900, 42900, 1, 42948); (42903, 42921, 2, 42902);
   (42933, 42947, 2, 42932); (42952, 42954, 2, 42951);
   (42961, 42961, 1, 42960); (42967, 42969, 2, 42966);
   (42998, 42998, 1, 42997); (43859, 43859, 1, 42931);
   (43888, 43967, 1, 5024); (65345, 65370, 1, 65313);
   (66600, 66639, 1, 66560); (66776, 66811, 1, 66736);
   (66967, 66977, 1, 66928); (66979, 66993, 1, 66940);
   (66995, 67001, 1, 66956); (67003, 67004, 1, 66964);
   (68800, 68850, 1, 68736); (71872, 71903, 1, 71840);
   (93792, 93823, 1, 93760); (125218, 125251, 1, 125184)]%N.

Definition upperCaseSpecial : list (N * list N) :=
  [(223, [83; 83]); (329, [700; 78]); (496, [74; 780]);
   (912, [921; 776; 769]); (944, [933; 776; 769]); (1415, [1333; 1362]);
   (7830, [72; 817]); (7831, [84; 776]); (7832, [87; 778]);
   (7833, [89; 778]); (7834, [65; 702]); (8016, [933; 787]);
   (8018, [933; 787; 768]); (8020, [933; 787; 769]); (8022, [933; 787; 834]);
   (8064, [7944; 921]); (8065, [7945; 921]); (8066, [7946; 921]);
   (8067, [7947; 921]); (8068, [7948; 921]); (8069, [7949; 921]);
   (8070, [7950; 921]); (8071, [7951; 921]); (8072, [7944; 921]);
   (8073, [7945; 921]); (8074, [7946; 921]); (8075, [7947; 921]);
   (8076, [7948; 921]); (8077, [7949; 921]); (8078, [7950; 921]);
   (8079, [7951; 921]); (8080, [7976; 921]); (8081, [7977; 921]);
   (8082, [7978; 921]); (8083, [7979; 921]); (8084, [7980; 921]);
   (8085, [7981; 921]); (8086, [7982; 921]); (8087, [7983; 921]);
   (8088, [7976; 921]); (8089, [7977; 921]); (8090, [7978; 921]);
   (8091, [7979; 921]); (8092, [7980; 921]); (8093, [7981; 921]);
   (8094, [7982; 921]); (8095, [7983; 921]); (8096, [8040; 921]);
   (8097, [8041; 921]); (8098, [8042; 921]); (8099, [8043; 921]);
   (8100, [8044; 921]); (8101, [8045; 921]); (8102, [8046; 921]);
   (8103, [8047; 921]); (8104, [8040; 921]); (8105, [8041; 921]);
   (8106, [8042; 921]); (8107, [8043; 921]); (8108, [8044; 921]);
   (8109, [8045; 921]); (8110, [8046; 921]); (8111, [8047; 921]);
   (8114, [8122; 921]); (8115, [913; 921]); (8116, [902; 921]);
   (8118, [913; 834]); (8119, [913; 834; 921]); (8124, [913; 921]);
   (8130, [8138; 921]); (8131, [919; 921]); (8132, [905; 921]);
   (8134, [919; 834]); (8135, [919; 834; 921]); (8140, [919; 921]);
   (8146, [921; 776; 768]); (8147, [921; 776; 769]); (8150, [921; 834]);
   (8151, [921; 776; 834]); (8162, [933; 776; 768]); (8163, [933; 776; 769]);
   (8164, [929; 787]); (8166, [933; 834]); (8167, [933; 776; 834]);
   (8178, [8186; 921]); (8179, [937; 921]); (8180, [911; 921]);
   (8182, [937; 834]); (8183, [937; 834; 921]); (8188, [937; 921]);
   (64256, [70; 70]); (64257, [70; 73]); (64258, [70; 76]);
   (64259, [70; 70; 73]); (64260, [70; 70; 76]); (64261, [83; 84]);
   (64262, [83; 84]); (64275, [1348; 1350]); (64276, [1348; 1333]);
   (64277, [1348; 1339]); (64278, [1358; 1350]); (64279, [1348; 1341])]%N.

Definition casedRanges : list (N * N) :=
  [(65, 90); (97, 122); (170, 170); (181, 181); (186, 186); (192, 214);
   (216, 246); (248, 442); (444, 447); (452, 659); (661, 696); (704, 705);
   (736, 740); (837, 837); (880, 883); (886, 887); (890, 893); (895, 895);
   (902, 902); (904, 906); (908, 908); (910, 929); (931, 1013); (1015, 1153);
   (1162, 1327); (1329, 1366); (1376, 1416); (4256, 4293); (4295, 4295);
   (4301, 4301); (4304, 4346); (4349, 4351); (5024, 5109); (5112, 5117);
   (7296, 7304); (7312, 7354); (7357, 7359); (7424, 7615); (7680, 7957);
   (7960, 7965); (7968, 8005); (8008, 8013); (8016, 8023); (8025, 8025);
   (8027, 8027); (8029, 8029); (8031, 8061); (8064, 8116); (8118, 8124);
   (8126, 8126); (8130, 8132); (8134, 8140); (8144, 8147); (8150, 8155);
   (8160, 8172); (8178, 8180); (8182, 8188); (8305, 8305); (8319, 8319);
   (8336, 8348); (8450, 8450); (8455, 8455); (8458, 8467); (8469, 8469);
   (8473, 8477); (8484, 8484); (8486, 8486); (8488, 8488); (8490, 8493);
   (8495, 8500); (8505, 8505); (8508, 8511); (8517, 8521); (8526, 8526);
   (8544, 8575); (8579, 8580); (9398, 9449); (11264, 11492); (11499, 11502);
   (11506, 11507); (11520, 11557); (11559, 11559); (11565, 11565);
   (42560, 42605); (42624, 42653); (42786, 42887); (42891, 42894);
   (42896, 42954); (42960, 42961); (42963, 42963); (42965, 42969);
   (42997, 42998); (43000, 43002); (43824, 43866); (43868, 43880);
   (43888, 43967); (64256, 64262); (64275, 64279); (65313, 65338);
   (65345, 65370); (66560, 66639); (66736, 66771); (66776, 66811);
   (66928, 66938); (66940, 66954); (66956, 66962); (66964, 66965);
   (66967, 66977); (66979, 66993); (66995, 67001); (67003, 67004);
   (67456, 67456); (67459, 67461); (67463, 67504); (67506, 67514);
   (68736, 68786); (68800, 68850); (71840, 71903); (93760, 93823);
   (119808, 119892); (119894, 119964); (119966, 119967); (119970, 119970);
   (119973, 119974); (119977, 119980); (119982, 119993); (119995, 119995);
   (119997, 120003); (120005, 120069); (120071, 120074); (120077, 120084);
   (120086, 120092); (120094, 120121); (120123, 120126); (120128, 120132);
   (120134, 120134); (120138, 120144); (120146, 120485); (120488, 120512);
   (120514, 120538); (120540, 120570); (120572, 120596); (120598, 120628);
   (120630, 120654); (120656, 120686); (120688, 120712); (120714, 120744);
   (120746, 120770); (120772, 120779); (122624, 122633); (122635, 122654);
   (125184, 125251); (127280, 127305); (127312, 127337); (127344, 127369)]%N.

Definition caseIgnorableRanges : list (N * N) :=
  [(39, 39); (46, 46); (58, 58); (94, 94); (96, 96); (168, 168); (173, 173);
   (175, 175); (180, 180); (183, 184); (688, 879); (884, 885); (890, 890);
   (900, 901); (903, 903); (1155, 1161); (1369, 1369); (1375, 1375);
   (1425, 1469); (1471, 1471); (1473, 1474); (1476, 1477); (1479, 1479);
   (1524, 1524); (1536, 1541); (1552, 1562); (1564, 1564); (1600, 1600);
   (1611, 1631); (1648, 1648); (1750, 1757); (1759, 1768); (1770, 1773);
   (1807, 1807); (1809, 1809); (1840, 1866); (1958, 1968); (2027, 2037);
   (2042, 2042); (2045, 2045); (2070, 2093); (2137, 2139); (2184, 2184);
   (2192, 2193); (2200, 2207); (2249, 2306); (2362, 2362); (2364, 2364);
   (2369, 2376); (2381, 2381); (2385, 2391); (2402, 2403); (2417, 2417);
   (2433, 2433); (2492, 2492); (2497, 2500); (2509, 2509); (2530, 2531);
   (2558, 2558); (2561, 2562); (2620, 2620); (2625, 2626); (2631, 2632);
   (2635, 2637); (2641, 2641); (2672, 2673); (2677, 2677); (2689, 2690);
   (2748, 2748); (2753, 2757); (2759, 2760); (2765, 2765); (2786, 2787);
   (2810, 2815); (2817, 2817); (2876, 2876); (2879, 2879); (2881, 2884);
   (2893, 2893); (2901, 2902); (2914, 2915); (2946, 2946); (3008, 3008);
   (3021, 3021); (3072, 3072); (3076, 3076); (3132, 3132); (3134, 3136);
   (3142, 3144); (3146, 3149); (3157, 3158); (3170, 3171); (3201, 3201);
   (3260, 3260); (3263, 3263); (3270, 3270); (3276, 3277); (3298, 3299);
   (3328, 3329); (3387, 3388); (3393, 3396); (3405, 3405); (3426, 3427);
   (3457, 3457); (3530, 3530); (3538, 3540); (3542, 3542); (3633, 3633);
   (3636, 3642); (3654, 3662); (3761, 3761); (3764, 3772); (3782, 3782);
   (3784, 3789); (3864, 3865); (3893, 3893); (3895, 3895); (3897, 3897);
   (3953, 3966); (3968, 3972); (3974, 3975); (3981, 3991); (3993, 4028);
   (4038, 4038); (4141, 4144); (4146, 4151); (4153, 4154); (4157, 4158);
   (4184, 4185); (4190, 4192); (4209, 4212); (4226, 4226); (4229, 4230);
   (4237, 4237); (4253, 4253); (4348, 4348); (4957, 4959); (5906, 5908);
   (5938, 5939); (5970, 5971); (6002, 6003); (6068, 6069); (6071, 6077);
   (6086, 6086); (6089, 6099); (6103, 6103); (6109, 6109); (6155, 6159);
   (6211, 6211); (6277, 6278); (6313, 6313); (6432, 6434); (6439, 6440);
   (6450, 6450); (6457, 6459); (6679, 6680); (6683, 6683); (6742, 6742);
   (6744, 6750); (6752, 6752); (6754, 6754); (6757, 6764); (6771, 6780);
   (6783, 6783); (6823, 6823); (6832, 6862); (6912, 6915); (6964, 6964);
   (6966, 6970); (6972, 6972); (6978, 6978); (7019, 7027); (7040, 7041);
   (7074, 7077); (7080, 7081); (7083, 7085); (7142, 7142); (7144, 7145);
   (7149, 7149); (7151, 7153); (7212, 7219); (7222, 7223); (7288, 7293);
   (7376, 7378); (7380, 7392); (7394, 7400); (7405, 7405); (7412, 7412);
   (7416, 7417); (7468, 7530); (7544, 7544); (7579, 7679); (8125, 8125);
   (8127, 8129); (8141, 8143); (8157, 8159); (8173, 8175); (8189, 8190);
   (8203, 8207); (8216, 8217); (8228, 8228); (8231, 8231); (8234, 8238);
   (8288, 8292); (8294, 8303); (8305, 8305); (8319, 8319); (8336, 8348);
   (8400, 8432); (11388, 11389); (11503, 11505); (11631, 11631);
   (11647, 11647); (11744, 11775); (11823, 11823); (12293, 12293);
   (12330, 12333); (12337, 12341); (12347, 12347); (12441, 12446);
   (12540, 12542); (40981, 40981); (42232, 42237); (42508, 42508);
   (42607, 42610); (42612, 42621); (42623, 42623); (42652, 42655);
   (42736, 42737); (42752, 42785); (42864, 42864); (42888, 42890);
   (42994, 42996); (43000, 43001); (43010, 43010); (43014, 43014);
   (43019, 43019); (43045, 43046); (43052, 43052); (43204, 43205);
   (43232, 43249); (43263, 43263); (43302, 43309); (43335, 43345);
   (43392, 43394); (43443, 43443); (43446, 43449); (43452, 43453);
   (43471, 43471); (43493, 43494); (43561, 43566); (43569, 43570);
   (43573, 43574); (43587, 43587); (43596, 43596); (43632, 43632);
   (43644, 43644); (43696, 43696); (43698, 43700); (43703, 43704);
   (43710, 43711); (43713, 43713); (43741, 43741); (43756, 43757);
   (43763, 43764); (43766, 43766); (43867, 43871); (43881, 43883);
   (44005, 44005); (44008, 44008); (44013, 44013); (64286, 64286);
   (64434, 64450); (65024, 65039); (65043, 65043); (65056, 65071);
   (65106, 65106); (65109, 65109); (65279, 65279); (65287, 65287);
   (65294, 65294); (65306, 65306); (65342, 65342); (65344, 65344);
   (65392, 65392); (65438, 65439); (65507, 65507); (65529, 65531);
   (66045, 66045); (66272, 66272); (66422, 66426); (67456, 67461);
   (67463, 67504); (67506, 67514); (68097, 68099); (68101, 68102);
   (68108, 68111); (68152, 68154); (68159, 68159); (68325, 68326);
   (68900, 68903); (69291, 69292); (69446, 69456); (69506, 69509);
   (69633, 69633); (69688, 69702); (69744, 69744); (69747, 69748);
   (69759, 69761); (69811, 69814); (69817, 69818); (69821, 69821);
   (69826, 69826); (69837, 69837); (69888, 69890); (69927, 69931);
   (69933, 69940); (70003, 70003); (70016, 70017); (70070, 70078);
   (70089, 70092); (70095, 70095); (70191, 70193); (70196, 70196);
   (70198, 70199); (70206, 70206); (70367, 70367); (70371, 70378);
   (70400, 70401); (70459, 70460); (70464, 70464); (70502, 70508);
   (70512, 70516); (70712, 70719); (70722, 70724); (70726, 70726);
   (70750, 70750); (70835, 70840); (70842, 70842); (70847, 70848);
   (70850, 70851); (71090, 71093); (71100, 71101); (71103, 71104);
   (71132, 71133); (71219, 71226); (71229, 71229); (71231, 71232);
   (71339, 71339); (71341, 71341); (71344, 71349); (71351, 71351);
   (71453, 71455); (71458, 71461); (71463, 71467); (71727, 71735);
   (71737, 71738); (71995, 71996); (71998, 71998); (72003, 72003);
   (72148, 72151); (72154, 72155); (72160, 72160); (72193, 72202);
   (72243, 72248); (72251, 72254); (72263, 72263); (72273, 72278);
   (72281, 72283); (72330, 72342); (72344, 72345); (72752, 72758);
   (72760, 72765); (72767, 72767); (72850, 72871); (72874, 72880);
   (72882, 72883); (72885, 72886); (73009, 73014); (73018, 73018);
   (73020, 73021); (73023, 73029); (73031, 73031); (73104, 73105);
   (73109, 73109); (73111, 73111); (73459, 73460); (78896, 78904);
   (92912, 92916); (92976, 92982); (92992, 92995); (94031, 94031);
   (94095, 94111); (94176, 94177); (94179, 94180); (110576, 110579);
   (110581, 110587); (110589, 110590); (113821, 113822); (113824, 113827);
   (118528, 118573); (118576, 118598); (119143, 119145); (119155, 119170);
   (119173, 119179); (119210, 119213); (119362, 119364); (121344, 121398);
   (121403, 121452); (121461, 121461); (121476, 121476); (121499, 121503);
   (121505, 121519); (122880, 122886); (122888, 122904); (122907, 122913);
   (122915, 122916); (122918, 122922); (123184, 123197); (123566, 123566);
   (123628, 123631); (125136, 125142); (125252, 125259); (127995, 127999);
   (917505, 917505); (917536, 917631); (917760, 917999)]%N.

(** The code points of a string and the code units of a code point
    (UTF-16); a surrogate that is not part of a pair stands for itself. *)
Definition isHighSurrogate (c : N) : bool := ((55296 <=? c) && (c <=? 56319))%N.
Definition isLowSurrogate (c : N) : bool := ((56320 <=? c) && (c <=? 57343))%N.

Fixpoint codePoints (s : jsstring) : list N :=
  match s with
  | [] => []
  | [c] => [c]
  | hi :: ((lo :: rest') as rest) =>
      if isHighSurrogate hi && isLowSurrogate lo
      then (65536 + (hi - 55296) * 1024 + (lo - 56320))%N :: codePoints rest'
      else hi :: codePoints rest
  end.

Definition codeUnits (cp : N) : jsstring :=
  if (cp <? 65536)%N then [cp]
  else [(55296 + (cp - 65536) / 1024)%N; (56320 + (cp - 65536) mod 1024)%N].

Fixpoint lookupRange (ranges : list (N * N * N * N)) (cp : N) : option N :=
  match ranges with
  | [] => None
  | (first, last, step, image) :: r =>
      if ((first <=? cp) && (cp <=? last) && ((cp - first) mod step =? 0))%N
      then Some (image + (cp - first))%N
      else lookupRange r cp
  end.

Fixpoint lookupSpecial (table : list (N * list N)) (cp : N) : option (list N) :=
  match table with
  | [] => None
  | (c, image) :: r => if (c =? cp)%N then Some image else lookupSpecial r cp
  end.

Fixpoint inRanges (ranges : list (N * N)) (cp : N) : bool :=
  match ranges with
  | [] => false
  | (first, last) :: r => ((first <=? cp) && (cp <=? last))%N || inRanges r cp
  end.

Definition lowerCodePoint (cp : N) : list N :=
  match lookupSpecial lowerCaseSpecial cp with
  | Some image => image
  | None => match lookupRange lowerCaseRanges cp with
            | Some image => [image]
            | None => [cp]
            end
  end.

Definition upperCodePoint (cp : N) : list N :=
  match lookupSpecial upperCaseSpecial cp with
  | Some image => image
  | None => match lookupRange upperCaseRanges cp with
            | Some image => [image]
            | None => [cp]
            end
  end.

(** The first code point that is not case-ignorable is a cased letter. *)
Fixpoint reachesCased (cps : list N) : bool :=
  match cps with
  | [] => false
  | c :: r => if inRanges caseIgnorableRanges c then reachesCased r
              else inRanges casedRanges c
  end.

(** Final_Sigma: a cased letter comes before, and none comes after,
    case-ignorable code points aside; [before] is read backwards. *)
Definition finalSigma (before after : list N) : bool :=
  reachesCased before && negb (reachesCased after).

Fixpoint lowerCodePoints (before cps : list N) : list N :=
  match cps with
  | [] => []
  | c :: r =>
      (if (c =? 931)%N then [if finalSigma before r then 962%N else 963%N]
       else lowerCodePoint c)
      ++ lowerCodePoints (c :: before) r
  end.

(** [String.prototype.toLowerCase] and [String.prototype.toUpperCase]. *)
Definition toLowerCase (s : jsstring) : jsstring :=
  lowerCodePoints [] (codePoints s) ≫= codeUnits.

Definition toUpperCase (s : jsstring) : jsstring :=
  (codePoints s ≫= upperCodePoint) ≫= codeUnits.

(** Canonicalize of a regular expression with the [i] flag and without the
    [u] flag, as it acts when one of the two code units compared is ASCII
    (every pattern of the program under [i] is): a-z are folded to A-Z, and
    no other code unit is folded onto an ASCII one. *)
Definition upperUnit (c : N) : N :=
  if ((97 <=? c) && (c <=? 122))%N then (c - 32)%N else c.

Definition canonicalize (s : jsstring) : jsstring := upperUnit <$> s.

(** WhiteSpace and LineTerminator code units: what [trim] strips and what
    the regular-expression class [\s] matches. *)
Definition isSpace (c : N) : bool :=
  ((9 <=? c) && (c <=? 13) || (c =? 32) || (c =? 160) || (c =? 5760)
   || ((8192 <=? c) && (c <=? 8202)) || (c =? 8232) || (c =? 8233)
   || (c =? 8239) || (c =? 8287) || (c =? 12288) || (c =? 65279))%N.

Fixpoint trimStart (s : jsstring) : jsstring :=
  match s with
  | c :: r => if isSpace c then trimStart r else s
  | [] => []
  end.

Definition trimEnd (s : jsstring) : jsstring := reverse (trimStart (reverse s)).

Definition trim (s : jsstring) : jsstring := trimEnd (trimStart s).

(** Decimal rendering of an integer, as a template literal renders a number
    (integers below 10^21 in magnitude have no exponent). *)
Fixpoint digitsOf (fuel : nat) (n : N) (acc : jsstring) : jsstring :=
  match fuel with
  | O => acc
  | S f =>
      let acc' := (48 + n mod 10)%N :: acc in
      if (n <? 10)%N then acc' else digitsOf f (n / 10)%N acc'
  end.

Definition numberToString (z : Z) : jsstring :=
  let n := Z.to_N (Z.abs z) in
  let ds := digitsOf (S (N.to_nat (N.log2 n))) n [] in
  if z <? 0 then 45%N :: ds else ds.

(** ** More of the JavaScript string library *)

(** [s.split(sep)] for a one-unit separator. *)
Fixpoint splitOn (sep : N) (s : jsstring) : list jsstring :=
  match s with
  | [] => [[]]
  | c :: r =>
      if (c =? sep)%N then [] :: splitOn sep r
      else match splitOn sep r with
           | p :: ps => (c :: p) :: ps
           | [] => [[c]]
           end
  end.

(** [parts.join(sep)] *)
Fixpoint joinWith (sep : jsstring) (parts : list jsstring) : jsstring :=
  match parts with
  | [] => []
  | [p] => p
  | p :: ps => p ++ sep ++ joinWith sep ps
  end.

(** [parts.pop()]: the last part, [None] for the empty array. *)
Definition pop (parts : list jsstring) : option jsstring := last parts.

Fixpoint startsWith (s prefix : jsstring) : bool :=
  match prefix, s with
  | [], _ => true
  | p :: ps, c :: cs => (c =? p)%N && startsWith cs ps
  | _ :: _, [] => false
  end.

Definition endsWith (s suffix : jsstring) : bool :=
  startsWith (reverse s) (reverse suffix).

Fixpoint includes (s sub : jsstring) : bool :=
  startsWith s sub ||
  match s with
  | [] => false
  | _ :: r => includes r sub
  end.

(** [s.lastIndexOf(sub)], [None] for -1. *)
Fixpoint lastIndexOfFrom (i : nat) (s sub : jsstring) (found : option nat) : option nat :=
  let found' := if startsWith s sub then Some i else found in
  match s with
  | [] => found'
  | _ :: r => lastIndexOfFrom (S i) r sub found'
  end.

Definition lastIndexOf (s sub : jsstring) : option nat := lastIndexOfFrom 0 s sub None.

(** A JavaScript string is falsy exactly when it is empty. *)
Definition truthy (s : jsstring) : bool :=
  match s with [] => false | _ => true end.

Definition isDigit (c : N) : bool := ((48 <=? c) && (c <=? 57))%N.

(** [parseInt(s, 10)] on a string that starts with decimal digits (all the
    parser ever passes are digit groups captured by a regular expression);
    [None] is NaN. *)
Fixpoint parseDigits (s : jsstring) (acc : Z) : Z :=
  match s with
  | c :: r => if isDigit c then parseDigits r (acc * 10 + (Z.of_N c - 48)) else acc
  | [] => acc
  end.

Definition parseInt (s : jsstring) : option Z :=
  match s with
  | c :: _ => if isDigit c then Some (parseDigits s 0) else None
  | [] => None
  end.

(** ** Regular expressions

    The fragment of the ECMAScript pattern language the sources use, with
    its backtracking semantics: alternatives are tried left to right, a
    greedy quantifier tries the longest repetition first, a lazy one the
    shortest.  Quantifiers other than [?] are only ever applied to a
    character class.  Where a comment quotes a source pattern, a space is
    put between a star and a closing parenthesis that follows it. *)

Inductive regex :=
| REmpty
| RClass (p : N → bool)
| RSeq (r1 r2 : regex)
| RAlt (r1 r2 : regex)
| RRepeat (p : N → bool) (min : nat) (max : option nat) (greedy : bool)
| ROpt (r : regex)
| RGroup (i : nat) (r : regex)
| RBol
| REol
| REolMultiline.

(** Capture groups that took part in the match, most recent first. *)
Abbreviation captures := (list (nat * jsstring)).

Fixpoint capture (i : nat) (cs : captures) : option jsstring :=
  match cs with
  | [] => None
  | (j, s) :: r => if (i =? j)%nat then Some s else capture i r
  end.

Definition isLineTerminator (c : N) : bool :=
  ((c =? 10) || (c =? 13) || (c =? 8232) || (c =? 8233))%N.

Section Matcher.
Context {R : Type}.
(** Length of the whole subject string: [^] holds where that much input
    is still ahead. *)
Variable subjectLength : nat.

Fixpoint matchRepeat (greedy : bool) (p : N → bool) (min : nat)
    (max : option nat) (inp : jsstring) (k : jsstring → option R)
    {struct inp} : option R :=
  let stop := match min with O => k inp | S _ => None end in
  let more :=
    match max, inp with
    | Some O, _ => None
    | _, c :: rest =>
        if p c
        then matchRepeat greedy p (Nat.pred min) (Nat.pred <$> max) rest k
        else None
    | _, [] => None
    end in
  if greedy
  then match more with Some x => Some x | None => stop end
  else match stop with Some x => Some x | None => more end.

Fixpoint matchRegex (r : regex) (inp : jsstring) (cs : captures)
    (k : jsstring → captures → option R) {struct r} : option R :=
  match r with
  | REmpty => k inp cs
  | RClass p =>
      match inp with
      | c :: rest => if p c then k rest cs else None
      | [] => None
      end
  | RSeq r1 r2 =>
      matchRegex r1 inp cs (λ rest cs', matchRegex r2 rest cs' k)
  | RAlt r1 r2 =>
      match matchRegex r1 inp cs k with
      | Some x => Some x
      | None => matchRegex r2 inp cs k
      end
  | RRepeat p min max greedy =>
      matchRepeat greedy p min max inp (λ rest, k rest cs)
  | ROpt r1 =>
      match matchRegex r1 inp cs k with
      | Some x => Some x
      | None => k inp cs
      end
  | RGroup i r1 =>
      matchRegex r1 inp cs
        (λ rest cs', k rest ((i, take (length inp - length rest) inp) :: cs'))
  | RBol => if (length inp =? subjectLength)%nat then k inp cs else None
  | REol => match inp with [] => k inp cs | _ :: _ => None end
  | REolMultiline =>
      match inp with
      | [] => k inp cs
      | c :: _ => if isLineTerminator c then k inp cs else None
      end
  end.
End Matcher.

Record MatchResult := {
  matchIndex : nat;          (* where the match starts *)
  matchText : jsstring;      (* the matched substring, group 0 *)
  matchCaptures : captures;
  matchRest : jsstring       (* the subject after the match *)
}.

(** Try the pattern at the start of [inp], then one unit further, ... *)
Fixpoint execFrom (r : regex) (subjectLength index : nat) (inp : jsstring)
  : option MatchResult :=
  match matchRegex subjectLength r inp [] (λ rest cs, Some (rest, cs)) with
  | Some (rest, cs) =>
      Some {| matchIndex := index;
              matchText := take (length inp - length rest) inp;
              matchCaptures := cs; matchRest := rest |}
  | None =>
      match inp with
      | [] => None
      | _ :: inp' => execFrom r subjectLength (S index) inp'
      end
  end.

(** [s.match(re)] / [re.exec(s)] for a pattern without the [g] flag. *)
Definition exec (r : regex) (s : jsstring) : option MatchResult :=
  execFrom r (length s) 0 s.

(** [re.test(s)] *)
Definition test (r : regex) (s : jsstring) : bool :=
  match exec r s with Some _ => true | None => false end.

(** [m[i]] of a match; [None] is [undefined]. *)
Definition group (i : nat) (m : MatchResult) : option jsstring :=
  capture i (matchCaptures m).

(** [m[i]] where group [i] always takes part in a match. *)
Definition groupOr (i : nat) (m : MatchResult) : jsstring :=
  default [] (group i m).

(** [s.replace(re, '')] for a pattern without the [g] flag: the first match
    is removed. *)
Definition removeFirst (r : regex) (s : jsstring) : jsstring :=
  match exec r s with
  | Some m => take (matchIndex m) s ++ matchRest m
  | None => s
  end.

(** *** Pattern building blocks *)

Definition rseq (rs : list regex) : regex := foldr RSeq REmpty rs.

(** A literal, and a literal under the [i] flag.  Under [i] two units match
    when their upper-case forms agree; a unit outside ASCII never matches
    an ASCII one. *)
Definition lit (s : string) : regex :=
  rseq ((λ c, RClass (N.eqb c)) <$> js s).

Definition liti (s : string) : regex :=
  rseq ((λ c, RClass (λ x, (upperUnit x =? upperUnit c)%N)) <$> js s).

(** The class of one ASCII character. *)
Definition chr (s : string) : regex :=
  RClass (λ x, bool_decide (x ∈ js s)).

Definition isWord (c : N) : bool :=
  (isDigit c || ((65 <=? c) && (c <=? 90)) || ((97 <=? c) && (c <=? 122)) || (c =? 95))%N.

Definition isDot (c : N) : bool := negb (isLineTerminator c).

Definition digits (min max : nat) : regex := RRepeat isDigit min (Some max) true.  (* \d{min,max} *)
Definition digits1 : regex := RRepeat isDigit 1 None true.                          (* \d+ *)
Definition spaces0 : regex := RRepeat isSpace 0 None true.   (* \s* *)
Definition spaces1 : regex := RRepeat isSpace 1 None true.   (* \s+ *)

(** ** Data model (types/index.ts) *)

Inductive MessageType :=
  TText | TImage | TVideo | TAudio | TDocument | TSticker | TCall | TSystem.

Inductive CallKind := Voice | Video.

Record Reaction := {
  emoji : jsstring;
  reactionSender : jsstring;
  reactionTimestamp : Z
}.

Record QuotedMessage := {
  quotedSender : jsstring;
  quotedContent : jsstring;
  quotedMediaType : option MessageType
}.

Record Message := {
  id : jsstring;
  timestamp : Z;
  sender : jsstring;
  type : MessageType;
  content : jsstring;
  mediaUrl : option jsstring;
  mediaFileName : option jsstring;
  mediaMimeType : option jsstring;
  mediaSize : option Z;
  driveFileId : option jsstring;
  thumbnailUrl : option jsstring;
  isOutgoing : bool;
  reactions : option (list Reaction);
  quotedMessage : option QuotedMessage;
  isDeleted : option bool;
  isEdited : option bool;
  callDuration : option jsstring;
  callKind : option CallKind;
  callMissed : option bool
}.

Global Instance MessageType_eq_dec : EqDecision MessageType.
Proof. solve_decision. Defined.

(** ** Local user identity (config/userIdentity.ts) *)

Definition USER_displayName : jsstring := js "Rajiv".
Definition USER_phoneNumbers : list jsstring := [js "+919886031088"; js "9886031088"].

(** [input.replace(/\D/g, '')], then the last ten digits when there are more. *)
Definition normalizePhone (input : jsstring) : jsstring :=
  let digits := filter (λ c, isDigit c = true) input in
  if (10 <? length digits)%nat then drop (length digits - 10) digits else digits.

Definition isMeSender (sender : jsstring) : bool :=
  let s := trim sender in
  if negb (truthy s) then false
  else if bool_decide (toLowerCase s = toLowerCase USER_displayName) then true
  else
    let senderPhone := normalizePhone s in
    if negb (truthy senderPhone) then false
    else existsb (λ p, bool_decide (normalizePhone p = senderPhone)) USER_phoneNumbers.

(** ** Chat parser (utils/chatParser.ts) *)

Inductive DateOrder := DMY | MDY.

Record MessageMatch := {
  matchTimestamp : Z;
  matchSender : jsstring;
  matchContent : jsstring;
  matchLine : jsstring;
  isSystemLine : bool
}.

Record MediaFile := {
  fileName : jsstring;
  url : jsstring;
  mimeType : jsstring;
  fileSize : option Z;
  fileDriveFileId : option jsstring;
  thumbnailLink : option jsstring
}.

(** Outcome of a computation that may throw; the payload of [Throw] is the
    [message] of the thrown [Error]. *)
Inductive Completion (A : Type) :=
| Normal (a : A)
| Throw (message : jsstring).
Arguments Normal {A} a.
Arguments Throw {A} message.

Definition bindC {A B} (c : Completion A) (f : A → Completion B) : Completion B :=
  match c with
  | Normal a => f a
  | Throw e => Throw e
  end.

(** *** normalizeWaText *)

(** U+200E, U+200F, U+FEFF, U+202A-U+202E, U+2060, U+200B, U+00A0 *)
Definition isInvisibleMark (c : N) : bool :=
  ((c =? 8206) || (c =? 8207) || (c =? 65279) || ((8234 <=? c) && (c <=? 8238))
   || (c =? 8288) || (c =? 8203) || (c =? 160))%N.

(** [s.replace(/\s+/g, ' ')]: every maximal run of white space becomes one
    space. *)
Fixpoint collapseSpaces (inRun : bool) (s : jsstring) : jsstring :=
  match s with
  | [] => []
  | c :: r =>
      if isSpace c
      then if inRun then collapseSpaces true r else 32%N :: collapseSpaces true r
      else c :: collapseSpaces false r
  end.

Definition normalizeWaText (s : jsstring) : jsstring :=
  trim (collapseSpaces false (filter (λ c, isInvisibleMark c = false) s)).

(** *** Timestamps *)

(** Day number of a civil date (proleptic Gregorian calendar); [month]
    counts from 0 and may overflow into the neighbouring years, [day] may
    overflow into the neighbouring months, as in [MakeDay]. *)
Definition makeDay (year month day : Z) : Z :=
  let ym := year + month / 12 in
  let mn := month mod 12 + 1 in
  let y := if mn <=? 2 then ym - 1 else ym in
  let era := y / 400 in
  let yoe := y - era * 400 in
  let mp := if 2 <? mn then mn - 3 else mn + 9 in
  let doy := (153 * mp + 2) / 5 in
  let doe := yoe * 365 + yoe / 4 - yoe / 100 + doy in
  era * 146097 + doe - 719468 + (day - 1).

(** [new Date(year, month, day, hours, minutes, seconds).getTime()], the
    local time zone taken to be UTC. *)
Definition newDate (year month day hours minutes seconds : Z) : Z :=
  let year' := if (0 <=? year) && (year <=? 99) then 1900 + year else year in
  makeDay year' month day * 86400000
  + hours * 3600000 + minutes * 60000 + seconds * 1000.

Definition isDash (c : N) : bool := ((c =? 45) || (c =? 8211))%N.   (* [-–] *)
Definition notColon (c : N) : bool := negb (c =? 58)%N.             (* [^:] *)

(** [\d{1,2}\/\d{1,2}\/\d{2,4}] *)
Definition datePattern : regex :=
  rseq [digits 1 2; chr "/"; digits 1 2; chr "/"; digits 2 4].

(** [(?:AM|PM|am|pm)] *)
Definition meridiemPattern : regex :=
  RAlt (lit "AM") (RAlt (lit "PM") (RAlt (lit "am") (lit "pm"))).

(** [\d{1,2}:\d{2}(?::\d{2})?\s*(?:AM|PM|am|pm)?] *)
Definition timePattern : regex :=
  rseq [digits 1 2; chr ":"; digits 2 2;
        ROpt (rseq [chr ":"; digits 2 2]); spaces0; ROpt meridiemPattern].

(** Source: /(\d{1,2}):(\d{2})(?::(\d{2}))?\s*(AM|PM|am|pm)?/ *)
Definition timeRegex : regex :=
  rseq [RGroup 1 (digits 1 2); chr ":"; RGroup 2 (digits 2 2);
        ROpt (rseq [chr ":"; RGroup 3 (digits 2 2)]); spaces0;
        ROpt (RGroup 4 (RAlt (lit "AM") (RAlt (lit "PM") (RAlt (lit "am") (lit "pm")))))].

(** [parseTimestamp]; [None] is [null].  The date and time parts are digit
    groups captured by the line patterns, so no field is NaN; the function
    answers [None] on a NaN field only to be total. *)
Definition parseTimestamp (datePart timePart : jsstring)
    (dateOrderHint : option DateOrder) : option Z :=
  match splitOn 47 datePart with
  | [p1; p2; p3] =>
      match parseInt p1, parseInt p2, parseInt p3 with
      | Some part1, Some part2, Some part3 =>
          let '(day, month, year) :=
            match dateOrderHint with
            | Some DMY => (part1, part2, part3)
            | Some MDY => (part2, part1, part3)
            | None =>
                if 12 <? part1 then (part1, part2, part3)
                else if 12 <? part2 then (part2, part1, part3)
                else (part1, part2, part3)
            end in
          let year := if year <? 100 then year + 2000 else year in
          match exec timeRegex timePart with
          | None => None
          | Some timeMatch =>
              match parseInt (groupOr 1 timeMatch), parseInt (groupOr 2 timeMatch) with
              | Some hours, Some minutes =>
                  let seconds :=
                    match group 3 timeMatch with
                    | Some (c :: s3) => default 0 (parseInt (c :: s3))
                    | _ => 0
                    end in
                  let meridiem := toUpperCase <$> group 4 timeMatch in
                  let hours :=
                    if bool_decide (meridiem = Some (js "PM")) && (hours <? 12)
                    then hours + 12
                    else if bool_decide (meridiem = Some (js "AM")) && (hours =? 12)
                    then 0 else hours in
                  Some (newDate year (month - 1) day hours minutes seconds)
              | _, _ => None
              end
          end
      | _, _, _ => None
      end
  | _ => None
  end.

(** *** Line classifier *)

(** Source: /^(\d{1,2}\/\d{1,2}\/\d{2,4}),?\s+(\d{1,2}:\d{2}(?::\d{2})?\s*(?:AM|PM|am|pm)?)\s*[-–]\s*([^:]+?):\s*(.* )$/ *)
Definition androidRegex : regex :=
  rseq [RBol; RGroup 1 datePattern; ROpt (chr ","); spaces1;
        RGroup 2 timePattern; spaces0; RClass isDash; spaces0;
        RGroup 3 (RRepeat notColon 1 None false); chr ":"; spaces0;
        RGroup 4 (RRepeat isDot 0 None true); REol].

(** Source: /^\[(\d{1,2}\/\d{1,2}\/\d{2,4}),?\s+(\d{1,2}:\d{2}(?::\d{2})?\s*(?:AM|PM|am|pm)?)\]\s*([^:]+?):\s*(.* )$/ *)
Definition iosRegex : regex :=
  rseq [RBol; chr "["; RGroup 1 datePattern; ROpt (chr ","); spaces1;
        RGroup 2 timePattern; chr "]"; spaces0;
        RGroup 3 (RRepeat notColon 1 None false); chr ":"; spaces0;
        RGroup 4 (RRepeat isDot 0 None true); REol].

(** Source: /^(\d{1,2}\/\d{1,2}\/\d{2,4}),?\s+(\d{1,2}:\d{2}(?::\d{2})?)\s*[-–]\s*([^:]+?):\s*(.* )$/ *)
Definition europeanRegex : regex :=
  rseq [RBol; RGroup 1 datePattern; ROpt (chr ","); spaces1;
        RGroup 2 (rseq [digits 1 2; chr ":"; digits 2 2;
                        ROpt (rseq [chr ":"; digits 2 2])]);
        spaces0; RClass isDash; spaces0;
        RGroup 3 (RRepeat notColon 1 None false); chr ":"; spaces0;
        RGroup 4 (RRepeat isDot 0 None true); REol].

(** [a || b] on match results. *)
Definition orElse {A} (a b : option A) : option A :=
  match a with Some _ => a | None => b end.

Definition matchMessageLine (line : jsstring) (dateOrder : DateOrder)
  : option MessageMatch :=
  match orElse (exec androidRegex line)
          (orElse (exec iosRegex line) (exec europeanRegex line)) with
  | Some m =>
      let datePart := groupOr 1 m in
      let timePart := groupOr 2 m in
      let sender := groupOr 3 m in
      let content := groupOr 4 m in
      match parseTimestamp datePart timePart (Some dateOrder) with
      | Some timestamp =>
          Some {| matchTimestamp := timestamp;
                  matchSender := normalizeWaText sender;
                  matchContent := normalizeWaText content;
                  matchLine := line;
                  isSystemLine := false |}
      | None => None
      end
  | None => None
  end.

(** Source: /^(\d{1,2}\/\d{1,2}\/\d{2,4}),?\s+(\d{1,2}:\d{2}(?::\d{2})?\s*(?:AM|PM|am|pm)?)\s*[-–]\s*(.* )$/ *)
Definition androidSystem : regex :=
  rseq [RBol; RGroup 1 datePattern; ROpt (chr ","); spaces1;
        RGroup 2 timePattern; spaces0; RClass isDash; spaces0;
        RGroup 3 (RRepeat isDot 0 None true); REol].

(** Source: /^\[(\d{1,2}\/\d{1,2}\/\d{2,4}),?\s+(\d{1,2}:\d{2}(?::\d{2})?\s*(?:AM|PM|am|pm)?)\]\s*(.* )$/ *)
Definition iosSystem : regex :=
  rseq [RBol; chr "["; RGroup 1 datePattern; ROpt (chr ","); spaces1;
        RGroup 2 timePattern; chr "]"; spaces0;
        RGroup 3 (RRepeat isDot 0 None true); REol].

(** Source: /^[^:]+?:\s/ *)
Definition looksLikeSender : regex :=
  rseq [RBol; RRepeat notColon 1 None false; chr ":"; RClass isSpace].

Definition matchSystemLine (line : jsstring) (dateOrder : DateOrder)
  : option MessageMatch :=
  match orElse (exec androidSystem line) (exec iosSystem line) with
  | None => None
  | Some m =>
      let datePart := groupOr 1 m in
      let timePart := groupOr 2 m in
      let rest := groupOr 3 m in
      if test looksLikeSender rest then None
      else
        match parseTimestamp datePart timePart (Some dateOrder) with
        | None => None
        | Some timestamp =>
            let cleaned := normalizeWaText rest in
            if negb (truthy cleaned) then None
            else Some {| matchTimestamp := timestamp;
                         matchSender := js "System";
                         matchContent := cleaned;
                         matchLine := line;
                         isSystemLine := true |}
        end
  end.

(** *** inferDateOrder *)

(** Source: /^\[?(\d{1,2})\/(\d{1,2})\/(\d{2,4})/ *)
Definition leadingDateRegex : regex :=
  rseq [RBol; ROpt (chr "["); RGroup 1 (digits 1 2); chr "/";
        RGroup 2 (digits 1 2); chr "/"; RGroup 3 (digits 2 4)].

(** [x > 12] for the result of [parseInt]; false on NaN. *)
Definition exceeds12 (x : option Z) : bool :=
  match x with Some v => 12 <? v | None => false end.

(** The loop body: the state is [dmyEvidence] and [mdyEvidence]. *)
Definition evidenceStep (st : Z * Z) (line : jsstring) : Z * Z :=
  match exec leadingDateRegex line with
  | None => st
  | Some m =>
      let a := parseInt (groupOr 1 m) in
      let b := parseInt (groupOr 2 m) in
      let dmyEvidence := if exceeds12 a then st.1 + 1 else st.1 in
      let mdyEvidence := if exceeds12 b then st.2 + 1 else st.2 in
      (dmyEvidence, mdyEvidence)
  end.

Definition inferDateOrder (lines : list jsstring) : DateOrder :=
  let maxScan := Nat.min (length lines) 800 in
  let '(dmyEvidence, mdyEvidence) := foldl evidenceStep (0, 0) (take maxScan lines) in
  if (0 <? dmyEvidence) && (mdyEvidence =? 0) then DMY
  else if (0 <? mdyEvidence) && (dmyEvidence =? 0) then MDY
  else if dmyEvidence <? mdyEvidence then MDY
  else DMY.

(** *** Message assembly *)

(** The result of [detectMessageType]. *)
Record DetectedType := {
  detectedType : MessageType;
  detectedMediaUrl : option jsstring;
  detectedMediaFileName : option jsstring;
  detectedMediaMimeType : option jsstring;
  detectedMediaSize : option Z;
  detectedDriveFileId : option jsstring;
  detectedThumbnailUrl : option jsstring;
  finalContent : jsstring
}.

Definition textOnly (finalContent : jsstring) : DetectedType :=
  {| detectedType := TText; detectedMediaUrl := None;
     detectedMediaFileName := None; detectedMediaMimeType := None;
     detectedMediaSize := None; detectedDriveFileId := None;
     detectedThumbnailUrl := None; finalContent := finalContent |}.

(** The attachment index as it is at run time.  The declared type is
    [MediaFile[]], but types are erased: an element that is [undefined]
    (the [None] here) makes the first property access on it throw a
    TypeError.  With a string file name and string content this is the
    only way the parser can throw; for arguments that are not strings see
    [parseChatFileAny]. *)
Abbreviation MediaIndex := (list (option MediaFile)).

(** The [message] of the TypeError (the text of V8). *)
Definition typeErrorMessage : jsstring :=
  js "Cannot read properties of undefined (reading 'fileName')".

(** [mediaFiles.find(file => pred(file))] *)
Fixpoint findFile (pred : MediaFile → bool) (mediaFiles : MediaIndex)
  : Completion (option MediaFile) :=
  match mediaFiles with
  | [] => Normal None
  | None :: _ => Throw typeErrorMessage
  | Some file :: rest => if pred file then Normal (Some file) else findFile pred rest
  end.

(** /^(\d+)/ and /(\d{4}-\d{2}-\d{2}(?:-\d{2}-\d{2}-\d{2})?)/ *)
Definition numericIdRegex : regex := rseq [RBol; RGroup 1 digits1].
Definition datePortionRegex : regex :=
  RGroup 1 (rseq [digits 4 4; chr "-"; digits 2 2; chr "-"; digits 2 2;
                  ROpt (rseq [chr "-"; digits 2 2; chr "-"; digits 2 2;
                              chr "-"; digits 2 2])]).

(** [x || y] on strings. *)
Definition orString (x y : jsstring) : jsstring := if truthy x then x else y.

(** [name.split('/').pop() || fallback] *)
Definition baseName (name fallback : jsstring) : jsstring :=
  orString (default [] (pop (splitOn 47 name))) fallback.

(** The five matching strategies, in the order they are tried. *)
Definition exactPathMatch (normalizedName : jsstring) (file : MediaFile) : bool :=
  let fileNameLower := toLowerCase (fileName file) in
  bool_decide (fileNameLower = normalizedName)
  || endsWith fileNameLower (js "/" ++ normalizedName).

Definition baseNameMatch (baseFileName : jsstring) (file : MediaFile) : bool :=
  let fileBase := baseName (toLowerCase (fileName file)) [] in
  bool_decide (fileBase = baseFileName).

Definition substringMatch (baseFileName : jsstring) (file : MediaFile) : bool :=
  let fileNameLower := toLowerCase (fileName file) in
  includes fileNameLower baseFileName.

Definition numericIdMatch (numericId : jsstring) (file : MediaFile) : bool :=
  let fileBase := baseName (toLowerCase (fileName file)) [] in
  includes fileBase numericId.

Definition datePortionMatch (datePortion : jsstring) (file : MediaFile) : bool :=
  let fileBase := baseName (toLowerCase (fileName file)) [] in
  includes fileBase datePortion.

Definition normalizedNameOf (fileName0 : jsstring) : jsstring :=
  trim (toLowerCase fileName0).
Definition baseFileNameOf (fileName0 : jsstring) : jsstring :=
  baseName (normalizedNameOf fileName0) (normalizedNameOf fileName0).
Definition numericIdOf (fileName0 : jsstring) : jsstring :=
  orString (default [] (exec numericIdRegex (baseFileNameOf fileName0) ≫= group 1)) [].
Definition datePortionOf (fileName0 : jsstring) : jsstring :=
  orString (default [] (exec datePortionRegex (baseFileNameOf fileName0) ≫= group 1)) [].

(** [if (match) return match], then the rest of the function. *)
Definition orTry (found : Completion (option MediaFile))
    (next : Completion (option MediaFile)) : Completion (option MediaFile) :=
  bindC found (λ r, match r with Some file => Normal (Some file) | None => next end).

Definition findMediaFile (fileName0 : jsstring) (mediaFiles : MediaIndex)
  : Completion (option MediaFile) :=
  let normalizedName := normalizedNameOf fileName0 in
  let baseFileName := baseFileNameOf fileName0 in
  let numericId := numericIdOf fileName0 in
  let datePortion := datePortionOf fileName0 in
  orTry (findFile (exactPathMatch normalizedName) mediaFiles)
 (orTry (findFile (baseNameMatch baseFileName) mediaFiles)
 (orTry (findFile (substringMatch baseFileName) mediaFiles)
 (orTry (if truthy numericId && (5 <=? length numericId)%nat
         then findFile (numericIdMatch numericId) mediaFiles
         else Normal None)
        (if truthy datePortion
         then findFile (datePortionMatch datePortion) mediaFiles
         else Normal None)))).

Definition getMessageTypeFromMime (mimeType : jsstring) : MessageType :=
  if startsWith mimeType (js "image/") then TImage
  else if startsWith mimeType (js "video/") then TVideo
  else if startsWith mimeType (js "audio/") then TAudio
  else if bool_decide (mimeType = js "image/webp") then TSticker
  else TDocument.

(** /^image omitted$/i and its five siblings. *)
Definition omittedPatterns : list regex :=
  (λ s, rseq [RBol; liti s; REol]) <$>
  ["image omitted"; "video omitted"; "audio omitted"; "sticker omitted";
   "document omitted"; "GIF omitted"]%string.

Definition OMITTED_MEDIA : jsstring := js "__OMITTED_MEDIA__".

(** The device file-name conventions, /^(IMG-\d+-WA\d+\.\w+)$/i. *)
Definition deviceFilePattern (prefix : string) (extension : regex) : regex :=
  rseq [RBol;
        RGroup 1 (rseq [liti prefix; liti "-"; digits1; liti "-WA"; digits1;
                        chr "."; extension]);
        REol].

Definition words1 : regex := RRepeat isWord 1 None true.   (* \w+ *)

Definition mediaPatterns : list regex :=
  [ (* /<attached:\s*(.+?)>/i *)
    rseq [liti "<attached:"; spaces0; RGroup 1 (RRepeat isDot 1 None false); chr ">"];
    (* /(.+?)\s*\(file attached\)/i *)
    rseq [RGroup 1 (RRepeat isDot 1 None false); spaces0; liti "(file attached)"];
    deviceFilePattern "IMG" words1;
    deviceFilePattern "VID" words1;
    deviceFilePattern "AUD" words1;
    deviceFilePattern "PTT" words1;
    deviceFilePattern "STK" (liti "webp");
    deviceFilePattern "DOC" words1 ].

(** The first pattern of the list that matches, with its match. *)
Fixpoint firstMatch (patterns : list regex) (c : jsstring)
  : option (regex * MatchResult) :=
  match patterns with
  | [] => None
  | pattern :: rest =>
      match exec pattern c with
      | Some m => Some (pattern, m)
      | None => firstMatch rest c
      end
  end.

Definition mediaNotFound (fileName0 : jsstring) : jsstring :=
  js "[Media not found: " ++ fileName0 ++ js "]".

Definition detectMessageType (content0 : jsstring) (mediaFiles : MediaIndex)
  : Completion DetectedType :=
  let c := normalizeWaText content0 in
  if existsb (λ p, test p c) omittedPatterns then Normal (textOnly OMITTED_MEDIA)
  else
    match firstMatch mediaPatterns c with
    | Some (pattern, m) =>
        let fileName0 := groupOr 1 m in
        bindC (findMediaFile fileName0 mediaFiles) (λ found,
          match found with
          | Some mediaFile =>
              let caption := trim (removeFirst pattern c) in
              Normal {| detectedType := getMessageTypeFromMime (mimeType mediaFile);
                        detectedMediaUrl := Some (url mediaFile);
                        detectedMediaFileName := Some (fileName mediaFile);
                        detectedMediaMimeType := Some (mimeType mediaFile);
                        detectedMediaSize := fileSize mediaFile;
                        detectedDriveFileId := fileDriveFileId mediaFile;
                        detectedThumbnailUrl := thumbnailLink mediaFile;
                        finalContent := caption |}
          | None =>
              let caption := trim (removeFirst pattern c) in
              Normal (textOnly (orString caption (mediaNotFound fileName0)))
          end)
    | None => Normal (textOnly c)
    end.

Definition editedMarker : jsstring := js "<This message was edited>".

(** The cleaned text and [isEdited]. *)
Definition stripEditedMarker (text : jsstring) : jsstring * bool :=
  match lastIndexOf text editedMarker with
  | None => (text, false)
  | Some idx =>
      (trim (take idx text ++ drop (idx + length editedMarker) text), true)
  end.

(** /^(.+?):\s(.+)$/ *)
Definition quoteRegex : regex :=
  rseq [RBol; RGroup 1 (RRepeat isDot 1 None false); chr ":"; RClass isSpace;
        RGroup 2 (RRepeat isDot 1 None true); REol].

(** The cleaned text and the quoted message, when one is detected. *)
Definition extractQuotedMessage (text : jsstring)
  : jsstring * option QuotedMessage :=
  match splitOn 10 text with
  | part0 :: part1 :: parts =>
      let first := trim part0 in
      let rest := trim (joinWith [10%N] (part1 :: parts)) in
      match exec quoteRegex first with
      | None => (text, None)
      | Some m =>
          let quotedSender0 := trim (groupOr 1 m) in
          let quotedContent0 := trim (groupOr 2 m) in
          if negb (truthy quotedSender0) || negb (truthy quotedContent0)
             || negb (truthy rest)
          then (text, None)
          else (rest, Some {| quotedSender := quotedSender0;
                              quotedContent := quotedContent0;
                              quotedMediaType := None |})
      end
  | _ => (text, None)
  end.

Record CallLog := {
  isCall : bool;
  logDuration : option jsstring;
  logKind : option CallKind;
  logMissed : option bool
}.

(** /^voice call(?:,)?\s*(.* )$/i *)
Definition callRegex (phrase : string) : regex :=
  rseq [RBol; liti phrase; ROpt (chr ","); spaces0;
        RGroup 1 (RRepeat isDot 0 None true); REol].

(** [dur || undefined] *)
Definition nonEmpty (s : jsstring) : option jsstring :=
  if truthy s then Some s else None.

Definition detectCallLog (text : jsstring) : CallLog :=
  let t := trim text in
  if test (rseq [RBol; liti "missed voice call"]) t
  then {| isCall := true; logDuration := None; logKind := Some Voice; logMissed := Some true |}
  else if test (rseq [RBol; liti "missed video call"]) t
  then {| isCall := true; logDuration := None; logKind := Some Video; logMissed := Some true |}
  else
    match exec (callRegex "voice call") t with
    | Some voiceCall =>
        {| isCall := true; logDuration := nonEmpty (trim (groupOr 1 voiceCall));
           logKind := Some Voice; logMissed := None |}
    | None =>
        match exec (callRegex "video call") t with
        | Some videoCall =>
            {| isCall := true; logDuration := nonEmpty (trim (groupOr 1 videoCall));
               logKind := Some Video; logMissed := None |}
        | None =>
            {| isCall := false; logDuration := None; logKind := None; logMissed := None |}
        end
    end.

(** [s.replace(/[^a-z0-9]/g, '_')] *)
Definition isLowerAlnum (c : N) : bool := (isDigit c || ((97 <=? c) && (c <=? 122)))%N.
Definition underscoreOthers (s : jsstring) : jsstring :=
  (λ c, if isLowerAlnum c then c else 95%N) <$> s.

Definition generateMessageId (timestamp0 : Z) (sender0 : jsstring) (seq : nat) : jsstring :=
  js "msg_" ++ numberToString timestamp0 ++ js "_"
  ++ numberToString (Z.of_nat seq) ++ js "_"
  ++ toLowerCase (underscoreOthers sender0).

Definition createMessage (m : MessageMatch) (mediaFiles : MediaIndex) (seq : nat)
  : Completion Message :=
  bindC (detectMessageType (matchContent m) mediaFiles) (λ d,
    let '(editedCleaned, isEdited0) := stripEditedMarker (finalContent d) in
    let '(replyCleaned, quotedMessage0) := extractQuotedMessage editedCleaned in
    let call := detectCallLog replyCleaned in
    let isSystem := isSystemLine m in
    let isOutgoing0 := negb isSystem && isMeSender (matchSender m) in
    Normal {|
      id := generateMessageId (matchTimestamp m) (matchSender m) seq;
      timestamp := matchTimestamp m;
      sender := matchSender m;
      type := if isSystem then TSystem
              else if isCall call then TCall else detectedType d;
      content := replyCleaned;
      mediaUrl := detectedMediaUrl d;
      mediaFileName := detectedMediaFileName d;
      mediaMimeType := detectedMediaMimeType d;
      mediaSize := detectedMediaSize d;
      driveFileId := detectedDriveFileId d;
      thumbnailUrl := detectedThumbnailUrl d;
      isOutgoing := isOutgoing0;
      reactions := None;
      quotedMessage := quotedMessage0;
      isDeleted := None;
      isEdited := if isEdited0 then Some true else None;
      callDuration := logDuration call;
      callKind := logKind call;
      callMissed := logMissed call
    |}).

(** *** parseMessages *)

(** Source: /^\s*\[?\d{1,2}\/\d{1,2}\/\d{2,4},?\s+\d{1,2}:\d{2}(:\d{2})?\s*(am|pm|AM|PM)?\s*\]/ *)
Definition startsWithTimestampRegex : regex :=
  rseq [RBol; spaces0; ROpt (chr "["); datePattern; ROpt (chr ","); spaces1;
        digits 1 2; chr ":"; digits 2 2;
        ROpt (RGroup 1 (rseq [chr ":"; digits 2 2])); spaces0;
        ROpt (RGroup 2 (RAlt (lit "am") (RAlt (lit "pm") (RAlt (lit "AM") (lit "PM")))));
        spaces0; chr "]"].

(** The mutable locals of the loop over the lines, with the shared
    [errors] array. *)
Record ParserState := {
  messagesSoFar : list Message;
  currentMessage : option MessageMatch;
  errorsSoFar : list jsstring
}.

Definition appendLine (m : MessageMatch) (line : jsstring) : MessageMatch :=
  {| matchTimestamp := matchTimestamp m; matchSender := matchSender m;
     matchContent := matchContent m ++ [10%N] ++ line;
     matchLine := matchLine m; isSystemLine := isSystemLine m |}.

(** [messages.push(createMessage(currentMessage, mediaFiles, messages.length))] *)
Definition pushCurrent (messages : list Message) (current : MessageMatch)
    (mediaFiles : MediaIndex) : Completion (list Message) :=
  bindC (createMessage current mediaFiles (length messages))
        (λ msg, Normal (messages ++ [msg])).

(** One iteration of the loop, for the line of index [i]. *)
Definition parseLine (dateOrder : DateOrder) (mediaFiles : MediaIndex)
    (i : nat) (rawLine : jsstring) (st : ParserState) : Completion ParserState :=
  let line := normalizeWaText rawLine in
  if negb (truthy line) then Normal st
  else
    match orElse (matchMessageLine line dateOrder) (matchSystemLine line dateOrder) with
    | Some m =>
        bindC (match currentMessage st with
               | Some current => pushCurrent (messagesSoFar st) current mediaFiles
               | None => Normal (messagesSoFar st)
               end)
          (λ messages,
             Normal {| messagesSoFar := messages; currentMessage := Some m;
                       errorsSoFar := errorsSoFar st |})
    | None =>
        match currentMessage st with
        | Some current =>
            if test startsWithTimestampRegex line
            then
              bindC (if truthy (trim (matchContent current))
                     then pushCurrent (messagesSoFar st) current mediaFiles
                     else Normal (messagesSoFar st))
                (λ messages,
                   Normal {| messagesSoFar := messages; currentMessage := None;
                             errorsSoFar := errorsSoFar st |})
            else
              Normal {| messagesSoFar := messagesSoFar st;
                        currentMessage := Some (appendLine current line);
                        errorsSoFar := errorsSoFar st |}
        | None =>
            if (i <? 5)%nat then Normal st
            else
              Normal {| messagesSoFar := messagesSoFar st;
                        currentMessage := None;
                        errorsSoFar :=
                          errorsSoFar st
                          ++ [js "Could not parse line "
                              ++ numberToString (Z.of_nat i + 1) ++ js ": "
                              ++ take 50 line ++ js "..."] |}
        end
    end.

(** The loop; what was pushed on [errors] before a throw stays pushed. *)
Fixpoint parseLines (dateOrder : DateOrder) (mediaFiles : MediaIndex)
    (i : nat) (lines : list jsstring) (st : ParserState)
  : Completion ParserState * list jsstring :=
  match lines with
  | [] => (Normal st, errorsSoFar st)
  | rawLine :: rest =>
      match parseLine dateOrder mediaFiles i rawLine st with
      | Normal st' => parseLines dateOrder mediaFiles (S i) rest st'
      | Throw e => (Throw e, errorsSoFar st)
      end
  end.

(** The filter at the end of [parseMessages]. *)
Definition keepMessage (msg : Message) : bool :=
  if negb (bool_decide (type msg = TText)) then true
  else if bool_decide (content msg = OMITTED_MEDIA) then false
  else (0 <? length (trim (content msg)))%nat.

Definition parseMessages (content0 : jsstring) (mediaFiles : MediaIndex)
    (errors : list jsstring) : Completion (list Message) * list jsstring :=
  let lines := splitOn 10 content0 in
  let dateOrder := inferDateOrder lines in
  match parseLines dateOrder mediaFiles 0 lines
          {| messagesSoFar := []; currentMessage := None; errorsSoFar := errors |} with
  | (Normal st, errors') =>
      match (match currentMessage st with
             | Some current => pushCurrent (messagesSoFar st) current mediaFiles
             | None => Normal (messagesSoFar st)
             end) with
      | Normal messages => (Normal (filter (λ msg, keepMessage msg = true) messages), errors')
      | Throw e => (Throw e, errors')
      end
  | (Throw e, errors') => (Throw e, errors')
  end.

(** *** Chat name, participants, group detection *)

Record Participant := {
  participantId : jsstring;
  participantName : jsstring;
  phoneNumber : option jsstring;
  color : jsstring
}.

Record Chat := {
  chatId : jsstring;
  chatName : jsstring;
  participants : list Participant;
  messages : list Message;
  isGroup : bool;
  avatar : option jsstring
}.

Record ChatParseResult := {
  chat : Chat;
  errors : list jsstring
}.

Definition extractChatName (fileName0 : jsstring) : jsstring :=
  let name := removeFirst (rseq [liti ".txt"; REol]) fileName0 in
  let name := removeFirst (rseq [RBol; liti "WhatsApp Chat with "]) name in
  let name := removeFirst (rseq [RBol; liti "WhatsApp Chat - "]) name in
  let name := removeFirst (rseq [RBol; liti "Chat with "]) name in
  let name := removeFirst (rseq [RBol; liti "_chat"; REol]) name in
  let name := trim name in
  if negb (truthy name) || bool_decide (toLowerCase name = js "chat")
  then js "Unnamed Chat"
  else name.

Definition openQuote : regex := RClass (λ c, (c =? 34) || (c =? 8220))%N.   (* one of the straight and the left curly double quote *)
Definition closeQuote : regex := RClass (λ c, (c =? 34) || (c =? 8221))%N.  (* one of the straight and the right curly double quote *)
Definition quotedName (i : nat) : regex :=
  rseq [openQuote; RGroup i (RRepeat isDot 1 None false); closeQuote].

(** The four subject patterns of [deriveChatNameFromContent]; the last one
    has the flags [im], the others [i]. *)
Definition subjectPatterns : list regex :=
  [ rseq [liti "created group"; spaces1; quotedName 1];
    rseq [liti "changed the subject to"; spaces1; quotedName 1];
    rseq [liti "changed the subject from"; spaces1;
          openQuote; RRepeat isDot 1 None false; closeQuote;
          spaces1; liti "to"; spaces1; quotedName 1];
    rseq [liti "changed the subject to"; spaces1;
          RGroup 1 (RRepeat isDot 1 None false); REolMultiline] ].

(** [null] is [None]. *)
Fixpoint deriveFrom (patterns : list regex) (text : jsstring) : option jsstring :=
  match patterns with
  | [] => None
  | re :: rest =>
      match exec re text ≫= group 1 with
      | Some (c :: g) =>
          let name := trim (c :: g) in
          if truthy name && (length name <=? 80)%nat then Some name
          else deriveFrom rest text
      | _ => deriveFrom rest text
      end
  end.

Definition deriveChatNameFromContent (raw : jsstring) : option jsstring :=
  deriveFrom subjectPatterns raw.

Definition generateParticipantColors : list jsstring :=
  js <$> ["#00a884"; "#ff6b6b"; "#4ecdc4"; "#ffd93d"; "#a8dadc"; "#f4a261";
          "#e76f51"; "#2a9d8f"; "#e63946"; "#06ffa5"; "#7209b7"; "#f72585"]%string.

Definition generateParticipantId (name : jsstring) : jsstring :=
  js "user_" ++ underscoreOthers (toLowerCase name).

(** The body of [messages.forEach] in [extractParticipants]; the state is
    the map, in insertion order, and [colorIndex]. *)
Definition participantStep (st : list (jsstring * Participant) * nat) (msg : Message)
  : list (jsstring * Participant) * nat :=
  let '(participantMap, colorIndex) := st in
  if negb (bool_decide (sender msg ∈ participantMap.*1))
     && negb (bool_decide (type msg = TSystem))
  then
    (participantMap ++
       [(sender msg,
         {| participantId := generateParticipantId (sender msg);
            participantName := sender msg;
            phoneNumber := None;
            color := default [] (generateParticipantColors
                                   !! (colorIndex mod length generateParticipantColors)%nat) |})],
     S colorIndex)
  else st.

Definition extractParticipants (messages0 : list Message) : list Participant :=
  (foldl participantStep ([], O) messages0).1.*2.

Definition groupPatterns : list regex :=
  [ liti "created group"; liti "added"; liti "removed";
    liti "joined using this group's invite link";
    liti "changed the subject from"; liti "You're now an admin" ].

Definition detectGroupIndicators (content0 : jsstring) : bool :=
  existsb (λ pattern, test pattern content0) groupPatterns.

(** [now] is the value of [Date.now()]. *)
Definition generateChatId (now : Z) (name : jsstring) : jsstring :=
  js "chat_" ++ underscoreOthers (toLowerCase name) ++ js "_" ++ numberToString now.

(** *** parseChatFile *)

(** The statements of the [try] block after [parseMessages] returned. *)
Definition buildChat (now : Z) (fileName0 content0 : jsstring)
    (messages0 : list Message) (errors0 : list jsstring) : ChatParseResult :=
  let chatName0 := extractChatName fileName0 in
  let errors1 :=
    if (length messages0 =? 0)%nat
    then errors0 ++ [js "No messages found in chat file"] else errors0 in
  let participants0 := extractParticipants messages0 in
  let looksLikeGroup :=
    (2 <? length participants0)%nat || detectGroupIndicators content0 in
  let isOneToOne := (length participants0 =? 2)%nat in
  let isGroup0 := looksLikeGroup && negb isOneToOne in
  let chatName1 :=
    if bool_decide (chatName0 = js "Unnamed Chat")
    then match deriveChatNameFromContent content0 with
         | Some derived => derived
         | None => chatName0
         end
    else chatName0 in
  let me := list_find (λ p, isMeSender (participantName p) = true) participants0 in
  let other := list_find (λ p, isMeSender (participantName p) = false) participants0 in
  let chatName2 :=
    if isOneToOne
    then match other with Some (_, o) => participantName o | None => chatName1 end
    else chatName1 in
  let participants1 :=
    if isOneToOne
    then match me, other with
         | Some (_, m), Some (_, o) => [o; m]
         | _, _ => participants0
         end
    else participants0 in
  {| chat := {| chatId := generateChatId now chatName2;
                chatName := chatName2;
                participants := participants1;
                messages := messages0;
                isGroup := isGroup0;
                avatar := None |};
     errors := errors1 |}.

(** The minimal chat of the [catch] block. *)
Definition minimalChat (now : Z) (fileName0 : jsstring) : Chat :=
  {| chatId := generateChatId now fileName0;
     chatName := fileName0;
     participants := [];
     messages := [];
     isGroup := false;
     avatar := None |}.

(** [parseChatFile] for a file name and a content that are strings, as
    their type says: the [catch] block then has nothing that can throw, so
    the call returns.  [parseChatFileAny] below is the call for arguments
    of any kind. *)
Definition parseChatFile (now : Z) (fileName0 content0 : jsstring)
    (mediaFiles : MediaIndex) : ChatParseResult :=
  match parseMessages content0 mediaFiles [] with
  | (Normal messages0, errors0) => buildChat now fileName0 content0 messages0 errors0
  | (Throw message, errors0) =>
      {| chat := minimalChat now fileName0;
         errors := errors0 ++ [js "Failed to parse chat: " ++ message] |}
  end.

(** *** parseChatFile on arguments that need not be strings

    The declared type of the file name and of the content is [string], but
    types are erased as they are for the attachment index: an argument may
    be a value that is not a string and has no string method ([undefined],
    [null], a number), the [None] here.  Calling a string method on it
    throws a TypeError; the text of the message is V8's for [undefined]. *)
Definition notAStringMessage (method : string) : jsstring :=
  js "Cannot read properties of undefined (reading '" ++ js method ++ js "')".

(** The [try] block: what it returns or throws, and the errors pushed on
    [errors] until then.  [extractChatName] is its first statement and
    calls [fileName.replace]; [parseMessages] starts with [content.split]. *)
Definition tryParseChatFile (now : Z) (fileName0 content0 : option jsstring)
    (mediaFiles : MediaIndex) : Completion ChatParseResult * list jsstring :=
  match fileName0 with
  | None => (Throw (notAStringMessage "replace"), [])
  | Some f =>
      match content0 with
      | None => (Throw (notAStringMessage "split"), [])
      | Some c =>
          match parseMessages c mediaFiles [] with
          | (Normal messages0, errors0) =>
              (Normal (buildChat now f c messages0 errors0), errors0)
          | (Throw message, errors0) => (Throw message, errors0)
          end
      end
  end.

(** The [catch] block: it pushes the message and builds the minimal chat,
    whose id is [generateChatId(fileName)], a call of
    [fileName.toLowerCase]. *)
Definition catchParseChatFile (now : Z) (fileName0 : option jsstring)
    (errors0 : list jsstring) (message : jsstring) : Completion ChatParseResult :=
  match fileName0 with
  | None => Throw (notAStringMessage "toLowerCase")
  | Some f =>
      Normal {| chat := minimalChat now f;
                errors := errors0 ++ [js "Failed to parse chat: " ++ message] |}
  end.

Definition parseChatFileAny (now : Z) (fileName0 content0 : option jsstring)
    (mediaFiles : MediaIndex) : Completion ChatParseResult :=
  match tryParseChatFile now fileName0 content0 mediaFiles with
  | (Normal result, _) => Normal result
  | (Throw message, errors0) => catchParseChatFile now fileName0 errors0 message
  end.

(** ** Sorting by a numeric field

    [arr.sort((a, b) => f(a) - f(b))] is the stable sort by ascending [f]:
    elements with equal [f] keep their relative order. *)

Section SortBy.
Context {A : Type} (f : A → Z).

Fixpoint insertBy (x : A) (l : list A) : list A :=
  match l with
  | [] => [x]
  | y :: r => if f x <=? f y then x :: l else y :: insertBy x r
  end.

Definition sortBy (l : list A) : list A := foldr insertBy [] l.
End SortBy.

Definition ascending {A : Type} (f : A → Z) (a b : A) : Prop := f a <= f b.

(** [messages.sort((a, b) => a.timestamp.getTime() - b.timestamp.getTime())] *)
Definition sortByTimestamp : list Message → list Message := sortBy timestamp.

(** ** Cross-backup merger (utils/chatMerger.ts) *)

Definition getMessageKey (msg : Message) : jsstring :=
  let ts := (timestamp msg / 1000) * 1000 in
  let sender := trim (toLowerCase (sender msg)) in
  match mediaFileName msg with
  | Some (c :: fn) =>
      numberToString ts ++ js "|" ++ sender ++ js "|media:" ++ toLowerCase (c :: fn)
  | _ =>
      let content := trim (toLowerCase (content msg)) in
      numberToString ts ++ js "|" ++ sender ++ js "|" ++ content
  end.

(** One iteration of the dedup loop over [flatMessages]; the state is the
    pair of [seenKeys] and [merged]. *)
Definition mergeStep (st : gset jsstring * list Message) (msg : Message)
  : gset jsstring * list Message :=
  let key := getMessageKey msg in
  if decide (key ∈ st.1) then st else ({[key]} ∪ st.1, st.2 ++ [msg]).

Definition mergeMessages (allMessages : list (list Message)) : list Message :=
  match allMessages with
  | [messages] => sortByTimestamp messages
  | _ =>
      let flatMessages := sortByTimestamp (concat allMessages) in
      (foldl mergeStep (∅, []) flatMessages).2
  end.

(** ** Specification-level definitions for the merger *)

Definition tsLe : Message → Message → Prop := ascending timestamp.

Definition sampleMessage (t : Z) (who body : string) : Message :=
  {| id := js "m"; timestamp := t; sender := js who; type := TText;
     content := js body; mediaUrl := None; mediaFileName := None;
     mediaMimeType := None; mediaSize := None; driveFileId := None;
     thumbnailUrl := None; isOutgoing := false; reactions := None;
     quotedMessage := None; isDeleted := None; isEdited := None;
     callDuration := None; callKind := None; callMissed := None |}.

(** The parts of the dedup key in the words of the design: the sender in
    lower case and trimmed; the media file name in lower case after the
    tag [media:], or else the content in lower case and trimmed. *)
Definition keySender (m : Message) : jsstring := trim (toLowerCase (sender m)).

Definition keyBody (m : Message) : jsstring :=
  match mediaFileName m with
  | Some (c :: fn) => js "media:" ++ toLowerCase (c :: fn)
  | _ => trim (toLowerCase (content m))
  end.

(** A text message and a media message of given sender and content or
    file name, as lists of code units. *)
Definition textMessage (t : Z) (who body : jsstring) : Message :=
  {| id := js "m"; timestamp := t; sender := who; type := TText;
     content := body; mediaUrl := None; mediaFileName := None;
     mediaMimeType := None; mediaSize := None; driveFileId := None;
     thumbnailUrl := None; isOutgoing := false; reactions := None;
     quotedMessage := None; isDeleted := None; isEdited := None;
     callDuration := None; callKind := None; callMissed := None |}.

Definition mediaMessage (t : Z) (who file : jsstring) : Message :=
  {| id := js "m"; timestamp := t; sender := who; type := TImage;
     content := []; mediaUrl := None; mediaFileName := Some file;
     mediaMimeType := None; mediaSize := None; driveFileId := None;
     thumbnailUrl := None; isOutgoing := false; reactions := None;
     quotedMessage := None; isDeleted := None; isEdited := None;
     callDuration := None; callKind := None; callMissed := None |}.

(** The words of the design: walk the pooled, sorted messages and keep a
    message exactly when no earlier message of the walk has its key. *)
Fixpoint keepFirstOccurrences (earlier l : list Message) : list Message :=
  match l with
  | [] => []
  | m :: r =>
      (if decide (getMessageKey m ∈ getMessageKey <$> earlier) then [] else [m])
      ++ keepFirstOccurrences (earlier ++ [m]) r
  end.

Definition spec_mergeMessages (allMessages : list (list Message)) : list Message :=
  keepFirstOccurrences [] (sortByTimestamp (concat allMessages)).

(** ** Timeline builder: bubble grouping (utils/timelineBuilder.ts) *)

Record MessageBubbleGroup := {
  groupSender : jsstring;
  groupIsOutgoing : bool;
  groupMessages : list Message;
  groupTimestamp : Z   (* first message timestamp *)
}.

(** date-fns [differenceInMinutes(dateLeft, dateRight)]: the difference of
    the two time values in minutes, rounded toward zero. *)
Definition differenceInMinutes (dateLeft dateRight : Z) : Z :=
  Z.quot (dateLeft - dateRight) 60000.

Definition shouldGroup (currentGroup : MessageBubbleGroup) (message : Message) : bool :=
  bool_decide (groupSender currentGroup = sender message)
  && bool_decide (groupIsOutgoing currentGroup = isOutgoing message)
  && (differenceInMinutes (timestamp message) (groupTimestamp currentGroup) <=? 10).

Definition pushMessage (g : MessageBubbleGroup) (message : Message) : MessageBubbleGroup :=
  {| groupSender := groupSender g; groupIsOutgoing := groupIsOutgoing g;
     groupMessages := groupMessages g ++ [message];
     groupTimestamp := groupTimestamp g |}.

Definition systemGroup (message : Message) : MessageBubbleGroup :=
  {| groupSender := sender message; groupIsOutgoing := false;
     groupMessages := [message]; groupTimestamp := timestamp message |}.

Definition newGroup (message : Message) : MessageBubbleGroup :=
  {| groupSender := sender message; groupIsOutgoing := isOutgoing message;
     groupMessages := [message]; groupTimestamp := timestamp message |}.

(** [bubbleGroups.push(currentGroup)] when a group is open. *)
Definition closeGroup (bubbleGroups : list MessageBubbleGroup)
    (currentGroup : option MessageBubbleGroup) : list MessageBubbleGroup :=
  match currentGroup with
  | Some g => bubbleGroups ++ [g]
  | None => bubbleGroups
  end.

(** The body of [messages.forEach]; the state is [bubbleGroups] and
    [currentGroup]. *)
Definition bubbleStep
    (st : list MessageBubbleGroup * option MessageBubbleGroup)
    (message : Message)
  : list MessageBubbleGroup * option MessageBubbleGroup :=
  let '(bubbleGroups, currentGroup) := st in
  if decide (type message = TSystem) then
    (closeGroup bubbleGroups currentGroup ++ [systemGroup message], None)
  else
    match currentGroup with
    | Some g =>
        if shouldGroup g message then (bubbleGroups, Some (pushMessage g message))
        else (bubbleGroups ++ [g], Some (newGroup message))
    | None => (bubbleGroups, Some (newGroup message))
    end.

Definition groupMessagesIntoBubbles (messages : list Message)
  : list MessageBubbleGroup :=
  match messages with
  | [] => []
  | _ =>
      let '(bubbleGroups, currentGroup) := foldl bubbleStep ([], None) messages in
      closeGroup bubbleGroups currentGroup
  end.

(** ** Specification-level definitions for bubble grouping *)

(** A message extends the open group: the step leaves the finished groups
    alone and appends the message to the open one. *)
Definition extendsGroup (g : MessageBubbleGroup) (message : Message) : Prop :=
  ∀ bubbleGroups,
    bubbleStep (bubbleGroups, Some g) message
    = (bubbleGroups, Some (pushMessage g message)).

(** Every group records the sender, polarity and timestamp of its first
    message; a group of a system message is a singleton. *)
Definition groupWellFormed (g : MessageBubbleGroup) : Prop :=
  ∃ m ms,
    groupMessages g = m :: ms
    ∧ groupTimestamp g = timestamp m
    ∧ groupSender g = sender m
    ∧ (type m = TSystem → ms = [] ∧ groupIsOutgoing g = false)
    ∧ (type m ≠ TSystem →
         groupIsOutgoing g = isOutgoing m
         ∧ Forall (λ x, type x ≠ TSystem ∧ sender x = sender m
                        ∧ isOutgoing x = isOutgoing m
                        ∧ differenceInMinutes (timestamp x) (timestamp m) <= 10) ms).

(** A message of the given sender at hh:mm:ss of one fixed day. *)
Definition at_time (who : string) (h mi s : Z) : Message :=
  sampleMessage (1704067200000 + ((h * 60 + mi) * 60 + s) * 1000) who "x".

(** Invariant of the loop: the groups cover the messages walked so far,
    in order, and every group is well formed. *)
Definition bubbleInv (walked : list Message)
    (st : list MessageBubbleGroup * option MessageBubbleGroup) : Prop :=
  concat (groupMessages <$> closeGroup st.1 st.2) = walked
  ∧ Forall groupWellFormed (closeGroup st.1 st.2).

(** The open group never starts with a system message. *)
Definition openUser (st : list MessageBubbleGroup * option MessageBubbleGroup) : Prop :=
  ∀ g m0 ms, st.2 = Some g → groupMessages g = m0 :: ms → type m0 ≠ TSystem.

(** ** Bounded media cache (services/mediaCache.ts)

    The named cache [CACHE_NAME] is the ordered list of its
    request/response pairs; [Date.now()] and the answers of [fetch] and
    [URL.createObjectURL] are inputs of each call.

    The methods of the service are async functions.  They are given
    twice.  First in direct style: what a call computes when it runs
    alone, that is with no other call of the service running between its
    start and its end, with the Cache API present and every browser call
    fulfilling.  Then, under the heading of the service as it runs, as
    tasks that are suspended at each [await], with the test for the Cache
    API and the [try]/[catch] blocks; the direct-style functions are the
    uninterrupted runs of these tasks. *)

Definition MAX_CACHE_SIZE : Z := 2 * 1024 * 1024 * 1024.

(** [EVICTION_THRESHOLD] is 0.9; byte counts are integers, so comparing one
    with [MAX_CACHE_SIZE * EVICTION_THRESHOLD] (1932735283.2) is comparing
    ten times the count with nine times the budget. *)
Definition aboveThreshold (bytes : Z) : bool := 9 * MAX_CACHE_SIZE <? 10 * bytes.
Definition belowThreshold (bytes : Z) : bool := 10 * bytes <? 9 * MAX_CACHE_SIZE.

Record CacheMetadata := {
  metaDriveFileId : jsstring;
  metaSize : Z;
  lastAccessed : Z
}.

(** One pair of the cache storage: the request URL, the value of the
    [X-Cache-Metadata] header when it is there, and the size of the body. *)
Record CacheEntry := {
  entryRequest : jsstring;
  entryMetadata : option CacheMetadata;
  entryBlobSize : Z
}.

Record MediaCacheService := {
  memoryCache : gmap jsstring jsstring;
  cacheSize : Z;
  initialized : bool;
  cacheStorage : list CacheEntry
}.

Definition emptyMediaCache : MediaCacheService :=
  {| memoryCache := ∅; cacheSize := 0; initialized := false; cacheStorage := [] |}.

Definition getCacheKey (driveFileId : jsstring) : jsstring :=
  js "https://media.cache/" ++ driveFileId.

(** [cache.delete(request)] and [cache.put(request, response)]: a put
    replaces the pair of the same request, the new pair comes last. *)
Definition cacheDelete (request : jsstring) (storage : list CacheEntry) : list CacheEntry :=
  filter (λ e, entryRequest e ≠ request) storage.

Definition cachePut (e : CacheEntry) (storage : list CacheEntry) : list CacheEntry :=
  cacheDelete (entryRequest e) storage ++ [e].

Definition cacheMatch (request : jsstring) (storage : list CacheEntry) : option CacheEntry :=
  list_find (λ e, entryRequest e = request) storage ≫= λ p, Some p.2.

(** The bytes resident in the cache storage. *)
Definition residentSize (storage : list CacheEntry) : Z :=
  foldr (λ e acc, entryBlobSize e + acc) 0 storage.

(** [calculateCacheSize] and [init], run alone in a browser with the Cache
    API ([calculateCacheSizeTask] and [initTask] below are the methods). *)
Definition calculateCacheSize (st : MediaCacheService) : MediaCacheService :=
  {| memoryCache := memoryCache st;
     cacheSize := foldl (λ acc e, acc + entryBlobSize e) 0 (cacheStorage st);
     initialized := initialized st;
     cacheStorage := cacheStorage st |}.

Definition init (st : MediaCacheService) : MediaCacheService :=
  if initialized st then st
  else
    let st' := calculateCacheSize st in
    {| memoryCache := memoryCache st'; cacheSize := cacheSize st';
       initialized := true; cacheStorage := cacheStorage st' |}.

(** The eviction loop of [evictLRU] over the sorted entries; the state is
    the storage, the memory cache and [freedSpace]. *)
Definition evictFromMemory (e : CacheEntry) (mem : gmap jsstring jsstring)
  : gmap jsstring jsstring :=
  match entryMetadata e with
  | Some md =>
      match metaDriveFileId md with
      | [] => mem
      | fid =>
          match mem !! fid with
          | Some (_ :: _) => delete fid mem
          | _ => mem
          end
      end
  | None => mem
  end.

Fixpoint evictLoop (cacheSize0 spaceNeeded : Z) (entries : list CacheEntry)
    (storage : list CacheEntry) (mem : gmap jsstring jsstring) (freedSpace : Z)
  : list CacheEntry * gmap jsstring jsstring * Z :=
  match entries with
  | [] => (storage, mem, freedSpace)
  | entry :: rest =>
      if belowThreshold (cacheSize0 - freedSpace + spaceNeeded)
      then (storage, mem, freedSpace)
      else evictLoop cacheSize0 spaceNeeded rest
             (cacheDelete (entryRequest entry) storage)
             (evictFromMemory entry mem)
             (freedSpace + entryBlobSize entry)
  end.

Definition entryLastAccessed (e : CacheEntry) : Z :=
  match entryMetadata e with Some md => lastAccessed md | None => 0 end.

(** [evictLRU] run alone ([evictLRUTask] is the method). *)
Definition evictLRU (st : MediaCacheService) (spaceNeeded : Z) : MediaCacheService :=
  let entries := filter (λ e, is_Some (entryMetadata e)) (cacheStorage st) in
  let sorted := sortBy entryLastAccessed entries in
  let '(storage, mem, freedSpace) :=
    evictLoop (cacheSize st) spaceNeeded sorted (cacheStorage st) (memoryCache st) 0 in
  {| memoryCache := mem; cacheSize := cacheSize st - freedSpace;
     initialized := initialized st; cacheStorage := storage |}.

(** [addToCache] run alone, the Cache API present and [cache.put]
    fulfilled ([addToCacheTask] is the method, with its test for the Cache
    API and its [catch] block). *)
Definition addToCache (st : MediaCacheService) (driveFileId : jsstring)
    (size now : Z) : MediaCacheService :=
  let st1 := if aboveThreshold (cacheSize st + size) then evictLRU st size else st in
  let metadata := {| metaDriveFileId := driveFileId; metaSize := size;
                     lastAccessed := now |} in
  let response := {| entryRequest := getCacheKey driveFileId;
                     entryMetadata := Some metadata; entryBlobSize := size |} in
  {| memoryCache := memoryCache st1;
     cacheSize := cacheSize st1 + size;
     initialized := initialized st1;
     cacheStorage := cachePut response (cacheStorage st1) |}.

(** [updateAccessTime] run alone ([updateAccessTimeTask] is the method). *)
Definition updateAccessTime (st : MediaCacheService) (driveFileId : jsstring)
    (now : Z) : MediaCacheService :=
  match cacheMatch (getCacheKey driveFileId) (cacheStorage st) with
  | Some e =>
      match entryMetadata e with
      | Some md =>
          let md' := {| metaDriveFileId := metaDriveFileId md;
                        metaSize := metaSize md; lastAccessed := now |} in
          {| memoryCache := memoryCache st; cacheSize := cacheSize st;
             initialized := initialized st;
             cacheStorage :=
               cachePut {| entryRequest := entryRequest e;
                           entryMetadata := Some md';
                           entryBlobSize := entryBlobSize e |} (cacheStorage st) |}
      | None => st
      end
  | None => st
  end.

(** What the environment answers during one [getMedia] call. *)
Record MediaRequest := {
  reqDriveFileId : jsstring;
  reqFetchedSize : option Z;   (* size of the fetched blob; None: fetch failed *)
  reqObjectUrl : jsstring;     (* the URL [createObjectURL] hands out *)
  reqNow : Z
}.

Definition setMemory (st : MediaCacheService) (k v : jsstring) : MediaCacheService :=
  {| memoryCache := <[k := v]> (memoryCache st); cacheSize := cacheSize st;
     initialized := initialized st; cacheStorage := cacheStorage st |}.

(** [fetchAndCache] run alone: the blob URL on success, [None] for the
    rethrown fetch error ([fetchAndCacheTask] is the method). *)
Definition fetchAndCache (st : MediaCacheService) (r : MediaRequest)
  : MediaCacheService * option jsstring :=
  match reqFetchedSize r with
  | None => (st, None)
  | Some size =>
      let st1 := setMemory st (reqDriveFileId r) (reqObjectUrl r) in
      (addToCache st1 (reqDriveFileId r) size (reqNow r), Some (reqObjectUrl r))
  end.

(** [getMedia] run alone, for a request answered with an object URL that
    is not empty ([getMediaTask] is the method; the two agree by lemma
    [getMedia_alone]). *)
Definition getMedia (st : MediaCacheService) (r : MediaRequest)
  : MediaCacheService * option jsstring :=
  let st := init st in
  match memoryCache st !! reqDriveFileId r with
  | Some url => (updateAccessTime st (reqDriveFileId r) (reqNow r), Some url)
  | None =>
      match cacheMatch (getCacheKey (reqDriveFileId r)) (cacheStorage st) with
      | Some _ =>
          let st1 := setMemory st (reqDriveFileId r) (reqObjectUrl r) in
          (updateAccessTime st1 (reqDriveFileId r) (reqNow r), Some (reqObjectUrl r))
      | None => fetchAndCache st r
      end
  end.

(** ** The media cache service as it runs

    A task is an async function in execution.  [Atomic update next] is
    synchronous code that, finding the service as [s], leaves it as
    [update s] and goes on as [next s]; [Await resume] is a suspension at
    an [await]: other tasks may run before the task is resumed, and
    [resume fulfilled] is what it does then, the awaited promise being
    fulfilled or rejected.  [Raise] is a thrown error. *)
Inductive Task (A : Type) : Type :=
| Return (a : A)
| Raise (message : jsstring)
| Atomic (update : MediaCacheService → MediaCacheService)
         (next : MediaCacheService → Task A)
| Await (resume : bool → Task A).

Arguments Return {A} a.
Arguments Raise {A} message.
Arguments Atomic {A} update next.
Arguments Await {A} resume.

Fixpoint bindTask {A B} (t : Task A) (f : A → Task B) : Task B :=
  match t with
  | Return a => f a
  | Raise message => Raise message
  | Atomic update next => Atomic update (λ s, bindTask (next s) f)
  | Await resume => Await (λ fulfilled, bindTask (resume fulfilled) f)
  end.

Global Instance Task_ret : MRet Task := @Return.
Global Instance Task_bind : MBind Task := λ A B f t, bindTask t f.

(** [try { t } catch (err) { handler(err) }] *)
Fixpoint tryCatch {A} (t : Task A) (handler : jsstring → Task A) : Task A :=
  match t with
  | Return a => Return a
  | Raise message => handler message
  | Atomic update next => Atomic update (λ s, tryCatch (next s) handler)
  | Await resume => Await (λ fulfilled, tryCatch (resume fulfilled) handler)
  end.

(** [await f(...)] for an async function [f] of the service: the call runs
    up to its first [await] at once, and when it has ended the caller is
    resumed in a later turn; the promise of an async function settles as
    the function ends, so nothing depends on the flag of that turn. *)
Fixpoint awaitCall {A} (t : Task A) : Task A :=
  match t with
  | Return a => Await (λ _, Return a)
  | Raise message => Await (λ _, Raise message)
  | Atomic update next => Atomic update (λ s, awaitCall (next s))
  | Await resume => Await (λ fulfilled, awaitCall (resume fulfilled))
  end.

Definition getState : Task MediaCacheService := Atomic (λ s, s) (λ s, Return s).
Definition modify (update : MediaCacheService → MediaCacheService) : Task unit :=
  Atomic update (λ _, Return tt).

(** The reason of a rejected browser promise. *)
Definition rejectionMessage : jsstring := js "The operation failed".

(** [await] of a promise of the browser: when it is fulfilled, the
    operation has taken [effect] on the cache storage and answers
    [result]; when it is rejected the [await] throws. *)
Definition browserCall {A} (effect : MediaCacheService → MediaCacheService)
    (result : MediaCacheService → A) : Task A :=
  Await (λ fulfilled,
    if fulfilled then Atomic effect (λ s, Return (result s))
    else Raise rejectionMessage).

Definition withStorage (f : list CacheEntry → list CacheEntry)
    (st : MediaCacheService) : MediaCacheService :=
  {| memoryCache := memoryCache st; cacheSize := cacheSize st;
     initialized := initialized st; cacheStorage := f (cacheStorage st) |}.

Definition withCacheSize (f : Z → Z) (st : MediaCacheService) : MediaCacheService :=
  {| memoryCache := memoryCache st; cacheSize := f (cacheSize st);
     initialized := initialized st; cacheStorage := cacheStorage st |}.

Definition withMemoryCache (f : gmap jsstring jsstring → gmap jsstring jsstring)
    (st : MediaCacheService) : MediaCacheService :=
  {| memoryCache := f (memoryCache st); cacheSize := cacheSize st;
     initialized := initialized st; cacheStorage := cacheStorage st |}.

Definition withInitialized (b : bool) (st : MediaCacheService) : MediaCacheService :=
  {| memoryCache := memoryCache st; cacheSize := cacheSize st;
     initialized := b; cacheStorage := cacheStorage st |}.

(** The browser calls of the service. *)
Definition cachesOpen : Task unit := browserCall (λ s, s) (λ _, tt).
Definition cacheKeys : Task (list jsstring) :=
  browserCall (λ s, s) (λ s, entryRequest <$> cacheStorage s).
Definition cacheMatchCall (request : jsstring) : Task (option CacheEntry) :=
  browserCall (λ s, s) (λ s, cacheMatch request (cacheStorage s)).
Definition responseBlob : Task unit := browserCall (λ s, s) (λ _, tt).
Definition cachePutCall (e : CacheEntry) : Task unit :=
  browserCall (withStorage (cachePut e)) (λ _, tt).
Definition cacheDeleteCall (request : jsstring) : Task unit :=
  browserCall (withStorage (cacheDelete request)) (λ _, tt).
Definition storagePersistCall : Task unit := browserCall (λ s, s) (λ _, tt).

(** What the page finds in its browser: ['caches' in window], and
    [navigator.storage && navigator.storage.persist]. *)
Record Browser := {
  cachesInWindow : bool;
  storagePersist : bool
}.

Definition fetchFailedMessage : jsstring := js "Failed to fetch media".

(** [await fetch(originalUrl)] and the test of [response.ok]; a response
    that is not ok is the [None] of [reqFetchedSize]. *)
Definition fetchCall (r : MediaRequest) : Task Z :=
  Await (λ fulfilled,
    if fulfilled
    then match reqFetchedSize r with
         | Some size => Return size
         | None => Raise fetchFailedMessage
         end
    else Raise rejectionMessage).

(** The loop of [calculateCacheSize]. *)
Fixpoint addSizes (requests : list jsstring) : Task unit :=
  match requests with
  | [] => Return tt
  | request :: rest =>
      response ← cacheMatchCall request;
      match response with
      | Some e =>
          responseBlob;;
          modify (withCacheSize (λ size, size + entryBlobSize e));;
          addSizes rest
      | None => addSizes rest
      end
  end.

Definition calculateCacheSizeTask (browser : Browser) : Task unit :=
  if negb (cachesInWindow browser) then Return tt
  else
    tryCatch
      (cachesOpen;;
       requests ← cacheKeys;
       modify (withCacheSize (λ _, 0));;
       addSizes requests)
      (λ _, Return tt).

Definition initTask (browser : Browser) : Task unit :=
  s ← getState;
  if initialized s then Return tt
  else
    tryCatch
      ((if storagePersist browser then storagePersistCall else Return tt);;
       awaitCall (calculateCacheSizeTask browser);;
       modify (withInitialized true))
      (λ _, Return tt).

(** The first loop of [evictLRU]: the pairs that carry metadata. *)
Fixpoint collectEntries (requests : list jsstring) (entries : list CacheEntry)
  : Task (list CacheEntry) :=
  match requests with
  | [] => Return entries
  | request :: rest =>
      response ← cacheMatchCall request;
      match response with
      | Some e =>
          match entryMetadata e with
          | Some metadata =>
              responseBlob;;
              collectEntries rest
                (entries ++ [{| entryRequest := request;
                                entryMetadata := Some metadata;
                                entryBlobSize := entryBlobSize e |}])
          | None => collectEntries rest entries
          end
      | None => collectEntries rest entries
      end
  end.

(** The second loop of [evictLRU], over the sorted entries; its value is
    [freedSpace]. *)
Fixpoint evictEntries (spaceNeeded : Z) (entries : list CacheEntry)
    (freedSpace : Z) : Task Z :=
  match entries with
  | [] => Return freedSpace
  | entry :: rest =>
      s ← getState;
      if belowThreshold (cacheSize s - freedSpace + spaceNeeded)
      then Return freedSpace
      else
        cacheDeleteCall (entryRequest entry);;
        modify (withMemoryCache (evictFromMemory entry));;
        evictEntries spaceNeeded rest (freedSpace + entryBlobSize entry)
  end.

Definition evictLRUTask (browser : Browser) (spaceNeeded : Z) : Task unit :=
  if negb (cachesInWindow browser) then Return tt
  else
    tryCatch
      (cachesOpen;;
       requests ← cacheKeys;
       entries ← collectEntries requests [];
       freedSpace ← evictEntries spaceNeeded (sortBy entryLastAccessed entries) 0;
       modify (withCacheSize (λ size, size - freedSpace)))
      (λ _, Return tt).

Definition addToCacheTask (browser : Browser) (driveFileId : jsstring)
    (size now : Z) : Task unit :=
  if negb (cachesInWindow browser) then Return tt
  else
    tryCatch
      (s ← getState;
       (if aboveThreshold (cacheSize s + size)
        then awaitCall (evictLRUTask browser size) else Return tt);;
       cachesOpen;;
       cachePutCall {| entryRequest := getCacheKey driveFileId;
                       entryMetadata :=
                         Some {| metaDriveFileId := driveFileId;
                                 metaSize := size; lastAccessed := now |};
                       entryBlobSize := size |};;
       modify (withCacheSize (λ total, total + size)))
      (λ _, Return tt).

Definition updateAccessTimeTask (browser : Browser) (driveFileId : jsstring)
    (now : Z) : Task unit :=
  if negb (cachesInWindow browser) then Return tt
  else
    tryCatch
      (cachesOpen;;
       response ← cacheMatchCall (getCacheKey driveFileId);
       match response with
       | Some e =>
           responseBlob;;
           match entryMetadata e with
           | Some md =>
               cachePutCall
                 {| entryRequest := getCacheKey driveFileId;
                    entryMetadata :=
                      Some {| metaDriveFileId := metaDriveFileId md;
                              metaSize := metaSize md; lastAccessed := now |};
                    entryBlobSize := entryBlobSize e |}
           | None => Return tt
           end
       | None => Return tt
       end)
      (λ _, Return tt).

(** [getCachedUrl]; [None] is [null]. *)
Definition getCachedUrlTask (browser : Browser) (r : MediaRequest)
  : Task (option jsstring) :=
  if negb (cachesInWindow browser) then Return None
  else
    tryCatch
      (cachesOpen;;
       response ← cacheMatchCall (getCacheKey (reqDriveFileId r));
       match response with
       | Some _ => responseBlob;; Return (Some (reqObjectUrl r))
       | None => Return None
       end)
      (λ _, Return None).

(** [fetchAndCache]; its [catch] block throws the error it caught. *)
Definition fetchAndCacheTask (browser : Browser) (r : MediaRequest) : Task jsstring :=
  tryCatch
    (size ← fetchCall r;
     responseBlob;;
     modify (withMemoryCache (<[reqDriveFileId r := reqObjectUrl r]>));;
     awaitCall (addToCacheTask browser (reqDriveFileId r) size (reqNow r));;
     Return (reqObjectUrl r))
    (λ message, Raise message).

(** [getMedia]; the [None] of its value is [undefined], what
    [memoryCache.get] answers for a key that is not in the map. *)
Definition getMediaTask (browser : Browser) (r : MediaRequest)
  : Task (option jsstring) :=
  awaitCall (initTask browser);;
  s ← getState;
  if bool_decide (is_Some (memoryCache s !! reqDriveFileId r))
  then
    awaitCall (updateAccessTimeTask browser (reqDriveFileId r) (reqNow r));;
    s' ← getState;
    Return (memoryCache s' !! reqDriveFileId r)
  else
    cachedUrl ← awaitCall (getCachedUrlTask browser r);
    match cachedUrl with
    | Some (c :: u) =>
        modify (withMemoryCache (<[reqDriveFileId r := c :: u]>));;
        awaitCall (updateAccessTimeTask browser (reqDriveFileId r) (reqNow r));;
        Return (Some (c :: u))
    | _ =>
        url ← awaitCall (fetchAndCacheTask browser r);
        Return (Some url)
    end.

(** *** Running tasks *)

(** The synchronous part of a task, up to its next suspension or its
    end.  [next] is given the service as it was before [update]. *)
Fixpoint runSync {A} (t : Task A) (st : MediaCacheService)
  : MediaCacheService * Task A :=
  match t with
  | Atomic update next => runSync (next st) (update st)
  | _ => (st, t)
  end.

(** A suspended task is resumed, its promise fulfilled or rejected, and
    runs to its next suspension; a task that has ended stays as it is. *)
Definition resumeTask {A} (fulfilled : bool) (t : Task A) (st : MediaCacheService)
  : MediaCacheService * Task A :=
  match t with
  | Await resume => runSync (resume fulfilled) st
  | _ => (st, t)
  end.

(** The value of a call that has ended. *)
Definition finished {A} (t : Task A) : option (Completion A) :=
  match t with
  | Return a => Some (Normal a)
  | Raise message => Some (Throw message)
  | _ => None
  end.

(** The page calls [getMedia] from the effects of its message bubbles,
    and [preloadMedia] starts the calls of a chunk together
    ([Promise.allSettled] over [chunk.map]): calls overlap.  A run of the
    service is a list of moves: a call is started and runs to its first
    suspension, or the call started as number [call] is resumed, its
    awaited promise fulfilled or rejected. *)
Inductive Move :=
| StartCall (r : MediaRequest)
| ResumeCall (call : nat) (fulfilled : bool).

Abbreviation Calls := (list (Task (option jsstring))).

Definition stepService (browser : Browser) (sp : MediaCacheService * Calls)
    (move : Move) : MediaCacheService * Calls :=
  match move with
  | StartCall r =>
      let '(st', t) := runSync (getMediaTask browser r) sp.1 in (st', sp.2 ++ [t])
  | ResumeCall call fulfilled =>
      match sp.2 !! call with
      | Some t =>
          let '(st', t') := resumeTask fulfilled t sp.1 in
          (st', <[call := t']> sp.2)
      | None => sp
      end
  end.

Definition serve (browser : Browser) (st : MediaCacheService) (moves : list Move)
  : MediaCacheService * Calls :=
  foldl (stepService browser) (st, []) moves.

(** The calls [0 .. calls - 1] resumed in turn, [rounds] times over, every
    promise fulfilled. *)
Definition roundRobin (calls rounds : nat) : list Move :=
  mjoin (replicate rounds ((λ call, ResumeCall call true) <$> seq 0 calls)).

(** A task run to its end with no other task in between and every awaited
    promise fulfilled. *)
Fixpoint runAlone {A} (t : Task A) (st : MediaCacheService)
  : MediaCacheService * Completion A :=
  match t with
  | Return a => (st, Normal a)
  | Raise message => (st, Throw message)
  | Atomic update next => runAlone (next st) (update st)
  | Await resume => runAlone (resume true) st
  end.

(** Calls of [getMedia] made in turn: each has ended before the next
    starts, and no promise is rejected. *)
Definition serveInTurn (browser : Browser) (st : MediaCacheService)
    (rs : list MediaRequest) : MediaCacheService :=
  foldl (λ s r, (runAlone (getMediaTask browser r) s).1) st rs.

(** The number of suspensions of a task that runs alone, and the moves of
    calls made in turn: each call is started and resumed until it has
    ended, [started] calls having been made before. *)
Fixpoint suspensions {A} (t : Task A) (st : MediaCacheService) : nat :=
  match t with
  | Atomic update next => suspensions (next st) (update st)
  | Await resume => S (suspensions (resume true) st)
  | _ => O
  end.

Fixpoint movesInTurn (browser : Browser) (st : MediaCacheService)
    (rs : list MediaRequest) (started : nat) : list Move :=
  match rs with
  | [] => []
  | r :: rest =>
      StartCall r
      :: replicate (suspensions (getMediaTask browser r) st) (ResumeCall started true)
      ++ movesInTurn browser (runAlone (getMediaTask browser r) st).1 rest (S started)
  end.

(** ** Specification-level definitions for the media cache *)

(** The resident bytes are at most the eviction threshold. *)
Definition withinThreshold (bytes : Z) : Prop := 10 * bytes <= 9 * MAX_CACHE_SIZE.

(** Blob sizes are byte counts, and [URL.createObjectURL] hands out a
    URL that is not the empty string. *)
Definition requestWellFormed (r : MediaRequest) : Prop :=
  reqObjectUrl r ≠ [] ∧ ∀ size, reqFetchedSize r = Some size → 0 <= size.

(** A browser with the Cache API and the Storage API, and one without the
    Cache API. *)
Definition fullBrowser : Browser := {| cachesInWindow := true; storagePersist := true |}.
Definition browserWithoutCaches : Browser :=
  {| cachesInWindow := false; storagePersist := true |}.

Definition sampleRequest (fid : string) (size now : Z) : MediaRequest :=
  {| reqDriveFileId := js fid; reqFetchedSize := Some size;
     reqObjectUrl := js "blob:" ++ js fid; reqNow := now |}.

(** Three calls that overlap, as [preloadMedia] makes them for a chunk of
    three items of 900,000,000 bytes: all are started, then resumed in
    turn until they have ended, which takes fourteen rounds. *)
Definition overlappingFetches : list Move :=
  [StartCall (sampleRequest "a" 900000000 1);
   StartCall (sampleRequest "b" 900000000 2);
   StartCall (sampleRequest "c" 900000000 3)]
  ++ roundRobin 3 14.

(** Two calls in turn, of 1,500,000,000 and 1,000,000,000 bytes; in the
    second, the eleventh awaited promise, that of [cache.delete] in
    [evictLRU], is rejected. *)
Definition rejectedDelete : list Move :=
  [StartCall (sampleRequest "a" 1500000000 1)]
  ++ replicate 14 (ResumeCall 0 true)
  ++ [StartCall (sampleRequest "b" 1000000000 2)]
  ++ replicate 10 (ResumeCall 1 true) ++ [ResumeCall 1 false]
  ++ replicate 5 (ResumeCall 1 true).

(** The completion of a [getMedia] call run alone, from what the
    direct-style [getMedia] gives. *)
Definition served (url : option jsstring) : Completion (option jsstring) :=
  match url with
  | Some u => Normal (Some u)
  | None => Throw fetchFailedMessage
  end.

(** The state a service reaches from the empty cache: the counter agrees
    with the storage, every stored pair carries its metadata and a
    non-negative size, and no two pairs share a request. *)
Definition cacheConsistent (st : MediaCacheService) : Prop :=
  (initialized st = true → cacheSize st = residentSize (cacheStorage st))
  ∧ Forall (λ e, is_Some (entryMetadata e) ∧ 0 <= entryBlobSize e) (cacheStorage st)
  ∧ NoDup (entryRequest <$> cacheStorage st).

Definition newEntry (driveFileId : jsstring) (size now : Z) : CacheEntry :=
  {| entryRequest := getCacheKey driveFileId;
     entryMetadata := Some {| metaDriveFileId := driveFileId;
                              metaSize := size; lastAccessed := now |};
     entryBlobSize := size |}.

(** The bound that every reachable state meets: the resident bytes are
    within the threshold, or a single pair is all that is stored. *)
Definition cacheBounded (st : MediaCacheService) : Prop :=
  withinThreshold (residentSize (cacheStorage st))
  ∨ ∃ e, cacheStorage st = [e].

(** ** Specification-level definitions for the parser *)

(** The line starts, after an optional opening bracket, with a date token
    whose first two numeric fields are [a] and [b]: one or two digits, a
    slash, one or two digits, a slash, at least two digits. *)
Definition leadingDate (line a b : jsstring) : Prop :=
  ∃ bracket y rest,
    line = bracket ++ a ++ 47%N :: b ++ 47%N :: y ++ rest
    ∧ (bracket = [] ∨ bracket = [91%N])
    ∧ Forall (λ c, isDigit c = true) a ∧ (1 ≤ length a ≤ 2)%nat
    ∧ Forall (λ c, isDigit c = true) b ∧ (1 ≤ length b ≤ 2)%nat
    ∧ Forall (λ c, isDigit c = true) y ∧ (2 ≤ length y)%nat.

(** The leading date token of a line has a first (second) numeric field
    above 12. *)
Definition firstFieldExceeds (line : jsstring) : bool :=
  match exec leadingDateRegex line with
  | Some m => exceeds12 (parseInt (groupOr 1 m))
  | None => false
  end.

Definition secondFieldExceeds (line : jsstring) : bool :=
  match exec leadingDateRegex line with
  | Some m => exceeds12 (parseInt (groupOr 2 m))
  | None => false
  end.

(** The lines the inference looks at, and the two evidence counts. *)
Definition scannedLines (lines : list jsstring) : list jsstring := take 800 lines.

Definition countWhere (p : jsstring → bool) (lines : list jsstring) : Z :=
  Z.of_nat (length (filter (λ l, p l = true) lines)).

Definition dmyCount (lines : list jsstring) : Z :=
  countWhere firstFieldExceeds (scannedLines lines).
Definition mdyCount (lines : list jsstring) : Z :=
  countWhere secondFieldExceeds (scannedLines lines).

(** Where a message match comes from: the user-line classifier or the
    system-line classifier (tried only when the first one fails), followed
    by any number of continuation lines. *)
Inductive userOrigin : MessageMatch → Prop :=
| userOrigin_line line dateOrder m :
    matchMessageLine line dateOrder = Some m → userOrigin m
| userOrigin_append m line : userOrigin m → userOrigin (appendLine m line).

Inductive systemOrigin : MessageMatch → Prop :=
| systemOrigin_line line dateOrder m :
    matchMessageLine line dateOrder = None →
    matchSystemLine line dateOrder = Some m → systemOrigin m
| systemOrigin_append m line : systemOrigin m → systemOrigin (appendLine m line).

(** A finished message and the line it was assembled from. *)
Definition assembledFrom (mediaFiles : MediaIndex) (msg : Message) : Prop :=
  (∃ m seq, userOrigin m ∧ createMessage m mediaFiles seq = Normal msg
            ∧ type msg ≠ TSystem)
  ∨ (∃ m seq, systemOrigin m ∧ createMessage m mediaFiles seq = Normal msg
              ∧ type msg = TSystem).

(** Every element of the index is an object (the declared type holds). *)
Definition wellTyped (mediaFiles : MediaIndex) : Prop :=
  Forall (λ e, is_Some e) mediaFiles.

(** The match of a user line of sender Ann with the given body. *)
Definition sampleUserLine (body : string) : MessageMatch :=
  {| matchTimestamp := 1704189600000; matchSender := js "Ann";
     matchContent := js body; matchLine := js "1/2/24, 10:00 - Ann: " ++ js body;
     isSystemLine := false |}.

Definition sampleChat : jsstring :=
  js "12/31/2023, 11:45 PM - Messages and calls are end-to-end encrypted."
  ++ [10%N] ++ js "12/31/2023, 11:46 PM - John: They added value to my life"
  ++ [10%N] ++ js "12/31/2023, 11:47 PM - Rajiv: <attached: IMG-9999-WA0001.jpg>"
  ++ [10%N] ++ js "12/31/2023, 11:48 PM - John: image omitted".

(** The shape sender: text of a first line: a non-empty sender, a colon,
    one white-space unit, a non-empty text, no line terminator inside the
    sender or the text. *)
Definition quoteShape (first : jsstring) : Prop :=
  ∃ sender0 w text,
    first = sender0 ++ 58%N :: w :: text
    ∧ sender0 ≠ [] ∧ text ≠ [] ∧ isSpace w = true
    ∧ Forall (λ c, isDot c = true) sender0
    ∧ Forall (λ c, isDot c = true) text.

(** The first line of a body, trimmed, and the trimmed remainder after the
    first line break; [None] when the body has no line break. *)
Definition firstLineAndRest (text : jsstring) : option (jsstring * jsstring) :=
  match splitOn 10 text with
  | part0 :: part1 :: parts =>
      Some (trim part0, trim (joinWith [10%N] (part1 :: parts)))
  | _ => None
  end.

(** No strategy of [findMediaFile] accepts the file for the name. *)
Definition noStrategyMatches (fileName0 : jsstring) (file : MediaFile) : Prop :=
  exactPathMatch (normalizedNameOf fileName0) file = false
  ∧ baseNameMatch (baseFileNameOf fileName0) file = false
  ∧ substringMatch (baseFileNameOf fileName0) file = false
  ∧ (truthy (numericIdOf fileName0) = true →
     (5 ≤ length (numericIdOf fileName0))%nat →
     numericIdMatch (numericIdOf fileName0) file = false)
  ∧ (truthy (datePortionOf fileName0) = true →
     datePortionMatch (datePortionOf fileName0) file = false).

(** The name resolves to no entry of the index. *)
Definition unresolved (fileName0 : jsstring) (mediaFiles : MediaIndex) : Prop :=
  Forall (λ e, ∃ file, e = Some file ∧ noStrategyMatches fileName0 file) mediaFiles.

(** The caption that is left of a body once the matched reference is cut
    out. *)
Definition captionOf (pattern : regex) (c : jsstring) : jsstring :=
  trim (removeFirst pattern c).

(** A body carries one of the units every media pattern needs: a less-than
    sign, an opening parenthesis or a hyphen. *)
Definition hasReferenceMark (c : jsstring) : Prop :=
  60%N ∈ c ∨ 40%N ∈ c ∨ 45%N ∈ c.

(** A string, and every captured string of a list of captures, consists of
    units of the subject. *)
Definition within (subject inp : jsstring) : Prop := ∀ y, y ∈ inp → y ∈ subject.

Definition capturesWithin (subject : jsstring) (cs : captures) : Prop :=
  ∀ i s y, (i, s) ∈ cs → y ∈ s → y ∈ subject.

(** The loop invariant of [parseMessages]. *)
Definition parserInv (mediaFiles : MediaIndex) (st : ParserState) : Prop :=
  Forall (assembledFrom mediaFiles) (messagesSoFar st)
  ∧ (∀ m, currentMessage st = Some m → userOrigin m ∨ systemOrigin m).


(** ** Cross-backup merger, continued (utils/chatMerger.ts) *)

(** The body of the inner loop of [mergeParticipants]; [seen] is the Map,
    as the list of its entries in insertion order. *)
Definition mergeParticipantStep (seen : list (jsstring * Participant))
    (p : Participant) : list (jsstring * Participant) :=
  let key := trim (toLowerCase (participantName p)) in
  if bool_decide (key ∈ seen.*1) then seen else seen ++ [(key, p)].

Definition mergeParticipants (allParticipants : list (list Participant))
  : list Participant :=
  (foldl (λ seen participants0, foldl mergeParticipantStep seen participants0)
         [] allParticipants).*2.

Record MergeStats := {
  totalOriginal : Z;
  duplicatesRemoved : Z;
  statsMergedCount : Z;
  backupCounts : list Z
}.

Definition getMergeStats (originalCounts : list Z) (mergedCount : Z) : MergeStats :=
  let totalOriginal0 := foldl (λ a b, a + b) 0 originalCounts in
  {| totalOriginal := totalOriginal0;
     duplicatesRemoved := totalOriginal0 - mergedCount;
     statsMergedCount := mergedCount;
     backupCounts := originalCounts |}.

(** ** Timeline builder, continued (utils/timelineBuilder.ts)

    The date-fns helpers work on local time; the local time zone is taken
    to be UTC, as for [newDate].  One call reads the clock once: [now] is
    the value of [Date.now()]. *)

Definition msPerDay : Z := 1000 * 60 * 60 * 24.

(** date-fns [startOfDay], [isSameDay], [isToday], [isYesterday]. *)
Definition startOfDay (date : Z) : Z := date / msPerDay * msPerDay.

Definition isSameDay (dateLeft dateRight : Z) : bool :=
  startOfDay dateLeft =? startOfDay dateRight.

Definition isToday (now date : Z) : bool := isSameDay date now.

Definition isYesterday (now date : Z) : bool := isSameDay date (now - msPerDay).

(** The civil date of a day number: year, month (from 1) and day of the
    month in the proleptic Gregorian calendar, the inverse of [makeDay]. *)
Definition civilFromDays (days : Z) : Z * Z * Z :=
  let z := days + 719468 in
  let era := z / 146097 in
  let doe := z - era * 146097 in
  let yoe := (doe - doe / 1460 + doe / 36524 - doe / 146096) / 365 in
  let y := yoe + era * 400 in
  let doy := doe - (365 * yoe + yoe / 4 - yoe / 100) in
  let mp := (5 * doy + 2) / 153 in
  let d := doy - (153 * mp + 2) / 5 + 1 in
  let m := if mp <? 10 then mp + 3 else mp - 9 in
  (if m <=? 2 then y + 1 else y, m, d).

Definition dayNames : list jsstring :=
  js <$> ["Sunday"; "Monday"; "Tuesday"; "Wednesday"; "Thursday"; "Friday";
          "Saturday"]%string.

Definition monthNames : list jsstring :=
  js <$> ["January"; "February"; "March"; "April"; "May"; "June"; "July";
          "August"; "September"; "October"; "November"; "December"]%string.

(** [addLeadingZeros(n, 4)] for a non-negative [n]. *)
Definition addLeadingZeros4 (n : Z) : jsstring :=
  let s := numberToString n in
  replicate (4 - length s) 48%N ++ s.

(** date-fns [format(date, 'EEEE')]: the name of the day of the week. *)
Definition formatDayName (date : Z) : jsstring :=
  default [] (dayNames !! Z.to_nat ((date / msPerDay + 4) mod 7)).

(** date-fns [format(date, 'MMMM d, yyyy')]; the token [yyyy] prints the
    year of the era, at least four digits wide. *)
Definition formatLongDate (date : Z) : jsstring :=
  let '(signedYear, month, day) := civilFromDays (date / msPerDay) in
  let year := if 0 <? signedYear then signedYear else 1 - signedYear in
  default [] (monthNames !! Z.to_nat (month - 1))
  ++ js " " ++ numberToString day ++ js ", " ++ addLeadingZeros4 year.

Definition formatDateSeparator (now date : Z) : jsstring :=
  if isToday now date then js "TODAY"
  else if isYesterday now date then js "YESTERDAY"
  else
    let daysAgo := (now - date) / msPerDay in
    if daysAgo <? 7 then toUpperCase (formatDayName date)
    else toUpperCase (formatLongDate date).

Record TimelineGroup := {
  timelineDate : Z;
  timelineDateString : jsstring;
  timelineMessages : list Message
}.

(** The body of [sortedMessages.forEach] in [groupMessagesByDate].  The
    array [groups] holds the object [currentGroup] as its last element, so
    a push on [currentGroup.messages] changes that element; the state is
    the pair of the groups before it and [currentGroup]. *)
Definition dateGroupStep (now : Z)
    (st : list TimelineGroup * option TimelineGroup) (message : Message)
  : list TimelineGroup * option TimelineGroup :=
  let '(groups, currentGroup) := st in
  let messageDate := startOfDay (timestamp message) in
  let fresh := {| timelineDate := messageDate;
                  timelineDateString := formatDateSeparator now messageDate;
                  timelineMessages := [message] |} in
  match currentGroup with
  | None => (groups, Some fresh)
  | Some g =>
      if negb (isSameDay (timelineDate g) messageDate)
      then (groups ++ [g], Some fresh)
      else (groups,
            Some {| timelineDate := timelineDate g;
                    timelineDateString := timelineDateString g;
                    timelineMessages := timelineMessages g ++ [message] |})
  end.

Definition groupMessagesByDate (now : Z) (messages0 : list Message)
  : list TimelineGroup :=
  match messages0 with
  | [] => []
  | _ =>
      let sortedMessages := sortBy timestamp messages0 in
      let '(groups, currentGroup) :=
        foldl (dateGroupStep now) ([], None) sortedMessages in
      groups ++ option_list currentGroup
  end.

(** [searchMessages] *)
Definition matchesQuery (lowerQuery : jsstring) (message : Message) : bool :=
  includes (toLowerCase (content message)) lowerQuery
  || includes (toLowerCase (sender message)) lowerQuery
  || match mediaFileName message with
     | Some fn => includes (toLowerCase fn) lowerQuery
     | None => false
     end.

Definition searchMessages (messages0 : list Message) (query : jsstring)
  : list Message :=
  if negb (truthy (trim query)) then messages0
  else
    let lowerQuery := toLowerCase query in
    filter (λ message, matchesQuery lowerQuery message = true) messages0.

Definition extractMediaMessages (messages0 : list Message) : list Message :=
  filter (λ message, type message = TImage ∨ type message = TVideo
                     ∨ type message = TSticker) messages0.

Record MediaDateGroup := {
  mediaDate : Z;
  mediaDateString : jsstring;
  media : list Message
}.

(** The loop of [groupMediaByDate], over the media sorted newest first. *)
Definition mediaGroupStep
    (st : list MediaDateGroup * option MediaDateGroup) (message : Message)
  : list MediaDateGroup * option MediaDateGroup :=
  let '(groups, currentGroup) := st in
  let messageDate := startOfDay (timestamp message) in
  let fresh := {| mediaDate := messageDate;
                  mediaDateString := formatLongDate messageDate;
                  media := [message] |} in
  match currentGroup with
  | None => (groups, Some fresh)
  | Some g =>
      if negb (isSameDay (mediaDate g) messageDate)
      then (groups ++ [g], Some fresh)
      else (groups,
            Some {| mediaDate := mediaDate g;
                    mediaDateString := mediaDateString g;
                    media := media g ++ [message] |})
  end.

(** [sort((a, b) => b.timestamp.getTime() - a.timestamp.getTime())] is the
    stable sort by descending timestamp. *)
Definition groupMediaByDate (mediaMessages : list Message) : list MediaDateGroup :=
  let sortedMedia := sortBy (λ m, - timestamp m) mediaMessages in
  let '(groups, currentGroup) := foldl mediaGroupStep ([], None) sortedMedia in
  groups ++ option_list currentGroup.

(** [s.split(/\s+/)]: the pieces between the maximal runs of white space;
    a run at either end leaves an empty piece there. *)
Fixpoint splitSpaces (inRun : bool) (s : jsstring) : list jsstring :=
  match s with
  | [] => [[]]
  | c :: r =>
      if isSpace c
      then if inRun then splitSpaces true r else [] :: splitSpaces true r
      else match splitSpaces false r with
           | p :: ps => (c :: p) :: ps
           | [] => [[c]]
           end
  end.

(** [a + b] where each operand is a one-unit string or [undefined] (a
    string index out of range): a string unless both are [undefined],
    when the sum is the number NaN. *)
Definition plusUnits (a b : option N) : option jsstring :=
  match a, b with
  | Some x, Some y => Some [x; y]
  | Some x, None => Some (x :: js "undefined")
  | None, Some y => Some (js "undefined" ++ [y])
  | None, None => None
  end.

Definition notAFunctionMessage : jsstring :=
  js "(words[0][0] + words[(words.length - 1)][0]).toUpperCase is not a function".

(** [getInitials]; calling [toUpperCase] on a number throws a TypeError. *)
Definition getInitials (name : jsstring) : Completion jsstring :=
  let words := splitSpaces false (trim name) in
  match words with
  | [w] => Normal (toUpperCase (take 2 w))
  | _ =>
      match plusUnits (head (default [] (head words)))
                      (head (default [] (last words))) with
      | Some s => Normal (toUpperCase s)
      | None => Throw notAFunctionMessage
      end
  end.

(** [ToInt32]: the signed 32-bit integer congruent to [z]. *)
Definition toInt32 (z : Z) : Z := (z + 2 ^ 31) mod 2 ^ 32 - 2 ^ 31.

(** [hash << 5] *)
Definition shiftLeft5 (hash : Z) : Z := toInt32 (toInt32 hash * 32).

(** The loop of [getParticipantColor]:
    [hash = name.charCodeAt(i) + ((hash << 5) - hash)]. *)
Definition colorHash (name : jsstring) : Z :=
  foldl (λ hash c, Z.of_N c + (shiftLeft5 hash - hash)) 0 name.

(** [None] is [undefined], the element of an empty palette at index NaN. *)
Definition getParticipantColor (name : jsstring) (colorPalette : list jsstring)
  : option jsstring :=
  match colorPalette with
  | [] => None
  | _ =>
      let index := Z.abs (colorHash name) mod Z.of_nat (length colorPalette) in
      colorPalette !! Z.to_nat index
  end.

(** ** Virtual list of the chat view (components/ChatView.tsx) *)

Inductive VirtualItem :=
| DateItem (dateString : jsstring)
| BubbleGroupItem (bubbleGroup : MessageBubbleGroup) (isGroup0 : bool).

Definition flattenForVirtualization (dateGroups : list TimelineGroup)
    (isGroup0 : bool) : list VirtualItem :=
  foldl (λ items dateGroup,
           foldl (λ items bubbleGroup, items ++ [BubbleGroupItem bubbleGroup isGroup0])
                 (items ++ [DateItem (timelineDateString dateGroup)])
                 (groupMessagesIntoBubbles (timelineMessages dateGroup)))
        [] dateGroups.

(** ** ZIP extraction (utils/zipExtractor.ts) *)

Definition mediaExtensions : list jsstring :=
  js <$> [".jpg"; ".jpeg"; ".png"; ".gif"; ".webp"; ".bmp"; ".heic"; ".heif";
          ".mp4"; ".mov"; ".avi"; ".mkv"; ".webm"; ".3gp";
          ".mp3"; ".ogg"; ".opus"; ".m4a"; ".aac"; ".wav"; ".amr";
          ".pdf"; ".doc"; ".docx"; ".xls"; ".xlsx"; ".ppt"; ".pptx"; ".txt";
          ".zip"; ".rar"; ".7z";
          ".csv"; ".json"; ".xml";
          ".pkpass"; ".vcf"; ".apk"; ".ics";
          ".html"; ".htm"]%string.

Definition isMediaFile (fileName0 : jsstring) : bool :=
  let lowerFileName := toLowerCase fileName0 in
  existsb (λ ext, endsWith lowerFileName ext) mediaExtensions.

Definition mimeTypes : list (jsstring * jsstring) :=
  (λ p, (js p.1, js p.2)) <$>
  [("jpg", "image/jpeg"); ("jpeg", "image/jpeg"); ("png", "image/png");
   ("gif", "image/gif"); ("webp", "image/webp"); ("bmp", "image/bmp");
   ("heic", "image/heic"); ("heif", "image/heif");
   ("mp4", "video/mp4"); ("mov", "video/quicktime"); ("avi", "video/x-msvideo");
   ("mkv", "video/x-matroska"); ("webm", "video/webm"); ("3gp", "video/3gpp");
   ("mp3", "audio/mpeg"); ("ogg", "audio/ogg"); ("opus", "audio/opus");
   ("m4a", "audio/mp4"); ("aac", "audio/aac"); ("wav", "audio/wav");
   ("amr", "audio/amr");
   ("pdf", "application/pdf"); ("doc", "application/msword");
   ("docx", "application/vnd.openxmlformats-officedocument.wordprocessingml.document");
   ("xls", "application/vnd.ms-excel");
   ("xlsx", "application/vnd.openxmlformats-officedocument.spreadsheetml.sheet");
   ("ppt", "application/vnd.ms-powerpoint");
   ("pptx", "application/vnd.openxmlformats-officedocument.presentationml.presentation");
   ("txt", "text/plain"); ("zip", "application/zip");
   ("rar", "application/x-rar-compressed"); ("7z", "application/x-7z-compressed");
   ("csv", "text/csv"); ("json", "application/json"); ("xml", "application/xml");
   ("pkpass", "application/vnd.apple.pkpass"); ("vcf", "text/vcard");
   ("apk", "application/vnd.android.package-archive"); ("ics", "text/calendar");
   ("html", "text/html"); ("htm", "text/html")]%string.

(** The value of [mimeTypes[extension] || 'application/octet-stream'].  The
    table is an object literal, so a key it does not hold is looked up on
    [Object.prototype]: of the names found there only [constructor] and
    [__proto__] are in lower case, and they give an object, not a string. *)
Inductive MimeValue :=
| MimeString (s : jsstring)
| InheritedObject (property : jsstring).

Definition lookupMime (extension : jsstring) : option jsstring :=
  (list_find (λ p, p.1 = extension) mimeTypes) ≫= λ r, Some r.2.2.

Definition getMimeType (fileName0 : jsstring) : MimeValue :=
  let extension := orString (default [] (pop (splitOn 46 (toLowerCase fileName0)))) [] in
  match lookupMime extension with
  | Some mime => MimeString mime
  | None =>
      if bool_decide (extension = js "constructor")
         || bool_decide (extension = js "__proto__")
      then InheritedObject extension
      else MimeString (js "application/octet-stream")
  end.

(** What the callback of [zip.forEach] in [extractWhatsAppBackup] does with
    one entry: it reads it as a chat transcript, as a media file, or leaves
    it out. *)
Inductive ZipEntryUse :=
| ChatTranscript (name : jsstring)
| MediaEntry (path : jsstring) (mime : MimeValue)
| NotExtracted.

Definition classifyZipEntry (relativePath : jsstring) (dir : bool) : ZipEntryUse :=
  if dir then NotExtracted
  else
    let fileName0 := baseName relativePath relativePath in
    let lowerFileName := toLowerCase fileName0 in
    if endsWith lowerFileName (js ".txt")
       && (includes lowerFileName (js "chat") || includes lowerFileName (js "_chat"))
    then ChatTranscript fileName0
    else if isMediaFile fileName0
    then MediaEntry relativePath (getMimeType fileName0)
    else NotExtracted.

(** ** Specification-level definitions for the added modules *)

(** The key under which [mergeParticipants] files a participant. *)
Definition participantKey (p : Participant) : jsstring :=
  trim (toLowerCase (participantName p)).

(** The elements of [l] whose key is neither in [earlier] nor carried by an
    element before them in [l]. *)
Fixpoint firstOccurrencesBy {A : Type} (key : A → jsstring)
    (earlier : list jsstring) (l : list A) : list A :=
  match l with
  | [] => []
  | x :: r =>
      (if decide (key x ∈ earlier) then [] else [x])
      ++ firstOccurrencesBy key (earlier ++ [key x]) r
  end.

(** A bubble group that starts with a system message (it is then the
    singleton group of that message). *)
Definition startsWithSystem (g : MessageBubbleGroup) : Prop :=
  ∃ m ms, groupMessages g = m :: ms ∧ type m = TSystem.

(** The first message of [g2] is a user message that would have been
    taken into the user group [g1]. *)
Definition couldJoin (g1 g2 : MessageBubbleGroup) : Prop :=
  ∃ m ms, groupMessages g2 = m :: ms ∧ type m ≠ TSystem
          ∧ ¬ startsWithSystem g1 ∧ shouldGroup g1 m = true.

(** The messages a virtual list shows, in order. *)
Definition itemMessages (items : list VirtualItem) : list Message :=
  items ≫= λ item,
    match item with
    | DateItem _ => []
    | BubbleGroupItem bubbleGroup _ => groupMessages bubbleGroup
    end.

(** The rows of one day: its separator, then its bubble groups. *)
Definition dayRows (isGroup0 : bool) (dateGroup : TimelineGroup) : list VirtualItem :=
  DateItem (timelineDateString dateGroup)
  :: ((λ g, BubbleGroupItem g isGroup0)
        <$> groupMessagesIntoBubbles (timelineMessages dateGroup)).

(** Invariant of the grouping loop: no group could have taken the first
    message of the group after it, every group has a message, and when no
    group is open the last finished group is a system group. *)
Definition maximalInv (st : list MessageBubbleGroup * option MessageBubbleGroup)
  : Prop :=
  let L := closeGroup st.1 st.2 in
  (∀ i g1 g2, L !! i = Some g1 → L !! S i = Some g2 → ¬ couldJoin g1 g2)
  ∧ Forall (λ g, groupMessages g ≠ []) L
  ∧ (st.2 = None → ∀ g, last st.1 = Some g → startsWithSystem g).

(** The two day-grouping loops ([groupMessagesByDate], [groupMediaByDate])
    have one shape: [fresh] starts a group, [push] appends to the open
    one; [s] is 1 for a walk by ascending timestamp and -1 for a walk by
    descending timestamp. *)
Section DayGrouping.
Context {G : Type} (dateOf : G → Z) (msgsOf : G → list Message).
Context (fresh : Message → G) (push : G → Message → G) (s : Z).

Definition dayStep (st : list G * option G) (message : Message)
  : list G * option G :=
  match st.2 with
  | None => (st.1, Some (fresh message))
  | Some g =>
      if negb (isSameDay (dateOf g) (startOfDay (timestamp message)))
      then (st.1 ++ [g], Some (fresh message))
      else (st.1, Some (push g message))
  end.

Definition dayGroupOk (g : G) : Prop :=
  msgsOf g ≠ []
  ∧ Forall (λ m, startOfDay (timestamp m) = dateOf g) (msgsOf g).

Definition dayInv (walked : list Message) (st : list G * option G) : Prop :=
  let L := st.1 ++ option_list st.2 in
  concat (msgsOf <$> L) = walked
  ∧ Forall dayGroupOk L
  ∧ StronglySorted Z.lt ((λ g, s * dateOf g) <$> L)
  ∧ (st.2 = None → st.1 = []).

End DayGrouping.

(** The group opened for a message, and the group after one more message,
    in [groupMessagesByDate] and in [groupMediaByDate]. *)
Definition freshTimelineGroup (now : Z) (message : Message) : TimelineGroup :=
  {| timelineDate := startOfDay (timestamp message);
     timelineDateString := formatDateSeparator now (startOfDay (timestamp message));
     timelineMessages := [message] |}.
Definition pushTimelineGroup (g : TimelineGroup) (message : Message) : TimelineGroup :=
  {| timelineDate := timelineDate g;
     timelineDateString := timelineDateString g;
     timelineMessages := timelineMessages g ++ [message] |}.

Definition freshMediaGroup (message : Message) : MediaDateGroup :=
  {| mediaDate := startOfDay (timestamp message);
     mediaDateString := formatLongDate (startOfDay (timestamp message));
     media := [message] |}.
Definition pushMediaGroup (g : MediaDateGroup) (message : Message) : MediaDateGroup :=
  {| mediaDate := mediaDate g;
     mediaDateString := mediaDateString g;
     media := media g ++ [message] |}.

(** The date separators of a virtual list, in order. *)
Definition itemDates (items : list VirtualItem) : list jsstring :=
  omap (λ item, match item with
                | DateItem dateString => Some dateString
                | BubbleGroupItem _ _ => None
                end) items.

(** Every white-space unit of [s] is a plain space that stands alone;
    with [afterSpace] the text moreover does not start with one. *)
Fixpoint singleSpaced (afterSpace : bool) (s : jsstring) : Prop :=
  match s with
  | [] => True
  | c :: r =>
      if isSpace c then c = 32%N ∧ afterSpace = false ∧ singleSpaced true r
      else singleSpaced false r
  end.

(** [s] starts with [p], letter case aside. *)
Definition startsWithIgnoreCase (s : jsstring) (p : string) : Prop :=
  ∃ pre rest, s = pre ++ rest ∧ canonicalize pre = canonicalize (js p).

(** A non-empty string of decimal digits. *)
Definition digitString (s : jsstring) : Prop :=
  s ≠ [] ∧ Forall (λ c, isDigit c = true) s.

(** [a/b/y] *)
Definition slashDate (a b y : jsstring) : jsstring :=
  a ++ 47%N :: b ++ 47%N :: y.

(** The four spellings of the meridiem the time pattern accepts. *)
Definition meridiems : list jsstring := js <$> ["AM"; "PM"; "am"; "pm"]%string.

(** [h:mm], with optional [:ss], optional white space and optional
    meridiem. *)
Definition timeString (h mm : jsstring) (ss : option jsstring) (sp : jsstring)
    (mer : option jsstring) : jsstring :=
  h ++ 58%N :: mm
  ++ match ss with Some s => 58%N :: s | None => [] end
  ++ sp ++ default [] mer.

(** The hour of the day for an hour field and a meridiem. *)
Definition hourOfDay (hours : Z) (mer : option jsstring) : Z :=
  if bool_decide (toUpperCase <$> mer = Some (js "PM")) && (hours <? 12)
  then hours + 12
  else if bool_decide (toUpperCase <$> mer = Some (js "AM")) && (hours =? 12)
  then 0 else hours.

(** The text after a call phrase, less one leading comma. *)
Definition afterComma (rest : jsstring) : jsstring :=
  match rest with
  | 44%N :: r => r
  | _ => rest
  end.

(** The prefixes [extractChatName] strips from a file name. *)
Definition exportPrefixes : list string :=
  ["WhatsApp Chat with "; "WhatsApp Chat - "; "Chat with "]%string.

(** A chat name that [extractChatName] has no reason to change: trimmed,
    not empty, not the word chat, not [_chat], and not starting with an
    export prefix itself. *)
Definition plainName (n : jsstring) : Prop :=
  trim n = n ∧ n ≠ []
  ∧ toLowerCase n ≠ js "chat"
  ∧ canonicalize n ≠ canonicalize (js "_chat")
  ∧ ∀ p, p ∈ exportPrefixes → ¬ startsWithIgnoreCase n p.

(** An attachment index of one photo, and a chat that refers to it. *)
Definition samplePhoto : MediaFile :=
  {| fileName := js "Media/IMG-20240102-WA0001.jpg"; url := js "blob:1";
     mimeType := js "image/jpeg"; fileSize := Some 1000;
     fileDriveFileId := None; thumbnailLink := None |}.

Definition samplePhotoChat : jsstring :=
  js "1/2/24, 10:00 - Ann: IMG-20240102-WA0001.jpg (file attached)".

(** The participant made for the [index]-th new sender. *)
Definition participantOf (index : nat) (name : jsstring) : Participant :=
  {| participantId := generateParticipantId name;
     participantName := name;
     phoneNumber := None;
     color := default [] (generateParticipantColors
                            !! (index mod length generateParticipantColors)%nat) |}.

(** The messages that are not system messages. *)
Definition userMessages (messages0 : list Message) : list Message :=
  filter (λ m, type m ≠ TSystem) messages0.

(** The phrases of [groupPatterns]. *)
Definition groupPhrases : list string :=
  [ "created group"; "added"; "removed";
    "joined using this group's invite link";
    "changed the subject from"; "You're now an admin" ]%string.

(** [p] occurs somewhere in [s], letter case aside. *)
Definition containsIgnoreCase (s : jsstring) (p : string) : Prop :=
  ∃ skipped pre rest, s = skipped ++ pre ++ rest
                      ∧ canonicalize pre = canonicalize (js p).

(** A transcript of two senders in which the local user writes first. *)
Definition sampleTwoSenders : jsstring :=
  js "1/2/24, 10:00 - Rajiv: hi" ++ [10%N] ++ js "1/2/24, 10:01 - Ann: hello".

(** Every message of [l] carries the id made with its own position. *)
Definition idsBySeq (l : list Message) : Prop :=
  ∀ i msg, l !! i = Some msg →
    ∃ ts sender0, id msg = generateMessageId ts sender0 i.

(** ** Specification-level definitions for the media cache, continued *)

(** Every stored pair carries metadata, and sits under the request made
    from its own file id. *)
Definition cacheKeyed (st : MediaCacheService) : Prop :=
  Forall (λ e, ∃ md, entryMetadata e = Some md
                     ∧ entryRequest e = getCacheKey (metaDriveFileId md))
         (cacheStorage st).

(** Every URL of the memory map belongs to a non-empty file id, is not
    empty, and has a stored pair behind it. *)
Definition memoryBacked (st : MediaCacheService) : Prop :=
  ∀ fid url, memoryCache st !! fid = Some url →
    fid ≠ [] ∧ url ≠ []
    ∧ getCacheKey fid ∈ entryRequest <$> cacheStorage st.

(** A request for a named file, answered with a proper object URL and a
    byte count. *)
Definition requestProper (r : MediaRequest) : Prop :=
  reqDriveFileId r ≠ [] ∧ requestWellFormed r.

(** Two calls that overlap, resumed in turn until both have ended. *)
Definition twoOverlappingFetches : list Move :=
  [StartCall (sampleRequest "a" 5 1); StartCall (sampleRequest "b" 7 2)]
  ++ roundRobin 2 14.

(** Two calls in turn for the same file, at times 1 and 2; in the second,
    served from the memory map, the [cache.put] of [updateAccessTime],
    awaited fifth, is rejected. *)
Definition rejectedTouch : list Move :=
  [StartCall (sampleRequest "a" 5 1)] ++ replicate 14 (ResumeCall 0 true)
  ++ [StartCall (sampleRequest "a" 5 2)]
  ++ replicate 4 (ResumeCall 1 true) ++ [ResumeCall 1 false; ResumeCall 1 true].

(** One call in which [cache.put], awaited twelfth, is rejected. *)
Definition rejectedPut : list Move :=
  [StartCall (sampleRequest "a" 5 1)]
  ++ replicate 11 (ResumeCall 0 true) ++ [ResumeCall 0 false]
  ++ replicate 2 (ResumeCall 0 true).

(** The pairs of [storage] that are not stored under a request of
    [evicted]. *)
Definition withoutRequests (evicted storage : list CacheEntry) : list CacheEntry :=
  filter (λ x, entryRequest x ∉ entryRequest <$> evicted) storage.

(** An extension of [mediaExtensions] is a dot followed by a key of
    [mimeTypes] that holds no further dot. *)
Definition knownExtension (ext : jsstring) : bool :=
  match ext with
  | d :: e =>
      (d =? 46)%N && bool_decide (e ≠ []) && bool_decide (46%N ∉ e)
      && match lookupMime e with Some _ => true | None => false end
  | [] => false
  end.


(** * Decimal rendering of numbers *)

Section NumberFacts.

Lemma isDigit_small (d : N) : (d < 10)%N → isDigit (48 + d) = true.
Proof.
  intros Hd. unfold isDigit. apply andb_true_iff. split; apply N.leb_le; lia.
Qed.

Lemma digitsOf_spec fuel : ∀ n acc,
  (n < 2 ^ N.of_nat fuel)%N →
  ∃ ds, digitsOf fuel n acc = ds ++ acc
        ∧ Forall (λ c, isDigit c = true) ds
        ∧ ∀ a0 r, parseDigits (ds ++ r) a0
                  = parseDigits r (a0 * 10 ^ Z.of_nat (length ds) + Z.of_N n).
Proof.
  induction fuel as [|fuel IH]; intros n acc Hn.
  - exists []. split_and!; [done|constructor|].
    intros a0 r. simpl in *. f_equal. lia.
  - cbn [digitsOf]. destruct (N.ltb_spec n 10) as [Hlt|Hge].
    + exists [(48 + n mod 10)%N]. split_and!; [done| |].
      * apply Forall_singleton. rewrite N.mod_small by done.
        by apply isDigit_small.
      * intros a0 r. cbn [app parseDigits length]. rewrite N.mod_small by done.
        rewrite (isDigit_small n Hlt). f_equal. lia.
    + assert (Hdiv : (n / 10 < 2 ^ N.of_nat fuel)%N).
      { rewrite Nat2N.inj_succ, N.pow_succ_r' in Hn.
        apply N.Div0.div_lt_upper_bound. lia. }
      destruct (IH (n / 10)%N ((48 + n mod 10)%N :: acc) Hdiv)
        as (ds & -> & Hall & Hparse).
      assert (Hm : (n mod 10 < 10)%N) by (apply N.mod_lt; lia).
      pose proof (isDigit_small _ Hm) as Hd.
      exists (ds ++ [(48 + n mod 10)%N]). split_and!.
      * by rewrite <- app_assoc.
      * apply Forall_app. split; [done|by apply Forall_singleton].
      * intros a0 r. rewrite <- app_assoc. cbn [app]. rewrite Hparse.
        cbn [parseDigits]. rewrite Hd. f_equal.
        rewrite length_app. cbn [length]. rewrite Nat.add_1_r, Nat2Z.inj_succ.
        rewrite Z.pow_succ_r by lia.
        pose proof (N.div_mod n 10 ltac:(lia)) as Hdm.
        rewrite N2Z.inj_div, N2Z.inj_add. 
        assert (Z.of_N n = 10 * (Z.of_N n / 10) + Z.of_N (n mod 10)) as Hz.
        { rewrite N2Z.inj_mod. apply Z.div_mod. lia. }
        change (Z.of_N 10) with 10. change (Z.of_N 48) with 48. lia.
Qed.

Lemma numberToString_nat (n : nat) :
  Forall (λ c, isDigit c = true) (numberToString (Z.of_nat n))
  ∧ ∀ r, parseDigits (numberToString (Z.of_nat n) ++ r) 0
         = parseDigits r (Z.of_nat n).
Proof.
  unfold numberToString.
  destruct (Z.ltb_spec (Z.of_nat n) 0) as [?|_]; [lia|].
  set (k := Z.to_N (Z.abs (Z.of_nat n))).
  assert (Hk : Z.of_N k = Z.of_nat n) by (subst k; lia).
  assert (Hfuel : (k < 2 ^ N.of_nat (S (N.to_nat (N.log2 k))))%N).
  { rewrite Nat2N.inj_succ, N2Nat.id.
    destruct (N.eq_dec k 0%N) as [->|Hne]; [done|].
    apply N.log2_spec. lia. }
  destruct (digitsOf_spec _ k [] Hfuel) as (ds & -> & Hall & Hparse).
  rewrite app_nil_r. split; [done|]. intros r. rewrite Hparse, Hk.
  f_equal.
Qed.

Lemma numberToString_no_underscore z : 95%N ∉ numberToString z.
Proof.
  unfold numberToString.
  set (k := Z.to_N (Z.abs z)).
  assert (Hfuel : (k < 2 ^ N.of_nat (S (N.to_nat (N.log2 k))))%N).
  { rewrite Nat2N.inj_succ, N2Nat.id.
    destruct (N.eq_dec k 0%N) as [->|Hne]; [done|].
    apply N.log2_spec. lia. }
  destruct (digitsOf_spec _ k [] Hfuel) as (ds & -> & Hall & _).
  rewrite app_nil_r.
  assert (Hds : 95%N ∉ ds).
  { intros Hin. rewrite Forall_forall in Hall. by apply Hall in Hin. }
  destruct (z <? 0); [|done].
  intros [H|H]%elem_of_cons; done.
Qed.

Lemma split_at_first (sep : N) (a : jsstring) : ∀ a' r r',
  sep ∉ a → sep ∉ a' → a ++ sep :: r = a' ++ sep :: r' → a = a' ∧ r = r'.
Proof.
  induction a as [|x a IH]; intros [|y a'] r r' Ha Ha'; cbn [app].
  - by intros [= ->].
  - intros [= <- _]. exfalso. apply Ha'. by left.
  - intros [= -> _]. exfalso. apply Ha. by left.
  - intros [= -> Heq]. apply IH in Heq as [-> ->]; [done| |].
    + intros H. apply Ha. by right.
    + intros H. apply Ha'. by right.
Qed.


Lemma numberToString_fuel (k : N) :
  (k < 2 ^ N.of_nat (S (N.to_nat (N.log2 k))))%N.
Proof.
  rewrite Nat2N.inj_succ, N2Nat.id.
  destruct (N.eq_dec k 0%N) as [->|Hne]; [done|].
  apply N.log2_spec. lia.
Qed.

Lemma digitsOf_keeps fuel : ∀ n (acc : jsstring),
  acc ≠ [] → digitsOf fuel n acc ≠ [].
Proof.
  induction fuel as [|f IH]; intros n acc Hne; cbn [digitsOf]; [done|].
  destruct (n <? 10)%N; [done|]. by apply IH.
Qed.

Lemma digitsOf_nonempty fuel n acc : digitsOf (S fuel) n acc ≠ [].
Proof.
  cbn [digitsOf]. destruct (n <? 10)%N; [done|]. by apply digitsOf_keeps.
Qed.

(** The rendering of an integer: an optional minus sign, then digits. *)
Lemma numberToString_shape z :
  ∃ ds, ds ≠ [] ∧ Forall (λ c, isDigit c = true) ds
        ∧ numberToString z = (if z <? 0 then [45%N] else []) ++ ds
        ∧ ∀ r, parseDigits (ds ++ r) 0 = parseDigits r (Z.abs z).
Proof.
  unfold numberToString. set (k := Z.to_N (Z.abs z)).
  pose proof (digitsOf_nonempty (N.to_nat (N.log2 k)) k []) as Hne.
  destruct (digitsOf_spec _ k [] (numberToString_fuel k))
    as (ds & Hds & Hall & Hparse).
  rewrite Hds in *. rewrite app_nil_r in *. exists ds.
  split_and!; [done|done|by destruct (z <? 0)|].
  intros r. rewrite Hparse. f_equal. subst k. lia.
Qed.

Lemma numberToString_free (sep : N) z :
  isDigit sep = false → sep ≠ 45%N → sep ∉ numberToString z.
Proof.
  intros Hd Hm. destruct (numberToString_shape z) as (ds & _ & Hall & -> & _).
  rewrite elem_of_app. intros [Hin|Hin].
  - destruct (z <? 0); [|by apply elem_of_nil in Hin].
    by apply list_elem_of_singleton in Hin.
  - rewrite Forall_forall in Hall. apply Hall in Hin. congruence.
Qed.

Lemma numberToString_inj a b : numberToString a = numberToString b → a = b.
Proof.
  destruct (numberToString_shape a) as (da & Hna & Ha & -> & Hpa).
  destruct (numberToString_shape b) as (db & Hnb & Hb & -> & Hpb).
  assert (Hhead : ∀ ds, ds ≠ [] → Forall (λ c, isDigit c = true) ds →
            ∃ c r, ds = c :: r ∧ c ≠ 45%N).
  { intros [|c r] Hne Hall; [done|]. exists c, r. split; [done|].
    apply Forall_cons in Hall as [Hc _]. by intros ->. }
  destruct (Z.ltb_spec a 0) as [Hla|Hla], (Z.ltb_spec b 0) as [Hlb|Hlb];
    cbn [app]; intros Heq.
  - injection Heq as Heq. pose proof (Hpa []) as H1. pose proof (Hpb []) as H2.
    rewrite Heq in H1. rewrite H1 in H2. simpl in H2. lia.
  - destruct (Hhead db Hnb Hb) as (c & r & -> & Hc). by injection Heq as <-.
  - destruct (Hhead da Hna Ha) as (c & r & -> & Hc). by injection Heq as ->.
  - pose proof (Hpa []) as H1. pose proof (Hpb []) as H2.
    rewrite Heq in H1. rewrite H1 in H2. simpl in H2. lia.
Qed.

End NumberFacts.


(** * Sorting by timestamp *)


Section SortFacts.
Context {A : Type} (f : A → Z).

Lemma insertBy_Permutation x l : insertBy f x l ≡ₚ x :: l.
Proof.
  induction l as [|y r IH]; simpl; [done|].
  destruct (f x <=? f y); [done|].
  rewrite IH. apply perm_swap.
Qed.

Lemma sortBy_Permutation l : sortBy f l ≡ₚ l.
Proof.
  induction l as [|x l IH]; simpl; [done|].
  rewrite insertBy_Permutation. by rewrite IH.
Qed.

Lemma sortBy_length l : length (sortBy f l) = length l.
Proof. by rewrite sortBy_Permutation. Qed.

Lemma insertBy_sorted x l :
  StronglySorted (ascending f) l → StronglySorted (ascending f) (insertBy f x l).
Proof.
  induction 1 as [|y r Hr IH Hall]; simpl.
  - repeat constructor.
  - destruct (Z.leb_spec (f x) (f y)) as [Hle|Hgt].
    + constructor; [by constructor|].
      constructor; [done|].
      eapply Forall_impl; [exact Hall|]. unfold ascending. intros; lia.
    + constructor; [done|].
      rewrite insertBy_Permutation.
      constructor; [unfold ascending; lia|done].
Qed.

Lemma sortBy_sorted l : StronglySorted (ascending f) (sortBy f l).
Proof.
  induction l as [|x l IH]; simpl; [constructor|].
  by apply insertBy_sorted.
Qed.

(** Stability: elements with the same value of [f] keep their relative
    order. *)
Lemma insertBy_filter t x l :
  StronglySorted (ascending f) l →
  filter (λ m, f m = t) (insertBy f x l) = filter (λ m, f m = t) (x :: l).
Proof.
  induction 1 as [|y r Hr IH Hall]; simpl; [done|].
  destruct (Z.leb_spec (f x) (f y)) as [Hle|Hgt]; [done|].
  rewrite filter_cons, IH, !filter_cons.
  destruct (decide (f y = t)) as [Hy|Hy];
    destruct (decide (f x = t)) as [Hx|Hx]; try done.
  lia.
Qed.

Lemma sortBy_stable t l :
  filter (λ m, f m = t) (sortBy f l) = filter (λ m, f m = t) l.
Proof.
  induction l as [|x l IH]; simpl; [done|].
  rewrite insertBy_filter by apply sortBy_sorted.
  by rewrite !filter_cons, IH.
Qed.

Lemma sublist_StronglySorted (l1 l2 : list A) :
  l1 `sublist_of` l2 → StronglySorted (ascending f) l2 → StronglySorted (ascending f) l1.
Proof.
  induction 1 as [|x l1 l2 Hsub IH|x l1 l2 Hsub IH]; intros Hs.
  - constructor.
  - apply StronglySorted_inv in Hs as [Hs Hall]. constructor; [auto|].
    eapply Forall_forall. intros y Hy.
    eapply Forall_forall in Hall; [exact Hall|].
    eapply elem_of_submseteq; [exact Hy|by apply sublist_submseteq].
  - apply StronglySorted_inv in Hs as [Hs _]. auto.
Qed.

End SortFacts.

Lemma tsLe_ascending : tsLe = ascending timestamp.
Proof. reflexivity. Qed.

Lemma sortByTimestamp_Permutation l : sortByTimestamp l ≡ₚ l.
Proof. apply sortBy_Permutation. Qed.

Lemma sortByTimestamp_length l : length (sortByTimestamp l) = length l.
Proof. apply sortBy_length. Qed.

Lemma sortByTimestamp_sorted l : StronglySorted tsLe (sortByTimestamp l).
Proof. apply sortBy_sorted. Qed.

(** * Single-source merge *)


(** C8. Merging exactly one source array only sorts it: the result is the
    stable sort of that array by ascending timestamp, a permutation of the
    input of the same length; no dedup key takes part, so messages that
    share a key inside the single source are all kept. *)
Theorem single_source_merge_sorts_only (messages : list Message) :
  mergeMessages [messages] = sortByTimestamp messages
  ∧ mergeMessages [messages] ≡ₚ messages
  ∧ length (mergeMessages [messages]) = length messages
  ∧ StronglySorted tsLe (mergeMessages [messages])
  ∧ (∀ m k, getMessageKey m = k →
       length (filter (λ x, getMessageKey x = k) (mergeMessages [messages]))
       = length (filter (λ x, getMessageKey x = k) messages))
  ∧ mergeMessages [[sampleMessage 2000 "Alice" "hello";
                    sampleMessage 1000 "Bob" "hi";
                    sampleMessage 2000 "Alice" "hello"]]
    = [sampleMessage 1000 "Bob" "hi";
       sampleMessage 2000 "Alice" "hello";
       sampleMessage 2000 "Alice" "hello"].
Proof.
  split_and!.
  - done.
  - apply sortByTimestamp_Permutation.
  - apply sortByTimestamp_length.
  - apply sortByTimestamp_sorted.
  - intros m k _. simpl. by rewrite sortByTimestamp_Permutation.
  - vm_compute. reflexivity.
Qed.

(** * Multi-source merge *)


Section MergeFacts.

(** The loop invariant: [seenKeys] holds the keys of everything walked
    so far, and [merged] is what the specification keeps of it. *)
Lemma mergeStep_foldl l : ∀ earlier seen merged,
  (∀ k, k ∈ seen ↔ k ∈ getMessageKey <$> earlier) →
  (foldl mergeStep (seen, merged) l).2
  = merged ++ keepFirstOccurrences earlier l.
Proof.
  induction l as [|m r IH]; intros earlier seen merged Hseen; simpl.
  - by rewrite app_nil_r.
  - unfold mergeStep at 2. simpl.
    destruct (decide (getMessageKey m ∈ seen)) as [Hin|Hnin].
    + rewrite decide_True by (by apply Hseen).
      apply IH. intros k. rewrite Hseen, fmap_app, elem_of_app. simpl.
      rewrite list_elem_of_singleton. split; [tauto|].
      intros [?| ->]; [done|by apply Hseen].
    + rewrite decide_False by (by rewrite <- Hseen).
      rewrite (IH (earlier ++ [m])), <- app_assoc; [done|].
      intros k. rewrite elem_of_union, elem_of_singleton, Hseen.
      rewrite fmap_app, elem_of_app. simpl.
      rewrite list_elem_of_singleton. tauto.
Qed.

Lemma mergeMessages_multi (all : list (list Message)) :
  length all ≠ 1%nat → mergeMessages all = spec_mergeMessages all.
Proof.
  intros Hlen. unfold mergeMessages, spec_mergeMessages.
  destruct all as [|a [|b rest]]; [|done|].
  - done.
  - rewrite (mergeStep_foldl _ []); [done|]. intros k. simpl.
    rewrite elem_of_nil. set_solver.
Qed.

Lemma keepFirstOccurrences_sublist l : ∀ earlier,
  keepFirstOccurrences earlier l `sublist_of` l.
Proof.
  induction l as [|m r IH]; intros earlier; simpl; [done|].
  case_decide; simpl.
  - by apply sublist_cons.
  - by apply sublist_skip.
Qed.

Lemma keepFirstOccurrences_keys l : ∀ earlier k,
  k ∈ getMessageKey <$> keepFirstOccurrences earlier l ↔
  k ∈ getMessageKey <$> l ∧ k ∉ getMessageKey <$> earlier.
Proof.
  induction l as [|m r IH]; intros earlier k; simpl.
  - rewrite elem_of_nil. tauto.
  - rewrite fmap_app, elem_of_app, IH, elem_of_cons.
    rewrite fmap_app, elem_of_app. simpl. rewrite list_elem_of_singleton.
    case_decide as Hm; simpl.
    + rewrite elem_of_nil. split.
      * intros [[]|[Hk Hne]]. split; [by right|]. intros He. apply Hne. by left.
      * intros [[->|Hk] Hne]; [done|]. right. split; [done|].
        intros [He| ->]; [by apply Hne|done].
    + rewrite list_elem_of_singleton.
      destruct (decide (k = getMessageKey m)) as [->|Hne].
      * split; [intros _|intros _; by left]. split; [by left|done].
      * split.
        -- intros [Hk|[Hk Hn]]; [done|]. split; [by right|].
           intros He. apply Hn. by left.
        -- intros [[Hk|Hk] Hn]; [done|]. right. split; [done|].
           intros [He|He]; [by apply Hn|done].
Qed.

Lemma keepFirstOccurrences_NoDup l : ∀ earlier,
  NoDup (getMessageKey <$> keepFirstOccurrences earlier l).
Proof.
  induction l as [|m r IH]; intros earlier; simpl; [constructor|].
  case_decide; simpl; [apply IH|].
  constructor; [|apply IH].
  rewrite keepFirstOccurrences_keys, fmap_app, elem_of_app. simpl.
  rewrite list_elem_of_singleton. tauto.
Qed.

(** What is kept, position by position: the message at index [i] of the
    walk survives iff no earlier index carries its key. *)
Lemma keepFirstOccurrences_split l1 m l2 earlier :
  keepFirstOccurrences earlier (l1 ++ m :: l2)
  = keepFirstOccurrences earlier l1
    ++ (if decide (getMessageKey m ∈ getMessageKey <$> (earlier ++ l1))
        then [] else [m])
    ++ keepFirstOccurrences (earlier ++ l1 ++ [m]) l2.
Proof.
  revert earlier. induction l1 as [|x l1 IH]; intros earlier; simpl.
  - by rewrite app_nil_r.
  - rewrite IH, <- !app_assoc. simpl. done.
Qed.

End MergeFacts.

(** Messages that agree on the whole second, on the normalised sender and
    on the normalised content (text) or file name (media) share a key. *)
Lemma getMessageKey_text_congr (m1 m2 : Message) :
  timestamp m1 / 1000 = timestamp m2 / 1000 →
  trim (toLowerCase (sender m1)) = trim (toLowerCase (sender m2)) →
  mediaFileName m1 = None → mediaFileName m2 = None →
  trim (toLowerCase (content m1)) = trim (toLowerCase (content m2)) →
  getMessageKey m1 = getMessageKey m2.
Proof.
  intros Ht Hs H1 H2 Hc. unfold getMessageKey.
  by rewrite H1, H2, Ht, Hs, Hc.
Qed.

Lemma getMessageKey_media_congr (m1 m2 : Message) c1 f1 c2 f2 :
  timestamp m1 / 1000 = timestamp m2 / 1000 →
  trim (toLowerCase (sender m1)) = trim (toLowerCase (sender m2)) →
  mediaFileName m1 = Some (c1 :: f1) → mediaFileName m2 = Some (c2 :: f2) →
  toLowerCase (c1 :: f1) = toLowerCase (c2 :: f2) →
  getMessageKey m1 = getMessageKey m2.
Proof.
  intros Ht Hs H1 H2 Hc. unfold getMessageKey.
  by rewrite H1, H2, Ht, Hs, Hc.
Qed.

Lemma merge_pair_same_key (m1 m2 : Message) :
  getMessageKey m1 = getMessageKey m2 →
  length (mergeMessages [[m1]; [m2]]) = 1%nat.
Proof.
  intros Hk. rewrite mergeMessages_multi by done.
  unfold spec_mergeMessages.
  assert (Hone : ∀ a b, getMessageKey a = getMessageKey b →
            length (keepFirstOccurrences [] [a; b]) = 1%nat).
  { intros a b Hab. cbn [keepFirstOccurrences app].
    rewrite decide_False by (cbn; rewrite elem_of_nil; tauto).
    rewrite decide_True; [done|].
    cbn. rewrite Hab. apply list_elem_of_here. }
  unfold sortByTimestamp. cbn [concat app sortBy foldr insertBy].
  destruct (timestamp m1 <=? timestamp m2); by apply Hone.
Qed.

Section KeyFacts.

Lemma getMessageKey_parts m :
  getMessageKey m
  = numberToString (timestamp m / 1000 * 1000)
    ++ 124%N :: keySender m ++ 124%N :: keyBody m.
Proof.
  unfold getMessageKey, keySender, keyBody.
  by destruct (mediaFileName m) as [[|c fn]|].
Qed.

Lemma getMessageKey_eq m1 m2 :
  getMessageKey m1 = getMessageKey m2
  ↔ timestamp m1 / 1000 = timestamp m2 / 1000
    ∧ keySender m1 ++ 124%N :: keyBody m1 = keySender m2 ++ 124%N :: keyBody m2.
Proof.
  rewrite !getMessageKey_parts. split.
  - intros Heq. apply split_at_first in Heq as [Hts Hrest];
      [|by apply numberToString_free..].
    apply numberToString_inj in Hts. split; [lia|done].
  - intros [Hts Hrest]. by rewrite Hts, Hrest.
Qed.

Lemma getMessageKey_eq_parts m1 m2 :
  (124%N ∉ keySender m1) → (124%N ∉ keySender m2) →
  getMessageKey m1 = getMessageKey m2
  ↔ timestamp m1 / 1000 = timestamp m2 / 1000
    ∧ keySender m1 = keySender m2 ∧ keyBody m1 = keyBody m2.
Proof.
  intros H1 H2. rewrite getMessageKey_eq. split.
  - intros [Hts Heq]. by apply split_at_first in Heq as [? ?].
  - intros (Hts & Hs & Hb). by rewrite Hs, Hb.
Qed.

Lemma merge_pair (m1 m2 : Message) :
  length (mergeMessages [[m1]; [m2]])
  = if decide (getMessageKey m1 = getMessageKey m2) then 1%nat else 2%nat.
Proof.
  destruct (decide _) as [Heq|Hne]; [by apply merge_pair_same_key|].
  rewrite mergeMessages_multi by done. unfold spec_mergeMessages.
  assert (Htwo : ∀ a b, getMessageKey a ≠ getMessageKey b →
            length (keepFirstOccurrences [] [a; b]) = 2%nat).
  { intros a b Hab. cbn [keepFirstOccurrences app].
    rewrite decide_False by (cbn; rewrite elem_of_nil; tauto).
    rewrite decide_False; [done|].
    cbn. rewrite list_elem_of_singleton. congruence. }
  unfold sortByTimestamp. cbn [concat app sortBy foldr insertBy].
  destruct (timestamp m1 <=? timestamp m2); apply Htwo; congruence.
Qed.

End KeyFacts.

(** C2. With two or more sources the merger pools all messages, sorts the
    pool by ascending timestamp and keeps exactly the first message of the
    sorted pool for each dedup key.  The key is the timestamp cut to the
    whole second, a bar, the sender in lower case and trimmed, a bar, and
    the media file name in lower case after the tag media: or else the
    content in lower case and trimmed: two messages have the same key
    exactly when they are of the same second and agree on what follows
    the first bar, hence, for senders without a bar, exactly when they
    agree on the second, the sender part and the body part; of two
    messages from two sources one is kept when the keys agree and both
    when they differ.  Two messages of different sources with sender
    Alice, content hello and times 12:00:00.100 and 12:00:00.900 merge into
    one, and so do messages whose senders differ only by the case of a
    letter outside ASCII. *)
Theorem multi_source_merge_keeps_first_of_each_key
    (allMessages : list (list Message)) :
  (2 ≤ length allMessages)%nat →
  let pool := sortByTimestamp (concat allMessages) in
  let merged := mergeMessages allMessages in
  merged = spec_mergeMessages allMessages
  ∧ pool ≡ₚ concat allMessages
  ∧ StronglySorted tsLe pool
  ∧ merged `sublist_of` pool
  ∧ StronglySorted tsLe merged
  ∧ NoDup (getMessageKey <$> merged)
  ∧ (∀ k, k ∈ getMessageKey <$> merged ↔ k ∈ getMessageKey <$> concat allMessages)
  ∧ (∀ l1 m l2, pool = l1 ++ m :: l2 →
       merged = keepFirstOccurrences [] l1
                ++ (if decide (getMessageKey m ∈ getMessageKey <$> l1)
                    then [] else [m])
                ++ keepFirstOccurrences (l1 ++ [m]) l2)
  ∧ (∀ m, getMessageKey m
          = numberToString (timestamp m / 1000 * 1000)
            ++ 124%N :: keySender m ++ 124%N :: keyBody m)
  ∧ (∀ m1 m2,
       getMessageKey m1 = getMessageKey m2
       ↔ timestamp m1 / 1000 = timestamp m2 / 1000
         ∧ keySender m1 ++ 124%N :: keyBody m1
           = keySender m2 ++ 124%N :: keyBody m2)
  ∧ (∀ m1 m2,
       (124%N ∉ keySender m1) → (124%N ∉ keySender m2) →
       getMessageKey m1 = getMessageKey m2
       ↔ timestamp m1 / 1000 = timestamp m2 / 1000
         ∧ keySender m1 = keySender m2 ∧ keyBody m1 = keyBody m2)
  ∧ (∀ m1 m2,
       length (mergeMessages [[m1]; [m2]])
       = if decide (getMessageKey m1 = getMessageKey m2) then 1%nat else 2%nat)
  ∧ (∀ m1 m2,
       timestamp m1 / 1000 = timestamp m2 / 1000 →
       trim (toLowerCase (sender m1)) = trim (toLowerCase (sender m2)) →
       mediaFileName m1 = None → mediaFileName m2 = None →
       trim (toLowerCase (content m1)) = trim (toLowerCase (content m2)) →
       length (mergeMessages [[m1]; [m2]]) = 1%nat)
  ∧ (∀ m1 m2 c1 f1 c2 f2,
       timestamp m1 / 1000 = timestamp m2 / 1000 →
       trim (toLowerCase (sender m1)) = trim (toLowerCase (sender m2)) →
       mediaFileName m1 = Some (c1 :: f1) → mediaFileName m2 = Some (c2 :: f2) →
       toLowerCase (c1 :: f1) = toLowerCase (c2 :: f2) →
       length (mergeMessages [[m1]; [m2]]) = 1%nat)
  ∧ mergeMessages [[sampleMessage 1704110400100 "Alice" "hello"];
                   [sampleMessage 1704110400900 "Alice" "hello"]]
    = [sampleMessage 1704110400100 "Alice" "hello"]
  ∧ mergeMessages [[textMessage 1704110400100 (201%N :: js "MILE") (js " Hello ")];
                   [textMessage 1704110400900 (233%N :: js "mile") (js "hello")]]
    = [textMessage 1704110400100 (201%N :: js "MILE") (js " Hello ")]
  ∧ mergeMessages [[mediaMessage 1704110400100 (js "Alice") (js "IMG-1.JPG")];
                   [mediaMessage 1704110400900 (js "alice ") (js "img-1.jpg")]]
    = [mediaMessage 1704110400100 (js "Alice") (js "IMG-1.JPG")]
  ∧ length (mergeMessages [[sampleMessage 1704110400900 "Alice" "hello"];
                           [sampleMessage 1704110401100 "Alice" "hello"]]) = 2%nat
  ∧ length (mergeMessages [[sampleMessage 1704110400100 "Alice" "hello"];
                           [sampleMessage 1704110400900 "Alina" "hello"]]) = 2%nat
  ∧ length (mergeMessages [[sampleMessage 1704110400100 "Alice" "hello"];
                           [sampleMessage 1704110400900 "Alice" "hello!"]]) = 2%nat
  ∧ length (mergeMessages [[mediaMessage 1704110400100 (js "Alice") (js "IMG-1.jpg")];
                           [mediaMessage 1704110400900 (js "Alice") (js "IMG-2.jpg")]])
    = 2%nat.
Proof.
  intros Hlen pool merged.
  assert (Hm : merged = spec_mergeMessages allMessages).
  { apply mergeMessages_multi. lia. }
  assert (Hsub : merged `sublist_of` pool).
  { rewrite Hm. apply keepFirstOccurrences_sublist. }
  split_and!.
  - done.
  - apply sortByTimestamp_Permutation.
  - apply sortByTimestamp_sorted.
  - done.
  - eapply (sublist_StronglySorted timestamp); [done|apply sortByTimestamp_sorted].
  - rewrite Hm. apply keepFirstOccurrences_NoDup.
  - intros k. rewrite Hm. unfold spec_mergeMessages.
    rewrite keepFirstOccurrences_keys, sortByTimestamp_Permutation.
    simpl. rewrite elem_of_nil. tauto.
  - intros l1 m l2 Hpool. rewrite Hm. unfold spec_mergeMessages.
    fold pool. rewrite Hpool. apply keepFirstOccurrences_split.
  - apply getMessageKey_parts.
  - apply getMessageKey_eq.
  - apply getMessageKey_eq_parts.
  - apply merge_pair.
  - intros m1 m2 Ht Hs H1 H2 Hc. apply merge_pair_same_key.
    by apply getMessageKey_text_congr.
  - intros m1 m2 c1 f1 c2 f2 Ht Hs H1 H2 Hc. apply merge_pair_same_key.
    by eapply getMessageKey_media_congr.
  - vm_compute. reflexivity.
  - vm_compute. reflexivity.
  - vm_compute. reflexivity.
  - vm_compute. reflexivity.
  - vm_compute. reflexivity.
  - vm_compute. reflexivity.
  - vm_compute. reflexivity.
Qed.

Lemma multi_source_merge_witness :
  mergeMessages [[sampleMessage 1704110400100 "Alice" "hello"];
                 [sampleMessage 1704110400900 "Alice" "hello"]]
  = spec_mergeMessages [[sampleMessage 1704110400100 "Alice" "hello"];
                        [sampleMessage 1704110400900 "Alice" "hello"]].
Proof.
  apply (multi_source_merge_keeps_first_of_each_key
           [[sampleMessage 1704110400100 "Alice" "hello"];
            [sampleMessage 1704110400900 "Alice" "hello"]]).
  simpl. lia.
Defined.


(** * Bubble grouping *)

Section BubbleFacts.

Lemma differenceInMinutes_le_10 a b :
  differenceInMinutes a b <= 10 ↔ a - b < 660000.
Proof.
  unfold differenceInMinutes.
  destruct (Z_lt_le_dec (a - b) 0) as [Hneg|Hpos].
  - assert (Z.quot (a - b) 60000 <= 0) by (apply Z.quot_le_upper_bound; lia).
    lia.
  - rewrite Z.quot_div_nonneg by lia.
    split; intros H.
    + apply Z.nle_gt. intros Hge.
      assert (11 <= (a - b) / 60000) by (apply Z.div_le_lower_bound; lia).
      lia.
    + assert ((a - b) / 60000 < 11) by (apply Z.div_lt_upper_bound; lia).
      lia.
Qed.

Lemma shouldGroup_spec g m :
  shouldGroup g m = true ↔
  groupSender g = sender m ∧ groupIsOutgoing g = isOutgoing m
  ∧ timestamp m - groupTimestamp g < 660000.
Proof.
  unfold shouldGroup.
  rewrite !andb_true_iff, !bool_decide_eq_true, Z.leb_le.
  rewrite differenceInMinutes_le_10. tauto.
Qed.

Lemma extendsGroup_iff g m :
  type m ≠ TSystem →
  (extendsGroup g m ↔ shouldGroup g m = true).
Proof.
  intros Hty. unfold extendsGroup. split.
  - intros H. specialize (H []). unfold bubbleStep in H.
    rewrite decide_False in H by done.
    destruct (shouldGroup g m); [done|]. simpl in H. congruence.
  - intros H bgs. unfold bubbleStep.
    rewrite decide_False by done. by rewrite H.
Qed.

Lemma bubbleStep_system bubbleGroups currentGroup m :
  type m = TSystem →
  bubbleStep (bubbleGroups, currentGroup) m
  = (closeGroup bubbleGroups currentGroup ++ [systemGroup m], None).
Proof. intros Hty. unfold bubbleStep. by rewrite decide_True. Qed.


Lemma groupWellFormed_system m : type m = TSystem → groupWellFormed (systemGroup m).
Proof. intros H. exists m, []. simpl. split_and!; try done. Qed.

Lemma groupWellFormed_new m : type m ≠ TSystem → groupWellFormed (newGroup m).
Proof. intros H. exists m, []. simpl. split_and!; try done. Qed.

Lemma groupWellFormed_push g m :
  type m ≠ TSystem → shouldGroup g m = true →
  groupWellFormed g →
  (∀ m0 ms, groupMessages g = m0 :: ms → type m0 ≠ TSystem) →
  groupWellFormed (pushMessage g m).
Proof.
  intros Hty Hsg (m0 & ms & Hms & Hts & Hs & Hsys & Huser) Hns.
  apply shouldGroup_spec in Hsg as (Hs' & Ho' & Hd').
  specialize (Hns _ _ Hms). destruct (Huser Hns) as [Ho Hall].
  exists m0, (ms ++ [m]). simpl. rewrite Hms. split_and!; try done.
  intros _. split; [done|].
  apply Forall_app. split; [done|]. constructor; [|done].
  split_and!; try congruence.
  apply differenceInMinutes_le_10. lia.
Qed.

Lemma closeGroup_app bgs cur : ∀ x,
  concat (groupMessages <$> (closeGroup bgs cur ++ [x]))
  = concat (groupMessages <$> closeGroup bgs cur) ++ groupMessages x.
Proof.
  intros x. rewrite fmap_app, concat_app. simpl. by rewrite app_nil_r.
Qed.


Lemma bubbleStep_inv walked st m :
  bubbleInv walked st → openUser st →
  bubbleInv (walked ++ [m]) (bubbleStep st m) ∧ openUser (bubbleStep st m).
Proof.
  destruct st as [bgs cur]. intros [Hcat Hwf] Hopen.
  unfold bubbleStep. destruct (decide (type m = TSystem)) as [Hty|Hty].
  - split; [|by intros ? ? ? ?].
    split; simpl.
    + rewrite closeGroup_app. simpl in Hcat. by rewrite Hcat.
    + apply Forall_app. split; [done|].
      constructor; [by apply groupWellFormed_system|done].
  - destruct cur as [g|]; simpl in *.
    + destruct (shouldGroup g m) eqn:Hsg.
      * split.
        -- split; simpl.
           ++ rewrite fmap_app, concat_app in *. simpl in *.
              rewrite app_nil_r in *. rewrite <- Hcat.
              by rewrite app_assoc.
           ++ apply Forall_app in Hwf as [Hwf1 Hwf2].
              apply Forall_app. split; [done|].
              rewrite Forall_singleton. rewrite Forall_singleton in Hwf2.
              apply groupWellFormed_push; [done|done|exact Hwf2|].
              intros m0 ms Hms. by eapply (Hopen g).
        -- intros g' m0 ms [= <-] Hms. simpl in Hms.
           apply Forall_app in Hwf as [_ Hwf2].
           rewrite Forall_singleton in Hwf2.
           destruct Hwf2 as (m1 & ms1 & Hms1 & _).
           rewrite Hms1 in Hms. simpl in Hms. injection Hms as <- _.
           by eapply (Hopen g).
      * split.
        -- split; simpl.
           ++ rewrite fmap_app, concat_app. simpl. by rewrite Hcat.
           ++ apply Forall_app. split; [done|].
              rewrite Forall_singleton. by apply groupWellFormed_new.
        -- intros g' m0 ms [= <-] [= <- _]. done.
    + split.
      * split; simpl.
        -- rewrite fmap_app, concat_app. simpl. by rewrite Hcat.
        -- apply Forall_app. split; [done|].
           rewrite Forall_singleton. by apply groupWellFormed_new.
      * intros g' m0 ms [= <-] [= <- _]. done.
Qed.

Lemma foldl_bubbleStep_inv l : ∀ walked st,
  bubbleInv walked st → openUser st →
  bubbleInv (walked ++ l) (foldl bubbleStep st l).
Proof.
  induction l as [|m l IH]; intros walked st Hinv Hopen; simpl.
  - by rewrite app_nil_r.
  - destruct (bubbleStep_inv walked st m Hinv Hopen) as [Hinv' Hopen'].
    specialize (IH _ _ Hinv' Hopen'). by rewrite <- app_assoc in IH.
Qed.

Lemma groupMessagesIntoBubbles_inv messages :
  concat (groupMessages <$> groupMessagesIntoBubbles messages) = messages
  ∧ Forall groupWellFormed (groupMessagesIntoBubbles messages).
Proof.
  unfold groupMessagesIntoBubbles. destruct messages as [|m l]; [done|].
  pose proof (foldl_bubbleStep_inv (m :: l) [] ([], None)) as H.
  destruct (foldl bubbleStep ([], None) (m :: l)) as [bgs cur].
  apply H; [by split|]. by intros ? ? ? ?.
Qed.

End BubbleFacts.

(** C4, as stated, fails: a message of the same sender and polarity that
    is ten and a half minutes after the group's first message, hence more
    than ten minutes after it, still extends the group, because the
    window test compares the whole-minute difference rounded toward
    zero. *)
Lemma bubble_window_is_not_ten_minutes_exact :
  let first := at_time "Bob" 10 0 0 in
  let late := at_time "Bob" 10 10 30 in
  type late ≠ TSystem
  ∧ sender late = groupSender (newGroup first)
  ∧ isOutgoing late = groupIsOutgoing (newGroup first)
  ∧ ¬ (timestamp late - groupTimestamp (newGroup first) <= 10 * 60 * 1000)
  ∧ extendsGroup (newGroup first) late
  ∧ groupMessagesIntoBubbles [first; late]
    = [pushMessage (newGroup first) late].
Proof.
  intros first late.
  assert (Hext : extendsGroup (newGroup first) late).
  { apply extendsGroup_iff; [done|]. vm_compute. reflexivity. }
  split_and!; [done|done|done| |exact Hext|vm_compute; reflexivity].
  vm_compute. intros H. apply H. reflexivity.
Qed.

(** C4 (amended). A non-system message extends the open bubble group iff
    its sender and outgoing polarity equal the group's and the
    whole-minute difference, rounded toward zero, between its timestamp
    and the timestamp of the group's first message is at most 10, that is
    iff it is less than 11 minutes after that first message; a system
    message closes any open group and forms a singleton group of its own;
    the groups partition the input in order and every group carries the
    timestamp of its first message.  Messages of one sender at 10:00,
    10:09, 10:19 and 10:25 form the groups {10:00, 10:09} and
    {10:19, 10:25}. *)
Theorem bubble_grouping_first_message_window
    (g : MessageBubbleGroup) (message : Message) :
  type message ≠ TSystem →
  (extendsGroup g message ↔
     groupSender g = sender message
     ∧ groupIsOutgoing g = isOutgoing message
     ∧ differenceInMinutes (timestamp message) (groupTimestamp g) <= 10)
  ∧ (differenceInMinutes (timestamp message) (groupTimestamp g) <= 10
     ↔ timestamp message - groupTimestamp g < 11 * 60 * 1000)
  ∧ (∀ bubbleGroups currentGroup sys,
       type sys = TSystem →
       bubbleStep (bubbleGroups, currentGroup) sys
       = (closeGroup bubbleGroups currentGroup ++ [systemGroup sys], None))
  ∧ (∀ messages,
       concat (groupMessages <$> groupMessagesIntoBubbles messages) = messages
       ∧ Forall groupWellFormed (groupMessagesIntoBubbles messages))
  ∧ groupMessagesIntoBubbles
      [at_time "Bob" 10 0 0; at_time "Bob" 10 9 0;
       at_time "Bob" 10 19 0; at_time "Bob" 10 25 0]
    = [pushMessage (newGroup (at_time "Bob" 10 0 0)) (at_time "Bob" 10 9 0);
       pushMessage (newGroup (at_time "Bob" 10 19 0)) (at_time "Bob" 10 25 0)].
Proof.
  intros Hty. split_and!.
  - rewrite extendsGroup_iff by done. rewrite shouldGroup_spec.
    rewrite differenceInMinutes_le_10. done.
  - apply differenceInMinutes_le_10.
  - intros. by apply bubbleStep_system.
  - apply groupMessagesIntoBubbles_inv.
  - vm_compute. reflexivity.
Qed.

Lemma bubble_grouping_witness :
  extendsGroup (newGroup (at_time "Bob" 10 0 0)) (at_time "Bob" 10 9 0).
Proof.
  apply (bubble_grouping_first_message_window
           (newGroup (at_time "Bob" 10 0 0)) (at_time "Bob" 10 9 0)).
  - discriminate.
  - vm_compute. split_and!; [reflexivity|reflexivity|discriminate].
Defined.


(** * Bounded media cache *)

Section CacheFacts.

Lemma residentSize_app l1 l2 :
  residentSize (l1 ++ l2) = residentSize l1 + residentSize l2.
Proof.
  unfold residentSize. induction l1 as [|e l1 IH]; simpl; [done|].
  rewrite IH. lia.
Qed.

Lemma residentSize_Permutation l1 l2 :
  l1 ≡ₚ l2 → residentSize l1 = residentSize l2.
Proof.
  unfold residentSize.
  induction 1 as [|x l1 l2 _ IH|x y l|l1 l2 l3 _ IH1 _ IH2]; simpl; lia.
Qed.

Lemma calculateCacheSize_resident st :
  cacheSize (calculateCacheSize st) = residentSize (cacheStorage st).
Proof.
  simpl. generalize (cacheStorage st). intros l.
  assert (H : ∀ acc, foldl (λ a e, a + entryBlobSize e) acc l
                     = acc + residentSize l).
  { induction l as [|e l IH]; intros acc; simpl; [lia|].
    rewrite IH. unfold residentSize. simpl. lia. }
  rewrite H. lia.
Qed.

(** Deleting a request that is not stored changes nothing; with requests
    pairwise distinct, deleting a stored pair removes exactly it. *)
Lemma cacheDelete_fresh request storage :
  request ∉ entryRequest <$> storage → cacheDelete request storage = storage.
Proof.
  unfold cacheDelete. induction storage as [|e l IH]; simpl; [done|].
  rewrite not_elem_of_cons. intros [Hne Hnin].
  rewrite filter_cons, decide_True by done. by rewrite IH.
Qed.

Lemma cacheDelete_head e rest :
  NoDup (entryRequest <$> e :: rest) →
  cacheDelete (entryRequest e) (e :: rest) = rest.
Proof.
  simpl. intros [Hnin _]%NoDup_cons. unfold cacheDelete.
  rewrite filter_cons, decide_False by (intros H; by apply H).
  by apply cacheDelete_fresh.
Qed.

Lemma cacheDelete_not_elem request storage :
  request ∉ entryRequest <$> cacheDelete request storage.
Proof.
  unfold cacheDelete. rewrite list_elem_of_fmap.
  intros (e & -> & [Hne _]%list_elem_of_filter). by apply Hne.
Qed.

Lemma cacheDelete_NoDup request storage :
  NoDup (entryRequest <$> storage) →
  NoDup (entryRequest <$> cacheDelete request storage).
Proof.
  intros H. eapply sublist_NoDup; [exact H|].
  apply fmap_sublist. unfold cacheDelete. apply sublist_filter.
Qed.

Lemma cachePut_NoDup e storage :
  NoDup (entryRequest <$> storage) →
  NoDup (entryRequest <$> cachePut e storage).
Proof.
  intros H. unfold cachePut. rewrite fmap_app. apply NoDup_app.
  split_and!.
  - by apply cacheDelete_NoDup.
  - intros x Hx. simpl. rewrite list_elem_of_singleton. intros ->.
    by eapply cacheDelete_not_elem.
  - simpl. apply NoDup_singleton.
Qed.

(** The eviction loop: what it frees is what leaves the storage, and it
    stops either under the threshold or with the storage empty. *)
Lemma evictLoop_spec c n entries : ∀ storage mem freed,
  storage ≡ₚ entries →
  NoDup (entryRequest <$> storage) →
  let '(storage', mem', freed') := evictLoop c n entries storage mem freed in
  residentSize storage' = residentSize storage - (freed' - freed)
  ∧ storage' `sublist_of` storage
  ∧ (belowThreshold (c - freed' + n) = true ∨ storage' = []).
Proof.
  induction entries as [|e rest IH]; intros storage mem freed Hperm Hnd; simpl.
  - apply Permutation_nil_r in Hperm as ->.
    split_and!; [lia|done|by right].
  - destruct (belowThreshold (c - freed + n)) eqn:Hb.
    + split_and!; [lia|done|by left].
    + assert (Hnd' : NoDup (entryRequest <$> e :: rest)) by by rewrite <- Hperm.
      assert (Hdel : cacheDelete (entryRequest e) storage ≡ₚ rest).
      { unfold cacheDelete at 1. rewrite Hperm.
        fold (cacheDelete (entryRequest e) (e :: rest)).
        by rewrite cacheDelete_head. }
      specialize (IH (cacheDelete (entryRequest e) storage)
                    (evictFromMemory e mem) (freed + entryBlobSize e) Hdel
                    (cacheDelete_NoDup _ _ Hnd)).
      destruct (evictLoop c n rest _ _ _) as [[storage' mem'] freed'].
      destruct IH as (Hres & Hsub & Hstop).
      split_and!; [|by etrans; [exact Hsub|apply sublist_filter]|done].
      rewrite Hres, (residentSize_Permutation _ _ Hdel).
      rewrite (residentSize_Permutation _ _ Hperm).
      unfold residentSize. simpl. lia.
Qed.

Lemma evictLRU_spec st n :
  cacheConsistent st → initialized st = true →
  let st' := evictLRU st n in
  cacheConsistent st' ∧ initialized st' = true
  ∧ cacheStorage st' `sublist_of` cacheStorage st
  ∧ (belowThreshold (cacheSize st' + n) = true ∨ cacheStorage st' = []).
Proof.
  intros (Hsz & Hwf & Hnd) Hinit. unfold evictLRU.
  pose proof (evictLoop_spec (cacheSize st) n
    (sortBy entryLastAccessed
       (filter (λ e, is_Some (entryMetadata e)) (cacheStorage st)))
    (cacheStorage st) (memoryCache st) 0) as H.
  destruct (evictLoop _ _ _ _ _ _) as [[storage' mem'] freed'].
  destruct H as (Hres & Hsub & Hstop).
  { rewrite sortBy_Permutation.
    assert (Hall : filter (λ e, is_Some (entryMetadata e)) (cacheStorage st)
                   = cacheStorage st).
    { clear -Hwf. induction Hwf as [|e l [He _] _ IH]; [done|].
      by rewrite filter_cons, decide_True, IH. }
    by rewrite Hall. }
  { done. }
  simpl. split_and!; [split_and!| | |]; simpl.
  - intros _. rewrite Hres, Hsz by done. lia.
  - eapply Forall_forall. intros x Hx.
    eapply Forall_forall in Hwf; [exact Hwf|].
    eapply elem_of_submseteq; [exact Hx|by apply sublist_submseteq].
  - eapply sublist_NoDup; [exact Hnd|]. by apply fmap_sublist.
  - done.
  - done.
  - done.
Qed.

Lemma aboveThreshold_false bytes :
  aboveThreshold bytes = false → withinThreshold bytes.
Proof. unfold aboveThreshold, withinThreshold. intros H%Z.ltb_ge. lia. Qed.

Lemma belowThreshold_true bytes :
  belowThreshold bytes = true → withinThreshold bytes.
Proof. unfold belowThreshold, withinThreshold. intros H%Z.ltb_lt. lia. Qed.


(** One insertion of a request that is not stored yet. *)
Lemma addToCache_spec st fid size now :
  cacheConsistent st → initialized st = true → 0 <= size →
  getCacheKey fid ∉ entryRequest <$> cacheStorage st →
  let st' := addToCache st fid size now in
  cacheConsistent st' ∧ initialized st' = true
  ∧ newEntry fid size now ∈ cacheStorage st'
  ∧ (withinThreshold (residentSize (cacheStorage st'))
     ∨ cacheStorage st' = [newEntry fid size now]).
Proof.
  intros Hc Hinit Hsize Hfresh. unfold addToCache.
  fold (newEntry fid size now).
  set (st1 := if aboveThreshold (cacheSize st + size) then evictLRU st size else st).
  assert (H1 : cacheConsistent st1 ∧ initialized st1 = true
               ∧ cacheStorage st1 `sublist_of` cacheStorage st
               ∧ (withinThreshold (cacheSize st1 + size) ∨ cacheStorage st1 = [])).
  { subst st1. destruct (aboveThreshold (cacheSize st + size)) eqn:Ha.
    - destruct (evictLRU_spec st size Hc Hinit) as (? & ? & ? & [Hb|Hnil]).
      + split_and!; [done|done|done|]. left. by apply belowThreshold_true.
      + split_and!; [done|done|done|]. by right.
    - split_and!; [done|done|done|]. left. by apply aboveThreshold_false. }
  destruct H1 as ((Hsz1 & Hwf1 & Hnd1) & Hinit1 & Hsub1 & Hstop).
  assert (Hfresh1 : getCacheKey fid ∉ entryRequest <$> cacheStorage st1).
  { intros Hin. apply Hfresh.
    eapply elem_of_submseteq; [exact Hin|].
    by apply sublist_submseteq, fmap_sublist. }
  assert (Hput : cachePut (newEntry fid size now) (cacheStorage st1)
                 = cacheStorage st1 ++ [newEntry fid size now]).
  { unfold cachePut. by rewrite cacheDelete_fresh. }
  simpl. rewrite Hput. split_and!; [split_and!| | |]; simpl.
  - intros _. rewrite residentSize_app, Hsz1 by done.
    unfold residentSize. simpl. lia.
  - apply Forall_app. split; [done|]. apply Forall_singleton. simpl.
    split; [by eexists|done].
  - rewrite <- Hput. by apply cachePut_NoDup.
  - done.
  - rewrite elem_of_app, list_elem_of_singleton. by right.
  - destruct Hstop as [Hw|Hnil].
    + left. rewrite residentSize_app, <- Hsz1 by done.
      unfold residentSize at 1. simpl. by rewrite Z.add_0_r.
    + right. by rewrite Hnil.
Qed.


Lemma cacheMatch_Some request storage e :
  cacheMatch request storage = Some e → e ∈ storage ∧ entryRequest e = request.
Proof.
  unfold cacheMatch. destruct (list_find _ storage) as [[i x]|] eqn:Hf; [|done].
  simpl. intros [= <-]. apply list_find_Some in Hf as (Hi & Hx & _).
  split; [|done]. by eapply list_elem_of_lookup_2.
Qed.

Lemma cacheMatch_None request storage :
  cacheMatch request storage = None → request ∉ entryRequest <$> storage.
Proof.
  unfold cacheMatch. destruct (list_find _ storage) as [[i x]|] eqn:Hf; [done|].
  intros _. apply list_find_None in Hf. rewrite list_elem_of_fmap.
  intros (e & -> & He). eapply Forall_forall in Hf; [|exact He]. by apply Hf.
Qed.

Lemma cacheDelete_resident e storage :
  NoDup (entryRequest <$> storage) → e ∈ storage →
  residentSize (cacheDelete (entryRequest e) storage)
  = residentSize storage - entryBlobSize e.
Proof.
  intros Hnd [rest Hperm]%elem_of_Permutation.
  assert (Hdel : cacheDelete (entryRequest e) storage ≡ₚ rest).
  { unfold cacheDelete at 1. rewrite Hperm.
    fold (cacheDelete (entryRequest e) (e :: rest)).
    rewrite cacheDelete_head; [done|]. by rewrite <- Hperm. }
  rewrite (residentSize_Permutation _ _ Hdel).
  rewrite (residentSize_Permutation _ _ Hperm).
  unfold residentSize. simpl. lia.
Qed.

(** A hit moves the pair to the end of the storage with a new access
    time; the bytes stay what they were. *)
Lemma updateAccessTime_spec st fid now :
  cacheConsistent st →
  let st' := updateAccessTime st fid now in
  cacheConsistent st' ∧ initialized st' = initialized st
  ∧ residentSize (cacheStorage st') = residentSize (cacheStorage st)
  ∧ length (cacheStorage st') = length (cacheStorage st).
Proof.
  intros (Hsz & Hwf & Hnd). unfold updateAccessTime.
  destruct (cacheMatch _ _) as [e|] eqn:Hm; [|done].
  destruct (entryMetadata e) as [md|] eqn:Hmd; [|done].
  apply cacheMatch_Some in Hm as [He Hreq].
  set (e' := {| entryRequest := entryRequest e; entryMetadata := _;
                entryBlobSize := entryBlobSize e |}).
  assert (Hres : residentSize (cachePut e' (cacheStorage st))
                 = residentSize (cacheStorage st)).
  { unfold cachePut. rewrite residentSize_app. simpl.
    rewrite cacheDelete_resident by done.
    unfold residentSize. simpl. lia. }
  simpl. split_and!; [split_and!| | |]; simpl.
  - intros Hi. rewrite Hres. by apply Hsz.
  - unfold cachePut. apply Forall_app. split.
    + eapply Forall_forall. intros x [_ Hx]%list_elem_of_filter.
      eapply Forall_forall in Hwf; [exact Hwf|done].
    + apply Forall_singleton. simpl. split; [by eexists|].
      eapply Forall_forall in Hwf; [|exact He]. by apply Hwf.
  - by apply cachePut_NoDup.
  - done.
  - done.
  - apply elem_of_Permutation in He as [rest Hperm].
    unfold cachePut. rewrite length_app. simpl.
    assert (Hdel : cacheDelete (entryRequest e) (cacheStorage st) ≡ₚ rest).
    { unfold cacheDelete at 1. rewrite Hperm.
      fold (cacheDelete (entryRequest e) (e :: rest)).
      rewrite cacheDelete_head; [done|]. by rewrite <- Hperm. }
    rewrite Hdel, Hperm. simpl. lia.
Qed.

Lemma init_spec st :
  cacheConsistent st →
  cacheConsistent (init st) ∧ initialized (init st) = true
  ∧ cacheStorage (init st) = cacheStorage st
  ∧ memoryCache (init st) = memoryCache st.
Proof.
  intros Hc. pose proof Hc as (Hsz & Hwf & Hnd). unfold init.
  destruct (initialized st) eqn:Hi; [done|].
  split_and!; [split_and!| | |]; simpl; try done.
  intros _. apply (calculateCacheSize_resident st).
Qed.

Lemma singleton_length {A} (l : list A) : length l = 1%nat → ∃ e, l = [e].
Proof. destruct l as [|e [|? ?]]; try done. by exists e. Qed.

(** One [getMedia] call: either nothing is inserted and the stored bytes
    stay what they were, or the call is a miss whose fetched blob is
    stored, after which the storage is within the threshold or holds the
    new pair alone. *)
Lemma getMedia_cases st r :
  cacheConsistent st → requestWellFormed r →
  let st' := (getMedia st r).1 in
  cacheConsistent st' ∧ initialized st' = true
  ∧ ((residentSize (cacheStorage st') = residentSize (cacheStorage st)
      ∧ length (cacheStorage st') = length (cacheStorage st))
     ∨ (∃ size, reqFetchedSize r = Some size
          ∧ (getMedia st r).2 = Some (reqObjectUrl r)
          ∧ newEntry (reqDriveFileId r) size (reqNow r) ∈ cacheStorage st'
          ∧ (withinThreshold (residentSize (cacheStorage st'))
             ∨ cacheStorage st' = [newEntry (reqDriveFileId r) size (reqNow r)]))).
Proof.
  intros Hc Hr. unfold getMedia.
  destruct (init_spec st Hc) as (Hc0 & Hi0 & Hs0 & Hm0).
  rewrite <- Hs0.
  set (st0 := init st) in *. clearbody st0. clear Hc Hs0 Hm0 st.
  assert (Hupd : ∀ s, cacheConsistent s → initialized s = true →
            cacheStorage s = cacheStorage st0 →
            let s' := updateAccessTime s (reqDriveFileId r) (reqNow r) in
            cacheConsistent s' ∧ initialized s' = true
            ∧ residentSize (cacheStorage s') = residentSize (cacheStorage st0)
            ∧ length (cacheStorage s') = length (cacheStorage st0)).
  { intros s Hcs His Hst.
    destruct (updateAccessTime_spec s (reqDriveFileId r) (reqNow r) Hcs)
      as (? & Hi' & Hres & Hlen).
    simpl. split_and!; [done|congruence|congruence|congruence]. }
  destruct (memoryCache st0 !! reqDriveFileId r) as [url|] eqn:Hmem; simpl.
  { destruct (Hupd st0) as (? & ? & ? & ?); try done.
    split_and!; [done|done|by left]. }
  destruct (cacheMatch _ (cacheStorage st0)) as [e|] eqn:Hmatch; simpl.
  { destruct (Hupd (setMemory st0 (reqDriveFileId r) (reqObjectUrl r)))
      as (? & ? & ? & ?); try done.
    split_and!; [done|done|by left]. }
  unfold fetchAndCache. destruct (reqFetchedSize r) as [size|] eqn:Hf; simpl.
  - destruct (addToCache_spec
                (setMemory st0 (reqDriveFileId r) (reqObjectUrl r))
                (reqDriveFileId r) size (reqNow r))
      as (? & ? & ? & Hbound); try done.
    + by apply Hr.
    + by apply cacheMatch_None.
    + split_and!; [done|done|]. right. exists size. by split_and!.
  - split_and!; [done|done|by left].
Qed.

Lemma getMedia_spec st r :
  cacheConsistent st → cacheBounded st → requestWellFormed r →
  cacheConsistent (getMedia st r).1 ∧ cacheBounded (getMedia st r).1.
Proof.
  intros Hc Hb Hr.
  destruct (getMedia_cases st r Hc Hr) as (Hc' & _ & [[Hres Hlen]|Hins]).
  - split; [done|]. destruct Hb as [Hw|[e He]].
    + left. by rewrite Hres.
    + right. apply singleton_length. by rewrite Hlen, He.
  - split; [done|]. destruct Hins as (size & _ & _ & _ & [Hw|Hone]).
    + by left.
    + right. by eexists.
Qed.

(** When no fetched blob is larger than the threshold, the stored bytes
    never are. *)
Lemma getMedia_within st r :
  cacheConsistent st → requestWellFormed r →
  (∀ size, reqFetchedSize r = Some size → withinThreshold size) →
  withinThreshold (residentSize (cacheStorage st)) →
  withinThreshold (residentSize (cacheStorage (getMedia st r).1)).
Proof.
  intros Hc Hr Hsmall Hw.
  destruct (getMedia_cases st r Hc Hr) as (_ & _ & [[Hres _]|Hins]).
  - by rewrite Hres.
  - destruct Hins as (size & Hf & _ & _ & [?|Hone]); [done|].
    rewrite Hone. unfold residentSize. simpl. rewrite Z.add_0_r.
    by apply Hsmall.
Qed.

Lemma emptyMediaCache_consistent :
  cacheConsistent emptyMediaCache ∧ cacheBounded emptyMediaCache.
Proof.
  split.
  - split_and!; simpl; [done|constructor|constructor].
  - left. unfold withinThreshold. simpl. unfold MAX_CACHE_SIZE. lia.
Qed.

End CacheFacts.

(** * The media cache service as tasks *)

Section TaskFacts.

Lemma runAlone_bind {A B} (t : Task A) (f : A → Task B) st :
  runAlone (t ≫= f) st
  = match runAlone t st with
    | (st', Normal a) => runAlone (f a) st'
    | (st', Throw message) => (st', Throw message)
    end.
Proof.
  unfold mbind, Task_bind. revert st.
  induction t as [a|message|update next IH|resume IH]; intros st; simpl; auto.
Qed.

Lemma runAlone_tryCatch {A} (t : Task A) (handler : jsstring → Task A) st :
  runAlone (tryCatch t handler) st
  = match runAlone t st with
    | (st', Normal a) => (st', Normal a)
    | (st', Throw message) => runAlone (handler message) st'
    end.
Proof.
  revert st.
  induction t as [a|message|update next IH|resume IH]; intros st; simpl; auto.
Qed.

Lemma runAlone_awaitCall {A} (t : Task A) st :
  runAlone (awaitCall t) st = runAlone t st.
Proof.
  revert st.
  induction t as [a|message|update next IH|resume IH]; intros st; simpl; auto.
Qed.

Lemma runAlone_browserCall {A} effect (result : MediaCacheService → A) st :
  runAlone (browserCall effect result) st = (effect st, Normal (result st)).
Proof. done. Qed.

Lemma runAlone_getState st : runAlone getState st = (st, Normal st).
Proof. done. Qed.

Lemma runAlone_modify update st : runAlone (modify update) st = (update st, Normal tt).
Proof. done. Qed.

Lemma runAlone_Return {A} (a : A) st : runAlone (Return a) st = (st, Normal a).
Proof. done. Qed.

Lemma service_eta st :
  {| memoryCache := memoryCache st; cacheSize := cacheSize st;
     initialized := initialized st; cacheStorage := cacheStorage st |} = st.
Proof. by destruct st. Qed.

Ltac alone :=
  repeat first
    [ rewrite runAlone_bind
    | rewrite runAlone_tryCatch
    | rewrite runAlone_awaitCall
    | rewrite runAlone_browserCall
    | rewrite runAlone_getState
    | rewrite runAlone_modify
    | rewrite runAlone_Return
    | progress cbn beta iota ].

(** With one pair for each request, the pair found for the request of a
    stored pair is that pair. *)
Lemma cacheMatch_stored storage e :
  NoDup (entryRequest <$> storage) → e ∈ storage →
  cacheMatch (entryRequest e) storage = Some e.
Proof.
  intros Hnd He.
  destruct (cacheMatch (entryRequest e) storage) as [x|] eqn:Hm.
  - apply cacheMatch_Some in Hm as [Hx Hreq]. f_equal.
    apply list_elem_of_lookup in Hx as [i Hi].
    apply list_elem_of_lookup in He as [j Hj].
    assert (i = j); [|congruence].
    eapply NoDup_lookup; [exact Hnd| |];
      rewrite list_lookup_fmap; [by rewrite Hi|by rewrite Hj, Hreq].
  - apply cacheMatch_None in Hm. exfalso. apply Hm.
    by apply list_elem_of_fmap_2.
Qed.

Lemma addSizes_alone requests : ∀ st,
  runAlone (addSizes requests) st
  = ({| memoryCache := memoryCache st;
        cacheSize :=
          foldl (λ acc request,
                   match cacheMatch request (cacheStorage st) with
                   | Some e => acc + entryBlobSize e
                   | None => acc
                   end) (cacheSize st) requests;
        initialized := initialized st;
        cacheStorage := cacheStorage st |}, Normal tt).
Proof.
  induction requests as [|request rest IH]; intros st; cbn [addSizes foldl].
  - alone. by rewrite service_eta.
  - unfold cacheMatchCall, responseBlob. alone.
    destruct (cacheMatch request (cacheStorage st)) as [e|]; alone.
    + by rewrite IH.
    + by rewrite IH.
Qed.

Lemma foldl_sizes storage : ∀ l acc,
  NoDup (entryRequest <$> storage) → l ⊆ storage →
  foldl (λ acc request,
           match cacheMatch request storage with
           | Some e => acc + entryBlobSize e
           | None => acc
           end) acc (entryRequest <$> l)
  = foldl (λ acc e, acc + entryBlobSize e) acc l.
Proof.
  induction l as [|e l IH]; intros acc Hnd Hsub; [done|].
  cbn [fmap list_fmap foldl]. rewrite cacheMatch_stored; [|done|].
  - apply IH; [done|]. intros x Hx. apply Hsub. by right.
  - apply Hsub. by left.
Qed.

Lemma collectEntries_alone requests : ∀ entries st,
  runAlone (collectEntries requests entries) st
  = (st, Normal (entries ++
       omap (λ request,
               e ← cacheMatch request (cacheStorage st);
               metadata ← entryMetadata e;
               Some {| entryRequest := request;
                       entryMetadata := Some metadata;
                       entryBlobSize := entryBlobSize e |}) requests)).
Proof.
  induction requests as [|request rest IH]; intros entries st;
    cbn [collectEntries omap list_omap].
  - alone. by rewrite app_nil_r.
  - unfold cacheMatchCall, responseBlob. alone.
    destruct (cacheMatch request (cacheStorage st)) as [e|]; alone;
      cbn [mbind option_bind].
    + destruct (entryMetadata e) as [metadata|]; alone; cbn [mbind option_bind].
      * rewrite IH. by rewrite <- app_assoc.
      * by rewrite IH.
    + by rewrite IH.
Qed.

Lemma omap_entries storage : ∀ l,
  NoDup (entryRequest <$> storage) → l ⊆ storage →
  omap (λ request,
          e ← cacheMatch request storage;
          metadata ← entryMetadata e;
          Some {| entryRequest := request;
                  entryMetadata := Some metadata;
                  entryBlobSize := entryBlobSize e |}) (entryRequest <$> l)
  = filter (λ e, is_Some (entryMetadata e)) l.
Proof.
  induction l as [|e l IH]; intros Hnd Hsub; [done|].
  cbn [fmap list_fmap omap list_omap].
  rewrite cacheMatch_stored; [|done|apply Hsub; by left].
  cbn [mbind option_bind].
  assert (Hl : l ⊆ storage) by (intros x Hx; apply Hsub; by right).
  destruct (entryMetadata e) as [metadata|] eqn:Hmd; cbn [mbind option_bind].
  - rewrite filter_cons_True by (by rewrite Hmd).
    rewrite (IH Hnd Hl). f_equal. destruct e; simpl in *; by subst.
  - rewrite filter_cons_False by (rewrite Hmd; by intros [? ?]).
    by apply IH.
Qed.

Lemma evictEntries_alone spaceNeeded entries : ∀ freedSpace st,
  runAlone (evictEntries spaceNeeded entries freedSpace) st
  = (let '(storage, mem, freed) :=
       evictLoop (cacheSize st) spaceNeeded entries
         (cacheStorage st) (memoryCache st) freedSpace in
     ({| memoryCache := mem; cacheSize := cacheSize st;
         initialized := initialized st; cacheStorage := storage |},
      Normal freed)).
Proof.
  induction entries as [|entry rest IH]; intros freedSpace st;
    cbn [evictEntries evictLoop].
  - alone. by rewrite service_eta.
  - unfold cacheDeleteCall. alone.
    destruct (belowThreshold (cacheSize st - freedSpace + spaceNeeded)); alone.
    + by rewrite service_eta.
    + by rewrite IH.
Qed.

Section Present.

Context (browser : Browser) (Hcaches : cachesInWindow browser = true).

Lemma calculateCacheSize_alone st :
  NoDup (entryRequest <$> cacheStorage st) →
  runAlone (calculateCacheSizeTask browser) st = (calculateCacheSize st, Normal tt).
Proof.
  intros Hnd. unfold calculateCacheSizeTask, cachesOpen, cacheKeys.
  rewrite Hcaches. cbn [negb]. alone. rewrite addSizes_alone.
  cbn [withCacheSize memoryCache cacheSize initialized cacheStorage].
  by rewrite foldl_sizes.
Qed.

Lemma init_alone st :
  NoDup (entryRequest <$> cacheStorage st) →
  runAlone (initTask browser) st = (init st, Normal tt).
Proof.
  intros Hnd. unfold initTask, init, storagePersistCall. alone.
  destruct (initialized st) eqn:Hi; [done|]. alone.
  assert (Hp : runAlone (if storagePersist browser
                         then browserCall (λ s, s) (λ _, ())
                         else Return ()) st = (st, Normal tt))
    by by destruct (storagePersist browser).
  rewrite Hp. alone. by rewrite calculateCacheSize_alone.
Qed.

Lemma evictLRU_alone st spaceNeeded :
  NoDup (entryRequest <$> cacheStorage st) →
  runAlone (evictLRUTask browser spaceNeeded) st = (evictLRU st spaceNeeded, Normal tt).
Proof.
  intros Hnd. unfold evictLRUTask, evictLRU, cachesOpen, cacheKeys.
  rewrite Hcaches. cbn [negb]. alone. rewrite collectEntries_alone. alone.
  rewrite omap_entries by done. cbn [app].
  rewrite evictEntries_alone.
  destruct (evictLoop _ _ _ _ _ _) as [[storage mem] freed]. by alone.
Qed.

Lemma addToCache_alone st driveFileId size now :
  NoDup (entryRequest <$> cacheStorage st) →
  runAlone (addToCacheTask browser driveFileId size now) st
  = (addToCache st driveFileId size now, Normal tt).
Proof.
  intros Hnd. unfold addToCacheTask, addToCache, cachesOpen, cachePutCall.
  rewrite Hcaches. cbn [negb]. alone.
  destruct (aboveThreshold (cacheSize st + size)); alone.
  - by rewrite evictLRU_alone.
  - done.
Qed.

Lemma updateAccessTime_alone st driveFileId now :
  runAlone (updateAccessTimeTask browser driveFileId now) st
  = (updateAccessTime st driveFileId now, Normal tt).
Proof.
  unfold updateAccessTimeTask, updateAccessTime, cachesOpen, cacheMatchCall,
    responseBlob, cachePutCall.
  rewrite Hcaches. cbn [negb]. alone.
  destruct (cacheMatch _ _) as [e|] eqn:Hm; alone; [|done].
  apply cacheMatch_Some in Hm as [_ Hreq].
  destruct (entryMetadata e) as [md|]; alone; [|done].
  by rewrite Hreq.
Qed.

Lemma getCachedUrl_alone st r :
  runAlone (getCachedUrlTask browser r) st
  = (st, Normal (match cacheMatch (getCacheKey (reqDriveFileId r)) (cacheStorage st) with
                 | Some _ => Some (reqObjectUrl r)
                 | None => None
                 end)).
Proof.
  unfold getCachedUrlTask, cachesOpen, cacheMatchCall, responseBlob.
  rewrite Hcaches. cbn [negb]. alone.
  by destruct (cacheMatch _ _) as [e|]; alone.
Qed.

Lemma fetchAndCache_alone st r :
  NoDup (entryRequest <$> cacheStorage st) →
  runAlone (fetchAndCacheTask browser r) st
  = ((fetchAndCache st r).1,
     match (fetchAndCache st r).2 with
     | Some url => Normal url
     | None => Throw fetchFailedMessage
     end).
Proof.
  intros Hnd. unfold fetchAndCacheTask, fetchAndCache, responseBlob. alone.
  assert (Hf : runAlone (fetchCall r) st
               = (st, match reqFetchedSize r with
                      | Some size => Normal size
                      | None => Throw fetchFailedMessage
                      end)).
  { unfold fetchCall. cbn [runAlone]. by destruct (reqFetchedSize r). }
  rewrite Hf. destruct (reqFetchedSize r) as [size|]; alone; [|done].
  by rewrite addToCache_alone.
Qed.

(** A call of [getMedia] that runs alone, in a browser with the Cache API
    where no promise is rejected, computes what the direct-style
    [getMedia] gives. *)
Lemma getMedia_alone st r :
  NoDup (entryRequest <$> cacheStorage st) → reqObjectUrl r ≠ [] →
  runAlone (getMediaTask browser r) st
  = ((getMedia st r).1, served (getMedia st r).2).
Proof.
  intros Hnd Hurl. unfold getMediaTask, getMedia. alone.
  rewrite init_alone by done. alone.
  assert (Hnd0 : NoDup (entryRequest <$> cacheStorage (init st))).
  { unfold init. by destruct (initialized st). }
  set (st0 := init st) in *. clearbody st0.
  destruct (memoryCache st0 !! reqDriveFileId r) as [url|] eqn:Hmem.
  - rewrite bool_decide_true by (by eexists). alone.
    rewrite updateAccessTime_alone. alone. cbn [fst snd served].
    do 2 f_equal. rewrite <- Hmem. unfold updateAccessTime.
    destruct (cacheMatch _ _) as [e|]; [|done].
    by destruct (entryMetadata e).
  - rewrite bool_decide_false by (by intros [? ?]). alone.
    rewrite getCachedUrl_alone. alone.
    destruct (cacheMatch _ (cacheStorage st0)) as [e|] eqn:Hm.
    + destruct (reqObjectUrl r) as [|c u] eqn:Hu; [done|]. alone.
      unfold withMemoryCache. fold (setMemory st0 (reqDriveFileId r) (c :: u)).
      by rewrite updateAccessTime_alone.
    + alone. rewrite fetchAndCache_alone by done.
      by destruct (fetchAndCache st0 r) as [st1 [url|]].
Qed.

(** A file whose URL is in the memory map is served from there, whatever
    the browser would answer. *)
Lemma getMedia_alone_hit st r url :
  NoDup (entryRequest <$> cacheStorage st) →
  memoryCache st !! reqDriveFileId r = Some url →
  runAlone (getMediaTask browser r) st
  = (updateAccessTime (init st) (reqDriveFileId r) (reqNow r), Normal (Some url)).
Proof.
  intros Hnd Hmem. unfold getMediaTask. alone.
  rewrite init_alone by done. alone.
  assert (Hmem0 : memoryCache (init st) !! reqDriveFileId r = Some url).
  { unfold init. by destruct (initialized st). }
  rewrite bool_decide_true by (by eexists). alone.
  rewrite updateAccessTime_alone. alone. do 2 f_equal.
  rewrite <- Hmem0. unfold updateAccessTime.
  destruct (cacheMatch _ _) as [e|]; [|done].
  by destruct (entryMetadata e).
Qed.

End Present.

(** Without the Cache API no method touches the storage or the counter:
    a call only marks the service initialized and, on a miss, keeps the
    fetched URL in the memory map. *)
Lemma getMedia_without_caches browser st r :
  cachesInWindow browser = false →
  runAlone (getMediaTask browser r) st
  = match memoryCache st !! reqDriveFileId r with
    | Some url => (withInitialized true st, Normal (Some url))
    | None =>
        match reqFetchedSize r with
        | Some _ =>
            (withMemoryCache (<[reqDriveFileId r := reqObjectUrl r]>)
               (withInitialized true st),
             Normal (Some (reqObjectUrl r)))
        | None => (withInitialized true st, Throw fetchFailedMessage)
        end
    end.
Proof.
  intros Hcaches.
  assert (Hinit : runAlone (initTask browser) st = (withInitialized true st, Normal tt)).
  { unfold initTask, calculateCacheSizeTask, storagePersistCall.
    rewrite Hcaches. cbn [negb]. alone.
    destruct (initialized st) eqn:Hi.
    - alone. unfold withInitialized. by rewrite <- Hi, service_eta.
    - alone.
      assert (Hp : runAlone (if storagePersist browser
                             then browserCall (λ s, s) (λ _, ())
                             else Return ()) st = (st, Normal tt))
        by by destruct (storagePersist browser).
      rewrite Hp. by alone. }
  unfold getMediaTask, updateAccessTimeTask, getCachedUrlTask,
    fetchAndCacheTask, addToCacheTask, responseBlob.
  rewrite Hcaches. cbn [negb]. alone. rewrite Hinit. alone.
  cbn [withInitialized memoryCache].
  destruct (memoryCache st !! reqDriveFileId r) as [url|] eqn:Hmem.
  - rewrite bool_decide_true by (by eexists). alone.
    cbn [withInitialized memoryCache]. by rewrite Hmem.
  - rewrite bool_decide_false by (by intros [? ?]). alone.
    unfold fetchCall. cbn [runAlone].
    destruct (reqFetchedSize r) as [size|]; by alone.
Qed.

(** Run alone, a task is a run of the service in which the task is
    resumed at each of its suspensions with a fulfilled promise. *)
Lemma runAlone_resumed {A} (t : Task A) : ∀ st,
  let p := Nat.iter (suspensions t st) (λ p, resumeTask true p.2 p.1) (runSync t st) in
  p.1 = (runAlone t st).1 ∧ finished p.2 = Some (runAlone t st).2.
Proof.
  induction t as [a|message|update next IH|resume IH]; intros st;
    cbn [suspensions runSync runAlone]; [done|done|apply IH|].
  rewrite Nat.iter_succ_r. cbn [resumeTask fst snd]. apply IH.
Qed.

Lemma resumed_in_place browser n : ∀ st (calls : Calls) t,
  foldl (stepService browser) (st, calls ++ [t])
    (replicate n (ResumeCall (length calls) true))
  = (let p := Nat.iter n (λ p, resumeTask true p.2 p.1) (st, t) in
     (p.1, calls ++ [p.2])).
Proof.
  induction n as [|n IH]; intros st calls t; [done|].
  rewrite Nat.iter_succ_r. cbn [replicate foldl stepService fst snd].
  rewrite lookup_app_r, Nat.sub_diag by done. cbn [lookup list_lookup].
  destruct (resumeTask true t st) as [st' t'] eqn:Hr.
  rewrite (insert_app_r_alt _ _ _ _ (Nat.le_refl _)), Nat.sub_diag.
  cbn [insert list_insert]. apply IH.
Qed.

(** Calls made in turn are a run of the service. *)
Lemma movesInTurn_serve browser rs : ∀ st (calls : Calls),
  (foldl (stepService browser) (st, calls)
     (movesInTurn browser st rs (length calls))).1
  = serveInTurn browser st rs.
Proof.
  induction rs as [|r rs IH]; intros st calls; [done|].
  cbn [movesInTurn foldl stepService fst snd].
  destruct (runSync (getMediaTask browser r) st) as [st1 t1] eqn:Hs.
  rewrite foldl_app, resumed_in_place.
  pose proof (runAlone_resumed (getMediaTask browser r) st) as [Hst _].
  rewrite Hs in Hst. cbn zeta in *.
  set (p := Nat.iter _ _ (st1, t1)) in *.
  unfold serveInTurn. cbn [foldl]. rewrite <- Hst.
  replace (S (length calls)) with (length (calls ++ [p.2]))
    by (rewrite length_app; simpl; lia).
  apply IH.
Qed.

End TaskFacts.

(** * Calls made in turn *)

Section ServeFacts.

Context (browser : Browser).

(** One call run alone from a consistent state whose counter is right. *)
Lemma getMedia_step st r :
  cacheConsistent st → cacheSize st = residentSize (cacheStorage st) →
  requestWellFormed r →
  let next := runAlone (getMediaTask browser r) st in
  cacheConsistent next.1
  ∧ cacheSize next.1 = residentSize (cacheStorage next.1)
  ∧ ((residentSize (cacheStorage next.1) = residentSize (cacheStorage st)
      ∧ length (cacheStorage next.1) = length (cacheStorage st))
     ∨ (cachesInWindow browser = true
        ∧ ∃ size, reqFetchedSize r = Some size
          ∧ next.2 = Normal (Some (reqObjectUrl r))
          ∧ newEntry (reqDriveFileId r) size (reqNow r) ∈ cacheStorage next.1
          ∧ (withinThreshold (residentSize (cacheStorage next.1))
             ∨ cacheStorage next.1
               = [newEntry (reqDriveFileId r) size (reqNow r)]))).
Proof.
  intros Hc Hsize Hr next. subst next.
  destruct (cachesInWindow browser) eqn:Hcaches.
  - rewrite getMedia_alone; [|done|apply Hc|apply Hr]. cbn [fst snd].
    destruct (getMedia_cases st r Hc Hr) as (Hc' & Hi' & Hcases).
    split_and!; [done|by apply Hc'|].
    destruct Hcases as [?|(size & Hf & Hu & Hin & Hb)]; [by left|right].
    split; [done|]. exists size. rewrite Hu. by split_and!.
  - rewrite getMedia_without_caches by done.
    assert (Hc' : cacheConsistent (withInitialized true st)).
    { destruct Hc as (_ & ? & ?). by split_and!. }
    destruct (memoryCache st !! reqDriveFileId r) as [url|]; cbn [fst snd].
    + split_and!; [done|done|by left].
    + destruct (reqFetchedSize r) as [size|]; cbn [fst snd];
        (split_and!; [done|done|by left]).
Qed.

Lemma serveInTurn_spec rs : ∀ st,
  cacheConsistent st → cacheSize st = residentSize (cacheStorage st) →
  cacheBounded st → Forall requestWellFormed rs →
  let st' := serveInTurn browser st rs in
  cacheConsistent st' ∧ cacheSize st' = residentSize (cacheStorage st')
  ∧ cacheBounded st'.
Proof.
  induction rs as [|r rs IH]; intros st Hc Hsize Hb Hall; [done|].
  apply Forall_cons in Hall as [Hr Hall].
  destruct (getMedia_step st r Hc Hsize Hr) as (Hc' & Hsize' & Hcases).
  unfold serveInTurn. cbn [foldl]. apply IH; [done|done| |done].
  destruct Hcases as [[Hres Hlen]|(_ & size & _ & _ & _ & [Hw|Hone])].
  - destruct Hb as [Hw|[e He]].
    + left. by rewrite Hres.
    + right. apply singleton_length. by rewrite Hlen, He.
  - by left.
  - right. by eexists.
Qed.

(** When no fetched blob is larger than the threshold, the stored bytes
    never are. *)
Lemma serveInTurn_within rs : ∀ st,
  cacheConsistent st → cacheSize st = residentSize (cacheStorage st) →
  Forall requestWellFormed rs →
  Forall (λ r, ∀ size, reqFetchedSize r = Some size → withinThreshold size) rs →
  withinThreshold (residentSize (cacheStorage st)) →
  withinThreshold (residentSize (cacheStorage (serveInTurn browser st rs))).
Proof.
  induction rs as [|r rs IH]; intros st Hc Hsize Hall Hsmall Hw; [done|].
  apply Forall_cons in Hall as [Hr Hall].
  apply Forall_cons in Hsmall as [Hs Hsmall].
  destruct (getMedia_step st r Hc Hsize Hr) as (Hc' & Hsize' & Hcases).
  unfold serveInTurn. cbn [foldl]. apply IH; [done|done|done|done|].
  destruct Hcases as [[Hres _]|(_ & size & Hf & _ & _ & [?|Hone])].
  - by rewrite Hres.
  - done.
  - rewrite Hone. unfold residentSize. simpl. rewrite Z.add_0_r.
    by apply Hs.
Qed.

(** Without the Cache API nothing is ever stored. *)
Lemma serveInTurn_without_caches rs : ∀ st,
  cachesInWindow browser = false →
  cacheStorage (serveInTurn browser st rs) = cacheStorage st.
Proof.
  induction rs as [|r rs IH]; intros st Hcaches; [done|].
  change (cacheStorage
            (serveInTurn browser (runAlone (getMediaTask browser r) st).1 rs)
          = cacheStorage st).
  rewrite IH by done. rewrite getMedia_without_caches by done.
  destruct (memoryCache st !! reqDriveFileId r) as [url|]; [done|].
  by destruct (reqFetchedSize r).
Qed.

End ServeFacts.





(** * The matcher *)

Section MatcherFacts.
Context {R : Type}.

(** A successful repetition consumed a prefix of units of the class, at
    least [min] of them, and the continuation accepted what is left. *)
Lemma matchRepeat_Some greedy p inp : ∀ min max (k : jsstring → option R) x,
  matchRepeat greedy p min max inp k = Some x →
  ∃ pre rest,
    inp = pre ++ rest ∧ Forall (λ c, p c = true) pre
    ∧ (min ≤ length pre)%nat ∧ k rest = Some x.
Proof.
  induction inp as [|c inp IH]; intros min max k x; simpl.
  - intros H. assert (Hk : min = O ∧ k [] = Some x).
    { destruct min, max as [[|?]|], greedy; simpl in H; try done;
        destruct (k []); done. }
    destruct Hk as [-> Hk]. exists [], [].
    split_and!; [done|constructor|simpl; lia|done].
  - set (more := match max with
                 | Some O => None
                 | _ => if p c then matchRepeat greedy p (Nat.pred min)
                                     (Nat.pred <$> max) inp k else None
                 end).
    assert (Hmore : ∀ y, more = Some y →
              ∃ pre rest, c :: inp = pre ++ rest
                ∧ Forall (λ c, p c = true) pre
                ∧ (min ≤ length pre)%nat ∧ k rest = Some y).
    { intros y Hy. assert (Hpc : p c = true ∧
          matchRepeat greedy p (Nat.pred min) (Nat.pred <$> max) inp k = Some y).
      { subst more. destruct max as [[|?]|]; try done;
          destruct (p c); try done. }
      destruct Hpc as [Hpc Hrec].
      apply IH in Hrec as (pre & rest & -> & Hall & Hmin & Hk).
      exists (c :: pre), rest. split_and!; [done|by constructor| |done].
      simpl. lia. }
    assert (Hstop : ∀ y, match min with O => k (c :: inp) | S _ => None end = Some y →
              ∃ pre rest, c :: inp = pre ++ rest
                ∧ Forall (λ c, p c = true) pre
                ∧ (min ≤ length pre)%nat ∧ k rest = Some y).
    { intros y Hy. destruct min; [|done].
      exists [], (c :: inp). split_and!; [done|constructor|simpl; lia|done]. }
    assert (Hgoal : (if greedy
              then match more with Some x => Some x
                   | None => match min with O => k (c :: inp) | S _ => None end end
              else match match min with O => k (c :: inp) | S _ => None end with
                   | Some x => Some x | None => more end) = Some x →
             ∃ pre rest, c :: inp = pre ++ rest
                ∧ Forall (λ c, p c = true) pre
                ∧ (min ≤ length pre)%nat ∧ k rest = Some x).
    { destruct greedy.
      - destruct more as [y|] eqn:Hm; [intros [= <-]; by apply Hmore|apply Hstop].
      - destruct (match min with O => k (c :: inp) | S _ => None end) as [y|] eqn:Hs;
          [intros [= <-]; by apply Hstop|apply Hmore]. }
    intros H. apply Hgoal. rewrite <- H. subst more.
    destruct max as [[|?]|]; reflexivity.
Qed.

(** With an upper bound, at most that many units were consumed. *)
Lemma matchRepeat_bounded greedy p inp : ∀ min mx (k : jsstring → option R) x,
  matchRepeat greedy p min (Some mx) inp k = Some x →
  ∃ pre rest,
    inp = pre ++ rest ∧ Forall (λ c, p c = true) pre
    ∧ (min ≤ length pre ≤ mx)%nat ∧ k rest = Some x.
Proof.
  induction inp as [|c inp IH]; intros min mx k x; simpl.
  - intros H. assert (Hk : min = O ∧ k [] = Some x).
    { destruct min, mx, greedy; simpl in H; try done; destruct (k []); done. }
    destruct Hk as [-> Hk]. exists [], [].
    split_and!; [done|constructor|simpl; lia|simpl; lia|done].
  - assert (Hstop : ∀ y, match min with O => k (c :: inp) | S _ => None end = Some y →
              ∃ pre rest, c :: inp = pre ++ rest
                ∧ Forall (λ c, p c = true) pre
                ∧ (min ≤ length pre ≤ mx)%nat ∧ k rest = Some y).
    { intros y Hy. destruct min; [|done].
      exists [], (c :: inp). split_and!; [done|constructor|simpl; lia|simpl; lia|done]. }
    destruct mx as [|mx].
    { destruct greedy; [apply Hstop|].
      destruct (match min with O => k (c :: inp) | S _ => None end); [|done].
      intros [= <-]. by apply Hstop. }
    assert (Hmore : ∀ y,
              (if p c then matchRepeat greedy p (Nat.pred min) (Some mx) inp k
               else None) = Some y →
              ∃ pre rest, c :: inp = pre ++ rest
                ∧ Forall (λ c, p c = true) pre
                ∧ (min ≤ length pre ≤ S mx)%nat ∧ k rest = Some y).
    { intros y Hy. destruct (p c) eqn:Hpc; [|done].
      apply IH in Hy as (pre & rest & -> & Hall & [Hmin Hmax] & Hk).
      exists (c :: pre), rest.
      split_and!; [done|by constructor|simpl; lia|simpl; lia|done]. }
    simpl. destruct greedy.
    + destruct (if p c then _ else None) as [y|] eqn:Hm.
      * intros [= <-]. by apply Hmore.
      * intros Hy. destruct (Hstop _ Hy) as (pre & rest & ? & ? & ? & ?).
        exists pre, rest. split_and!; try done; lia.
    + destruct (match min with O => k (c :: inp) | S _ => None end) as [y|] eqn:Hs.
      * intros [= <-]. destruct (Hstop _ eq_refl) as (pre & rest & ? & ? & ? & ?).
        exists pre, rest. split_and!; try done; lia.
      * apply Hmore.
Qed.

(** A greedy repetition followed by a continuation that accepts the rest
    right after a maximal run takes the whole run. *)
Lemma matchRepeat_greedy_run p pre : ∀ rest min max (k : jsstring → option R) y,
  Forall (λ c, p c = true) pre → (min ≤ length pre)%nat →
  (∀ mx, max = Some mx → (length pre ≤ mx)%nat) →
  k rest = Some y →
  (∀ mx, max = Some mx → (length pre < mx)%nat →
         match rest with c :: _ => p c = false | [] => True end) →
  (max = None → match rest with c :: _ => p c = false | [] => True end) →
  matchRepeat true p min max (pre ++ rest) k = Some y.
Proof.
  induction pre as [|c pre IH]; intros rest min max k y Hall Hmin Hmax Hk Hb1 Hb2.
  - simpl in Hmin. assert (min = O) as -> by lia. simpl.
    destruct rest as [|c rest]; simpl.
    + rewrite Hk. by destruct max as [[|?]|].
    + rewrite Hk. destruct max as [[|mx]|]; [done| |].
      * rewrite (Hb1 (S mx) eq_refl) by (simpl; lia). done.
      * by rewrite (Hb2 eq_refl).
  - apply Forall_cons in Hall as [Hc Hall]. simpl.
    assert (Hrec : matchRepeat true p (Nat.pred min) (Nat.pred <$> max)
                     (pre ++ rest) k = Some y).
    { apply IH; try done.
      - simpl in Hmin. lia.
      - intros mx Hmx. destruct max as [m|]; [|done]. injection Hmx as <-.
        specialize (Hmax m eq_refl). simpl in Hmax. lia.
      - intros mx Hmx Hlt. destruct max as [m|]; [|done]. injection Hmx as <-.
        apply (Hb1 m eq_refl). simpl. lia.
      - intros Hn. destruct max; [done|]. by apply Hb2. }
    destruct max as [[|mx]|].
    + specialize (Hmax 0%nat eq_refl). simpl in Hmax. lia.
    + rewrite Hc. change (Nat.pred <$> Some (S mx)) with (Some mx) in *.
      by rewrite Hrec.
    + rewrite Hc. change (Nat.pred <$> None) with (@None nat) in *.
      by rewrite Hrec.
Qed.

(** A repetition whose continuation accepts any rest succeeds on an input
    that starts with at least [min] units of the class. *)
Lemma matchRepeat_total greedy p pre :
  ∀ rest min max (k : jsstring → option R),
  Forall (λ c, p c = true) pre → (min ≤ length pre)%nat →
  (∀ mx, max = Some mx → (min ≤ mx)%nat) →
  (∀ r, is_Some (k r)) →
  is_Some (matchRepeat greedy p min max (pre ++ rest) k).
Proof.
  induction pre as [|c pre IH]; intros rest min max k Hall Hmin Hmax Hk.
  - simpl in Hmin. assert (min = O) as -> by lia.
    destruct rest as [|c rest]; simpl.
    + destruct (Hk []) as [y ->]. destruct greedy, max as [[|?]|]; by eexists.
    + destruct (Hk (c :: rest)) as [y ->].
      destruct greedy; [|by eexists].
      destruct max as [[|?]|]; [by eexists| |];
        (destruct (p c); [|by eexists]);
        destruct (matchRepeat _ _ _ _ _ _); by eexists.
  - apply Forall_cons in Hall as [Hc Hall]. simpl. rewrite Hc.
    assert (Hrec : is_Some (matchRepeat greedy p (Nat.pred min)
                              (Nat.pred <$> max) (pre ++ rest) k)).
    { apply IH; [done| | |done].
      - simpl in Hmin. lia.
      - intros mx Hmx. destruct max as [m|]; [|done]. injection Hmx as <-.
        specialize (Hmax m eq_refl). lia. }
    destruct (Hk (c :: pre ++ rest)) as [z Hz].
    destruct max as [[|mx]|].
    + specialize (Hmax O eq_refl). assert (min = O) as -> by lia.
      rewrite Hz. destruct greedy; by eexists.
    + destruct Hrec as [y Hy]. rewrite Hy.
      destruct greedy; [by eexists|]. destruct min; [rewrite Hz|]; by eexists.
    + destruct Hrec as [y Hy]. rewrite Hy.
      destruct greedy; [by eexists|]. destruct min; [rewrite Hz|]; by eexists.
Qed.

(** An unbounded repetition succeeds as soon as some split of the input
    into units of the class and a rest the continuation accepts exists. *)
Lemma matchRepeat_complete greedy p pre : ∀ rest min (k : jsstring → option R),
  Forall (λ c, p c = true) pre → (min ≤ length pre)%nat →
  is_Some (k rest) →
  is_Some (matchRepeat greedy p min None (pre ++ rest) k).
Proof.
  induction pre as [|c pre IH]; intros rest min k Hall Hmin Hk.
  - simpl in Hmin. assert (min = O) as -> by lia.
    destruct Hk as [y Hy]. destruct rest as [|c rest]; simpl.
    + rewrite Hy. destruct greedy; simpl; (eexists; reflexivity).
    + rewrite Hy. destruct greedy; simpl; [|(eexists; reflexivity)].
      destruct (p c); simpl; [|(eexists; reflexivity)].
      destruct (matchRepeat _ _ _ _ _ _); simpl; (eexists; reflexivity).
  - apply Forall_cons in Hall as [Hc Hall]. simpl. rewrite Hc.
    assert (Hrec : is_Some (matchRepeat greedy p (Nat.pred min) None (pre ++ rest) k)).
    { apply IH; [done| |done]. simpl in Hmin. lia. }
    destruct Hrec as [y Hy]. rewrite Hy.
    destruct greedy; simpl; [eexists; reflexivity|].
    destruct min; simpl; [|eexists; reflexivity].
    destruct (k (c :: pre ++ rest)); eexists; reflexivity.
Qed.

End MatcherFacts.

Section ExecFacts.

Lemma matchRegex_bol {R} n r inp cs (k : jsstring → captures → option R) :
  matchRegex n (RSeq RBol r) inp cs k
  = if (length inp =? n)%nat then matchRegex n r inp cs k else None.
Proof. reflexivity. Qed.

Lemma execFrom_unfold r n index inp :
  execFrom r n index inp
  = match matchRegex n r inp [] (λ rest cs, Some (rest, cs)) with
    | Some (rest, cs) =>
        Some {| matchIndex := index;
                matchText := take (length inp - length rest) inp;
                matchCaptures := cs; matchRest := rest |}
    | None =>
        match inp with
        | [] => None
        | _ :: inp' => execFrom r n (S index) inp'
        end
    end.
Proof. by destruct inp. Qed.

(** A pattern that starts with [^] is only ever matched at index 0. *)
Lemma execFrom_bol r n index inp :
  (length inp < n)%nat → execFrom (RSeq RBol r) n index inp = None.
Proof.
  revert index. induction inp as [|c inp IH]; intros index Hlen;
    rewrite execFrom_unfold, matchRegex_bol.
  - destruct (Nat.eqb_spec (length (@nil N)) n) as [Heq|Hne]; [|done].
    simpl in *. lia.
  - destruct (Nat.eqb_spec (length (c :: inp)) n) as [Heq|Hne]; [lia|].
    apply IH. simpl in Hlen. lia.
Qed.

Lemma exec_bol r s :
  exec (RSeq RBol r) s
  = match matchRegex (length s) r s [] (λ rest cs, Some (rest, cs)) with
    | Some (rest, cs) =>
        Some {| matchIndex := 0;
                matchText := take (length s - length rest) s;
                matchCaptures := cs; matchRest := rest |}
    | None => None
    end.
Proof.
  unfold exec. rewrite execFrom_unfold, matchRegex_bol, Nat.eqb_refl.
  destruct (matchRegex _ r s [] _) as [[rest cs]|]; [done|].
  destruct s as [|c s]; [done|]. apply execFrom_bol. simpl. lia.
Qed.

(** Where a match is found: at a suffix of the subject. *)
Lemma execFrom_Some r n inp : ∀ index m,
  execFrom r n index inp = Some m →
  ∃ skipped inp' cs,
    inp = skipped ++ inp'
    ∧ matchIndex m = (index + length skipped)%nat
    ∧ matchRegex n r inp' [] (λ rest cs, Some (rest, cs)) = Some (matchRest m, cs)
    ∧ matchCaptures m = cs
    ∧ matchText m = take (length inp' - length (matchRest m)) inp'.
Proof.
  induction inp as [|c inp IH]; intros index m; simpl.
  - destruct (matchRegex n r [] [] _) as [[rest cs]|] eqn:Hm; [|done].
    intros [= <-]. exists [], [], cs. simpl. split_and!; try done; lia.
  - destruct (matchRegex n r (c :: inp) [] _) as [[rest cs]|] eqn:Hm.
    + intros [= <-]. exists [], (c :: inp), cs. simpl. split_and!; try done; lia.
    + intros (skipped & inp' & cs & -> & Hi & Hmatch & Hcs & Ht)%IH.
      exists (c :: skipped), inp', cs. simpl. split_and!; try done; lia.
Qed.

Lemma exec_Some r s m :
  exec r s = Some m →
  ∃ skipped inp' cs,
    s = skipped ++ inp'
    ∧ matchIndex m = length skipped
    ∧ matchRegex (length s) r inp' [] (λ rest cs, Some (rest, cs))
      = Some (matchRest m, cs)
    ∧ matchCaptures m = cs.
Proof.
  intros (skipped & inp' & cs & ? & ? & ? & ? & _)%execFrom_Some.
  exists skipped, inp', cs. split_and!; done.
Qed.

End ExecFacts.

(** * What a match can capture *)

Section SubjectFacts.
Context {R : Type} (subject : jsstring) (n : nat).

Local Abbreviation within := (within subject).
Local Abbreviation capturesWithin := (capturesWithin subject).

Lemma within_app_r pre rest : within (pre ++ rest) → within rest.
Proof. intros H y Hy. apply H. rewrite elem_of_app. by right. Qed.

Lemma within_take k inp : within inp → within (take k inp).
Proof.
  intros H y Hy. apply H.
  eapply elem_of_submseteq; [exact Hy|]. apply sublist_submseteq, sublist_take.
Qed.

Lemma matchRegex_within r : ∀ inp cs (k : jsstring → captures → option R) x,
  within inp → capturesWithin cs →
  matchRegex n r inp cs k = Some x →
  ∃ rest cs', within rest ∧ capturesWithin cs' ∧ k rest cs' = Some x.
Proof.
  induction r as [|p|r1 IH1 r2 IH2|r1 IH1 r2 IH2|p min max greedy|r1 IH1
                 |i r1 IH1| | |];
    intros inp cs k x Hin Hcs; cbn [matchRegex].
  - eauto.
  - destruct inp as [|c rest]; [done|]. destruct (p c); [|done].
    intros Hk. exists rest, cs. split_and!; [|done|done].
    exact (within_app_r [c] rest Hin).
  - intros (rest & cs' & Hin' & Hcs' & H)%IH1; [|done|done]. by eapply IH2.
  - destruct (matchRegex n r1 inp cs k) as [x'|] eqn:H1.
    + intros [= <-]. by eapply IH1.
    + by eapply IH2.
  - intros (pre & rest & -> & _ & _ & Hk)%matchRepeat_Some.
    exists rest, cs. split_and!; [|done|done]. by eapply within_app_r.
  - destruct (matchRegex n r1 inp cs k) as [x'|] eqn:H1.
    + intros [= <-]. by eapply IH1.
    + eauto.
  - intros (rest & cs' & Hin' & Hcs' & H)%IH1; [|done|done].
    exists rest, ((i, take (length inp - length rest) inp) :: cs').
    split_and!; [done| |done].
    intros j s y [[= -> ->]|Hj]%elem_of_cons Hy.
    + exact (within_take _ _ Hin _ Hy).
    + by eapply Hcs'.
  - destruct (length inp =? n)%nat; [eauto|done].
  - destruct inp; [eauto|done].
  - destruct inp as [|c rest]; [eauto|]. destruct (isLineTerminator c); [eauto|done].
Qed.

End SubjectFacts.

Lemma capture_elem_of i cs s : capture i cs = Some s → (i, s) ∈ cs.
Proof.
  induction cs as [|[j t] cs IH]; simpl; [done|].
  destruct (Nat.eqb_spec i j) as [->|].
  - intros [= ->]. apply list_elem_of_here.
  - intros H. apply list_elem_of_further. by apply IH.
Qed.

(** A captured group of a match consists of units of the subject. *)
Lemma exec_group_within r s m i g y :
  exec r s = Some m → group i m = Some g → y ∈ g → y ∈ s.
Proof.
  intros (skipped & inp & cs & -> & _ & Hm & Hcs)%exec_Some Hg Hy.
  eapply (matchRegex_within (skipped ++ inp)) in Hm
    as (rest & cs' & _ & Hcs' & Heq).
  - injection Heq as _ ->. unfold group in Hg. rewrite Hcs in Hg.
    eapply Hcs'; [by eapply capture_elem_of|done].
  - intros z Hz. rewrite elem_of_app. by right.
  - by intros ? ? ? ?%elem_of_nil.
Qed.


(** * Trimming *)

Section TrimFacts.

Lemma trimStart_split s :
  ∃ pre, s = pre ++ trimStart s ∧ Forall (λ c, isSpace c = true) pre.
Proof.
  induction s as [|c s (pre & IH & Hpre)]; simpl.
  - by exists [].
  - destruct (isSpace c) eqn:Hc.
    + exists (c :: pre). split; [by rewrite <- app_comm_cons, <- IH|by constructor].
    + by exists [].
Qed.

Lemma trimStart_head s c r : trimStart s = c :: r → isSpace c = false.
Proof.
  induction s as [|d s IH]; simpl; [done|].
  destruct (isSpace d) eqn:Hd; [done|]. by intros [= <- _].
Qed.

Lemma trimStart_nonspace s c :
  c ∈ s → isSpace c = false → trimStart s ≠ [].
Proof.
  induction s as [|d s IH]; simpl; [by intros ?%elem_of_nil|].
  intros [->|Hin]%elem_of_cons Hc.
  - by rewrite Hc.
  - destruct (isSpace d); [by apply IH|done].
Qed.

Lemma trimStart_id c s : isSpace c = false → trimStart (c :: s) = c :: s.
Proof. simpl. by intros ->. Qed.

(** A trimmed string that is not empty starts and ends with a unit that
    is not white space. *)
Lemma trim_ends s :
  trim s = [] ∨
  ∃ c mid d, (trim s = [c] ∧ c = d ∨ trim s = c :: mid ++ [d])
             ∧ isSpace c = false ∧ isSpace d = false.
Proof.
  unfold trim, trimEnd.
  destruct (trimStart s) as [|c t] eqn:Ht; [by left|].
  pose proof (trimStart_head _ _ _ Ht) as Hc.
  destruct (trimStart_split (reverse (c :: t))) as (pre & Hsplit & Hpre).
  destruct (trimStart (reverse (c :: t))) as [|d u] eqn:Hu.
  { exfalso. eapply (trimStart_nonspace (reverse (c :: t)) c); [|done|done].
    rewrite elem_of_reverse. apply list_elem_of_here. }
  right. pose proof (trimStart_head _ _ _ Hu) as Hd.
  assert (Hrev : c :: t = reverse (d :: u) ++ reverse pre).
  { rewrite <- reverse_app, <- Hsplit. by rewrite reverse_involutive. }
  rewrite reverse_cons in Hrev |- *.
  destruct (reverse u) as [|e v] eqn:Hv; simpl in *.
  - injection Hrev as -> _. exists d, [], d. split_and!; [by left|done|done].
  - injection Hrev as -> _. exists e, v, d. split_and!; [by right|done|done].
Qed.

Lemma trim_nonspace s c : c ∈ s → isSpace c = false → trim s ≠ [].
Proof.
  intros Hin Hc. unfold trim, trimEnd.
  destruct (trimStart_split s) as (pre & Hsplit & Hpre).
  assert (Hin' : c ∈ trimStart s).
  { rewrite Hsplit in Hin. apply elem_of_app in Hin as [Hin|Hin]; [|done].
    eapply Forall_forall in Hpre; [|exact Hin]. congruence. }
  intros Hnil%(f_equal reverse). rewrite reverse_involutive in Hnil.
  eapply (trimStart_nonspace (reverse (trimStart s)) c); [|done|done].
  by rewrite elem_of_reverse.
Qed.

End TrimFacts.

(** * The quoted-reply pattern *)

Section QuoteFacts.

Lemma matchRegex_chr {R} n s inp cs (k : jsstring → captures → option R) :
  matchRegex n (chr s) inp cs k
  = match inp with
    | c :: rest => if bool_decide (c ∈ js s) then k rest cs else None
    | [] => None
    end.
Proof. reflexivity. Qed.

Lemma chr_colon c : bool_decide (c ∈ js ":") = true ↔ c = 58%N.
Proof.
  rewrite bool_decide_eq_true. change (js ":") with [58%N].
  by rewrite list_elem_of_singleton.
Qed.

Lemma take_app_minus (pre rest : jsstring) :
  take (length (pre ++ rest) - length rest) (pre ++ rest) = pre.
Proof.
  rewrite length_app.
  replace (length pre + length rest - length rest)%nat with (length pre) by lia.
  by rewrite take_app_length.
Qed.

(** What a match of the pattern says about the line. *)
Lemma quoteRegex_Some first m :
  exec quoteRegex first = Some m →
  ∃ g1 w g2,
    first = g1 ++ 58%N :: w :: g2
    ∧ g1 ≠ [] ∧ g2 ≠ [] ∧ isSpace w = true
    ∧ Forall (λ c, isDot c = true) g1 ∧ Forall (λ c, isDot c = true) g2
    ∧ groupOr 1 m = g1 ∧ groupOr 2 m = g2.
Proof.
  unfold quoteRegex. cbn [rseq foldr]. rewrite exec_bol.
  destruct (matchRegex _ _ _ _ _) as [[rest cs]|] eqn:H; [|done].
  intros [= <-]. cbn [matchRegex] in H.
  apply matchRepeat_Some in H as (g1 & r1 & -> & Hg1 & Hlen1 & H).
  rewrite matchRegex_chr in H.
  destruct r1 as [|c r2]; [done|].
  destruct (bool_decide (c ∈ js ":")) eqn:Hc; [|done].
  apply chr_colon in Hc as ->.
  destruct r2 as [|w r3]; [done|].
  destruct (isSpace w) eqn:Hw; [|done].
  apply matchRepeat_Some in H as (g2 & r4 & -> & Hg2 & Hlen2 & H).
  destruct r4 as [|? ?]; [|done]. injection H as <- <-.
  rewrite app_nil_r in *.
  exists g1, w, g2. split_and!; try done.
  - intros ->. simpl in Hlen1. lia.
  - intros ->. simpl in Hlen2. lia.
  - unfold groupOr, group. simpl. by rewrite take_app_minus.
  - unfold groupOr, group. simpl. by rewrite Nat.sub_0_r, firstn_all.
Qed.

(** Every line of the shape is matched. *)
Lemma quoteRegex_complete first :
  quoteShape first → is_Some (exec quoteRegex first).
Proof.
  intros (g1 & w & g2 & -> & Hn1 & Hn2 & Hw & Hg1 & Hg2).
  unfold quoteRegex. cbn [rseq foldr]. rewrite exec_bol.
  assert (Hm : is_Some (matchRegex (length (g1 ++ 58%N :: w :: g2))
            (RSeq (RGroup 1 (RRepeat isDot 1 None false))
               (RSeq (chr ":") (RSeq (RClass isSpace)
                  (RSeq (RGroup 2 (RRepeat isDot 1 None true))
                     (RSeq REol REmpty)))))
            (g1 ++ 58%N :: w :: g2) []
            (λ rest cs, Some (rest, cs)))).
  { cbn [matchRegex]. apply matchRepeat_complete; [done| |].
    - destruct g1; [done|simpl; lia].
    - rewrite matchRegex_chr.
      rewrite (proj2 (chr_colon 58%N) eq_refl), Hw.
      rewrite <- (app_nil_r g2) at 1.
      apply matchRepeat_complete; [done| |by eexists].
      destruct g2; [done|simpl; lia]. }
  destruct Hm as [[rest cs] ->]. by eexists.
Qed.

Lemma extractQuotedMessage_unfold text :
  extractQuotedMessage text
  = match firstLineAndRest text with
    | Some (first, rest) =>
        match exec quoteRegex first with
        | None => (text, None)
        | Some m =>
            let quotedSender0 := trim (groupOr 1 m) in
            let quotedContent0 := trim (groupOr 2 m) in
            if negb (truthy quotedSender0) || negb (truthy quotedContent0)
               || negb (truthy rest)
            then (text, None)
            else (rest, Some {| quotedSender := quotedSender0;
                                quotedContent := quotedContent0;
                                quotedMediaType := None |})
        end
    | None => (text, None)
    end.
Proof.
  unfold extractQuotedMessage, firstLineAndRest.
  by destruct (splitOn 10 text) as [|part0 [|part1 parts]].
Qed.

Lemma truthy_true s : truthy s = true ↔ s ≠ [].
Proof. by destruct s. Qed.

(** On a trimmed line of the shape the two guards on the quoted sender
    and the quoted text never fire. *)
Lemma quote_groups_nonempty part0 g1 w g2 :
  trim part0 = g1 ++ 58%N :: w :: g2 → g1 ≠ [] → g2 ≠ [] →
  trim g1 ≠ [] ∧ trim g2 ≠ [].
Proof.
  intros Heq Hn1 Hn2.
  destruct (trim_ends part0) as [Hnil|(c & mid & d & Hshape & Hc & Hd)].
  { rewrite Hnil in Heq. by destruct g1. }
  split.
  - apply (trim_nonspace g1 c); [|done].
    destruct g1 as [|c' g1']; [done|].
    destruct Hshape as [[Ht _]|Ht]; rewrite Ht in Heq;
      injection Heq as -> _; apply list_elem_of_here.
  - apply (trim_nonspace g2 d); [|done].
    destruct Hshape as [[Ht _]|Ht]; rewrite Ht in Heq.
    + destruct g1 as [|? [|? ?]]; done.
    + assert (Hl : last (c :: mid ++ [d]) = last (g1 ++ 58%N :: w :: g2))
        by by rewrite Heq.
      rewrite app_comm_cons, last_snoc in Hl.
      rewrite last_app in Hl. simpl in Hl.
      destruct g2 as [|e g2']; [done|].
      rewrite !last_cons in Hl.
      destruct (last g2') as [z|] eqn:Hz.
      * injection Hl as ->. apply elem_of_cons. right.
        apply last_Some in Hz as [l' ->].
        rewrite elem_of_app, list_elem_of_singleton. by right.
      * injection Hl as ->. apply list_elem_of_here.
Qed.

End QuoteFacts.

Lemma firstLineAndRest_trimmed text first rest :
  firstLineAndRest text = Some (first, rest) → ∃ part0, first = trim part0.
Proof.
  unfold firstLineAndRest.
  destruct (splitOn 10 text) as [|part0 [|part1 parts]]; try done.
  intros [= <- _]. by exists part0.
Qed.

(** The outcome of the extraction, case by case. *)
Lemma extractQuotedMessage_cases text :
  (∃ first rest m,
      firstLineAndRest text = Some (first, rest)
      ∧ exec quoteRegex first = Some m ∧ rest ≠ []
      ∧ trim (groupOr 1 m) ≠ [] ∧ trim (groupOr 2 m) ≠ []
      ∧ extractQuotedMessage text
        = (rest, Some {| quotedSender := trim (groupOr 1 m);
                         quotedContent := trim (groupOr 2 m);
                         quotedMediaType := None |}))
  ∨ (extractQuotedMessage text = (text, None)
     ∧ ∀ first rest, firstLineAndRest text = Some (first, rest) →
                     quoteShape first → rest = []).
Proof.
  rewrite extractQuotedMessage_unfold.
  destruct (firstLineAndRest text) as [[first rest]|] eqn:Hf; [|by right].
  destruct (exec quoteRegex first) as [m|] eqn:Hm.
  - destruct (firstLineAndRest_trimmed _ _ _ Hf) as [part0 Hp].
    destruct (quoteRegex_Some _ _ Hm)
      as (g1 & w & g2 & Hshape & Hn1 & Hn2 & Hw & Hd1 & Hd2 & Hg1 & Hg2).
    rewrite Hp in Hshape.
    destruct (quote_groups_nonempty _ _ _ _ Hshape Hn1 Hn2) as [Ht1 Ht2].
    rewrite Hg1, Hg2. cbn zeta.
    rewrite (proj2 (truthy_true _) Ht1), (proj2 (truthy_true _) Ht2). simpl.
    destruct rest as [|c rest]; simpl.
    + right. split; [done|]. by intros ? ? [= <- <-].
    + left. exists first, (c :: rest), m. rewrite Hg1, Hg2.
      split_and!; try done; by rewrite Hp.
  - right. split; [done|]. intros ? ? [= <- <-] Hs.
    apply quoteRegex_complete in Hs as [m' Hm']. congruence.
Qed.

(** C9. A quoted message is reported iff the body has a line break, its
    first line (trimmed) has the shape sender: text with a non-empty
    sender and a non-empty text, and what follows the first line is not
    empty once trimmed; then the trimmed remainder is the content and the
    quote carries the trimmed sender and text.  In every other case the
    body is returned unchanged and no quote is reported. *)
Theorem quoted_reply_extraction_is_conservative (text : jsstring) :
  let r := extractQuotedMessage text in
  (is_Some r.2 ↔
     ∃ first rest, firstLineAndRest text = Some (first, rest)
                   ∧ quoteShape first ∧ rest ≠ [])
  ∧ (∀ q, r.2 = Some q →
       ∃ first rest sender0 w body,
         firstLineAndRest text = Some (first, rest)
         ∧ r.1 = rest ∧ rest ≠ []
         ∧ first = sender0 ++ 58%N :: w :: body ∧ isSpace w = true
         ∧ quotedSender q = trim sender0 ∧ quotedSender q ≠ []
         ∧ quotedContent q = trim body ∧ quotedContent q ≠ [])
  ∧ (r.2 = None → r.1 = text)
  ∧ (extractQuotedMessage (js "Bob: hi there" ++ [10%N] ++ js "my reply")
     = (js "my reply",
        Some {| quotedSender := js "Bob"; quotedContent := js "hi there";
                quotedMediaType := None |})
     ∧ extractQuotedMessage (js "Note: buy milk")
       = (js "Note: buy milk", None)
     ∧ extractQuotedMessage (js "no colon here" ++ [10%N] ++ js "second line")
       = (js "no colon here" ++ [10%N] ++ js "second line", None)
     ∧ extractQuotedMessage (js "Bob: hi there" ++ [10%N] ++ js "   ")
       = (js "Bob: hi there" ++ [10%N] ++ js "   ", None)).
Proof.
  intros r. subst r.
  destruct (extractQuotedMessage_cases text)
    as [(first & rest & m & Hf & Hm & Hr & Ht1 & Ht2 & ->)|[-> Hnone]]; simpl.
  - destruct (quoteRegex_Some _ _ Hm)
      as (g1 & w & g2 & Hshape & Hn1 & Hn2 & Hw & Hd1 & Hd2 & Hg1 & Hg2).
    split; [|split; [|split]].
    + split; [intros _|by eexists].
      exists first, rest. split_and!; [done| |done].
      exists g1, w, g2. by split_and!.
    + intros q [= <-]. simpl.
      exists first, rest, g1, w, g2. rewrite Hg1, Hg2 in *. by split_and!.
    + done.
    + repeat split; vm_compute; reflexivity.
  - split; [|split; [|split]].
    + split; [by intros [? ?]|].
      intros (first & rest & Hf & Hs & Hr). by specialize (Hnone _ _ Hf Hs).
    + done.
    + done.
    + repeat split; vm_compute; reflexivity.
Qed.

Lemma quoted_reply_witness :
  (extractQuotedMessage (js "Note: buy milk")).1 = js "Note: buy milk".
Proof.
  refine (proj1 (proj2 (proj2 (quoted_reply_extraction_is_conservative
                                 (js "Note: buy milk")))) _).
  vm_compute. reflexivity.
Defined.


(** * Date-order inference *)

Section LeadingDateFacts.

Lemma chr_slash c : bool_decide (c ∈ js "/") = true ↔ c = 47%N.
Proof.
  rewrite bool_decide_eq_true. change (js "/") with [47%N].
  by rewrite list_elem_of_singleton.
Qed.

(** The three numeric fields of a matched date token. *)
Lemma leadingDateBody_Some n inp cs rest cs' :
  matchRegex n (rseq [RGroup 1 (digits 1 2); chr "/"; RGroup 2 (digits 1 2);
                      chr "/"; RGroup 3 (digits 2 4)]) inp cs
    (λ rest cs, Some (rest, cs)) = Some (rest, cs') →
  ∃ a b y,
    inp = a ++ 47%N :: b ++ 47%N :: y ++ rest
    ∧ Forall (λ c, isDigit c = true) a ∧ (1 ≤ length a ≤ 2)%nat
    ∧ Forall (λ c, isDigit c = true) b ∧ (1 ≤ length b ≤ 2)%nat
    ∧ Forall (λ c, isDigit c = true) y ∧ (2 ≤ length y ≤ 4)%nat
    ∧ cs' = (3%nat, y) :: (2%nat, b) :: (1%nat, a) :: cs.
Proof.
  unfold digits, chr. cbn [rseq foldr matchRegex].
  intros (a & r1 & -> & Ha & Hla & H)%matchRepeat_bounded.
  rewrite take_app_minus in H.
  destruct r1 as [|c r1]; [done|].
  destruct (bool_decide (c ∈ js "/")) eqn:Hc; [|done].
  apply chr_slash in Hc as ->.
  apply matchRepeat_bounded in H as (b & r2 & -> & Hb & Hlb & H).
  rewrite take_app_minus in H.
  destruct r2 as [|c r2]; [done|].
  destruct (bool_decide (c ∈ js "/")) eqn:Hc; [|done].
  apply chr_slash in Hc as ->.
  apply matchRepeat_bounded in H as (y & r3 & -> & Hy & Hly & H).
  rewrite take_app_minus in H. injection H as <- <-.
  exists a, b, y. done.
Qed.

(** A date token at the start of the input is matched, with its first two
    fields captured. *)
Lemma leadingDateBody_complete n a b y rest cs :
  Forall (λ c, isDigit c = true) a → (1 ≤ length a ≤ 2)%nat →
  Forall (λ c, isDigit c = true) b → (1 ≤ length b ≤ 2)%nat →
  Forall (λ c, isDigit c = true) y → (2 ≤ length y)%nat →
  ∃ rest' y',
    matchRegex n (rseq [RGroup 1 (digits 1 2); chr "/"; RGroup 2 (digits 1 2);
                        chr "/"; RGroup 3 (digits 2 4)])
      (a ++ 47%N :: b ++ 47%N :: y ++ rest) cs (λ rest cs, Some (rest, cs))
    = Some (rest', (3%nat, y') :: (2%nat, b) :: (1%nat, a) :: cs).
Proof.
  intros Ha Hla Hb Hlb Hy Hly.
  unfold digits, chr. cbn [rseq foldr matchRegex].
  set (k3 := λ (inp3 rest0 : jsstring),
         Some (rest0, (3%nat, take (length inp3 - length rest0) inp3)
                      :: (2%nat, b) :: (1%nat, a) :: cs)).
  assert (H3 : ∃ rest' y',
             matchRepeat true isDigit 2 (Some 4%nat) (y ++ rest) (k3 (y ++ rest))
             = Some (rest', (3%nat, y') :: (2%nat, b) :: (1%nat, a) :: cs)).
  { destruct (matchRepeat_total true isDigit y rest 2 (Some 4%nat)
                (k3 (y ++ rest))) as [x Hx]; try done.
    - intros mx [= <-]. lia.
    - rewrite Hx. apply matchRepeat_Some in Hx as (pre & r & _ & _ & _ & Hk).
      unfold k3 in Hk. injection Hk as <-. by eexists _, _. }
  destruct H3 as (rest' & y' & H3). exists rest', y'.
  assert (Hslash : bool_decide (47%N ∈ js "/") = true) by by apply chr_slash.
  apply matchRepeat_greedy_run; [done|lia| | |done|done].
  { intros mx [= <-]. lia. }
  rewrite take_app_minus, Hslash.
  apply matchRepeat_greedy_run; [done|lia| | |done|done].
  { intros mx [= <-]. lia. }
  rewrite take_app_minus, Hslash. exact H3.
Qed.

Lemma chr_bracket c : bool_decide (c ∈ js "[") = true ↔ c = 91%N.
Proof.
  rewrite bool_decide_eq_true. change (js "[") with [91%N].
  by rewrite list_elem_of_singleton.
Qed.

(** The date pattern of the inference matches exactly the lines that start
    with a date token, and captures its first two fields. *)
Lemma leadingDate_exec line a b :
  leadingDate line a b
  ↔ ∃ m, exec leadingDateRegex line = Some m
         ∧ groupOr 1 m = a ∧ groupOr 2 m = b.
Proof.
  unfold leadingDate.
  change leadingDateRegex
    with (RSeq RBol (RSeq (ROpt (chr "["))
            (rseq [RGroup 1 (digits 1 2); chr "/"; RGroup 2 (digits 1 2);
                   chr "/"; RGroup 3 (digits 2 4)]))).
  rewrite exec_bol.
  set (body := rseq _). cbn [matchRegex]. rewrite matchRegex_chr. split.
  - intros (bracket & y & rest & -> & Hbr & Ha & Hla & Hb & Hlb & Hy & Hly).
    set (line := bracket ++ _).
    destruct (leadingDateBody_complete (length line) a b y rest [])
      as (rest' & y' & Hm); try done.
    fold body in Hm. subst line. destruct Hbr as [-> | ->].
    + destruct a as [|c a]; [simpl in Hla; lia|].
      apply Forall_cons in Ha as Ha'. destruct Ha' as [Hc _].
      assert (Hnb : bool_decide (c ∈ js "[") = false).
      { apply not_true_iff_false. intros ->%chr_bracket. done. }
      cbn [app] in *. rewrite Hnb, Hm. by eexists.
    + cbn [app] in *.
      replace (bool_decide (91%N ∈ js "[")) with true
        by (symmetry; by apply chr_bracket).
      rewrite Hm. by eexists.
  - intros (m & Hm & H1 & H2).
    destruct (match line with
              | [] => None
              | c :: rest => if bool_decide (c ∈ js "[")
                             then matchRegex (length line) body rest []
                                    (λ rest cs, Some (rest, cs))
                             else None
              end) as [[rest cs']|] eqn:Hopt.
    + destruct line as [|c line']; [done|].
      destruct (bool_decide (c ∈ js "[")) eqn:Hc; [|done].
      apply chr_bracket in Hc as ->.
      apply leadingDateBody_Some in Hopt
        as (a' & b' & y & -> & Ha & Hla & Hb & Hlb & Hy & Hly & ->).
      injection Hm as <-. unfold groupOr, group in H1, H2. simpl in H1, H2.
      subst a' b'. exists [91%N], y, rest. split_and!; try done; try lia. by right.
    + destruct (matchRegex (length line) body line [] _) as [[rest cs']|] eqn:Hb;
        [|done].
      apply leadingDateBody_Some in Hb
        as (a' & b' & y & Hl & Ha & Hla & Hb & Hlb & Hy & Hly & ->).
      injection Hm as <-. unfold groupOr, group in H1, H2. simpl in H1, H2.
      subst a' b'. exists [], y, rest. split_and!; try done; try lia. by left.
Qed.

Lemma firstFieldExceeds_leadingDate line :
  firstFieldExceeds line = true
  ↔ ∃ a b, leadingDate line a b ∧ exceeds12 (parseInt a) = true.
Proof.
  unfold firstFieldExceeds. split.
  - destruct (exec leadingDateRegex line) as [m|] eqn:Hm; [|done].
    intros H. exists (groupOr 1 m), (groupOr 2 m). split; [|done].
    apply leadingDate_exec. by exists m.
  - intros (a & b & (m & -> & <- & _)%leadingDate_exec & H). done.
Qed.

Lemma secondFieldExceeds_leadingDate line :
  secondFieldExceeds line = true
  ↔ ∃ a b, leadingDate line a b ∧ exceeds12 (parseInt b) = true.
Proof.
  unfold secondFieldExceeds. split.
  - destruct (exec leadingDateRegex line) as [m|] eqn:Hm; [|done].
    intros H. exists (groupOr 1 m), (groupOr 2 m). split; [|done].
    apply leadingDate_exec. by exists m.
  - intros (a & b & (m & -> & _ & <-)%leadingDate_exec & H). done.
Qed.
End LeadingDateFacts.

Section DateOrderFacts.

Lemma evidenceStep_counts st line :
  evidenceStep st line
  = (st.1 + (if firstFieldExceeds line then 1 else 0),
     st.2 + (if secondFieldExceeds line then 1 else 0)).
Proof.
  unfold evidenceStep, firstFieldExceeds, secondFieldExceeds.
  destruct st as [a b]. destruct (exec leadingDateRegex line) as [m|]; simpl.
  - destruct (exceeds12 (parseInt (groupOr 1 m)));
      destruct (exceeds12 (parseInt (groupOr 2 m))); f_equal; lia.
  - f_equal; lia.
Qed.

Lemma countWhere_cons p line lines :
  countWhere p (line :: lines)
  = (if p line then 1 else 0) + countWhere p lines.
Proof.
  unfold countWhere. rewrite filter_cons.
  destruct (decide (p line = true)) as [->|Hn]; simpl.
  - lia.
  - apply not_true_is_false in Hn. rewrite Hn. lia.
Qed.

Lemma foldl_evidenceStep lines : ∀ st,
  foldl evidenceStep st lines
  = (st.1 + countWhere firstFieldExceeds lines,
     st.2 + countWhere secondFieldExceeds lines).
Proof.
  induction lines as [|line lines IH]; intros [a b]; simpl.
  - unfold countWhere. simpl. f_equal; lia.
  - rewrite IH, evidenceStep_counts, !countWhere_cons. simpl. f_equal; lia.
Qed.

Lemma countWhere_nonneg p lines : 0 <= countWhere p lines.
Proof. unfold countWhere. lia. Qed.

Lemma countWhere_pos p lines :
  0 < countWhere p lines ↔ ∃ line, line ∈ lines ∧ p line = true.
Proof.
  unfold countWhere. split.
  - intros H. destruct (filter _ lines) as [|x l] eqn:Hf; [simpl in H; lia|].
    exists x. assert (Hx : x ∈ filter (λ l, p l = true) lines)
      by (rewrite Hf; apply list_elem_of_here).
    apply list_elem_of_filter in Hx. tauto.
  - intros (line & Hin & Hp).
    assert (Hx : line ∈ filter (λ l, p l = true) lines)
      by (by apply list_elem_of_filter).
    destruct (filter _ lines); [by apply elem_of_nil in Hx|simpl; lia].
Qed.

Lemma countWhere_zero p lines :
  countWhere p lines = 0 ↔ ∀ line, line ∈ lines → p line = false.
Proof.
  pose proof (countWhere_nonneg p lines) as Hn.
  pose proof (countWhere_pos p lines) as Hp. split.
  - intros Hz line Hin. destruct (p line) eqn:E; [|done].
    assert (0 < countWhere p lines) by (apply Hp; eauto). lia.
  - intros Hall. destruct (decide (countWhere p lines = 0)) as [|Hne]; [done|].
    assert (Hpos : 0 < countWhere p lines) by lia.
    apply Hp in Hpos as (line & Hin & Hl). rewrite Hall in Hl; done.
Qed.

(** The inference, in terms of the two counts. *)
Lemma inferDateOrder_counts lines :
  inferDateOrder lines
  = if (0 <? dmyCount lines) && (mdyCount lines =? 0) then DMY
    else if (0 <? mdyCount lines) && (dmyCount lines =? 0) then MDY
    else if dmyCount lines <? mdyCount lines then MDY
    else DMY.
Proof.
  unfold inferDateOrder, dmyCount, mdyCount, scannedLines.
  assert (Ht : take (Nat.min (length lines) 800) lines = take 800 lines).
  { destruct (Nat.min_spec (length lines) 800) as [[Hlt ->]|[Hle ->]]; [|done].
    rewrite !take_ge by lia. done. }
  rewrite Ht, foldl_evidenceStep. simpl. done.
Qed.

End DateOrderFacts.

(** C3. Over the first 800 lines: evidence for day-first only gives
    day-first, evidence for month-first only gives month-first, evidence
    for both gives the order with more lines behind it and day-first on a
    tie, and no evidence gives day-first.  A file with a line dated
    31/01/2024 is day-first whatever ambiguous dates such as 02/03/2024
    follow.  A line is evidence for day-first (month-first) exactly when
    it starts with a date token whose first (second) field is above 12. *)
Theorem inferDateOrder_by_evidence (lines : list jsstring) :
  let scanned := scannedLines lines in
  ((∃ line, line ∈ scanned ∧ firstFieldExceeds line = true) →
   (∀ line, line ∈ scanned → secondFieldExceeds line = false) →
   inferDateOrder lines = DMY)
  ∧ ((∃ line, line ∈ scanned ∧ secondFieldExceeds line = true) →
     (∀ line, line ∈ scanned → firstFieldExceeds line = false) →
     inferDateOrder lines = MDY)
  ∧ ((∃ line, line ∈ scanned ∧ firstFieldExceeds line = true) →
     (∃ line, line ∈ scanned ∧ secondFieldExceeds line = true) →
     inferDateOrder lines
     = if dmyCount lines <? mdyCount lines then MDY else DMY)
  ∧ ((∀ line, line ∈ scanned →
        firstFieldExceeds line = false ∧ secondFieldExceeds line = false) →
     inferDateOrder lines = DMY)
  ∧ (firstFieldExceeds (js "31/01/2024, 10:00 - Alice: hello") = true
     ∧ secondFieldExceeds (js "31/01/2024, 10:00 - Alice: hello") = false
     ∧ firstFieldExceeds (js "02/03/2024, 10:05 - Bob: hi") = false
     ∧ secondFieldExceeds (js "02/03/2024, 10:05 - Bob: hi") = false
     ∧ inferDateOrder [js "31/01/2024, 10:00 - Alice: hello";
                       js "02/03/2024, 10:05 - Bob: hi"] = DMY
     ∧ inferDateOrder [js "[02/03/2024, 10:05:00] Bob: hi";
                       js "[01/31/2024, 10:00:00] Alice: hello"] = MDY)
  ∧ (∀ line, firstFieldExceeds line = true
             ↔ ∃ a b, leadingDate line a b ∧ exceeds12 (parseInt a) = true)
  ∧ (∀ line, secondFieldExceeds line = true
             ↔ ∃ a b, leadingDate line a b ∧ exceeds12 (parseInt b) = true).
Proof.
  intros scanned. subst scanned. rewrite inferDateOrder_counts.
  unfold dmyCount, mdyCount.
  set (d := countWhere firstFieldExceeds (scannedLines lines)).
  set (m := countWhere secondFieldExceeds (scannedLines lines)).
  assert (Hd : 0 <= d) by apply countWhere_nonneg.
  assert (Hm : 0 <= m) by apply countWhere_nonneg.
  split; [|split; [|split; [|split; [|split; [|split]]]]].
  - intros Hex%countWhere_pos Hall%countWhere_zero.
    fold d in Hex. fold m in Hall.
    rewrite Hall. destruct (Z.ltb_spec 0 d); [done|lia].
  - intros Hex%countWhere_pos Hall%countWhere_zero.
    fold m in Hex. fold d in Hall.
    rewrite Hall. destruct (Z.ltb_spec 0 m); [done|lia].
  - intros Hex1%countWhere_pos Hex2%countWhere_pos.
    fold d in Hex1. fold m in Hex2.
    destruct (Z.eqb_spec m 0); [lia|].
    destruct (Z.eqb_spec d 0); [lia|].
    by rewrite !andb_false_r.
  - intros Hnone.
    assert (H1 : d = 0).
    { apply countWhere_zero. intros line Hin. by apply Hnone. }
    assert (H2 : m = 0).
    { apply countWhere_zero. intros line Hin. by apply Hnone. }
    clearbody d m. by subst.
  - clear. repeat split; vm_compute; reflexivity.
  - apply firstFieldExceeds_leadingDate.
  - apply secondFieldExceeds_leadingDate.
Qed.

Lemma inferDateOrder_witness :
  inferDateOrder [js "31/01/2024, 10:00 - Alice: hello";
                  js "02/03/2024, 10:05 - Bob: hi"] = DMY.
Proof.
  refine (proj1 (inferDateOrder_by_evidence
                   [js "31/01/2024, 10:00 - Alice: hello";
                    js "02/03/2024, 10:05 - Bob: hi"]) _ _).
  - exists (js "31/01/2024, 10:00 - Alice: hello"). split.
    + apply list_elem_of_here.
    + vm_compute. reflexivity.
  - intros line Hin. unfold scannedLines in Hin. simpl in Hin.
    apply elem_of_cons in Hin as [->|Hin]; [vm_compute; reflexivity|].
    apply list_elem_of_singleton in Hin as ->. vm_compute. reflexivity.
Defined.

(** * Message assembly: where the type comes from *)

Section AssemblyFacts.

Lemma bindC_Normal {A B} (c : Completion A) (f : A → Completion B) b :
  bindC c f = Normal b → ∃ a, c = Normal a ∧ f a = Normal b.
Proof. destruct c as [a|e]; simpl; [eauto|done]. Qed.

Lemma getMessageTypeFromMime_media mime :
  getMessageTypeFromMime mime ≠ TSystem
  ∧ getMessageTypeFromMime mime ≠ TCall
  ∧ getMessageTypeFromMime mime ≠ TText.
Proof.
  unfold getMessageTypeFromMime.
  repeat (case_match; try done).
Qed.

Lemma detectMessageType_type content0 mediaFiles d :
  detectMessageType content0 mediaFiles = Normal d →
  detectedType d ≠ TSystem ∧ detectedType d ≠ TCall.
Proof.
  unfold detectMessageType.
  destruct (existsb _ omittedPatterns); [by intros [= <-]|].
  destruct (firstMatch _ _) as [[pattern m]|]; [|by intros [= <-]].
  intros (found & _ & Hd)%bindC_Normal.
  destruct found as [mediaFile|]; injection Hd as <-; simpl; [|done].
  pose proof (getMessageTypeFromMime_media (mimeType mediaFile)). tauto.
Qed.

(** The type of an assembled message is [system] exactly when its line
    was classified as a system line. *)
Lemma createMessage_system m mediaFiles seq msg :
  createMessage m mediaFiles seq = Normal msg →
  (type msg = TSystem ↔ isSystemLine m = true)
  ∧ sender msg = matchSender m
  ∧ (isSystemLine m = true → isOutgoing msg = false).
Proof.
  unfold createMessage. intros (d & Hd & Hmsg)%bindC_Normal.
  destruct (stripEditedMarker _) as [editedCleaned isEdited0].
  destruct (extractQuotedMessage _) as [replyCleaned quoted].
  injection Hmsg as <-. simpl.
  apply detectMessageType_type in Hd as [Hs Hc].
  split_and!; [|done|by intros ->].
  destruct (isSystemLine m); [done|].
  destruct (isCall _); split; done.
Qed.

Lemma matchMessageLine_user line dateOrder m :
  matchMessageLine line dateOrder = Some m → isSystemLine m = false.
Proof.
  unfold matchMessageLine.
  destruct (orElse _ _) as [r|]; [|done].
  destruct (parseTimestamp _ _ _); [|done]. by intros [= <-].
Qed.

Lemma matchSystemLine_system line dateOrder m :
  matchSystemLine line dateOrder = Some m →
  isSystemLine m = true ∧ matchSender m = js "System".
Proof.
  unfold matchSystemLine.
  destruct (orElse _ _) as [r|]; [|done].
  destruct (test _ _); [done|].
  destruct (parseTimestamp _ _ _); [|done].
  destruct (negb _); [done|]. by intros [= <-].
Qed.

Lemma userOrigin_not_system m : userOrigin m → isSystemLine m = false.
Proof.
  induction 1 as [line dateOrder m Hm|m line _ IH]; [|done].
  by eapply matchMessageLine_user.
Qed.

Lemma systemOrigin_system m :
  systemOrigin m → isSystemLine m = true ∧ matchSender m = js "System".
Proof.
  induction 1 as [line dateOrder m _ Hm|m line _ IH]; [|done].
  by eapply matchSystemLine_system.
Qed.

Lemma createMessage_assembledFrom m mediaFiles seq msg :
  userOrigin m ∨ systemOrigin m →
  createMessage m mediaFiles seq = Normal msg →
  assembledFrom mediaFiles msg.
Proof.
  intros Ho Hc. destruct (createMessage_system _ _ _ _ Hc) as (Hty & _ & _).
  destruct Ho as [Hu|Hs].
  - left. exists m, seq. split_and!; [done|done|].
    apply userOrigin_not_system in Hu. rewrite Hty, Hu. done.
  - right. exists m, seq. split_and!; [done|done|].
    apply systemOrigin_system in Hs as [Hs _]. by apply Hty.
Qed.


Lemma pushCurrent_inv mediaFiles messages0 current messages1 :
  Forall (assembledFrom mediaFiles) messages0 →
  userOrigin current ∨ systemOrigin current →
  pushCurrent messages0 current mediaFiles = Normal messages1 →
  Forall (assembledFrom mediaFiles) messages1.
Proof.
  intros Hall Ho (msg & Hc & [= <-])%bindC_Normal.
  apply Forall_app. split; [done|]. apply Forall_singleton.
  by eapply createMessage_assembledFrom.
Qed.

Lemma parseLine_inv dateOrder mediaFiles i rawLine st st' :
  parserInv mediaFiles st →
  parseLine dateOrder mediaFiles i rawLine st = Normal st' →
  parserInv mediaFiles st'.
Proof.
  intros [Hall Hcur]. unfold parseLine.
  destruct (negb (truthy _)); [by intros [= <-]|].
  destruct (orElse _ _) as [m|] eqn:Hm.
  - intros (messages1 & Hpush & [= <-])%bindC_Normal. split; simpl.
    + destruct (currentMessage st) as [current|]; [|by injection Hpush as <-].
      eapply pushCurrent_inv; [done| |done]. by apply Hcur.
    + intros m' [= <-]. unfold orElse in Hm.
      destruct (matchMessageLine _ _) as [mu|] eqn:Hu.
      * injection Hm as <-. left. by econstructor.
      * right. by econstructor.
  - destruct (currentMessage st) as [current|] eqn:Hc.
    + destruct (test _ _).
      * intros (messages1 & Hpush & [= <-])%bindC_Normal. split; simpl; [|done].
        destruct (truthy _); [|by injection Hpush as <-].
        eapply pushCurrent_inv; [done| |done]. by apply Hcur.
      * intros [= <-]. split; simpl; [done|].
        intros m' [= <-]. destruct (Hcur _ eq_refl); [left|right]; by constructor.
    + destruct (i <? 5)%nat; intros [= <-].
      * split; [done|]. intros m' Hm'. congruence.
      * split; simpl; done.
Qed.

Lemma parseLines_inv dateOrder mediaFiles lines : ∀ i st st' errs,
  parserInv mediaFiles st →
  parseLines dateOrder mediaFiles i lines st = (Normal st', errs) →
  parserInv mediaFiles st'.
Proof.
  induction lines as [|rawLine rest IH]; intros i st st' errs Hinv; simpl.
  - by intros [= <- _].
  - destruct (parseLine _ _ _ _ _) as [st1|e] eqn:Hl; [|done].
    apply IH. by eapply parseLine_inv.
Qed.

Lemma parseMessages_inv content0 mediaFiles errors0 messages1 errs :
  parseMessages content0 mediaFiles errors0 = (Normal messages1, errs) →
  Forall (assembledFrom mediaFiles) messages1
  ∧ Forall (λ msg, keepMessage msg = true) messages1.
Proof.
  unfold parseMessages.
  destruct (parseLines _ _ _ _ _) as [[st|e] errs'] eqn:Hl; [|done].
  apply parseLines_inv in Hl as [Hall Hcur]; [|split; [constructor|done]].
  destruct (currentMessage st) as [current|].
  - destruct (pushCurrent _ _ _) as [messages2|e] eqn:Hp; [|done].
    intros [= <- _].
    eapply pushCurrent_inv in Hp; [|done|by apply Hcur]. split.
    + eapply Forall_forall. intros x [_ Hx]%list_elem_of_filter.
      by eapply Forall_forall in Hp.
    + eapply Forall_forall. by intros x [Hk _]%list_elem_of_filter.
  - intros [= <- _]. split.
    + eapply Forall_forall. intros x [_ Hx]%list_elem_of_filter.
      by eapply Forall_forall in Hall.
    + eapply Forall_forall. by intros x [Hk _]%list_elem_of_filter.
Qed.

End AssemblyFacts.

(** C5. The type of an assembled message is system exactly when its line
    went through the system-line classifier, which is tried only for
    lines the user-line classifier rejects; so a line parsed as
    timestamp - Sender: body, with any continuation lines, never yields a
    system message, whatever its body says.  In a two-participant chat
    the message They added value to my life is a text message and the
    chat is not a group. *)
Theorem system_type_only_from_system_lines :
  (∀ m mediaFiles seq msg,
     createMessage m mediaFiles seq = Normal msg →
     (type msg = TSystem ↔ isSystemLine m = true))
  ∧ (∀ line dateOrder m,
       matchMessageLine line dateOrder = Some m → isSystemLine m = false)
  ∧ (∀ m mediaFiles seq msg,
       userOrigin m → createMessage m mediaFiles seq = Normal msg →
       type msg ≠ TSystem)
  ∧ (∀ now fileName0 content0 mediaFiles,
       Forall (assembledFrom mediaFiles)
         (messages (chat (parseChatFile now fileName0 content0 mediaFiles))))
  ∧ (let r := parseChatFile 0 (js "WhatsApp Chat with John.txt") sampleChat [] in
     (λ msg, (sender msg, type msg, content msg)) <$> messages (chat r)
     = [(js "System", TSystem,
         js "Messages and calls are end-to-end encrypted.");
        (js "John", TText, js "They added value to my life");
        (js "Rajiv", TText, js "[Media not found: IMG-9999-WA0001.jpg]")]
     ∧ participantName <$> participants (chat r) = [js "John"; js "Rajiv"]
     ∧ detectGroupIndicators sampleChat = true
     ∧ isGroup (chat r) = false).
Proof.
  split; [|split; [|split; [|split]]].
  - intros m mediaFiles seq msg Hc.
    by destruct (createMessage_system _ _ _ _ Hc) as [? _].
  - apply matchMessageLine_user.
  - intros m mediaFiles seq msg Hu Hc.
    apply createMessage_system in Hc as [Hty _].
    apply userOrigin_not_system in Hu. rewrite Hty, Hu. done.
  - intros now fileName0 content0 mediaFiles. unfold parseChatFile.
    destruct (parseMessages _ _ _) as [[messages0|e] errs] eqn:Hp; simpl.
    + by apply parseMessages_inv in Hp as [? _].
    + constructor.
  - vm_compute. repeat split; reflexivity.
Qed.

Lemma system_type_witness :
  ∃ m, matchMessageLine
         (js "12/31/2023, 11:46 PM - John: They added value to my life") MDY
       = Some m
       ∧ isSystemLine m = false.
Proof.
  eexists. split.
  - vm_compute. reflexivity.
  - refine (proj1 (proj2 system_type_only_from_system_lines)
              (js "12/31/2023, 11:46 PM - John: They added value to my life")
              MDY _ _).
    vm_compute. reflexivity.
Defined.

(** * The final filter of parseMessages *)

Section FilterFacts.

Lemma keepMessage_spec msg :
  keepMessage msg = true ↔
  (type msg = TText →
   content msg ≠ OMITTED_MEDIA ∧ trim (content msg) ≠ []).
Proof.
  unfold keepMessage.
  destruct (decide (type msg = TText)) as [Ht|Ht].
  - rewrite (bool_decide_eq_true_2 _ Ht). simpl.
    destruct (decide (content msg = OMITTED_MEDIA)) as [Ho|Ho].
    + rewrite (bool_decide_eq_true_2 _ Ho). split; [done|].
      intros H. by destruct (H Ht).
    + rewrite (bool_decide_eq_false_2 _ Ho).
      destruct (trim (content msg)) as [|c r]; simpl.
      * split; [done|]. intros H. by destruct (H Ht).
      * split; [|done]. by intros _ _.
  - rewrite (bool_decide_eq_false_2 _ Ht). simpl. by split.
Qed.

Lemma omitted_constants :
  stripEditedMarker OMITTED_MEDIA = (OMITTED_MEDIA, false)
  ∧ extractQuotedMessage OMITTED_MEDIA = (OMITTED_MEDIA, None)
  ∧ isCall (detectCallLog OMITTED_MEDIA) = false
  ∧ keepMessage (sampleMessage 0 "x" "__OMITTED_MEDIA__") = false.
Proof. repeat split; vm_compute; reflexivity. Qed.

(** A user line whose body is one of the omitted-media phrases becomes a
    text message carrying the sentinel, which the filter drops. *)
Lemma createMessage_omitted m mediaFiles seq :
  isSystemLine m = false →
  existsb (λ p, test p (normalizeWaText (matchContent m))) omittedPatterns = true →
  ∃ msg, createMessage m mediaFiles seq = Normal msg
         ∧ type msg = TText ∧ content msg = OMITTED_MEDIA
         ∧ keepMessage msg = false.
Proof.
  intros Hsys Hom. unfold createMessage, detectMessageType.
  rewrite Hom. cbn [bindC finalContent textOnly].
  destruct omitted_constants as (-> & -> & Hcall & _).
  rewrite Hsys, Hcall. cbn [negb andb detectedType textOnly].
  eexists. split; [reflexivity|]. cbn [type content].
  split_and!; [done|done|].
  unfold keepMessage. cbn [type content]. vm_compute. reflexivity.
Qed.

End FilterFacts.



(** * parseChatFile and its catch block *)

Section TotalityFacts.

Lemma findFile_wellTyped pred mediaFiles :
  wellTyped mediaFiles → ∃ r, findFile pred mediaFiles = Normal r.
Proof.
  induction 1 as [|e rest [file ->] _ IH]; simpl; [eauto|].
  destruct (pred file); eauto.
Qed.

Lemma findMediaFile_wellTyped fileName0 mediaFiles :
  wellTyped mediaFiles → ∃ r, findMediaFile fileName0 mediaFiles = Normal r.
Proof.
  intros Hwt. unfold findMediaFile.
  repeat match goal with
  | |- context [findFile ?p mediaFiles] =>
      let r := fresh "r" in let H := fresh "H" in
      destruct (findFile_wellTyped p mediaFiles Hwt) as [r H];
      rewrite H; simpl; destruct r; simpl; eauto
  | |- context [if ?b then _ else _] => destruct b; simpl; eauto
  end.
Qed.

Lemma detectMessageType_wellTyped content0 mediaFiles :
  wellTyped mediaFiles → ∃ d, detectMessageType content0 mediaFiles = Normal d.
Proof.
  intros Hwt. unfold detectMessageType.
  destruct (existsb _ _); [eauto|].
  destruct (firstMatch _ _) as [[pattern m]|]; [|eauto].
  destruct (findMediaFile_wellTyped (groupOr 1 m) mediaFiles Hwt) as [r ->].
  simpl. destruct r; eauto.
Qed.

Lemma createMessage_wellTyped m mediaFiles seq :
  wellTyped mediaFiles → ∃ msg, createMessage m mediaFiles seq = Normal msg.
Proof.
  intros Hwt. unfold createMessage.
  destruct (detectMessageType_wellTyped (matchContent m) mediaFiles Hwt) as [d ->].
  simpl. destruct (stripEditedMarker _), (extractQuotedMessage _). eauto.
Qed.

Lemma pushCurrent_wellTyped messages0 current mediaFiles :
  wellTyped mediaFiles →
  ∃ messages1, pushCurrent messages0 current mediaFiles = Normal messages1.
Proof.
  intros Hwt. unfold pushCurrent.
  destruct (createMessage_wellTyped current mediaFiles (length messages0) Hwt)
    as [msg ->]. simpl. eauto.
Qed.

Lemma parseLine_wellTyped dateOrder mediaFiles i rawLine st :
  wellTyped mediaFiles →
  ∃ st', parseLine dateOrder mediaFiles i rawLine st = Normal st'.
Proof.
  intros Hwt. unfold parseLine.
  destruct (negb (truthy _)); [eauto|].
  destruct (orElse _ _) as [m|].
  - destruct (currentMessage st) as [current|]; simpl; [|eauto].
    destruct (pushCurrent_wellTyped (messagesSoFar st) current mediaFiles Hwt)
      as [messages1 ->]. simpl. eauto.
  - destruct (currentMessage st) as [current|]; simpl.
    + destruct (test _ _); [|eauto].
      destruct (truthy _); simpl; [|eauto].
      destruct (pushCurrent_wellTyped (messagesSoFar st) current mediaFiles Hwt)
        as [messages1 ->]. simpl. eauto.
    + destruct (i <? 5)%nat; eauto.
Qed.

Lemma parseLines_wellTyped dateOrder mediaFiles lines : ∀ i st,
  wellTyped mediaFiles →
  ∃ st' errs, parseLines dateOrder mediaFiles i lines st = (Normal st', errs).
Proof.
  induction lines as [|rawLine rest IH]; intros i st Hwt; simpl; [eauto|].
  destruct (parseLine_wellTyped dateOrder mediaFiles i rawLine st Hwt) as [st' ->].
  by apply IH.
Qed.

(** With a well-typed attachment index the parse never throws. *)
Lemma parseMessages_wellTyped content0 mediaFiles errors0 :
  wellTyped mediaFiles →
  ∃ messages0 errs,
    parseMessages content0 mediaFiles errors0 = (Normal messages0, errs).
Proof.
  intros Hwt. unfold parseMessages.
  destruct (parseLines_wellTyped (inferDateOrder (splitOn 10 content0))
              mediaFiles (splitOn 10 content0) 0
              {| messagesSoFar := []; currentMessage := None;
                 errorsSoFar := errors0 |} Hwt) as (st & errs & ->).
  destruct (currentMessage st) as [current|]; [|eauto].
  destruct (pushCurrent_wellTyped (messagesSoFar st) current mediaFiles Hwt)
    as [messages1 ->]. eauto.
Qed.

End TotalityFacts.

(** C7, as stated, fails: with a file name that is not a string the
    error raised in the try block is caught, but the catch block calls
    generateChatId on the file name, which throws again, and this error
    leaves parseChatFile. *)
Lemma parseChatFile_throws_for_a_file_name_that_is_no_string :
  parseChatFileAny 7 None (Some (js "1/2/24, 10:00 - Ann: hi")) []
  = Throw (notAStringMessage "toLowerCase")
  ∧ tryParseChatFile 7 None (Some (js "1/2/24, 10:00 - Ann: hi")) []
    = (Throw (notAStringMessage "replace"), [])
  ∧ ∃ result,
      parseChatFileAny 7 (Some (js "_chat.txt"))
        (Some (js "1/2/24, 10:00 - Ann: hi")) [] = Normal result
      ∧ length (messages (chat result)) = 1%nat.
Proof.
  split_and!; [reflexivity|reflexivity|].
  eexists. split; [reflexivity|]. vm_compute. reflexivity.
Qed.

(** C7 (amended). parseChatFile propagates an exception exactly when its
    file name is not a string.  For a file name that is a string, whatever
    the content and the attachment index are, it returns: when the try
    block throws (the content is not a string, or an entry of the index is
    undefined where the parser looks at it) the result is the minimal chat
    named after the file, with no participants, no messages, not a group,
    and the returned errors end with the message of the thrown error;
    otherwise it is the chat built from the parsed messages.  With a
    string content and a well-typed attachment index nothing throws. *)
Theorem parseChatFile_never_throws
    (now : Z) (fileName0 content0 : option jsstring) (mediaFiles : MediaIndex) :
  let r := parseChatFileAny now fileName0 content0 mediaFiles in
  ((∃ message, r = Throw message) ↔ fileName0 = None)
  ∧ (∀ f message errs,
       fileName0 = Some f →
       tryParseChatFile now fileName0 content0 mediaFiles = (Throw message, errs) →
       ∃ result,
         r = Normal result
         ∧ chat result = minimalChat now f
         ∧ chatName (chat result) = f
         ∧ participants (chat result) = []
         ∧ messages (chat result) = []
         ∧ isGroup (chat result) = false
         ∧ errors result = errs ++ [js "Failed to parse chat: " ++ message]
         ∧ js "Failed to parse chat: " ++ message ∈ errors result)
  ∧ (∀ f, fileName0 = Some f → content0 = None →
       r = Normal {| chat := minimalChat now f;
                     errors := [js "Failed to parse chat: "
                                ++ notAStringMessage "split"] |})
  ∧ (∀ f c, fileName0 = Some f → content0 = Some c →
       r = Normal (parseChatFile now f c mediaFiles)
       ∧ (∀ message errs,
            parseMessages c mediaFiles [] = (Throw message, errs) →
            parseChatFile now f c mediaFiles
            = {| chat := minimalChat now f;
                 errors := errs ++ [js "Failed to parse chat: " ++ message] |})
       ∧ (∀ messages0 errs,
            parseMessages c mediaFiles [] = (Normal messages0, errs) →
            parseChatFile now f c mediaFiles
            = buildChat now f c messages0 errs
            ∧ messages (chat (parseChatFile now f c mediaFiles)) = messages0)
       ∧ (wellTyped mediaFiles →
          ∃ messages0 errs,
            parseMessages c mediaFiles [] = (Normal messages0, errs)))
  ∧ (let bad := parseChatFileAny 7 (Some (js "_chat.txt"))
                  (Some (js "garbage 1" ++ [10%N] ++ js "garbage 2" ++ [10%N]
                   ++ js "garbage 3" ++ [10%N] ++ js "garbage 4" ++ [10%N]
                   ++ js "garbage 5" ++ [10%N] ++ js "garbage 6" ++ [10%N]
                   ++ js "1/2/24, 10:00 - Ann: <attached: a.jpg>" ++ [10%N]
                   ++ js "1/2/24, 10:01 - Ann: bye"))
                  [None] in
     bad = Normal
             {| chat := minimalChat 7 (js "_chat.txt");
                errors := [js "Could not parse line 6: garbage 6...";
                           js "Failed to parse chat: " ++ typeErrorMessage] |}).
Proof.
  intros r. subst r. unfold parseChatFileAny, tryParseChatFile.
  split_and!.
  - destruct fileName0 as [f|]; cbn [catchParseChatFile].
    + split; [|done]. intros [message H]. revert H.
      destruct content0 as [c|]; [|done]. unfold catchParseChatFile.
      by destruct (parseMessages c mediaFiles []) as [[messages0|e] errs].
    + split; [done|]. intros _. by eexists.
  - intros f message errs ->.
    destruct content0 as [c|].
    + destruct (parseMessages c mediaFiles []) as [[messages0|e] errs'];
        [done|].
      intros [= <- <-]. eexists. split; [reflexivity|].
      cbn [chat errors minimalChat chatName participants messages isGroup].
      split_and!; try done.
      rewrite elem_of_app, list_elem_of_singleton. by right.
    + intros [= <- <-]. eexists. split; [reflexivity|].
      cbn [chat errors minimalChat chatName participants messages isGroup].
      split_and!; try done.
      rewrite elem_of_app, list_elem_of_singleton. by right.
  - by intros f -> ->.
  - intros f c -> ->. unfold parseChatFile. split_and!.
    + by destruct (parseMessages c mediaFiles []) as [[messages0|e] errs].
    + by intros message errs ->.
    + by intros messages0 errs ->.
    + apply parseMessages_wellTyped.
  - vm_compute. reflexivity.
Qed.

Lemma parseChatFile_never_throws_witness :
  ∃ result,
    parseChatFileAny 7 (Some (js "_chat.txt"))
      (Some (js "1/2/24, 10:00 - Ann: <attached: a.jpg>")) [None] = Normal result
    ∧ participants (chat result) = [] ∧ messages (chat result) = []
    ∧ isGroup (chat result) = false
    ∧ errors result = [js "Failed to parse chat: " ++ typeErrorMessage].
Proof.
  destruct (proj1 (proj2 (parseChatFile_never_throws 7 (Some (js "_chat.txt"))
              (Some (js "1/2/24, 10:00 - Ann: <attached: a.jpg>")) [None]))
              (js "_chat.txt") typeErrorMessage [])
    as (result & Hr & _ & _ & Hp & Hm & Hg & He & _).
  - reflexivity.
  - vm_compute. reflexivity.
  - exists result. by split_and!.
Defined.


(** * Attachment lookup *)

Section LookupFacts.

Lemma findFile_None pred mediaFiles :
  findFile pred mediaFiles = Normal None ↔
  Forall (λ e, ∃ file, e = Some file ∧ pred file = false) mediaFiles.
Proof.
  induction mediaFiles as [|e rest IH]; simpl.
  - split; [constructor|done].
  - rewrite Forall_cons. destruct e as [file|].
    + destruct (pred file) eqn:Hp.
      * split; [done|]. intros [(f & [= <-] & Hf) _]. congruence.
      * rewrite IH. split; [|tauto]. intros H. split; [eauto|done].
    + split; [done|]. by intros [(f & ? & _) _].
Qed.

Lemma orTry_None found next :
  orTry found next = Normal None ↔ found = Normal None ∧ next = Normal None.
Proof.
  unfold orTry. destruct found as [[file|]|e]; simpl; split; try done.
  - by intros [? _].
  - by intros [_ ?].
  - by intros [? _].
Qed.

(** The lookup answers [undefined] exactly when no strategy accepts any
    entry. *)
Lemma findMediaFile_None fileName0 mediaFiles :
  findMediaFile fileName0 mediaFiles = Normal None ↔
  unresolved fileName0 mediaFiles.
Proof.
  unfold findMediaFile, unresolved.
  rewrite !orTry_None, !findFile_None.
  set (numericId := numericIdOf fileName0).
  set (datePortion := datePortionOf fileName0).
  assert (Hn : (if truthy numericId && (5 <=? length numericId)%nat
                then findFile (numericIdMatch numericId) mediaFiles
                else Normal None) = Normal None ↔
               (truthy numericId = true → (5 ≤ length numericId)%nat →
                Forall (λ e, ∃ file, e = Some file
                             ∧ numericIdMatch numericId file = false) mediaFiles)
               ∨ False).
  { destruct (truthy numericId); cbn [andb].
    - destruct (Nat.leb_spec 5 (length numericId)).
      + rewrite findFile_None. tauto.
      + split; [|done]. intros _. left. intros _ ?. lia.
    - split; [|done]. intros _. by left. }
  assert (Hd : (if truthy datePortion
                then findFile (datePortionMatch datePortion) mediaFiles
                else Normal None) = Normal None ↔
               (truthy datePortion = true →
                Forall (λ e, ∃ file, e = Some file
                             ∧ datePortionMatch datePortion file = false) mediaFiles)).
  { destruct (truthy datePortion); simpl.
    - rewrite findFile_None. tauto.
    - split; [by intros _ ?|done]. }
  rewrite Hn, Hd. clear Hn Hd. rewrite !Forall_forall. split.
  - intros (H1 & H2 & H3 & [H4|[]] & H5) e He.
    destruct (H1 e He) as (file & -> & Hf1).
    exists file. split; [done|]. unfold noStrategyMatches.
    destruct (H2 _ He) as (? & [= <-] & ?).
    destruct (H3 _ He) as (? & [= <-] & ?).
    split_and!; try done.
    + intros Ht Hl. specialize (H4 Ht Hl).
      by destruct (H4 _ He) as (? & [= <-] & ?).
    + intros Ht. specialize (H5 Ht).
      by destruct (H5 _ He) as (? & [= <-] & ?).
  - intros H. split_and!.
    + intros e He. destruct (H e He) as (file & -> & Hs). exists file.
      split; [done|]. apply Hs.
    + intros e He. destruct (H e He) as (file & -> & Hs). exists file.
      split; [done|]. apply Hs.
    + intros e He. destruct (H e He) as (file & -> & Hs). exists file.
      split; [done|]. apply Hs.
    + left. intros Ht Hl.
      intros e He. destruct (H e He) as (file & -> & Hs). exists file.
      split; [done|]. by apply Hs.
    + intros Ht.
      intros e He. destruct (H e He) as (file & -> & Hs). exists file.
      split; [done|]. by apply Hs.
Qed.

End LookupFacts.

(** * Literals, omitted-media phrases and media patterns *)

Section PatternFacts.

Lemma upperUnit_fixed x y :
  upperUnit x = y → (y < 65 ∨ 90 < y)%N → x = y.
Proof.
  unfold upperUnit.
  destruct (N.leb_spec 97 x); destruct (N.leb_spec x 122); simpl; lia.
Qed.

Lemma matchRegex_literal {R} n (l : jsstring) : ∀ inp cs
    (k : jsstring → captures → option R) x,
  matchRegex n
    (rseq ((λ c, RClass (λ x, (upperUnit x =? upperUnit c)%N)) <$> l))
    inp cs k = Some x →
  ∃ pre rest, inp = pre ++ rest
              ∧ upperUnit <$> pre = upperUnit <$> l
              ∧ k rest cs = Some x.
Proof.
  induction l as [|a l IH]; intros inp cs k x; simpl.
  - intros H. by exists [], inp.
  - destruct inp as [|c inp]; [done|].
    destruct (N.eqb_spec (upperUnit c) (upperUnit a)) as [Heq|]; [|done].
    intros (pre & rest & -> & Hup & Hk)%IH.
    exists (c :: pre), rest. split_and!; [done| |done].
    rewrite !fmap_cons. by rewrite Heq, Hup.
Qed.

Lemma matchRegex_liti {R} n s inp cs (k : jsstring → captures → option R) x :
  matchRegex n (liti s) inp cs k = Some x →
  ∃ pre rest, inp = pre ++ rest
              ∧ upperUnit <$> pre = upperUnit <$> js s
              ∧ k rest cs = Some x.
Proof. apply matchRegex_literal. Qed.

(** A body passes an omitted-media test only if it is the phrase up to
    the case of its letters. *)
Lemma omitted_test s c :
  test (rseq [RBol; liti s; REol]) c = true →
  upperUnit <$> c = upperUnit <$> js s.
Proof.
  unfold test. cbn [rseq foldr]. rewrite exec_bol.
  destruct (matchRegex _ _ _ _ _) as [[rest cs]|] eqn:H; [|done].
  intros _. cbn [matchRegex] in H.
  apply matchRegex_liti in H as (pre & rest' & -> & Hup & H).
  destruct rest'; [|done]. by rewrite app_nil_r.
Qed.

Lemma omitted_no_mark c :
  existsb (λ p, test p c) omittedPatterns = true → ¬ hasReferenceMark c.
Proof.
  unfold omittedPatterns. cbn [fmap list_fmap existsb].
  rewrite !orb_true_iff.
  assert (Hcase : ∀ s,
    bool_decide (60%N ∈ upperUnit <$> js s) = false →
    bool_decide (40%N ∈ upperUnit <$> js s) = false →
    bool_decide (45%N ∈ upperUnit <$> js s) = false →
    test (rseq [RBol; liti s; REol]) c = true → ¬ hasReferenceMark c).
  { intros s H60 H40 H45 Hup%omitted_test Hmark.
    apply bool_decide_eq_false in H60, H40, H45.
    destruct Hmark as [Hm|[Hm|Hm]];
      apply (list_elem_of_fmap_2 upperUnit) in Hm; rewrite Hup in Hm; done. }
  intros [H|[H|[H|[H|[H|[H|H]]]]]]; try done;
    revert H; apply Hcase; vm_compute; reflexivity.
Qed.

Lemma literal_head (a : N) (l pre : jsstring) :
  upperUnit <$> pre = upperUnit <$> (a :: l) → (a < 65)%N →
  ∃ pre', pre = a :: pre'.
Proof.
  destruct pre as [|x pre']; [done|]. simpl. intros [= Hx _] Ha.
  exists pre'. f_equal. apply upperUnit_fixed; [|lia].
  rewrite Hx. unfold upperUnit.
  destruct (N.leb_spec 97 a); destruct (N.leb_spec a 122); simpl; lia.
Qed.

Lemma attached_needs_mark c m :
  exec (rseq [liti "<attached:"; spaces0;
              RGroup 1 (RRepeat isDot 1 None false); chr ">"]) c = Some m →
  hasReferenceMark c.
Proof.
  intros (skipped & inp & cs & -> & _ & H & _)%exec_Some.
  cbn [rseq foldr matchRegex] in H.
  apply matchRegex_liti in H as (pre & rest & -> & Hup & _).
  apply literal_head in Hup as [pre' ->]; [|vm_compute; reflexivity].
  left. set_solver.
Qed.

Lemma fileAttached_needs_mark c m :
  exec (rseq [RGroup 1 (RRepeat isDot 1 None false); spaces0;
              liti "(file attached)"]) c = Some m →
  hasReferenceMark c.
Proof.
  intros (skipped & inp & cs & -> & _ & H & _)%exec_Some.
  unfold spaces0 in H. cbn [rseq foldr matchRegex] in H.
  apply matchRepeat_Some in H as (g1 & r1 & -> & _ & _ & H).
  apply matchRepeat_Some in H as (g2 & r2 & -> & _ & _ & H).
  apply matchRegex_liti in H as (pre & rest & -> & Hup & _).
  apply literal_head in Hup as [pre' ->]; [|vm_compute; reflexivity].
  right. left. set_solver.
Qed.

Lemma deviceFile_needs_mark prefix extension c m :
  exec (deviceFilePattern prefix extension) c = Some m → hasReferenceMark c.
Proof.
  unfold deviceFilePattern. cbn [rseq foldr]. rewrite exec_bol.
  destruct (matchRegex _ _ _ _ _) as [[rest cs]|] eqn:H; [|done].
  intros _. cbn [matchRegex] in H.
  apply matchRegex_liti in H as (pre & r1 & -> & _ & H).
  apply matchRegex_liti in H as (pre2 & r2 & -> & Hup & _).
  apply literal_head in Hup as [pre' ->]; [|vm_compute; reflexivity].
  right. right. set_solver.
Qed.

Lemma firstMatch_Some patterns c pattern m :
  firstMatch patterns c = Some (pattern, m) →
  pattern ∈ patterns ∧ exec pattern c = Some m.
Proof.
  induction patterns as [|p ps IH]; simpl; [done|].
  destruct (exec p c) as [m'|] eqn:He.
  - intros [= <- <-]. split; [apply list_elem_of_here|done].
  - intros [Hin Hm]%IH. split; [by apply list_elem_of_further|done].
Qed.

Lemma mediaPattern_needs_mark c pattern m :
  firstMatch mediaPatterns c = Some (pattern, m) → hasReferenceMark c.
Proof.
  intros [Hin Hm]%firstMatch_Some. unfold mediaPatterns in Hin.
  repeat (apply elem_of_cons in Hin as [->|Hin];
          [first [by eapply attached_needs_mark
                 |by eapply fileAttached_needs_mark
                 |by eapply deviceFile_needs_mark]|]).
  by apply elem_of_nil in Hin.
Qed.

(** The omitted-media phrases and the media patterns exclude each
    other. *)
Lemma mediaPattern_not_omitted c pattern m :
  firstMatch mediaPatterns c = Some (pattern, m) →
  existsb (λ p, test p c) omittedPatterns = false.
Proof.
  intros Hm%mediaPattern_needs_mark.
  destruct (existsb _ omittedPatterns) eqn:Ho; [|done].
  by apply omitted_no_mark in Ho.
Qed.

End PatternFacts.

(** * From the placeholder to the assembled message *)

Section PlaceholderFacts.

Lemma trimStart_within s y : y ∈ trimStart s → y ∈ s.
Proof.
  destruct (trimStart_split s) as (pre & Hs & _). intros Hy.
  rewrite Hs, elem_of_app. by right.
Qed.

Lemma trim_within s y : y ∈ trim s → y ∈ s.
Proof.
  unfold trim, trimEnd. rewrite elem_of_reverse.
  intros Hy%trimStart_within. rewrite elem_of_reverse in Hy.
  by apply trimStart_within.
Qed.

Lemma collapseSpaces_units s : ∀ inRun y,
  y ∈ collapseSpaces inRun s → isSpace y = true → y = 32%N.
Proof.
  induction s as [|c s IH]; intros inRun y; simpl; [by intros ?%elem_of_nil|].
  destruct (isSpace c) eqn:Hc.
  - destruct inRun; [apply IH|].
    intros [->|Hy]%elem_of_cons; [done|by eapply IH].
  - intros [->|Hy]%elem_of_cons; [congruence|by eapply IH].
Qed.

(** A normalised body has no line break. *)
Lemma normalizeWaText_no_break s : 10%N ∉ normalizeWaText s.
Proof.
  unfold normalizeWaText. intros Hy%trim_within.
  by apply collapseSpaces_units in Hy.
Qed.

Lemma splitOn_no_sep sep s : sep ∉ s → splitOn sep s = [s].
Proof.
  induction s as [|c s IH]; simpl; [done|].
  rewrite not_elem_of_cons. intros [Hne Hnin].
  destruct (N.eqb_spec c sep); [congruence|]. by rewrite IH.
Qed.

Lemma extractQuotedMessage_no_break s :
  10%N ∉ s → extractQuotedMessage s = (s, None).
Proof.
  intros Hs. rewrite extractQuotedMessage_unfold.
  unfold firstLineAndRest. by rewrite splitOn_no_sep.
Qed.

Lemma trim_cons_nonspace c s :
  isSpace c = false → ∃ r, trim (c :: s) = c :: r.
Proof.
  intros Hc. unfold trim. rewrite trimStart_id by done. unfold trimEnd.
  rewrite reverse_cons.
  destruct (trimStart_split (reverse s ++ [c])) as (pre & Hs & Hpre).
  assert (Hne : trimStart (reverse s ++ [c]) ≠ []).
  { eapply (trimStart_nonspace (reverse s ++ [c]) c); [|done].
    rewrite elem_of_app, list_elem_of_singleton. by right. }
  destruct (exists_last Hne) as (t & z & Ht). rewrite Ht in Hs |- *.
  rewrite app_assoc in Hs. apply app_inj_tail in Hs as [_ <-].
  rewrite reverse_snoc. by eexists.
Qed.

Lemma lastIndexOfFrom_Some s sub : ∀ i found idx,
  lastIndexOfFrom i s sub found = Some idx →
  found = Some idx
  ∨ ∃ j, idx = (i + j)%nat ∧ startsWith (drop j s) sub = true.
Proof.
  induction s as [|c s IH]; intros i found idx; cbn [lastIndexOfFrom].
  - destruct (startsWith [] sub) eqn:Hs; [|by left].
    intros [= <-]. right. exists O. split; [lia|done].
  - intros [Hf|(j & -> & Hj)]%IH.
    + destruct (startsWith (c :: s) sub) eqn:Hs; [|by left].
      injection Hf as <-. right. exists O. split; [lia|done].
    + right. exists (S j). split; [lia|done].
Qed.

Lemma lastIndexOf_Some s sub idx :
  lastIndexOf s sub = Some idx → startsWith (drop idx s) sub = true.
Proof.
  intros [?|(j & -> & Hj)]%lastIndexOfFrom_Some; done.
Qed.

(** Stripping the edit marker from a text that starts with an opening
    bracket leaves a text that starts with it, made of units of the
    original. *)
Lemma stripEditedMarker_bracket s :
  ∃ r, (stripEditedMarker (91%N :: s)).1 = 91%N :: r
       ∧ ∀ y, y ∈ 91%N :: r → y ∈ 91%N :: s.
Proof.
  unfold stripEditedMarker.
  destruct (lastIndexOf (91%N :: s) editedMarker) as [idx|] eqn:Hl; simpl.
  - apply lastIndexOf_Some in Hl. destruct idx as [|j]; [done|].
    cbn [take]. rewrite <- app_comm_cons.
    destruct (trim_cons_nonspace 91 (take j s ++ drop (S j + length editedMarker) (91%N :: s)))
      as [r Hr]; [done|].
    exists r. split; [done|]. rewrite <- Hr. intros y Hy%trim_within.
    apply elem_of_cons in Hy as [->|Hy]; [apply list_elem_of_here|].
    apply elem_of_app in Hy as [Hy|Hy].
    + apply list_elem_of_further.
      eapply elem_of_submseteq; [exact Hy|]. apply sublist_submseteq, sublist_take.
    + eapply elem_of_submseteq; [exact Hy|]. apply sublist_submseteq, sublist_drop.
  - by exists s.
Qed.

Lemma anchored_literal_mismatch s a tail x inp :
  head (js s) = Some a → upperUnit x ≠ upperUnit a →
  exec (RSeq RBol (RSeq (liti s) tail)) (x :: inp) = None.
Proof.
  intros Hs Hne. rewrite exec_bol.
  destruct (matchRegex _ _ _ _ _) as [[rest cs]|] eqn:H; [|done].
  cbn [matchRegex] in H.
  apply matchRegex_liti in H as (pre & rest' & Heq & Hup & _).
  destruct (js s) as [|a' l]; [done|]. injection Hs as ->.
  destruct pre as [|x' pre']; [done|].
  injection Heq as <- _. by injection Hup as Hup _.
Qed.

(** A text that starts with an opening bracket is no call log. *)
Lemma detectCallLog_bracket s : isCall (detectCallLog (91%N :: s)) = false.
Proof.
  unfold detectCallLog, test, callRegex.
  destruct (trim_cons_nonspace 91 s) as [r ->]; [done|].
  cbn [rseq foldr].
  rewrite (anchored_literal_mismatch "missed voice call" 109%N) by done.
  rewrite (anchored_literal_mismatch "missed video call" 109%N) by done.
  rewrite (anchored_literal_mismatch "voice call" 118%N) by done.
  rewrite (anchored_literal_mismatch "video call" 118%N) by done.
  done.
Qed.

End PlaceholderFacts.

Section UnresolvedFacts.

(** What [detectMessageType] answers for an unresolved reference. *)
Lemma detectMessageType_unresolved content0 mediaFiles pattern m :
  firstMatch mediaPatterns (normalizeWaText content0) = Some (pattern, m) →
  unresolved (groupOr 1 m) mediaFiles →
  detectMessageType content0 mediaFiles
  = Normal (textOnly (orString (captionOf pattern (normalizeWaText content0))
                               (mediaNotFound (groupOr 1 m)))).
Proof.
  intros Hfirst Hun%findMediaFile_None. unfold detectMessageType.
  rewrite (mediaPattern_not_omitted _ _ _ Hfirst), Hfirst, Hun. done.
Qed.

Lemma mediaNotFound_bracket fileName0 :
  mediaNotFound fileName0
  = 91%N :: js "Media not found: " ++ fileName0 ++ js "]".
Proof. reflexivity. Qed.

Lemma groupOr_within r s m i y :
  exec r s = Some m → y ∈ groupOr i m → y ∈ s.
Proof.
  intros Hm. unfold groupOr. destruct (group i m) as [g|] eqn:Hg; simpl.
  - by eapply exec_group_within.
  - by intros ?%elem_of_nil.
Qed.

(** The assembled message of a user line whose body is just an
    unresolved reference. *)
Lemma createMessage_unresolved mm mediaFiles seq pattern m :
  isSystemLine mm = false →
  firstMatch mediaPatterns (normalizeWaText (matchContent mm)) = Some (pattern, m) →
  unresolved (groupOr 1 m) mediaFiles →
  captionOf pattern (normalizeWaText (matchContent mm)) = [] →
  ∃ msg, createMessage mm mediaFiles seq = Normal msg
         ∧ type msg = TText
         ∧ mediaFileName msg = None
         ∧ content msg = (stripEditedMarker (mediaNotFound (groupOr 1 m))).1
         ∧ content msg ≠ [].
Proof.
  intros Hsys Hfirst Hun Hcap. unfold createMessage.
  rewrite (detectMessageType_unresolved _ _ _ _ Hfirst Hun), Hcap.
  cbn [bindC orString truthy finalContent textOnly].
  destruct (firstMatch_Some _ _ _ _ Hfirst) as [_ Hexec].
  rewrite mediaNotFound_bracket.
  destruct (stripEditedMarker_bracket
              (js "Media not found: " ++ groupOr 1 m ++ js "]"))
    as (r & Hr & Hwithin).
  destruct (stripEditedMarker _) as [editedCleaned isEdited0].
  simpl in Hr. subst editedCleaned.
  assert (Hnb : 10%N ∉ 91%N :: r).
  { intros Hy%Hwithin.
    apply elem_of_cons in Hy as [Hy|Hy]; [done|].
    apply elem_of_app in Hy as [Hy|Hy].
    { revert Hy. apply (proj1 (bool_decide_eq_false _)). vm_compute. reflexivity. }
    apply elem_of_app in Hy as [Hy|Hy].
    - eapply groupOr_within in Hy; [|exact Hexec].
      by apply normalizeWaText_no_break in Hy.
    - revert Hy. apply (proj1 (bool_decide_eq_false _)). vm_compute. reflexivity. }
  rewrite (extractQuotedMessage_no_break _ Hnb).
  rewrite Hsys, detectCallLog_bracket.
  eexists. split; [reflexivity|]. cbn [type content mediaFileName].
  cbn [negb andb detectedType detectedMediaFileName textOnly].
  by split_and!.
Qed.

End UnresolvedFacts.



(** * String library facts *)

Section StringFacts.

Lemma startsWith_spec s prefix :
  startsWith s prefix = true ↔ ∃ rest, s = prefix ++ rest.
Proof.
  revert s. induction prefix as [|p ps IH]; intros s.
  - destruct s; simpl; (split; [by eexists|done]).
  - destruct s as [|c cs]; simpl; [split; [done|by intros [? [=]]]|].
    rewrite andb_true_iff, N.eqb_eq, IH. split.
    + intros [-> [rest ->]]. by exists rest.
    + intros [rest [= -> ->]]. split; [done|by exists rest].
Qed.

Lemma includes_spec s sub :
  includes s sub = true ↔ ∃ pre post, s = pre ++ sub ++ post.
Proof.
  induction s as [|c s IH]; cbn [includes].
  - rewrite orb_false_r, startsWith_spec. split.
    + intros [rest Hr]. by exists [], rest.
    + intros (pre & post & H). symmetry in H.
      apply app_eq_nil in H as [-> H]. apply app_eq_nil in H as [-> ->].
      by exists [].
  - rewrite orb_true_iff, startsWith_spec, IH. split.
    + intros [[rest Hr]|(pre & post & ->)].
      * by exists [], rest.
      * by exists (c :: pre), post.
    + intros (pre & post & H). destruct pre as [|c' pre].
      * left. by exists post.
      * injection H as <- ->. right. by exists pre, post.
Qed.

Lemma endsWith_spec s suffix :
  endsWith s suffix = true ↔ ∃ pre, s = pre ++ suffix.
Proof.
  unfold endsWith. rewrite startsWith_spec. split.
  - intros [rest H]. exists (reverse rest).
    apply (f_equal reverse) in H.
    by rewrite reverse_involutive, reverse_app, reverse_involutive in H.
  - intros [pre ->]. exists (reverse pre). by rewrite reverse_app.
Qed.

Lemma filter_all {A} (P : A → Prop) `{∀ x, Decision (P x)} (l : list A) :
  (∀ x, x ∈ l → P x) → filter P l = l.
Proof.
  induction l as [|x l IH]; intros Hall; [done|].
  rewrite filter_cons_True by (apply Hall; apply list_elem_of_here).
  f_equal. apply IH. intros y Hy. apply Hall. by right.
Qed.

End StringFacts.

(** * normalizeWaText *)

Section NormalizeFacts.

Lemma singleSpaced_weaken s : singleSpaced true s → singleSpaced false s.
Proof.
  destruct s as [|c s]; [done|]. simpl. destruct (isSpace c); [|done].
  intros (_ & [=] & _).
Qed.

Lemma collapseSpaces_singleSpaced s : ∀ inRun,
  singleSpaced inRun (collapseSpaces inRun s).
Proof.
  induction s as [|c s IH]; intros inRun; simpl; [done|].
  destruct (isSpace c) eqn:Hc.
  - destruct inRun; [apply IH|]. simpl. split_and!; [done|done|apply IH].
  - simpl. rewrite Hc. apply IH.
Qed.

Lemma collapseSpaces_id s : ∀ inRun,
  singleSpaced inRun s → collapseSpaces inRun s = s.
Proof.
  induction s as [|c s IH]; intros inRun; simpl; [done|].
  destruct (isSpace c) eqn:Hc.
  - intros (-> & -> & Hs). f_equal. by apply IH.
  - intros Hs. f_equal. by apply IH.
Qed.

Lemma singleSpaced_app_r pre : ∀ post inRun,
  singleSpaced inRun (pre ++ post) → singleSpaced false post.
Proof.
  induction pre as [|c pre IH]; intros post inRun; simpl.
  - destruct inRun; [apply singleSpaced_weaken|done].
  - destruct (isSpace c); [intros (_ & _ & H)|intros H]; by eapply IH.
Qed.

Lemma singleSpaced_app_l pre : ∀ post inRun,
  singleSpaced inRun (pre ++ post) → singleSpaced inRun pre.
Proof.
  induction pre as [|c pre IH]; intros post inRun; simpl; [done|].
  destruct (isSpace c).
  - intros (? & ? & H). split_and!; [done|done|by eapply IH].
  - intros H. by eapply IH.
Qed.

(** What [trim] returns is a segment of its argument. *)
Lemma trim_segment s : ∃ pre post, s = pre ++ trim s ++ post.
Proof.
  destruct (trimStart_split s) as (pre & Hs & _).
  destruct (trimStart_split (reverse (trimStart s))) as (post & Hr & _).
  exists pre, (reverse post). unfold trim, trimEnd.
  rewrite <- reverse_app, <- Hr, reverse_involutive. exact Hs.
Qed.

Lemma singleSpaced_adjacent s : ∀ inRun pre a b post,
  singleSpaced inRun s → s = pre ++ a :: b :: post →
  isSpace a = true → isSpace b = false.
Proof.
  intros inRun pre a b post Hs -> Ha.
  apply singleSpaced_app_r in Hs. simpl in Hs. rewrite Ha in Hs.
  destruct Hs as (_ & _ & Hb). simpl in Hb.
  destruct (isSpace b); [|done]. by destruct Hb as (_ & [=] & _).
Qed.

Lemma singleSpaced_units s : ∀ inRun c,
  singleSpaced inRun s → c ∈ s → isSpace c = true → c = 32%N.
Proof.
  induction s as [|c0 s IH]; intros inRun c Hs Hc Hsp;
    [by apply elem_of_nil in Hc|].
  simpl in Hs. apply elem_of_cons in Hc as [->|Hc].
  - rewrite Hsp in Hs. by destruct Hs.
  - destruct (isSpace c0); [destruct Hs as (_ & _ & Hs)|]; by eapply IH.
Qed.

Lemma trim_idem s : trim (trim s) = trim s.
Proof.
  destruct (trim_ends s) as [->|(c & mid & d & Hshape & Hc & Hd)]; [done|].
  assert (Hstart : ∀ x r, isSpace x = false → trimStart (x :: r) = x :: r)
    by (intros; by apply trimStart_id).
  destruct Hshape as [[-> ->]| ->].
  - unfold trim, trimEnd. rewrite Hstart by done.
    change (reverse [d]) with [d]. by rewrite Hstart.
  - unfold trim, trimEnd. rewrite Hstart by done.
    change (c :: mid ++ [d]) with ((c :: mid) ++ [d]).
    rewrite reverse_app. change (reverse [d]) with [d]. cbn [app].
    rewrite Hstart by done.
    change (d :: reverse (c :: mid)) with ([d] ++ reverse (c :: mid)).
    rewrite reverse_app, reverse_involutive. done.
Qed.

Lemma collapseSpaces_marks s : ∀ inRun c,
  c ∈ collapseSpaces inRun s → c ∈ s ∨ c = 32%N.
Proof.
  induction s as [|c0 s IH]; intros inRun c; simpl; [by intros ?%elem_of_nil|].
  destruct (isSpace c0).
  - destruct inRun.
    + intros [?|?]%IH; [left; by right|by right].
    + intros [->|[?|?]%IH]%elem_of_cons; [by right|left; by right|by right].
  - intros [->|[?|?]%IH]%elem_of_cons; [left; by left|left; by right|by right].
Qed.

Lemma normalizeWaText_units s c :
  c ∈ normalizeWaText s →
  (c ∈ s ∨ c = 32%N) ∧ isInvisibleMark c = false
  ∧ (isSpace c = true → c = 32%N).
Proof.
  unfold normalizeWaText. intros Hc%trim_within.
  split_and!.
  - apply collapseSpaces_marks in Hc as [Hc|Hc]; [|by right].
    apply list_elem_of_filter in Hc as [_ Hc]. by left.
  - apply collapseSpaces_marks in Hc as [Hc| ->]; [|done].
    by apply list_elem_of_filter in Hc as [Hc _].
  - by eapply collapseSpaces_units.
Qed.

Lemma normalizeWaText_singleSpaced s : singleSpaced false (normalizeWaText s).
Proof.
  unfold normalizeWaText.
  set (t := collapseSpaces false _).
  destruct (trim_segment t) as (pre & post & Ht).
  pose proof (collapseSpaces_singleSpaced
                (filter (λ c, isInvisibleMark c = false) s) false) as Hs.
  fold t in Hs. rewrite Ht in Hs.
  apply singleSpaced_app_r in Hs. by apply singleSpaced_app_l in Hs.
Qed.

Lemma normalizeWaText_idem s :
  normalizeWaText (normalizeWaText s) = normalizeWaText s.
Proof.
  set (t := normalizeWaText s).
  assert (Hf : filter (λ c, isInvisibleMark c = false) t = t).
  { apply filter_all. intros c Hc. unfold t in Hc.
    by apply normalizeWaText_units in Hc as (_ & ? & _). }
  unfold normalizeWaText at 1. rewrite Hf.
  rewrite collapseSpaces_id by apply normalizeWaText_singleSpaced.
  unfold t, normalizeWaText at 1. apply trim_idem.
Qed.

End NormalizeFacts.

(** X4. Normalised text is in canonical form: no invisible mark is left,
    every white-space unit is a plain space that has no white space next
    to it, the text neither starts nor ends with white space, every other
    unit comes from the input, and normalising again changes nothing. *)
Theorem normalizeWaText_gives_a_canonical_form (s : jsstring) :
  let t := normalizeWaText s in
  normalizeWaText t = t
  ∧ (∀ c, c ∈ t → isInvisibleMark c = false
                   ∧ (isSpace c = true → c = 32%N)
                   ∧ (c ∈ s ∨ c = 32%N))
  ∧ (∀ pre a b post, t = pre ++ a :: b :: post →
       isSpace a = true → isSpace b = false)
  ∧ (∀ c r, t = c :: r → isSpace c = false)
  ∧ (∀ r d, t = r ++ [d] → isSpace d = false)
  ∧ trim t = t.
Proof.
  intros t. split_and!.
  - apply normalizeWaText_idem.
  - intros c Hc. apply normalizeWaText_units in Hc. tauto.
  - intros pre a b post. apply (singleSpaced_adjacent t false).
    apply normalizeWaText_singleSpaced.
  - intros c r Ht. unfold t, normalizeWaText in Ht.
    destruct (trim_ends (collapseSpaces false
                (filter (λ c, isInvisibleMark c = false) s)))
      as [Hn|(c' & mid & d & Hshape & Hc & Hd)]; [congruence|].
    destruct Hshape as [[H ->]|H]; rewrite H in Ht; by injection Ht as <- _.
  - intros r d Ht. unfold t, normalizeWaText in Ht.
    destruct (trim_ends (collapseSpaces false
                (filter (λ c, isInvisibleMark c = false) s)))
      as [Hn|(c' & mid & d' & Hshape & Hc & Hd)].
    { rewrite Hn in Ht. by destruct r. }
    destruct Hshape as [[H ->]|H]; rewrite H in Ht.
    + change [d'] with ([] ++ [d']) in Ht.
      apply app_inj_tail in Ht as [_ ->]. done.
    + change (c' :: mid ++ [d']) with ((c' :: mid) ++ [d']) in Ht.
      apply app_inj_tail in Ht as [_ ->]. done.
  - unfold t, normalizeWaText. apply trim_idem.
Qed.

(** * The local user *)

Section IdentityFacts.

Lemma normalizePhone_digits input :
  Forall (λ c, isDigit c = true) (normalizePhone input)
  ∧ (length (normalizePhone input) ≤ 10)%nat
  ∧ ∃ pre, filter (λ c, isDigit c = true) input = pre ++ normalizePhone input.
Proof.
  unfold normalizePhone.
  set (digits := filter (λ c, isDigit c = true) input).
  assert (Hd : Forall (λ c, isDigit c = true) digits).
  { apply Forall_forall. intros c Hc.
    by apply list_elem_of_filter in Hc as [Hc _]. }
  destruct (Nat.ltb_spec 10 (length digits)).
  - split_and!.
    + by apply Forall_drop.
    + rewrite length_drop. lia.
    + exists (take (length digits - 10) digits). by rewrite take_drop.
  - split_and!; [done|done|by exists []].
Qed.

Lemma normalizePhone_idem input :
  normalizePhone (normalizePhone input) = normalizePhone input.
Proof.
  destruct (normalizePhone_digits input) as (Hd & Hlen & _).
  unfold normalizePhone at 1.
  rewrite filter_all by (by apply Forall_forall).
  destruct (Nat.ltb_spec 10 (length (normalizePhone input))); [lia|done].
Qed.

End IdentityFacts.

(** X5. A sender is taken for the local user exactly when, once trimmed, it
    is the display name in any letter case or the last ten digits found in
    it are the user's phone number, whatever stands between the digits.
    A normalised phone number consists of at most ten digits, the last
    ones of the input, and normalising it again changes nothing. *)
Theorem local_user_is_recognised_by_name_or_last_ten_digits (sender0 : jsstring) :
  (isMeSender sender0 = true
   ↔ toLowerCase (trim sender0) = js "rajiv"
     ∨ normalizePhone (trim sender0) = js "9886031088")
  ∧ Forall (λ c, isDigit c = true) (normalizePhone sender0)
  ∧ (length (normalizePhone sender0) ≤ 10)%nat
  ∧ (∃ pre, filter (λ c, isDigit c = true) sender0
            = pre ++ normalizePhone sender0)
  ∧ normalizePhone (normalizePhone sender0) = normalizePhone sender0
  ∧ isMeSender (js " +91 98860-31088 ") = true
  ∧ isMeSender (js "RAJIV") = true
  ∧ isMeSender (js "Rajiv Tandon") = false.
Proof.
  destruct (normalizePhone_digits sender0) as (Hd & Hlen & Hpre).
  split_and!; try done.
  - unfold isMeSender. set (s := trim sender0).
    change (toLowerCase USER_displayName) with (js "rajiv").
    destruct s as [|c r] eqn:Hs; simpl truthy; cbn [negb].
    { split; [done|]. intros [H|H]; [done|]. vm_compute in H. done. }
    destruct (decide (toLowerCase (c :: r) = js "rajiv")) as [Hn|Hn].
    { rewrite bool_decide_eq_true_2 by done. split; [by left|done]. }
    rewrite bool_decide_eq_false_2 by done.
    destruct (normalizePhone (c :: r)) as [|p ps] eqn:Hp; simpl truthy; cbn [negb].
    { split; [done|]. intros [H|H]; done. }
    unfold USER_phoneNumbers. cbn [existsb].
    change (normalizePhone (js "+919886031088")) with (js "9886031088").
    change (normalizePhone (js "9886031088")) with (js "9886031088").
    rewrite orb_false_r, orb_diag, bool_decide_eq_true. split.
    + intros <-. by right.
    + intros [H|H]; done.
  - apply normalizePhone_idem.
Qed.

(** * Timestamps *)

Section TimestampFacts.

Lemma splitOn_app sep a r :
  sep ∉ a → splitOn sep (a ++ sep :: r) = a :: splitOn sep r.
Proof.
  induction a as [|c a IH]; intros Hnin; simpl.
  - by rewrite N.eqb_refl.
  - apply not_elem_of_cons in Hnin as [Hne Hnin].
    destruct (N.eqb_spec c sep); [congruence|]. by rewrite IH.
Qed.

Lemma digitString_no_slash s : digitString s → 47%N ∉ s.
Proof.
  intros [_ Hd] Hin. rewrite Forall_forall in Hd. by apply Hd in Hin.
Qed.

Lemma splitOn_slashDate a b y :
  digitString a → digitString b → digitString y →
  splitOn 47 (slashDate a b y) = [a; b; y].
Proof.
  intros Ha Hb Hy. unfold slashDate.
  rewrite splitOn_app by by apply digitString_no_slash.
  rewrite splitOn_app by by apply digitString_no_slash.
  rewrite splitOn_no_sep by by apply digitString_no_slash. done.
Qed.

Lemma parseInt_digitString s :
  digitString s → parseInt s = Some (parseDigits s 0).
Proof.
  intros [Hne Hd]. destruct s as [|c s]; [done|].
  apply Forall_cons in Hd as [Hc _]. unfold parseInt. by rewrite Hc.
Qed.

Lemma parseDigits_nonneg s : ∀ acc, 0 <= acc → 0 <= parseDigits s acc.
Proof.
  induction s as [|c s IH]; intros acc Hacc; simpl; [done|].
  destruct (isDigit c) eqn:Hc; [|done]. apply IH.
  unfold isDigit in Hc. apply andb_true_iff in Hc as [H1 H2].
  apply N.leb_le in H1, H2. lia.
Qed.

Lemma parseDigits_two y1 y2 :
  isDigit y1 = true → isDigit y2 = true →
  parseDigits [y1; y2] 0 = 10 * (Z.of_N y1 - 48) + (Z.of_N y2 - 48)
  ∧ parseDigits (50%N :: 48%N :: [y1; y2]) 0 = 2000 + parseDigits [y1; y2] 0
  ∧ 0 <= parseDigits [y1; y2] 0 < 100.
Proof.
  intros H1 H2. simpl. rewrite H1, H2.
  unfold isDigit in H1, H2.
  apply andb_true_iff in H1 as [H1 H1'], H2 as [H2 H2'].
  apply N.leb_le in H1, H1', H2, H2'. lia.
Qed.

End TimestampFacts.

(** X6. How the date part of a line is read.  With the day-first hint the
    fields of [a/b/y] are day, month and year, with the month-first hint
    month, day and year, so [a/b/y] read day-first is [b/a/y] read
    month-first; without a hint the reading is day-first unless only the
    second field is above 12.  A two-digit year [yy] stands for [20yy].
    A date of two fields, and any date that does not have exactly three
    fields, gives no timestamp. *)
Theorem date_fields_are_read_in_the_order_of_the_hint
    (a b y timePart : jsstring) :
  digitString a → digitString b → digitString y →
  parseTimestamp (slashDate b a y) timePart (Some MDY)
  = parseTimestamp (slashDate a b y) timePart (Some DMY)
  ∧ parseTimestamp (slashDate a b y) timePart None
    = parseTimestamp (slashDate a b y) timePart
        (if (parseDigits a 0 <=? 12) && (12 <? parseDigits b 0)
         then Some MDY else Some DMY)
  ∧ (∀ y1 y2 hint, y = [y1; y2] →
       parseTimestamp (slashDate a b (50%N :: 48%N :: y)) timePart hint
       = parseTimestamp (slashDate a b y) timePart hint)
  ∧ (∀ hint, parseTimestamp (a ++ 47%N :: b) timePart hint = None)
  ∧ (∀ datePart hint, length (splitOn 47 datePart) ≠ 3%nat →
       parseTimestamp datePart timePart hint = None).
Proof.
  intros Ha Hb Hy. split_and!.
  - unfold parseTimestamp.
    rewrite !splitOn_slashDate, !parseInt_digitString by done. done.
  - unfold parseTimestamp.
    rewrite !splitOn_slashDate, !parseInt_digitString by done.
    destruct (Z.ltb_spec 12 (parseDigits a 0));
      destruct (Z.leb_spec (parseDigits a 0) 12); try lia; simpl; [done|].
    by destruct (12 <? parseDigits b 0).
  - intros y1 y2 hint ->.
    destruct Hy as [_ Hy]. apply Forall_cons in Hy as [Hy1 Hy].
    apply Forall_cons in Hy as [Hy2 _].
    assert (Hy' : digitString (50%N :: 48%N :: [y1; y2])).
    { split; [done|]. by repeat constructor. }
    assert (Hy0 : digitString [y1; y2]) by (split; [done|by repeat constructor]).
    unfold parseTimestamp.
    rewrite !splitOn_slashDate, !parseInt_digitString by done.
    destruct (parseDigits_two y1 y2 Hy1 Hy2) as (_ & -> & Hr).
    set (v := parseDigits [y1; y2] 0) in *.
    assert (Hy_lt : (v <? 100) = true) by (apply Z.ltb_lt; lia).
    assert (Hy_ge : (2000 + v <? 100) = false) by (apply Z.ltb_ge; lia).
    destruct hint as [[|]|]; cbn zeta.
    + rewrite Hy_lt, Hy_ge. by rewrite (Z.add_comm 2000 v).
    + rewrite Hy_lt, Hy_ge. by rewrite (Z.add_comm 2000 v).
    + destruct (12 <? parseDigits a 0), (12 <? parseDigits b 0);
        rewrite Hy_lt, Hy_ge; by rewrite (Z.add_comm 2000 v).
  - intros hint. unfold parseTimestamp.
    rewrite splitOn_app by by apply digitString_no_slash.
    rewrite splitOn_no_sep by by apply digitString_no_slash. done.
  - intros datePart hint Hlen. unfold parseTimestamp.
    by destruct (splitOn 47 datePart) as [|p1 [|p2 [|p3 [|p4 l]]]].
Qed.

Lemma date_fields_witness :
  parseTimestamp (slashDate (js "3") (js "25") (js "24")) (js "10:05") (Some MDY)
  = parseTimestamp (slashDate (js "25") (js "3") (js "24")) (js "10:05") (Some DMY).
Proof.
  apply (date_fields_are_read_in_the_order_of_the_hint
           (js "25") (js "3") (js "24") (js "10:05"));
    (split; [done|by repeat constructor]).
Defined.

Section TimeFacts.

Lemma chr_colon_false c : c ≠ 58%N → bool_decide (c ∈ js ":") = false.
Proof.
  intros Hc. apply bool_decide_eq_false. change (js ":") with [58%N].
  by rewrite list_elem_of_singleton.
Qed.

Lemma chr_colon_true : bool_decide (58%N ∈ js ":") = true.
Proof. done. Qed.

(** The end of the time pattern: white space and the meridiem. *)
Lemma timeRegex_tail n sp mer cs :
  Forall (λ c, isSpace c = true) sp →
  (∀ m, mer = Some m → m ∈ meridiems) →
  matchRegex n
    (rseq [spaces0;
           ROpt (RGroup 4 (RAlt (lit "AM") (RAlt (lit "PM")
                                  (RAlt (lit "am") (lit "pm")))))])
    (sp ++ default [] mer) cs (λ rest cs, Some (rest, cs))
  = Some ([], match mer with Some m => (4%nat, m) :: cs | None => cs end).
Proof.
  intros Hsp Hmer. unfold spaces0. cbn [rseq foldr]. cbn [matchRegex].
  apply matchRepeat_greedy_run; [done|simpl; lia|done| |done|].
  - destruct mer as [m|]; [|done]. specialize (Hmer m eq_refl).
    unfold meridiems in Hmer. simpl in Hmer.
    repeat (apply elem_of_cons in Hmer as [->|Hmer]; [reflexivity|]).
    by apply elem_of_nil in Hmer.
  - intros _. destruct mer as [m|]; [|done]. specialize (Hmer m eq_refl).
    unfold meridiems in Hmer. simpl in Hmer.
    repeat (apply elem_of_cons in Hmer as [->|Hmer]; [reflexivity|]).
    by apply elem_of_nil in Hmer.
Qed.

Lemma tail_head_not_colon sp mer :
  Forall (λ c, isSpace c = true) sp →
  (∀ m, mer = Some m → m ∈ meridiems) →
  match sp ++ default [] mer with
  | c :: _ => bool_decide (c ∈ js ":") = false
  | [] => True
  end.
Proof.
  intros Hsp Hmer. destruct sp as [|c sp]; simpl.
  - destruct mer as [m|]; [|done]. specialize (Hmer m eq_refl).
    unfold meridiems in Hmer. simpl in Hmer.
    repeat (apply elem_of_cons in Hmer as [->|Hmer]; [reflexivity|]).
    by apply elem_of_nil in Hmer.
  - apply Forall_cons in Hsp as [Hc _]. apply chr_colon_false.
    intros ->. done.
Qed.

Lemma chr_colon_fail {R} (inp : jsstring) (f : jsstring → option R) :
  match inp with
  | c :: _ => bool_decide (c ∈ js ":") = false
  | [] => True
  end →
  match inp with
  | c :: rest => if bool_decide (c ∈ js ":") then f rest else None
  | [] => None
  end = None.
Proof. destruct inp as [|c r]; [done|]. by intros ->. Qed.

Lemma timeRegex_match n h mm ss sp mer :
  Forall (λ c, isDigit c = true) h → (1 ≤ length h ≤ 2)%nat →
  Forall (λ c, isDigit c = true) mm → length mm = 2%nat →
  (∀ s, ss = Some s → Forall (λ c, isDigit c = true) s ∧ length s = 2%nat) →
  Forall (λ c, isSpace c = true) sp →
  (∀ m, mer = Some m → m ∈ meridiems) →
  matchRegex n timeRegex (timeString h mm ss sp mer) []
    (λ rest cs, Some (rest, cs))
  = Some ([], (match mer with Some m => [(4%nat, m)] | None => [] end)
              ++ (match ss with Some s => [(3%nat, s)] | None => [] end)
              ++ [(2%nat, mm); (1%nat, h)]).
Proof.
  intros Hh Hlh Hmm Hlmm Hss Hsp Hmer.
  pose proof (timeRegex_tail n sp mer) as Htail.
  unfold timeString.
  change timeRegex
    with (RSeq (RGroup 1 (digits 1 2)) (RSeq (chr ":")
           (RSeq (RGroup 2 (digits 2 2))
              (RSeq (ROpt (RSeq (chr ":") (RSeq (RGroup 3 (digits 2 2)) REmpty)))
                 (rseq [spaces0;
                        ROpt (RGroup 4 (RAlt (lit "AM") (RAlt (lit "PM")
                                               (RAlt (lit "am") (lit "pm")))))]))))).
  remember (rseq [spaces0; ROpt _]) as tailR eqn:HtailR.
  clear HtailR. unfold digits, chr. cbn [matchRegex].
  apply matchRepeat_greedy_run; [done|lia| | |done|done].
  { intros mx [= <-]. lia. }
  rewrite take_app_minus, chr_colon_true.
  apply matchRepeat_greedy_run; [done|lia| | | |done].
  { intros mx [= <-]. lia. }
  2:{ intros mx [= <-]. lia. }
  rewrite take_app_minus.
  destruct ss as [s|].
  - destruct (Hss s eq_refl) as [Hs Hls].
    cbn [app]. rewrite chr_colon_true.
    erewrite matchRepeat_greedy_run; [reflexivity|done|lia| | | |done].
    + intros mx [= <-]. lia.
    + rewrite take_app_minus. rewrite Htail by done. by destruct mer.
    + intros mx [= <-]. lia.
  - cbn [app].
    pose proof (tail_head_not_colon sp mer Hsp Hmer) as Hhead.
    rewrite chr_colon_fail by done. rewrite Htail by done. by destruct mer.
Qed.

End TimeFacts.

(** X7. The value of a well-formed timestamp.  For a date [a/b/y] of digit
    fields and a time [h:mm], with optional [:ss], optional white space and
    an optional meridiem, the day-first reading is the local date and time
    with day [a], month [b], the year [y] (plus 2000 when below 100), the
    minutes and seconds as written, and the hour as written except that PM
    adds 12 to an hour below 12 and 12 AM is hour 0.  No field is checked
    against a range. *)
Theorem parseTimestamp_of_a_wellformed_date_and_time
    (a b y h mm sp : jsstring) (ss mer : option jsstring) :
  digitString a → digitString b → digitString y →
  Forall (λ c, isDigit c = true) h → (1 ≤ length h ≤ 2)%nat →
  Forall (λ c, isDigit c = true) mm → length mm = 2%nat →
  (∀ s, ss = Some s → Forall (λ c, isDigit c = true) s ∧ length s = 2%nat) →
  Forall (λ c, isSpace c = true) sp →
  (∀ m, mer = Some m → m ∈ meridiems) →
  parseTimestamp (slashDate a b y) (timeString h mm ss sp mer) (Some DMY)
  = Some (newDate
            (let year := parseDigits y 0 in
             if year <? 100 then year + 2000 else year)
            (parseDigits b 0 - 1) (parseDigits a 0)
            (hourOfDay (parseDigits h 0) mer)
            (parseDigits mm 0)
            (match ss with Some s => parseDigits s 0 | None => 0 end)).
Proof.
  intros Ha Hb Hy Hh Hlh Hmm Hlmm Hss Hsp Hmer.
  unfold parseTimestamp.
  rewrite splitOn_slashDate, !parseInt_digitString by done.
  unfold exec. rewrite execFrom_unfold.
  rewrite timeRegex_match by done.
  assert (Hdh : digitString h)
    by (split; [intros ->; simpl in Hlh; lia|done]).
  assert (Hdm : digitString mm) by (split; [by intros ->|done]).
  unfold groupOr, group. cbn [matchCaptures].
  assert (Hc1 : capture 1 ((match mer with Some m => [(4%nat, m)] | None => [] end)
                  ++ (match ss with Some s => [(3%nat, s)] | None => [] end)
                  ++ [(2%nat, mm); (1%nat, h)]) = Some h)
    by (destruct mer, ss; reflexivity).
  assert (Hc2 : capture 2 ((match mer with Some m => [(4%nat, m)] | None => [] end)
                  ++ (match ss with Some s => [(3%nat, s)] | None => [] end)
                  ++ [(2%nat, mm); (1%nat, h)]) = Some mm)
    by (destruct mer, ss; reflexivity).
  assert (Hc3 : capture 3 ((match mer with Some m => [(4%nat, m)] | None => [] end)
                  ++ (match ss with Some s => [(3%nat, s)] | None => [] end)
                  ++ [(2%nat, mm); (1%nat, h)]) = ss)
    by (destruct mer, ss; reflexivity).
  assert (Hc4 : capture 4 ((match mer with Some m => [(4%nat, m)] | None => [] end)
                  ++ (match ss with Some s => [(3%nat, s)] | None => [] end)
                  ++ [(2%nat, mm); (1%nat, h)]) = mer)
    by (destruct mer, ss; reflexivity).
  rewrite Hc1, Hc2, Hc3, Hc4. cbn [default].
  rewrite !parseInt_digitString by done.
  unfold hourOfDay. f_equal. f_equal.
  destruct ss as [s|]; [|done].
  destruct (Hss s eq_refl) as [Hs Hls].
  destruct s as [|c s]; [done|].
  rewrite parseInt_digitString by (split; done). done.
Qed.

Lemma parseTimestamp_wellformed_witness :
  parseTimestamp (slashDate (js "31") (js "12") (js "23"))
    (timeString (js "11") (js "45") (Some (js "32")) (js " ") (Some (js "PM")))
    (Some DMY)
  = Some (newDate 2023 11 31 23 45 32).
Proof.
  apply (parseTimestamp_of_a_wellformed_date_and_time
           (js "31") (js "12") (js "23") (js "11") (js "45") (js " ")
           (Some (js "32")) (Some (js "PM")));
    try (split; [done|by repeat constructor]);
    try (by repeat constructor); try (simpl; lia).
  - intros s [= <-]. split; [by repeat constructor|done].
  - intros m [= <-]. unfold meridiems. simpl. apply elem_of_cons. right.
    apply list_elem_of_here.
Defined.

(** * Call logs *)

Section CallFacts.

Lemma matchRegex_literal_complete {R} n (l : jsstring) : ∀ pre rest cs
    (k : jsstring → captures → option R),
  upperUnit <$> pre = upperUnit <$> l →
  matchRegex n
    (rseq ((λ c, RClass (λ x, (upperUnit x =? upperUnit c)%N)) <$> l))
    (pre ++ rest) cs k = k rest cs.
Proof.
  induction l as [|a l IH]; intros pre rest cs k Hup.
  - destruct pre; [done|by rewrite fmap_cons in Hup].
  - destruct pre as [|c pre]; [by rewrite fmap_cons in Hup|].
    rewrite !fmap_cons in Hup. injection Hup as Hc Hup.
    cbn [fmap list_fmap rseq foldr app matchRegex].
    rewrite Hc, N.eqb_refl. by apply IH.
Qed.

Lemma matchRegex_liti_complete {R} n s pre rest cs
    (k : jsstring → captures → option R) :
  canonicalize pre = canonicalize (js s) →
  matchRegex n (liti s) (pre ++ rest) cs k = k rest cs.
Proof. apply matchRegex_literal_complete. Qed.

(** An anchored phrase under the [i] flag matches exactly the texts that
    start with the phrase, letter case aside. *)
Lemma test_anchored_phrase s t :
  test (rseq [RBol; liti s]) t = true ↔ startsWithIgnoreCase t s.
Proof.
  unfold test. cbn [rseq foldr]. rewrite exec_bol. cbn [matchRegex]. split.
  - destruct (matchRegex _ _ _ _ _) as [[rest cs]|] eqn:H; [|done].
    intros _. apply matchRegex_liti in H as (pre & rest' & -> & Hup & _).
    by exists pre, rest'.
  - intros (pre & rest & -> & Hup).
    by rewrite matchRegex_liti_complete.
Qed.

Lemma startsWithIgnoreCase_head t s a l :
  js s = a :: l → startsWithIgnoreCase t s →
  ∃ x r, t = x :: r ∧ upperUnit x = upperUnit a.
Proof.
  intros Hs (pre & rest & -> & Hup). rewrite Hs in Hup.
  destruct pre as [|x pre]; [done|]. injection Hup as Hx _.
  by exists x, (pre ++ rest).
Qed.

Lemma startsWithIgnoreCase_same_length t s1 s2 :
  length (js s1) = length (js s2) →
  startsWithIgnoreCase t s1 → startsWithIgnoreCase t s2 →
  canonicalize (js s1) = canonicalize (js s2).
Proof.
  intros Hlen (p1 & r1 & -> & H1) (p2 & r2 & Heq & H2).
  assert (Hl : length p1 = length p2).
  { apply (f_equal length) in H1, H2. unfold canonicalize in *.
    rewrite !length_fmap in H1, H2. lia. }
  apply app_inj_1 in Heq as [-> _]; [|done]. congruence.
Qed.

(** The call pattern on a one-line text that starts with the phrase. *)
Lemma callRegex_exec phrase pre rest :
  canonicalize pre = canonicalize (js phrase) →
  Forall (λ c, isLineTerminator c = false) rest →
  ∃ m, exec (callRegex phrase) (pre ++ rest) = Some m
       ∧ groupOr 1 m = trimStart (afterComma rest).
Proof.
  intros Hup Hline. unfold callRegex. cbn [rseq foldr]. rewrite exec_bol.
  cbn [matchRegex]. rewrite matchRegex_liti_complete by done.
  assert (Htail : ∀ x cs,
            Forall (λ c, isLineTerminator c = false) x →
            matchRepeat true isSpace 0 None x
              (λ rest0,
                 matchRepeat true isDot 0 None rest0
                   (λ rest1,
                      match rest1 with
                      | [] => Some (rest1,
                                    (1%nat, take (length rest0 - length rest1) rest0)
                                    :: cs)
                      | _ :: _ => None
                      end))
            = Some ([], (1%nat, trimStart x) :: cs)).
  { intros x cs Hx. destruct (trimStart_split x) as (sp & Hsplit & Hsp).
    rewrite Hsplit at 1.
    apply matchRepeat_greedy_run; [done|simpl; lia|done| |done|].
    - rewrite <- (app_nil_r (trimStart x)) at 1.
      apply matchRepeat_greedy_run; [|simpl; lia|done| |done|done].
      + apply Forall_forall. intros c Hc. unfold isDot.
        rewrite Forall_forall in Hx. rewrite Hx; [done|].
        by apply trimStart_within.
      + simpl. by rewrite Nat.sub_0_r, firstn_all.
    - intros _. destruct (trimStart x) as [|c r] eqn:Ht; [done|].
      by eapply trimStart_head. }
  unfold chr, spaces0. cbn [matchRegex].
  destruct rest as [|c rest'].
  - unfold afterComma. rewrite (Htail [] []) by done. by eexists.
  - apply Forall_cons in Hline as Hl'. destruct Hl' as [_ Hrest'].
    destruct (decide (c = 44%N)) as [->|Hc].
    + change (bool_decide (44%N ∈ js ",")) with true. cbn iota.
      rewrite (Htail rest' []) by done. by eexists.
    + rewrite bool_decide_eq_false_2
        by (change (js ",") with [44%N]; by rewrite list_elem_of_singleton).
      rewrite (Htail (c :: rest') []) by done.
      eexists. split; [reflexivity|].
      unfold afterComma. destruct c as [|p]; [done|].
      destruct (decide (N.pos p = 44%N)); [done|].
      by repeat (destruct p as [p|p|]; try done).
Qed.

End CallFacts.

Section CallLogFacts.

Lemma trim_trimStart x : trim (trimStart x) = trim x.
Proof.
  unfold trim. f_equal.
  destruct (trimStart x) as [|c r] eqn:Hx; [done|].
  apply trimStart_id. by eapply trimStart_head.
Qed.

Lemma callRegex_Some phrase t m :
  exec (callRegex phrase) t = Some m → startsWithIgnoreCase t phrase.
Proof.
  unfold callRegex. cbn [rseq foldr]. rewrite exec_bol. cbn [matchRegex].
  destruct (matchRegex _ _ _ _ _) as [[rest cs]|] eqn:H; [|done].
  intros _. apply matchRegex_liti in H as (pre & rest' & -> & Hup & _).
  by exists pre, rest'.
Qed.

Lemma not_missed t phrase a l :
  js phrase = a :: l → upperUnit a ≠ 77%N →
  startsWithIgnoreCase t phrase →
  test (rseq [RBol; liti "missed voice call"]) t = false
  ∧ test (rseq [RBol; liti "missed video call"]) t = false.
Proof.
  intros Hp Ha Hstart.
  destruct (startsWithIgnoreCase_head t phrase a l Hp Hstart)
    as (x & r & -> & Hx).
  split; apply not_true_iff_false; intros Ht%test_anchored_phrase.
  - destruct (startsWithIgnoreCase_head _ "missed voice call" _ _ eq_refl Ht)
      as (x' & r' & [= <- <-] & Hx').
    change (upperUnit (N_of_ascii "m")) with 77%N in Hx'. congruence.
  - destruct (startsWithIgnoreCase_head _ "missed video call" _ _ eq_refl Ht)
      as (x' & r' & [= <- <-] & Hx').
    change (upperUnit (N_of_ascii "m")) with 77%N in Hx'. congruence.
Qed.

End CallLogFacts.

(** X8. Call logs are recognised by how the trimmed text starts, letter case
    aside.  A text that starts with the words missed voice call (missed
    video call) is a missed voice (video) call.  A one-line text that
    starts with voice call (video call) is a voice (video) call, whatever
    follows, and what follows, less one comma and the surrounding white
    space, is its duration when it is not empty.  Nothing else is a
    call. *)
Theorem call_logs_are_recognised_by_their_first_words (text : jsstring) :
  let t := trim text in
  let log := detectCallLog text in
  (startsWithIgnoreCase t "missed voice call" →
   log = {| isCall := true; logDuration := None; logKind := Some Voice;
            logMissed := Some true |})
  ∧ (startsWithIgnoreCase t "missed video call" →
     log = {| isCall := true; logDuration := None; logKind := Some Video;
              logMissed := Some true |})
  ∧ (∀ pre rest, t = pre ++ rest →
       canonicalize pre = canonicalize (js "voice call") →
       Forall (λ c, isLineTerminator c = false) rest →
       log = {| isCall := true;
                logDuration := nonEmpty (trim (afterComma rest));
                logKind := Some Voice; logMissed := None |})
  ∧ (∀ pre rest, t = pre ++ rest →
       canonicalize pre = canonicalize (js "video call") →
       Forall (λ c, isLineTerminator c = false) rest →
       log = {| isCall := true;
                logDuration := nonEmpty (trim (afterComma rest));
                logKind := Some Video; logMissed := None |})
  ∧ (isCall log = true →
     startsWithIgnoreCase t "missed voice call"
     ∨ startsWithIgnoreCase t "missed video call"
     ∨ startsWithIgnoreCase t "voice call"
     ∨ startsWithIgnoreCase t "video call").
Proof.
  intros t log. unfold log, detectCallLog. fold t. split_and!.
  - intros Ht%test_anchored_phrase. by rewrite Ht.
  - intros Ht.
    assert (Hv : test (rseq [RBol; liti "missed voice call"]) t = false).
    { apply not_true_iff_false. intros Hv%test_anchored_phrase.
      pose proof (startsWithIgnoreCase_same_length t "missed voice call"
                    "missed video call" eq_refl Hv Ht) as Heq.
      vm_compute in Heq. done. }
    apply test_anchored_phrase in Ht. by rewrite Hv, Ht.
  - intros pre rest Ht Hup Hline.
    assert (Hstart : startsWithIgnoreCase t "voice call") by by exists pre, rest.
    destruct (not_missed t "voice call" _ _ eq_refl ltac:(done) Hstart)
      as [-> ->].
    destruct (callRegex_exec "voice call" pre rest Hup Hline) as (m & Hm & Hg).
    rewrite Ht, Hm, Hg, trim_trimStart. done.
  - intros pre rest Ht Hup Hline.
    assert (Hstart : startsWithIgnoreCase t "video call") by by exists pre, rest.
    destruct (not_missed t "video call" _ _ eq_refl ltac:(done) Hstart)
      as [-> ->].
    assert (Hvoice : exec (callRegex "voice call") t = None).
    { destruct (exec (callRegex "voice call") t) as [m|] eqn:Hm; [|done].
      apply callRegex_Some in Hm.
      pose proof (startsWithIgnoreCase_same_length t "voice call"
                    "video call" eq_refl Hm Hstart) as Heq.
      vm_compute in Heq. done. }
    rewrite Hvoice.
    destruct (callRegex_exec "video call" pre rest Hup Hline) as (m & Hm & Hg).
    rewrite Ht, Hm, Hg, trim_trimStart. done.
  - destruct (test (rseq [RBol; liti "missed voice call"]) t) eqn:H1.
    { intros _. left. by apply test_anchored_phrase. }
    destruct (test (rseq [RBol; liti "missed video call"]) t) eqn:H2.
    { intros _. right. left. by apply test_anchored_phrase. }
    destruct (exec (callRegex "voice call") t) as [m|] eqn:H3.
    { intros _. right. right. left. by eapply callRegex_Some. }
    destruct (exec (callRegex "video call") t) as [m|] eqn:H4; [|done].
    intros _. right. right. right. by eapply callRegex_Some.
Qed.

(** * Chat names *)

Section ChatNameFacts.

Lemma removeFirst_prefix s p pre rest :
  s = pre ++ rest → canonicalize pre = canonicalize (js p) →
  removeFirst (rseq [RBol; liti p]) s = rest.
Proof.
  intros -> Hup. unfold removeFirst. cbn [rseq foldr]. rewrite exec_bol.
  cbn [matchRegex]. by rewrite matchRegex_liti_complete.
Qed.

Lemma removeFirst_no_prefix s p :
  ¬ startsWithIgnoreCase s p → removeFirst (rseq [RBol; liti p]) s = s.
Proof.
  intros Hno. unfold removeFirst.
  destruct (exec (rseq [RBol; liti p]) s) as [m|] eqn:Hm; [|done].
  exfalso. apply Hno. apply test_anchored_phrase. unfold test. by rewrite Hm.
Qed.

Lemma removeFirst_whole_none s p :
  canonicalize s ≠ canonicalize (js p) →
  removeFirst (rseq [RBol; liti p; REol]) s = s.
Proof.
  intros Hne. unfold removeFirst.
  destruct (exec (rseq [RBol; liti p; REol]) s) as [m|] eqn:Hm; [|done].
  exfalso. apply Hne. apply omitted_test. unfold test. by rewrite Hm.
Qed.

Lemma matchRegex_liti_exact {R} n p s cs (k : jsstring → captures → option R) :
  canonicalize s = canonicalize (js p) →
  matchRegex n (liti p) s cs k = k [] cs.
Proof.
  intros Hup. pose proof (matchRegex_liti_complete n p s [] cs k Hup) as H.
  by rewrite app_nil_r in H.
Qed.

(** A pattern that ends the input can only match where exactly its own
    length is left. *)
Lemma execFrom_suffix n p body : ∀ index suf,
  canonicalize suf = canonicalize (js p) →
  ∃ m, execFrom (rseq [liti p; REol]) n index (body ++ suf) = Some m
       ∧ matchIndex m = (index + length body)%nat ∧ matchRest m = [].
Proof.
  induction body as [|c body IH]; intros index suf Hup.
  - rewrite execFrom_unfold. cbn [rseq foldr matchRegex app].
    rewrite matchRegex_liti_exact by done.
    eexists. split; [reflexivity|]. simpl. split; [lia|done].
  - rewrite execFrom_unfold. cbn [rseq foldr matchRegex].
    destruct (matchRegex n (liti p) ((c :: body) ++ suf) [] _)
      as [[rest cs]|] eqn:Hm.
    + exfalso. apply matchRegex_liti in Hm as (pre & rest' & Heq & Hp & Hk).
      destruct rest'; [|done]. rewrite app_nil_r in Heq. subst pre.
      apply (f_equal length) in Hp, Hup. unfold canonicalize in *.
      rewrite !length_fmap in Hp, Hup. rewrite length_app in Hp.
      simpl in Hp. lia.
    + cbn [app]. destruct (IH (S index) suf Hup) as (m & Hm' & Hi & Hr).
      exists m. split; [exact Hm'|]. split; [simpl; lia|done].
Qed.

Lemma removeFirst_suffix p body suf :
  canonicalize suf = canonicalize (js p) →
  removeFirst (rseq [liti p; REol]) (body ++ suf) = body.
Proof.
  intros Hup. unfold removeFirst, exec.
  destruct (execFrom_suffix (length (body ++ suf)) p body 0 suf Hup)
    as (m & -> & Hi & Hr).
  rewrite Hi, Hr, app_nil_r. simpl. by rewrite take_app_length.
Qed.

Lemma extractChatName_of name0 :
  let name := trim name0 in
  (if negb (truthy name) || bool_decide (toLowerCase name = js "chat")
   then js "Unnamed Chat" else name)
  = js "Unnamed Chat"
  ∨ (name ≠ [] ∧ toLowerCase name ≠ js "chat"
     ∧ (if negb (truthy name) || bool_decide (toLowerCase name = js "chat")
        then js "Unnamed Chat" else name) = name).
Proof.
  intros name. destruct name as [|c r] eqn:Hn; [by left|]. simpl truthy.
  cbn [negb orb].
  destruct (decide (toLowerCase (c :: r) = js "chat")) as [He|He].
  - left. by rewrite bool_decide_eq_true_2.
  - right. rewrite bool_decide_eq_false_2 by done. done.
Qed.

End ChatNameFacts.

Section ChatNamePrefixes.

Lemma other_prefix_1 n :
  removeFirst (rseq [RBol; liti "WhatsApp Chat with "])
    (js "WhatsApp Chat - " ++ n) = js "WhatsApp Chat - " ++ n.
Proof.
  unfold removeFirst. cbn [rseq foldr]. rewrite exec_bol. reflexivity.
Qed.

Lemma other_prefix_2 n :
  removeFirst (rseq [RBol; liti "WhatsApp Chat with "])
    (js "Chat with " ++ n) = js "Chat with " ++ n.
Proof.
  unfold removeFirst. cbn [rseq foldr]. rewrite exec_bol. reflexivity.
Qed.

Lemma other_prefix_3 n :
  removeFirst (rseq [RBol; liti "WhatsApp Chat - "])
    (js "Chat with " ++ n) = js "Chat with " ++ n.
Proof.
  unfold removeFirst. cbn [rseq foldr]. rewrite exec_bol. reflexivity.
Qed.

Lemma extractChatName_plain n :
  plainName n →
  (let name := removeFirst (rseq [RBol; liti "WhatsApp Chat - "]) n in
   let name := removeFirst (rseq [RBol; liti "Chat with "]) name in
   let name := removeFirst (rseq [RBol; liti "_chat"; REol]) name in
   let name := trim name in
   if negb (truthy name) || bool_decide (toLowerCase name = js "chat")
   then js "Unnamed Chat" else name) = n.
Proof.
  intros (Htrim & Hne & Hchat & Hunder & Hpre). cbn zeta.
  rewrite (removeFirst_no_prefix n "WhatsApp Chat - ")
    by (apply Hpre; unfold exportPrefixes; set_solver).
  rewrite (removeFirst_no_prefix n "Chat with ")
    by (apply Hpre; unfold exportPrefixes; set_solver).
  rewrite removeFirst_whole_none by done.
  rewrite Htrim. destruct n as [|c r]; [done|]. simpl truthy. cbn [negb orb].
  by rewrite bool_decide_eq_false_2.
Qed.

End ChatNamePrefixes.

(** X9. The chat name taken from a file name is never empty and carries no
    surrounding white space; it is the fallback Unnamed Chat or a name
    other than the word chat.  For a plain name [n] the file names
    [n.txt], [WhatsApp Chat with n.txt], [WhatsApp Chat - n.txt] and
    [Chat with n.txt] all give [n] (the extension in any letter case). *)
Theorem chat_name_is_the_file_name_less_prefix_and_extension :
  (∀ fileName0,
     let name := extractChatName fileName0 in
     name ≠ [] ∧ trim name = name
     ∧ (name = js "Unnamed Chat" ∨ toLowerCase name ≠ js "chat"))
  ∧ (∀ n p ext,
       plainName n → p ∈ ""%string :: exportPrefixes →
       canonicalize ext = canonicalize (js ".txt") →
       extractChatName (js p ++ n ++ ext) = n)
  ∧ extractChatName (js "_chat.txt") = js "Unnamed Chat"
  ∧ extractChatName (js "WhatsApp Chat with Chat.txt") = js "Unnamed Chat".
Proof.
  split_and!.
  - intros fileName0. unfold extractChatName. cbn zeta.
    match goal with
    | |- context [trim ?x] => set (name0 := x)
    end.
    destruct (extractChatName_of name0) as [->|(Hne & Hchat & ->)].
    + split_and!; [done|reflexivity|by left].
    + split_and!; [done|apply trim_idem|by right].
  - intros n p ext Hplain Hp Hext. unfold extractChatName.
    rewrite (assoc_L (++)), removeFirst_suffix by done.
    pose proof Hplain as (Htrim & Hne & Hchat & Hunder & Hpre).
    unfold exportPrefixes in Hp.
    repeat (apply elem_of_cons in Hp as [->|Hp]).
    + cbn [js fmap list_fmap list_ascii_of_string app].
      rewrite (removeFirst_no_prefix n "WhatsApp Chat with ")
        by (apply Hpre; unfold exportPrefixes; set_solver).
      by apply extractChatName_plain.
    + rewrite (removeFirst_prefix _ "WhatsApp Chat with "
                 (js "WhatsApp Chat with ") n) by done.
      by apply extractChatName_plain.
    + rewrite other_prefix_1.
      rewrite (removeFirst_prefix _ "WhatsApp Chat - "
                 (js "WhatsApp Chat - ") n) by done.
      rewrite (removeFirst_no_prefix n "Chat with ")
        by (apply Hpre; unfold exportPrefixes; set_solver).
      rewrite removeFirst_whole_none by done.
      rewrite Htrim. destruct n as [|c r]; [done|]. simpl truthy.
      cbn [negb orb]. by rewrite bool_decide_eq_false_2.
    + rewrite other_prefix_2, other_prefix_3.
      rewrite (removeFirst_prefix _ "Chat with " (js "Chat with ") n) by done.
      rewrite removeFirst_whole_none by done.
      rewrite Htrim. destruct n as [|c r]; [done|]. simpl truthy.
      cbn [negb orb]. by rewrite bool_decide_eq_false_2.
    + by apply elem_of_nil in Hp.
  - vm_compute. reflexivity.
  - vm_compute. reflexivity.
Qed.


(** * More on the merger *)

Section SortedFacts.
Context {A : Type} (f : A → Z).

(** Sorting a sorted list leaves it as it is. *)
Lemma sortBy_sorted_id (l : list A) :
  StronglySorted (ascending f) l → sortBy f l = l.
Proof.
  induction 1 as [|x l Hs IH Hall]; [done|].
  cbn [sortBy foldr]. fold (sortBy f l). rewrite IH.
  destruct l as [|y l]; [done|].
  apply Forall_cons in Hall as [Hxy _]. unfold ascending in Hxy.
  cbn [insertBy]. destruct (Z.leb_spec (f x) (f y)); [done|lia].
Qed.

End SortedFacts.

Section FirstOccurrences.
Context {A : Type} (key : A → jsstring).

Lemma firstOccurrencesBy_sublist l : ∀ earlier,
  firstOccurrencesBy key earlier l `sublist_of` l.
Proof.
  induction l as [|x l IH]; intros earlier; simpl; [done|].
  destruct (decide (key x ∈ earlier)); simpl.
  - apply sublist_cons, IH.
  - apply sublist_skip, IH.
Qed.

Lemma firstOccurrencesBy_keys l : ∀ earlier k,
  k ∈ key <$> firstOccurrencesBy key earlier l
  ↔ k ∈ key <$> l ∧ k ∉ earlier.
Proof.
  induction l as [|x l IH]; intros earlier k; simpl.
  - rewrite elem_of_nil. tauto.
  - rewrite fmap_app, elem_of_app, IH, elem_of_cons, elem_of_app,
      list_elem_of_singleton.
    destruct (decide (key x ∈ earlier)) as [Hin|Hin]; simpl.
    + rewrite elem_of_nil. split.
      * intros [[]|[Hk Hn]]. split; [by right|]. tauto.
      * intros [[->|Hk] Hn]; [done|]. right. split; [done|].
        intros [?| ->]; done.
    + rewrite list_elem_of_singleton. split.
      * intros [->|[Hk Hn]]; [split; [by left|done]|].
        split; [by right|]. tauto.
      * intros [[->|Hk] Hn]; [by left|].
        destruct (decide (k = key x)) as [->|Hne]; [by left|].
        right. split; [done|]. intros [?|?]; done.
Qed.

Lemma firstOccurrencesBy_NoDup l : ∀ earlier,
  NoDup (key <$> firstOccurrencesBy key earlier l).
Proof.
  induction l as [|x l IH]; intros earlier; simpl; [constructor|].
  destruct (decide (key x ∈ earlier)); simpl; [apply IH|].
  constructor; [|apply IH].
  rewrite firstOccurrencesBy_keys, elem_of_app, list_elem_of_singleton.
  tauto.
Qed.

(** Nothing is dropped exactly when no key repeats. *)
Lemma firstOccurrencesBy_id l : ∀ earlier,
  NoDup (earlier ++ (key <$> l)) → firstOccurrencesBy key earlier l = l.
Proof.
  induction l as [|x l IH]; intros earlier Hnd; simpl; [done|].
  simpl in Hnd. apply NoDup_app in Hnd as Hparts.
  destruct Hparts as (_ & Hdisj & _).
  destruct (decide (key x ∈ earlier)) as [Hin|Hin].
  - exfalso. apply (Hdisj _ Hin). apply list_elem_of_here.
  - simpl. f_equal. apply IH. rewrite <- (assoc_L (++)). exact Hnd.
Qed.

Lemma firstOccurrencesBy_length l : ∀ earlier,
  length (firstOccurrencesBy key earlier l) = length l →
  firstOccurrencesBy key earlier l = l.
Proof.
  induction l as [|x l IH]; intros earlier Hlen; simpl in *; [done|].
  destruct (decide (key x ∈ earlier)); simpl in *.
  - pose proof (sublist_length _ _
      (firstOccurrencesBy_sublist l (earlier ++ [key x]))). lia.
  - f_equal. apply IH. lia.
Qed.

Lemma firstOccurrencesBy_app l1 : ∀ l2 earlier,
  firstOccurrencesBy key earlier (l1 ++ l2)
  = firstOccurrencesBy key earlier l1
    ++ firstOccurrencesBy key (earlier ++ (key <$> l1)) l2.
Proof.
  induction l1 as [|x l1 IH]; intros l2 earlier; simpl.
  - by rewrite app_nil_r.
  - rewrite IH, <- !(assoc_L (++)). done.
Qed.

End FirstOccurrences.

Lemma keepFirstOccurrences_by l : ∀ earlier,
  keepFirstOccurrences earlier l
  = firstOccurrencesBy getMessageKey (getMessageKey <$> earlier) l.
Proof.
  induction l as [|m l IH]; intros earlier; simpl; [done|].
  rewrite IH, fmap_app. simpl.
  destruct (decide (getMessageKey m ∈ getMessageKey <$> earlier)); done.
Qed.

Section RemergeFacts.

Lemma mergeMessages_sorted all : StronglySorted tsLe (mergeMessages all).
Proof.
  destruct (decide (length all = 1%nat)) as [Hone|Hmany].
  - destruct all as [|l [|? ?]]; try done. apply sortByTimestamp_sorted.
  - rewrite mergeMessages_multi by done. unfold spec_mergeMessages.
    rewrite tsLe_ascending.
    eapply sublist_StronglySorted; [apply keepFirstOccurrences_sublist|].
    rewrite <- tsLe_ascending. apply sortByTimestamp_sorted.
Qed.

Lemma sortByTimestamp_sorted_id l :
  StronglySorted tsLe l → sortByTimestamp l = l.
Proof. rewrite tsLe_ascending. apply sortBy_sorted_id. Qed.

Lemma keepFirstOccurrences_id l :
  NoDup (getMessageKey <$> l) → keepFirstOccurrences [] l = l.
Proof.
  intros Hnd. rewrite keepFirstOccurrences_by. by apply firstOccurrencesBy_id.
Qed.

Lemma merge_with_empty_backup merged :
  StronglySorted tsLe merged → NoDup (getMessageKey <$> merged) →
  mergeMessages [merged; []] = merged ∧ mergeMessages [[]; merged] = merged.
Proof.
  intros Hs Hnd. split.
  - rewrite mergeMessages_multi by done. unfold spec_mergeMessages.
    cbn [concat]. rewrite !app_nil_r, sortByTimestamp_sorted_id by done.
    by apply keepFirstOccurrences_id.
  - rewrite mergeMessages_multi by done. unfold spec_mergeMessages.
    cbn [concat app]. rewrite !app_nil_r, sortByTimestamp_sorted_id by done.
    by apply keepFirstOccurrences_id.
Qed.

End RemergeFacts.

(** X1. Merging is idempotent: the merged timeline, merged again as the only
    backup, comes back unchanged; when it was built from several backups
    (or none) it also comes back unchanged from a merge with an empty
    backup on either side. *)
Theorem remerging_the_merged_timeline_changes_nothing
    (allMessages : list (list Message)) :
  let merged := mergeMessages allMessages in
  mergeMessages [merged] = merged
  ∧ (length allMessages ≠ 1%nat →
     mergeMessages [merged; []] = merged ∧ mergeMessages [[]; merged] = merged).
Proof.
  intros merged. split.
  - cbn [mergeMessages]. apply sortByTimestamp_sorted_id, mergeMessages_sorted.
  - intros Hmany. apply merge_with_empty_backup; [apply mergeMessages_sorted|].
    unfold merged. rewrite mergeMessages_multi by done.
    apply keepFirstOccurrences_NoDup.
Qed.

Section ParticipantFacts.

Lemma mergeParticipantStep_foldl l : ∀ seen earlier,
  (∀ k, k ∈ seen.*1 ↔ k ∈ earlier) →
  (foldl mergeParticipantStep seen l).*2
  = seen.*2 ++ firstOccurrencesBy participantKey earlier l.
Proof.
  induction l as [|p l IH]; intros seen earlier Hseen; simpl.
  - by rewrite app_nil_r.
  - unfold mergeParticipantStep at 2. fold (participantKey p).
    destruct (decide (participantKey p ∈ earlier)) as [Hin|Hin].
    + rewrite bool_decide_eq_true_2 by by apply Hseen.
      apply IH. intros k. rewrite Hseen, elem_of_app, list_elem_of_singleton.
      split; [tauto|]. intros [?| ->]; done.
    + rewrite bool_decide_eq_false_2 by by rewrite Hseen.
      rewrite (IH _ (earlier ++ [participantKey p])).
      * rewrite fmap_app. simpl. by rewrite <- (assoc_L (++)).
      * intros k. rewrite fmap_app, !elem_of_app, Hseen. done.
Qed.

Lemma mergeParticipants_concat all : ∀ seen,
  foldl (λ seen participants0, foldl mergeParticipantStep seen participants0)
        seen all
  = foldl mergeParticipantStep seen (concat all).
Proof.
  induction all as [|l all IH]; intros seen; simpl; [done|].
  by rewrite IH, foldl_app.
Qed.

Lemma mergeParticipants_spec all :
  mergeParticipants all = firstOccurrencesBy participantKey [] (concat all).
Proof.
  unfold mergeParticipants. rewrite mergeParticipants_concat.
  by rewrite (mergeParticipantStep_foldl _ [] []).
Qed.

End ParticipantFacts.

(** X2. Merging participant lists keeps, of all the participants of all the
    backups taken in order, exactly the first one under each name (names
    compared in lower case and trimmed): nobody is invented, nobody's name
    is lost, no name is kept twice, and lists without a repeated name are
    simply concatenated.  Lower case is that of the Unicode case
    conversion: names that differ by the case of an accented letter are one
    participant. *)
Theorem mergeParticipants_keeps_first_of_each_name
    (allParticipants : list (list Participant)) :
  let pool := concat allParticipants in
  let merged := mergeParticipants allParticipants in
  merged = firstOccurrencesBy participantKey [] pool
  ∧ merged `sublist_of` pool
  ∧ NoDup (participantKey <$> merged)
  ∧ (∀ k, k ∈ participantKey <$> merged ↔ k ∈ participantKey <$> pool)
  ∧ (∀ l1 p l2, pool = l1 ++ p :: l2 →
       merged = firstOccurrencesBy participantKey [] l1
                ++ (if decide (participantKey p ∈ participantKey <$> l1)
                    then [] else [p])
                ++ firstOccurrencesBy participantKey
                     (participantKey <$> l1 ++ [p]) l2)
  ∧ (NoDup (participantKey <$> pool) → merged = pool)
  ∧ mergeParticipants [[participantOf 0 (201%N :: js "MILE ")];
                       [participantOf 1 (js "Zo" ++ [235%N]);
                        participantOf 0 (233%N :: js "mile")]]
    = [participantOf 0 (201%N :: js "MILE "); participantOf 1 (js "Zo" ++ [235%N])].
Proof.
  intros pool merged.
  assert (Hm : merged = firstOccurrencesBy participantKey [] pool)
    by apply mergeParticipants_spec.
  rewrite Hm. split_and!; [| | | | | |vm_compute; reflexivity].
  - done.
  - apply firstOccurrencesBy_sublist.
  - apply firstOccurrencesBy_NoDup.
  - intros k. rewrite firstOccurrencesBy_keys. rewrite elem_of_nil. tauto.
  - intros l1 p l2 ->. rewrite firstOccurrencesBy_app. simpl.
    by rewrite fmap_app.
  - intros Hnd. by apply firstOccurrencesBy_id.
Qed.

Section StatsFacts.

Lemma sum_of_lengths (all : list (list Message)) : ∀ acc,
  foldl (λ a b, a + b) acc ((λ l, Z.of_nat (length l)) <$> all)
  = acc + Z.of_nat (length (concat all)).
Proof.
  induction all as [|l all IH]; intros acc; simpl; [lia|].
  rewrite IH, length_app. lia.
Qed.

Lemma mergeMessages_length_le all :
  (length (mergeMessages all) ≤ length (concat all))%nat.
Proof.
  destruct (decide (length all = 1%nat)) as [Hone|Hmany].
  - destruct all as [|l [|? ?]]; try done. cbn [mergeMessages concat].
    rewrite app_nil_r, sortByTimestamp_length. done.
  - rewrite mergeMessages_multi by done. unfold spec_mergeMessages.
    etrans; [apply sublist_length, keepFirstOccurrences_sublist|].
    by rewrite sortByTimestamp_length.
Qed.

Lemma mergeMessages_nothing_dropped all :
  length all ≠ 1%nat →
  length (mergeMessages all) = length (concat all)
  ↔ NoDup (getMessageKey <$> concat all).
Proof.
  intros Hmany. rewrite mergeMessages_multi by done. unfold spec_mergeMessages.
  rewrite <- (sortByTimestamp_length (concat all)).
  assert (Hperm : getMessageKey <$> sortByTimestamp (concat all)
                  ≡ₚ getMessageKey <$> concat all).
  { apply fmap_Permutation, sortByTimestamp_Permutation. }
  rewrite <- Hperm. rewrite keepFirstOccurrences_by. split.
  - intros Hlen. apply firstOccurrencesBy_length in Hlen.
    rewrite <- Hlen at 1. apply firstOccurrencesBy_NoDup.
  - intros Hnd. by rewrite firstOccurrencesBy_id.
Qed.

End StatsFacts.

(** X3. The statistics of a merge, computed from the sizes of the backups and
    the size of the merged timeline: the total is the number of messages
    pooled, the number of duplicates removed is never negative and never
    above the total, it is zero for a single backup, and for several
    backups it is zero exactly when no two pooled messages share a
    deduplication key. *)
Theorem merge_stats_count_the_dropped_duplicates
    (allMessages : list (list Message)) :
  let stats := getMergeStats ((λ l, Z.of_nat (length l)) <$> allMessages)
                             (Z.of_nat (length (mergeMessages allMessages))) in
  totalOriginal stats = Z.of_nat (length (concat allMessages))
  ∧ 0 <= duplicatesRemoved stats <= totalOriginal stats
  ∧ statsMergedCount stats + duplicatesRemoved stats = totalOriginal stats
  ∧ (length allMessages = 1%nat → duplicatesRemoved stats = 0)
  ∧ (length allMessages ≠ 1%nat →
     (duplicatesRemoved stats = 0
      ↔ NoDup (getMessageKey <$> concat allMessages))).
Proof.
  intros stats.
  assert (Ht : totalOriginal stats = Z.of_nat (length (concat allMessages))).
  { unfold stats, getMergeStats. cbn [totalOriginal].
    rewrite sum_of_lengths. lia. }
  assert (Hd : duplicatesRemoved stats
               = Z.of_nat (length (concat allMessages))
                 - Z.of_nat (length (mergeMessages allMessages))).
  { rewrite <- Ht. done. }
  pose proof (mergeMessages_length_le allMessages) as Hle.
  assert (Hc : statsMergedCount stats
               = Z.of_nat (length (mergeMessages allMessages))) by done.
  split_and!.
  - done.
  - lia.
  - lia.
  - lia.
  - intros Hone. destruct allMessages as [|l [|? ?]]; try done.
    rewrite Hd. cbn [mergeMessages concat].
    rewrite app_nil_r, sortByTimestamp_length. lia.
  - intros Hmany. rewrite <- mergeMessages_nothing_dropped by done.
    rewrite Hd. lia.
Qed.


(** * More on the timeline builder *)

Section BubbleMaximality.

Lemma adjacent_snoc (L : list MessageBubbleGroup) x :
  (∀ i g1 g2, L !! i = Some g1 → L !! S i = Some g2 → ¬ couldJoin g1 g2) →
  (∀ g, last L = Some g → ¬ couldJoin g x) →
  ∀ i g1 g2, (L ++ [x]) !! i = Some g1 → (L ++ [x]) !! S i = Some g2 →
             ¬ couldJoin g1 g2.
Proof.
  intros Hin Hlast i g1 g2 H1 H2.
  apply lookup_snoc_Some in H1 as [[Hi H1]|[Hi _]];
    apply lookup_snoc_Some in H2 as [[Hj H2]|[Hj <-]]; try lia.
  - by eapply Hin.
  - apply Hlast. rewrite last_lookup.
    replace (Nat.pred (length L)) with i by lia. done.
Qed.

Lemma adjacent_last (L : list MessageBubbleGroup) x :
  (∀ i g1 g2, (L ++ [x]) !! i = Some g1 → (L ++ [x]) !! S i = Some g2 →
              ¬ couldJoin g1 g2) →
  (∀ i g1 g2, L !! i = Some g1 → L !! S i = Some g2 → ¬ couldJoin g1 g2)
  ∧ (∀ g, last L = Some g → ¬ couldJoin g x).
Proof.
  intros Hadj. split.
  - intros i g1 g2 H1 H2. apply (Hadj i g1 g2).
    + apply lookup_app_Some. by left.
    + apply lookup_app_Some. by left.
  - intros g Hlast. apply last_Some in Hlast as [L0 ->].
    apply (Hadj (length L0)).
    + rewrite <- (assoc_L (++)). cbn [app]. by apply list_lookup_middle.
    + rewrite lookup_app_r by (rewrite length_app; simpl; lia).
      rewrite length_app. simpl.
      replace (S (length L0) - (length L0 + 1))%nat with O by lia. done.
Qed.

Lemma couldJoin_push g1 g m :
  groupMessages g ≠ [] → couldJoin g1 (pushMessage g m) → couldJoin g1 g.
Proof.
  intros Hne (m0 & ms & Hms & Hty & Hns & Hsg).
  destruct (groupMessages g) as [|m1 ms1] eqn:Hg; [done|].
  simpl in Hms. rewrite Hg in Hms. simpl in Hms. injection Hms as -> _.
  exists m0, ms1. by rewrite Hg.
Qed.

Lemma bubbleStep_maximal st m : maximalInv st → maximalInv (bubbleStep st m).
Proof.
  destruct st as [bgs cur]. intros (Hadj & Hne & Hsys).
  unfold bubbleStep. destruct (decide (type m = TSystem)) as [Hty|Hty].
  - split_and!; simpl.
    + apply adjacent_snoc; [done|].
      intros g _ (m0 & ms & [= <- _] & Hm0 & _). done.
    + apply Forall_app. split; [done|]. by constructor.
    + intros _ g. rewrite last_snoc. intros [= <-]. by exists m, [].
  - destruct cur as [g|]; simpl in *.
    + apply adjacent_last in Hadj as [Hadj Hlast].
      apply Forall_app in Hne as [Hne1 Hne2].
      rewrite Forall_singleton in Hne2.
      destruct (shouldGroup g m) eqn:Hsg.
      * split_and!; simpl.
        -- apply adjacent_snoc; [done|].
           intros g0 Hg0 Hjoin. apply couldJoin_push in Hjoin; [|done].
           by apply (Hlast g0).
        -- apply Forall_app. split; [done|]. constructor; [|done].
           simpl. by destruct (groupMessages g).
        -- done.
      * split_and!; simpl.
        -- apply adjacent_snoc; [by apply adjacent_snoc|].
           intros g0. rewrite last_snoc. intros [= <-].
           intros (m0 & ms & [= <- _] & _ & _ & Hsg'). congruence.
        -- apply Forall_app. split; [|by constructor].
           apply Forall_app. split; [done|]. by constructor.
        -- done.
    + split_and!; simpl.
      * apply adjacent_snoc; [done|].
        intros g0 Hg0 (m0 & ms & _ & _ & Hns & _). apply Hns. by apply Hsys.
      * apply Forall_app. split; [done|]. by constructor.
      * done.
Qed.

Lemma foldl_bubbleStep_maximal l : ∀ st,
  maximalInv st → maximalInv (foldl bubbleStep st l).
Proof.
  induction l as [|m l IH]; intros st Hinv; simpl; [done|].
  by apply IH, bubbleStep_maximal.
Qed.

Lemma groupMessagesIntoBubbles_maximal messages :
  maximalInv (foldl bubbleStep ([], None) messages).
Proof.
  apply foldl_bubbleStep_maximal. split_and!; simpl; [|done|done].
  intros i g1 g2 H1. by rewrite lookup_nil in H1.
Qed.

End BubbleMaximality.

(** X10. Bubble groups are as large as the grouping rule allows: of two
    consecutive groups of the result the second never starts with a user
    message that the first, a user group, would have taken in (same
    sender, same polarity, less than eleven minutes after the first
    group's first message).  No group is empty. *)
Theorem bubble_groups_are_maximal (messages : list Message) :
  let groups := groupMessagesIntoBubbles messages in
  (∀ i g1 g2, groups !! i = Some g1 → groups !! S i = Some g2 →
     ¬ couldJoin g1 g2)
  ∧ (∀ i g1 g2 m ms,
       groups !! i = Some g1 → groups !! S i = Some g2 →
       groupMessages g2 = m :: ms →
       startsWithSystem g1 ∨ type m = TSystem
       ∨ groupSender g1 ≠ sender m ∨ groupIsOutgoing g1 ≠ isOutgoing m
       ∨ 660000 <= timestamp m - groupTimestamp g1)
  ∧ Forall (λ g, groupMessages g ≠ []) groups.
Proof.
  intros groups.
  assert (Hinv : (∀ i g1 g2, groups !! i = Some g1 → groups !! S i = Some g2 →
                    ¬ couldJoin g1 g2)
                 ∧ Forall (λ g, groupMessages g ≠ []) groups).
  { unfold groups, groupMessagesIntoBubbles.
    destruct messages as [|m0 l].
    - split; [|done]. intros i g1 g2 H1. by rewrite lookup_nil in H1.
    - pose proof (groupMessagesIntoBubbles_maximal (m0 :: l)) as H.
      destruct (foldl bubbleStep ([], None) (m0 :: l)) as [bgs cur].
      destruct H as (H1 & H2 & _). done. }
  destruct Hinv as [Hadj Hne]. split_and!; [done| |done].
  intros i g1 g2 m ms H1 H2 Hms.
  specialize (Hadj i g1 g2 H1 H2).
  destruct (decide (type m = TSystem)) as [|Hty]; [by right; left|].
  assert (Hdec : Decision (startsWithSystem g1)).
  { unfold startsWithSystem. destruct (groupMessages g1) as [|m1 ms1].
    - right. by intros (? & ? & ? & _).
    - destruct (decide (type m1 = TSystem)) as [Hy|Hn].
      + left. by exists m1, ms1.
      + right. intros (? & ? & [= <- _] & ?). done. }
  destruct Hdec as [Hs|Hns]; [by left|].
  destruct (shouldGroup g1 m) eqn:Hsg.
  - exfalso. apply Hadj. by exists m, ms.
  - right. right.
    destruct (decide (groupSender g1 = sender m)) as [Hs1|]; [|by left].
    destruct (decide (groupIsOutgoing g1 = isOutgoing m)) as [Ho1|];
      [|by right; left].
    right. right.
    destruct (Z_lt_le_dec (timestamp m - groupTimestamp g1) 660000) as [Hlt|];
      [|done].
    assert (shouldGroup g1 m = true) by by apply shouldGroup_spec.
    congruence.
Qed.

(** * Grouping by day *)

Section DayFacts.

Lemma StronglySorted_weaken {A} (R1 R2 : relation A) (l : list A) :
  (∀ x y, R1 x y → R2 x y) → StronglySorted R1 l → StronglySorted R2 l.
Proof.
  intros HR. induction 1 as [|x l Hs IH Hall]; constructor; [done|].
  eapply Forall_impl; [exact Hall|]. intros y. apply HR.
Qed.

Lemma startOfDay_idem x : startOfDay (startOfDay x) = startOfDay x.
Proof. unfold startOfDay, msPerDay. by rewrite Z.div_mul. Qed.

Lemma startOfDay_mono a b : a <= b → startOfDay a <= startOfDay b.
Proof.
  intros H. unfold startOfDay, msPerDay.
  apply Z.mul_le_mono_nonneg_r; [lia|]. apply Z.div_le_mono; lia.
Qed.

Lemma startOfDay_day x : startOfDay x / msPerDay = x / msPerDay.
Proof. unfold startOfDay, msPerDay. by rewrite Z.div_mul. Qed.

Lemma isSameDay_true a b : isSameDay a b = true ↔ startOfDay a = startOfDay b.
Proof. unfold isSameDay. apply Z.eqb_eq. Qed.

Lemma isSameDay_days a b :
  isSameDay a b = true ↔ a / msPerDay = b / msPerDay.
Proof.
  rewrite isSameDay_true. unfold startOfDay, msPerDay. split; [|congruence].
  intros H. lia.
Qed.

End DayFacts.

(** The two day-grouping loops share their shape; [s] is 1 for the
    ascending walk of the timeline and -1 for the descending walk of the
    gallery. *)
Lemma dayStep_eq {G} (dateOf : G → Z) fresh push groups cur m :
  dayStep dateOf fresh push (groups, cur) m
  = match cur with
    | None => (groups, Some (fresh m))
    | Some g =>
        if negb (isSameDay (dateOf g) (startOfDay (timestamp m)))
        then (groups ++ [g], Some (fresh m))
        else (groups, Some (push g m))
    end.
Proof. reflexivity. Qed.

Section DayGrouping.
Context {G : Type} (dateOf : G → Z) (msgsOf : G → list Message).
Context (fresh : Message → G) (push : G → Message → G).
Context (s : Z) (Hs : s = 1 ∨ s = -1).
Hypothesis dateOf_fresh : ∀ m, dateOf (fresh m) = startOfDay (timestamp m).
Hypothesis msgsOf_fresh : ∀ m, msgsOf (fresh m) = [m].
Hypothesis dateOf_push : ∀ g m, dateOf (push g m) = dateOf g.
Hypothesis msgsOf_push : ∀ g m, msgsOf (push g m) = msgsOf g ++ [m].

Local Abbreviation dayStep := (dayStep dateOf fresh push).
Local Abbreviation dayGroupOk := (dayGroupOk dateOf msgsOf).
Local Abbreviation dayInv := (dayInv dateOf msgsOf s).

Lemma dayGroupOk_fresh m : dayGroupOk (fresh m).
Proof.
  split; rewrite msgsOf_fresh; [done|]. constructor; [|done].
  by rewrite dateOf_fresh.
Qed.

Lemma dayStep_inv walked st m :
  (∀ x, x ∈ walked → s * timestamp x <= s * timestamp m) →
  dayInv walked st → dayInv (walked ++ [m]) (dayStep st m).
Proof.
  destruct st as [groups cur]. intros Hle (Hcat & Hok & Hsorted & Hopen).
  unfold dayStep. simpl in *. destruct cur as [g|]; simpl in *.
  - apply Forall_app in Hok as Hok'. destruct Hok' as [Hok1 Hok2].
    rewrite Forall_singleton in Hok2. destruct Hok2 as [Hne Hday].
    assert (Hg : startOfDay (dateOf g) = dateOf g).
    { destruct (msgsOf g) as [|m0 ms]; [done|].
      apply Forall_cons in Hday as [<- _]. apply startOfDay_idem. }
    destruct (isSameDay (dateOf g) (startOfDay (timestamp m))) eqn:Hsame; simpl.
    + apply isSameDay_true in Hsame.
      rewrite startOfDay_idem, Hg in Hsame.
      split_and!; simpl.
      * rewrite fmap_app, concat_app in *. simpl in *.
        rewrite app_nil_r in *. rewrite msgsOf_push, <- Hcat.
        by rewrite (assoc_L (++)).
      * apply Forall_app. split; [done|]. rewrite Forall_singleton.
        split; rewrite msgsOf_push, ?dateOf_push.
        -- by destruct (msgsOf g).
        -- apply Forall_app. split; [done|]. by constructor.
      * rewrite fmap_app in *. simpl in *. by rewrite dateOf_push.
      * done.
    + apply not_true_iff_false in Hsame. rewrite isSameDay_true in Hsame.
      rewrite startOfDay_idem, Hg in Hsame.
      assert (Hlt : s * dateOf g < s * startOfDay (timestamp m)).
      { destruct (msgsOf g) as [|m0 ms] eqn:Hms; [done|].
        apply Forall_cons in Hday as [Hm0 _].
        assert (Hin : m0 ∈ walked).
        { rewrite <- Hcat, fmap_app, concat_app. simpl. rewrite Hms.
          apply elem_of_app. right. apply list_elem_of_here. }
        specialize (Hle _ Hin). rewrite <- Hm0 in *.
        destruct Hs as [-> | ->].
        - pose proof (startOfDay_mono (timestamp m0) (timestamp m)). lia.
        - pose proof (startOfDay_mono (timestamp m) (timestamp m0)). lia. }
      split_and!; simpl.
      * rewrite fmap_app, concat_app. simpl.
        rewrite msgsOf_fresh, Hcat. done.
      * apply Forall_app. split; [done|]. rewrite Forall_singleton.
        apply dayGroupOk_fresh.
      * rewrite fmap_app. simpl. apply StronglySorted_app_2; [|done|].
        -- intros x1 x2 Hx1 ->%list_elem_of_singleton. rewrite dateOf_fresh.
           rewrite fmap_app in Hsorted. simpl in Hsorted.
           rewrite fmap_app in Hx1. simpl in Hx1.
           apply elem_of_app in Hx1 as [Hx1| ->%list_elem_of_singleton];
             [|done].
           assert (x1 < s * dateOf g); [|lia].
           eapply (StronglySorted_app_1_elem_of _ _ _ _ _ Hsorted); [done|].
           apply list_elem_of_here.
        -- repeat constructor.
      * done.
  - rewrite (Hopen eq_refl) in *. simpl in *. split_and!; simpl.
    + by rewrite msgsOf_fresh, <- Hcat.
    + rewrite Forall_singleton. apply dayGroupOk_fresh.
    + repeat constructor.
    + done.
Qed.

Lemma foldl_dayStep_inv l : ∀ walked st,
  StronglySorted (ascending (λ m, s * timestamp m)) (walked ++ l) →
  dayInv walked st → dayInv (walked ++ l) (foldl dayStep st l).
Proof.
  induction l as [|m l IH]; intros walked st Hsorted Hinv; simpl.
  - by rewrite app_nil_r.
  - rewrite (cons_middle m walked l), (assoc_L (++)) in *.
    apply IH; [done|]. apply dayStep_inv; [|done].
    intros x Hx. apply StronglySorted_app_1_l in Hsorted.
    by apply (StronglySorted_app_1_elem_of _ _ _ x m Hsorted);
      [|apply list_elem_of_here].
Qed.

Lemma dayGrouping_spec l :
  StronglySorted (ascending (λ m, s * timestamp m)) l →
  dayInv l (foldl dayStep ([], None) l).
Proof.
  intros Hsorted. apply (foldl_dayStep_inv l [] ([], None) Hsorted).
  split_and!; simpl; [done|done|constructor|done].
Qed.

Lemma foldl_dayStep_Forall (P : G → Prop) l : ∀ st,
  (∀ m, P (fresh m)) → (∀ g m, P g → P (push g m)) →
  Forall P (st.1 ++ option_list st.2) →
  Forall P ((foldl dayStep st l).1 ++ option_list (foldl dayStep st l).2).
Proof.
  induction l as [|m l IH]; intros [groups cur] Hf Hp Hall; simpl; [done|].
  apply IH; [done|done|]. rewrite dayStep_eq. simpl in *.
  destruct cur as [g|]; simpl in *.
  - apply Forall_app in Hall as [H1 H2]. rewrite Forall_singleton in H2.
    destruct (isSameDay _ _); simpl.
    + apply Forall_app. split; [done|]. rewrite Forall_singleton. by apply Hp.
    + apply Forall_app. split; [|by rewrite Forall_singleton].
      apply Forall_app. split; [done|]. by rewrite Forall_singleton.
  - apply Forall_app. split; [by rewrite app_nil_r in Hall|].
    by rewrite Forall_singleton.
Qed.

End DayGrouping.

Section TimelineFacts.
Context (now : Z).

Local Abbreviation freshT := (freshTimelineGroup now).
Local Abbreviation pushT := pushTimelineGroup.

Lemma dateGroupStep_dayStep st m :
  dateGroupStep now st m = dayStep timelineDate freshT pushT st m.
Proof. destruct st as [groups [g|]]; reflexivity. Qed.

Lemma foldl_dateGroupStep l : ∀ st,
  foldl (dateGroupStep now) st l = foldl (dayStep timelineDate freshT pushT) st l.
Proof.
  induction l as [|m l IH]; intros st; simpl; [done|].
  by rewrite dateGroupStep_dayStep, IH.
Qed.

Lemma groupMessagesByDate_spec messages :
  let groups := groupMessagesByDate now messages in
  concat (timelineMessages <$> groups) = sortByTimestamp messages
  ∧ Forall (λ g, timelineMessages g ≠ []
                 ∧ Forall (λ m, startOfDay (timestamp m) = timelineDate g)
                          (timelineMessages g)
                 ∧ timelineDateString g = formatDateSeparator now (timelineDate g))
           groups
  ∧ StronglySorted Z.lt (timelineDate <$> groups).
Proof.
  unfold groupMessagesByDate. destruct messages as [|m0 l].
  { simpl. split_and!; constructor. }
  set (sorted := sortBy timestamp (m0 :: l)).
  rewrite foldl_dateGroupStep.
  assert (Hsorted : StronglySorted (ascending (λ m, 1 * timestamp m)) sorted).
  { eapply StronglySorted_weaken; [|apply (sortBy_sorted timestamp)].
    unfold ascending. intros; lia. }
  pose proof (dayGrouping_spec timelineDate timelineMessages freshT pushT 1
                (or_introl eq_refl) (λ _, eq_refl) (λ _, eq_refl)
                (λ _ _, eq_refl) (λ _ _, eq_refl) sorted Hsorted)
    as (Hcat & Hok & Hdates & _).
  pose proof (foldl_dayStep_Forall timelineDate freshT pushT
                (λ g, timelineDateString g
                      = formatDateSeparator now (timelineDate g))
                sorted ([], None) (λ _, eq_refl) (λ _ _ H, H)
                (Forall_nil_2 _)) as Hlabel.
  destruct (foldl _ _ sorted) as [groups cur]. simpl in *.
  split_and!.
  - done.
  - apply Forall_forall. intros g Hg.
    rewrite Forall_forall in Hok, Hlabel.
    destruct (Hok g Hg) as [? ?]. split_and!; [done|done|by apply Hlabel].
  - assert (Heq : (λ g, 1 * timelineDate g) <$> groups ++ option_list cur
                  = timelineDate <$> groups ++ option_list cur)
      by (apply list_fmap_ext; intros; lia).
    by rewrite <- Heq.
Qed.

End TimelineFacts.

(** X11. The timeline groups of a chat: the messages, stably sorted by
    timestamp, are cut into one group per calendar day; every group holds
    at least one message, all its messages are of its day, its label is the
    separator of its day, and the days of the groups increase strictly, so
    no day has two groups.  No message is lost or repeated. *)
Theorem timeline_groups_partition_the_sorted_messages_by_day
    (now : Z) (messages : list Message) :
  let groups := groupMessagesByDate now messages in
  concat (timelineMessages <$> groups) = sortByTimestamp messages
  ∧ Forall (λ g, timelineMessages g ≠ []
                 ∧ Forall (λ m, startOfDay (timestamp m) = timelineDate g)
                          (timelineMessages g)
                 ∧ timelineDateString g = formatDateSeparator now (timelineDate g))
           groups
  ∧ StronglySorted Z.lt (timelineDate <$> groups)
  ∧ (groups = [] ↔ messages = []).
Proof.
  intros groups.
  destruct (groupMessagesByDate_spec now messages) as (Hcat & Hok & Hdates).
  fold groups in Hcat, Hok, Hdates. split_and!; try done. split.
  - intros Hnil. rewrite Hnil in Hcat. simpl in Hcat.
    apply (f_equal length) in Hcat. rewrite sortByTimestamp_length in Hcat.
    by destruct messages.
  - by intros ->.
Qed.

Section SeparatorFacts.

Lemma daysAgo_of_day now t :
  (now - startOfDay t) / msPerDay = now / msPerDay - t / msPerDay.
Proof.
  unfold startOfDay, msPerDay.
  replace (now - t / (1000 * 60 * 60 * 24) * (1000 * 60 * 60 * 24))
    with (now + (- (t / (1000 * 60 * 60 * 24))) * (1000 * 60 * 60 * 24)) by lia.
  rewrite Z.div_add by lia. lia.
Qed.

Lemma yesterday_day now : (now - msPerDay) / msPerDay = now / msPerDay - 1.
Proof.
  unfold msPerDay.
  replace (now - 1000 * 60 * 60 * 24)
    with (now + (-1) * (1000 * 60 * 60 * 24)) by lia.
  rewrite Z.div_add by lia. lia.
Qed.

End SeparatorFacts.

(** X12. The separator of a day depends only on how many calendar days lie
    between that day and today: TODAY for none, YESTERDAY for one, the
    name of the week day for two to six and also for any day in the
    future, the full date for seven or more. *)
Theorem date_separator_depends_on_the_calendar_distance (now t : Z) :
  let date := startOfDay t in
  let daysApart := now / msPerDay - t / msPerDay in
  formatDateSeparator now date
  = if daysApart =? 0 then js "TODAY"
    else if daysApart =? 1 then js "YESTERDAY"
    else if daysApart <? 7 then toUpperCase (formatDayName date)
    else toUpperCase (formatLongDate date).
Proof.
  intros date daysApart. unfold formatDateSeparator, isToday, isYesterday.
  assert (H1 : isSameDay date now = (daysApart =? 0)).
  { apply eq_true_iff_eq. rewrite isSameDay_days, Z.eqb_eq. unfold date.
    rewrite startOfDay_day. unfold daysApart. lia. }
  assert (H2 : isSameDay date (now - msPerDay) = (daysApart =? 1)).
  { apply eq_true_iff_eq. rewrite isSameDay_days, Z.eqb_eq. unfold date.
    rewrite startOfDay_day, yesterday_day. unfold daysApart. lia. }
  rewrite H1, H2. unfold date at 1. rewrite daysAgo_of_day. done.
Qed.

(** * The virtual list of the chat view *)

Section VirtualListFacts.

Lemma flatten_inner isGroup0 (l : list MessageBubbleGroup) : ∀ items,
  foldl (λ items bubbleGroup, items ++ [BubbleGroupItem bubbleGroup isGroup0])
        items l
  = items ++ ((λ g, BubbleGroupItem g isGroup0) <$> l).
Proof.
  induction l as [|g l IH]; intros items; simpl.
  - by rewrite app_nil_r.
  - by rewrite IH, <- (assoc_L (++)).
Qed.

Lemma flatten_outer isGroup0 (dateGroups : list TimelineGroup) : ∀ items,
  foldl (λ items dateGroup,
           foldl (λ items bubbleGroup,
                    items ++ [BubbleGroupItem bubbleGroup isGroup0])
                 (items ++ [DateItem (timelineDateString dateGroup)])
                 (groupMessagesIntoBubbles (timelineMessages dateGroup)))
        items dateGroups
  = items ++ (dateGroups ≫= dayRows isGroup0).
Proof.
  induction dateGroups as [|d l IH]; intros items; simpl.
  - by rewrite app_nil_r.
  - rewrite IH, flatten_inner. unfold dayRows at 2.
    by rewrite <- !(assoc_L (++)).
Qed.

Lemma flattenForVirtualization_rows dateGroups isGroup0 :
  flattenForVirtualization dateGroups isGroup0 = dateGroups ≫= dayRows isGroup0.
Proof. unfold flattenForVirtualization. by rewrite flatten_outer. Qed.

Lemma itemMessages_bubbles isGroup0 (l : list MessageBubbleGroup) :
  itemMessages ((λ g, BubbleGroupItem g isGroup0) <$> l)
  = concat (groupMessages <$> l).
Proof.
  induction l as [|g l IH]; [done|].
  rewrite !fmap_cons. unfold itemMessages in *. rewrite bind_cons, IH. done.
Qed.

Lemma itemMessages_dayRows isGroup0 d :
  itemMessages (dayRows isGroup0 d) = timelineMessages d.
Proof.
  unfold dayRows, itemMessages. rewrite bind_cons. cbn [app].
  fold (itemMessages ((λ g, BubbleGroupItem g isGroup0)
                        <$> groupMessagesIntoBubbles (timelineMessages d))).
  rewrite itemMessages_bubbles.
  apply groupMessagesIntoBubbles_inv.
Qed.

Lemma itemMessages_rows isGroup0 (dateGroups : list TimelineGroup) :
  itemMessages (dateGroups ≫= dayRows isGroup0)
  = concat (timelineMessages <$> dateGroups).
Proof.
  induction dateGroups as [|d l IH]; [done|].
  rewrite bind_cons. unfold itemMessages in *. rewrite bind_app.
  fold (itemMessages (dayRows isGroup0 d)). rewrite itemMessages_dayRows, IH.
  done.
Qed.

Lemma itemDates_bubbles isGroup0 (l : list MessageBubbleGroup) :
  itemDates ((λ g, BubbleGroupItem g isGroup0) <$> l) = [].
Proof. induction l as [|g l IH]; [done|]. exact IH. Qed.

Lemma itemDates_rows isGroup0 (dateGroups : list TimelineGroup) :
  itemDates (dateGroups ≫= dayRows isGroup0)
  = timelineDateString <$> dateGroups.
Proof.
  induction dateGroups as [|d l IH]; [done|].
  rewrite bind_cons. unfold itemDates in *. rewrite omap_app, IH.
  unfold dayRows. cbn [omap list_omap].
  fold (itemDates ((λ g, BubbleGroupItem g isGroup0)
                     <$> groupMessagesIntoBubbles (timelineMessages d))).
  by rewrite itemDates_bubbles.
Qed.

End VirtualListFacts.

(** X13. The virtual list of the chat view is, day by day, the separator of the
    day followed by the bubble groups of that day; read in order, its
    bubble groups hold every message of the chat exactly once, in
    timestamp order (messages of equal timestamp in their order in the
    chat), and it has one separator per calendar day on which there is a
    message. *)
Theorem virtual_list_shows_every_message_once
    (now : Z) (messages : list Message) (isGroup0 : bool) :
  let dateGroups := groupMessagesByDate now messages in
  let items := flattenForVirtualization dateGroups isGroup0 in
  items = dateGroups ≫= dayRows isGroup0
  ∧ itemMessages items = sortByTimestamp messages
  ∧ itemDates items
    = (λ g, formatDateSeparator now (timelineDate g)) <$> dateGroups
  ∧ StronglySorted Z.lt (timelineDate <$> dateGroups).
Proof.
  intros dateGroups items.
  destruct (groupMessagesByDate_spec now messages) as (Hcat & Hok & Hdates).
  fold dateGroups in Hcat, Hok, Hdates.
  assert (Hitems : items = dateGroups ≫= dayRows isGroup0)
    by apply flattenForVirtualization_rows.
  rewrite Hitems. split_and!.
  - done.
  - by rewrite itemMessages_rows.
  - rewrite itemDates_rows. apply list_fmap_ext. intros i g Hg.
    rewrite Forall_forall in Hok.
    apply (Hok g). by eapply list_elem_of_lookup_2.
  - done.
Qed.

(** * The gallery *)

Section GalleryFacts.

Local Abbreviation freshM := freshMediaGroup.
Local Abbreviation pushM := pushMediaGroup.

Lemma foldl_mediaGroupStep l : ∀ st,
  foldl mediaGroupStep st l = foldl (dayStep mediaDate freshM pushM) st l.
Proof.
  induction l as [|m l IH]; intros st; simpl; [done|].
  rewrite <- IH. by destruct st as [groups [g|]].
Qed.

Lemma groupMediaByDate_spec mediaMessages :
  let groups := groupMediaByDate mediaMessages in
  concat (media <$> groups) = sortBy (λ m, - timestamp m) mediaMessages
  ∧ Forall (λ g, media g ≠ []
                 ∧ Forall (λ m, startOfDay (timestamp m) = mediaDate g) (media g)
                 ∧ mediaDateString g = formatLongDate (mediaDate g))
           groups
  ∧ StronglySorted (λ a b, b < a) (mediaDate <$> groups).
Proof.
  unfold groupMediaByDate.
  set (sorted := sortBy (λ m, - timestamp m) mediaMessages).
  rewrite foldl_mediaGroupStep.
  assert (Hsorted : StronglySorted (ascending (λ m, -1 * timestamp m)) sorted).
  { eapply StronglySorted_weaken;
      [|apply (sortBy_sorted (λ m, - timestamp m))].
    unfold ascending. intros; lia. }
  pose proof (dayGrouping_spec mediaDate media freshM pushM (-1)
                (or_intror eq_refl) (λ _, eq_refl) (λ _, eq_refl)
                (λ _ _, eq_refl) (λ _ _, eq_refl) sorted Hsorted)
    as (Hcat & Hok & Hdates & _).
  pose proof (foldl_dayStep_Forall mediaDate freshM pushM
                (λ g, mediaDateString g = formatLongDate (mediaDate g))
                sorted ([], None) (λ _, eq_refl) (λ _ _ H, H)
                (Forall_nil_2 _)) as Hlabel.
  destruct (foldl _ _ sorted) as [groups cur]. simpl in *.
  split_and!.
  - done.
  - apply Forall_forall. intros g Hg.
    rewrite Forall_forall in Hok, Hlabel.
    destruct (Hok g Hg) as [? ?]. split_and!; [done|done|by apply Hlabel].
  - rewrite <- (list_fmap_id (mediaDate <$> _)), <- list_fmap_compose.
    rewrite <- (list_fmap_id ((λ g, -1 * mediaDate g) <$> _)) in Hdates.
    rewrite <- list_fmap_compose in Hdates.
    revert Hdates. generalize (groups ++ option_list cur). intros L.
    induction L as [|g L IH]; intros Hss; [constructor|].
    rewrite fmap_cons in *. apply StronglySorted_inv in Hss as [Hss Hall].
    constructor; [by apply IH|].
    rewrite Forall_fmap in *. eapply Forall_impl; [exact Hall|].
    intros g'. simpl. lia.
Qed.

End GalleryFacts.

(** X14. The gallery groups: the media, stably sorted newest first, are cut
    into one group per calendar day; every group holds at least one
    message, all its messages are of its day, its label is the long form of
    its date, and the days of the groups decrease strictly. *)
Theorem gallery_groups_partition_the_media_by_day_newest_first
    (mediaMessages : list Message) :
  let groups := groupMediaByDate mediaMessages in
  concat (media <$> groups) = sortBy (λ m, - timestamp m) mediaMessages
  ∧ concat (media <$> groups) ≡ₚ mediaMessages
  ∧ Forall (λ g, media g ≠ []
                 ∧ Forall (λ m, startOfDay (timestamp m) = mediaDate g) (media g)
                 ∧ mediaDateString g = formatLongDate (mediaDate g))
           groups
  ∧ StronglySorted (λ a b, b < a) (mediaDate <$> groups)
  ∧ (groupMediaByDate [] = []).
Proof.
  intros groups.
  destruct (groupMediaByDate_spec mediaMessages) as (Hcat & Hok & Hdates).
  fold groups in Hcat, Hok, Hdates. split_and!; try done.
  rewrite Hcat. apply sortBy_Permutation.
Qed.

(** * Avatars *)

Section HashFacts.

Lemma toInt32_range z : - 2 ^ 31 <= toInt32 z < 2 ^ 31.
Proof.
  unfold toInt32. change (2 ^ 31) with 2147483648.
  change (2 ^ 32) with 4294967296.
  pose proof (Z.mod_pos_bound (z + 2147483648) 4294967296). lia.
Qed.

Lemma colorHash_bound name : ∀ hash,
  Forall (λ c, (c < 65536)%N) name →
  Z.abs (foldl (λ hash c, Z.of_N c + (shiftLeft5 hash - hash)) hash name)
  <= Z.abs hash + Z.of_nat (length name) * (2 ^ 31 + 65535).
Proof.
  induction name as [|c name IH]; intros hash Hall; simpl; [lia|].
  apply Forall_cons in Hall as [Hc Hall].
  etrans; [apply IH; done|].
  pose proof (toInt32_range (toInt32 hash * 32)) as Hr.
  unfold shiftLeft5. change (2 ^ 31) with 2147483648 in *.
  rewrite Nat2Z.inj_succ. lia.
Qed.

End HashFacts.

(** X15. The colour of a participant is an element of the palette whenever the
    palette is not empty (the index computed from the hash of the name is
    in range), and it is undefined for an empty palette.  The hash stays
    below 2^53 in magnitude for names of fewer than 2^21 code units, so the
    arithmetic on it is exact. *)
Theorem participant_color_is_drawn_from_the_palette
    (name : jsstring) (colorPalette : list jsstring) :
  colorPalette ≠ [] →
  (∃ c, getParticipantColor name colorPalette = Some c ∧ c ∈ colorPalette)
  ∧ getParticipantColor name [] = None
  ∧ (Forall (λ c, (c < 65536)%N) name →
     Z.abs (colorHash name) <= Z.of_nat (length name) * (2 ^ 31 + 65535))
  ∧ (Forall (λ c, (c < 65536)%N) name → Z.of_nat (length name) < 2 ^ 21 →
     Z.abs (colorHash name) < 2 ^ 53).
Proof.
  intros Hne. split_and!.
  - unfold getParticipantColor. destruct colorPalette as [|p0 palette]; [done|].
    set (pal := p0 :: palette).
    set (index := Z.abs (colorHash name) mod Z.of_nat (length pal)).
    assert (Hrange : 0 <= index < Z.of_nat (length pal)).
    { apply Z.mod_pos_bound. simpl. lia. }
    destruct (lookup_lt_is_Some_2 pal (Z.to_nat index)) as [c Hc]; [lia|].
    exists c. split; [done|]. by eapply list_elem_of_lookup_2.
  - done.
  - intros Hall. pose proof (colorHash_bound name 0 Hall) as H.
    unfold colorHash. change (2 ^ 31) with 2147483648 in *. lia.
  - intros Hall Hlen. pose proof (colorHash_bound name 0 Hall) as H.
    unfold colorHash.
    change (2 ^ 21) with 2097152 in Hlen.
    change (2 ^ 31) with 2147483648 in *.
    change (2 ^ 53) with 9007199254740992. lia.
Qed.

Lemma participant_color_witness :
  ∃ c, getParticipantColor (js "Alice") generateParticipantColors = Some c
       ∧ c ∈ generateParticipantColors.
Proof.
  apply (participant_color_is_drawn_from_the_palette
           (js "Alice") generateParticipantColors).
  discriminate.
Defined.

Section InitialsFacts.

Lemma splitSpaces_nonempty_words s : ∀ inRun w0 ws d,
  last s = Some d → isSpace d = false →
  splitSpaces inRun s = w0 :: ws →
  Forall (λ w, w ≠ []) ws
  ∧ (inRun = true → w0 ≠ [])
  ∧ (∀ c r, s = c :: r → isSpace c = false → w0 ≠ []).
Proof.
  induction s as [|c s IH]; intros inRun w0 ws d Hlast Hd Hsplit; [done|].
  assert (Hs : s = [] ∧ c = d ∨ s ≠ [] ∧ last s = Some d).
  { destruct s as [|c' s']; [left; simpl in Hlast; by injection Hlast|].
    right. split; [done|]. exact Hlast. }
  simpl in Hsplit. destruct (isSpace c) eqn:Hc.
  - destruct Hs as [[-> ->]|[Hne Hlast']]; [congruence|].
    destruct inRun.
    + destruct (IH true w0 ws d Hlast' Hd Hsplit) as (H1 & H2 & _).
      split_and!; [done|done|]. intros c0 r [= <- _] ?. congruence.
    + injection Hsplit as <- <-.
      destruct (splitSpaces true s) as [|w1 ws1] eqn:Hrec.
      { split_and!; [done|done|]. intros c0 r [= <- _] ?. congruence. }
      destruct (IH true w1 ws1 d Hlast' Hd Hrec) as (H1 & H2 & _).
      split_and!; [constructor; [by apply H2|done]|done|].
      intros c0 r [= <- _] ?. congruence.
  - destruct (splitSpaces false s) as [|p ps] eqn:Hrec.
    + injection Hsplit as <- <-. split_and!; done.
    + injection Hsplit as <- <-.
      destruct Hs as [[-> ->]|[Hne Hlast']].
      * simpl in Hrec. injection Hrec as <- <-. split_and!; done.
      * destruct (IH false p ps d Hlast' Hd Hrec) as (H1 & _ & _).
        split_and!; done.
Qed.

Lemma splitSpaces_elem s : ∀ inRun w c,
  w ∈ splitSpaces inRun s → c ∈ w → c ∈ s ∧ isSpace c = false.
Proof.
  induction s as [|c0 s IH]; intros inRun w c; simpl.
  - intros ->%list_elem_of_singleton ?%elem_of_nil. done.
  - destruct (isSpace c0) eqn:Hc0.
    + destruct inRun.
      * intros Hw Hc. destruct (IH _ _ _ Hw Hc). split; [by right|done].
      * intros [->|Hw]%elem_of_cons Hc; [by apply elem_of_nil in Hc|].
        destruct (IH _ _ _ Hw Hc). split; [by right|done].
    + destruct (splitSpaces false s) as [|p ps] eqn:Hrec.
      * intros ->%list_elem_of_singleton ->%list_elem_of_singleton.
        split; [by left|done].
      * intros [->|Hw]%elem_of_cons Hc.
        -- apply elem_of_cons in Hc as [->|Hc]; [split; [by left|done]|].
           destruct (IH false p c) as [? ?]; [rewrite Hrec; by left|done|].
           split; [by right|done].
        -- destruct (IH false w c) as [? ?]; [rewrite Hrec; by right|done|].
           split; [by right|done].
Qed.

Lemma splitSpaces_cons s inRun : ∃ w0 ws, splitSpaces inRun s = w0 :: ws.
Proof.
  revert inRun. induction s as [|c s IH]; intros inRun; simpl; [by eexists _, _|].
  destruct (isSpace c).
  - destruct inRun; [apply IH|by eexists _, _].
  - destruct (splitSpaces false s); by eexists _, _.
Qed.

(** The words of a trimmed name: there is at least one, and none of them
    is empty unless the name is blank. *)
Lemma words_of_trimmed name :
  let words := splitSpaces false (trim name) in
  (trim name = [] ∧ words = [[]])
  ∨ (trim name ≠ [] ∧ words ≠ [] ∧ Forall (λ w, w ≠ []) words).
Proof.
  intros words. destruct (trim_ends name) as [Hnil|(c & mid & d & Hshape & Hc & Hd)].
  - left. unfold words. by rewrite Hnil.
  - right. unfold words.
    assert (Hcons : ∃ r, trim name = c :: r ∧ last (trim name) = Some d).
    { destruct Hshape as [[-> ->]| ->]; [by exists []|].
      exists (mid ++ [d]). split; [done|].
      by rewrite (last_app_cons [c] mid d), last_snoc
        || (change (c :: mid ++ [d]) with ((c :: mid) ++ [d]);
            by rewrite last_snoc). }
    destruct Hcons as (r & Hr & Hlast). split; [by rewrite Hr|].
    destruct (splitSpaces_cons (trim name) false) as (w0 & ws & Hsplit).
    rewrite Hsplit. split; [done|].
    destruct (splitSpaces_nonempty_words _ _ _ _ _ Hlast Hd Hsplit)
      as (H1 & _ & H3).
    constructor; [by eapply H3|done].
Qed.

End InitialsFacts.

(** X16. [getInitials] never throws and never spells out the word undefined:
    its result is the upper-case form of at most two code units of the
    name, neither of them white space; these are no unit at all exactly for
    a blank name, the first two units of the word for a one-word name,
    otherwise the first unit of the first word and the first unit of the
    last word.  The upper-case form is that of the Unicode case conversion,
    so the result itself can be longer than two units: the initials of
    the sharp s are SS and those of a name that starts with the ligature
    of f and i, then s, are FIS. *)
Theorem initials_are_at_most_two_units_of_the_name (name : jsstring) :
  let words := splitSpaces false (trim name) in
  (∃ u,
    getInitials name = Normal (toUpperCase u)
    ∧ (length u ≤ 2)%nat
    ∧ (∀ c, c ∈ u → c ∈ name ∧ isSpace c = false)
    ∧ (u = [] ↔ trim name = [])
    ∧ (∀ w, words = [w] → u = take 2 w)
    ∧ (∀ w0 w1 ws, words = w0 :: w1 :: ws →
         ∃ a b r0 wl rl, w0 = a :: r0 ∧ last words = Some wl ∧ wl = b :: rl
                         ∧ u = [a; b]))
  ∧ getInitials (js "john") = Normal (js "JO")
  ∧ getInitials (js " john  ronald  doe ") = Normal (js "JD")
  ∧ getInitials (233%N :: js "lodie") = Normal (201%N :: js "L")
  ∧ getInitials [223%N] = Normal (js "SS")
  ∧ getInitials (64257%N :: js "sh") = Normal (js "FIS").
Proof.
  intros words. split; [|split_and!; vm_compute; reflexivity].
  unfold getInitials. fold words.
  assert (Helem : ∀ w c, w ∈ words → c ∈ w → c ∈ name ∧ isSpace c = false).
  { intros w c Hw Hc. destruct (splitSpaces_elem _ _ _ _ Hw Hc) as [Hin Hns].
    split; [by apply trim_within|done]. }
  destruct (words_of_trimmed name) as [[Hnil Hw]|(Hne & Hwne & Hall)];
    fold words in Hw || fold words in Hwne, Hall.
  - rewrite Hw. exists []. split_and!; try done.
    + simpl. lia.
    + by intros c ?%elem_of_nil.
    + by intros w [= <-].
  - destruct words as [|w0 [|w1 ws]] eqn:Hwords; [done| |].
    + apply Forall_cons in Hall as [Hw0 _].
      exists (take 2 w0). split_and!; try done.
      * rewrite length_take. lia.
      * intros c Hc. apply (Helem w0 c); [apply list_elem_of_here|].
        eapply elem_of_submseteq; [exact Hc|].
        apply sublist_submseteq, sublist_take.
      * split; [|done]. destruct w0; [done|]. by destruct w0.
      * by intros w [= <-].
    + assert (Hlast : ∃ wl, last (w0 :: w1 :: ws) = Some wl ∧ wl ∈ w0 :: w1 :: ws).
      { destruct (proj2 (last_is_Some (w0 :: w1 :: ws))) as [wl Hl]; [done|].
        exists wl. split; [done|].
        apply last_Some in Hl as [l' ->]. apply elem_of_app. right.
        apply list_elem_of_here. }
      destruct Hlast as (wl & Hl & Hwl).
      rewrite Forall_forall in Hall.
      assert (Hw0 : w0 ≠ []) by (apply Hall, list_elem_of_here).
      assert (Hwl' : wl ≠ []) by by apply Hall.
      destruct w0 as [|a r0]; [done|]. destruct wl as [|b rl]; [done|].
      exists [a; b]. rewrite Hl. cbn [head default plusUnits].
      split_and!; try done.
      * intros c [->|[->|[]%elem_of_nil]%elem_of_cons]%elem_of_cons.
        -- apply (Helem (a :: r0) a); apply list_elem_of_here.
        -- apply (Helem (b :: rl) b); [done|apply list_elem_of_here].
      * intros w0' w1' ws' [= <- <- <-].
        exists a, b, r0, (b :: rl), rl. done.
Qed.

(** * Search *)

Section SearchFacts.

Lemma filter_filter_same {A} (P : A → Prop) `{∀ x, Decision (P x)} (l : list A) :
  filter P (filter P l) = filter P l.
Proof.
  induction l as [|x l IH]; [done|].
  rewrite filter_cons. destruct (decide (P x)) as [Hx|Hx]; [|done].
  rewrite filter_cons, decide_True by done. by rewrite IH.
Qed.

End SearchFacts.

Lemma searchMessages_facts
    (messages0 : list Message) (query : jsstring) :
  (trim query = [] → searchMessages messages0 query = messages0)
  ∧ searchMessages messages0 query `sublist_of` messages0
  ∧ searchMessages (searchMessages messages0 query) query
    = searchMessages messages0 query
  ∧ (∀ more, searchMessages (messages0 ++ more) query
             = searchMessages messages0 query ++ searchMessages more query)
  ∧ (trim query ≠ [] →
     ∀ m, m ∈ searchMessages messages0 query ↔
          m ∈ messages0
          ∧ ∃ field pre post,
              (field = content m ∨ field = sender m
               ∨ mediaFileName m = Some field)
              ∧ toLowerCase field = pre ++ toLowerCase query ++ post).
Proof.
  unfold searchMessages. destruct (trim query) as [|c t] eqn:Ht; simpl.
  - split_and!; try done.
  - split_and!.
    + done.
    + apply sublist_filter.
    + apply filter_filter_same.
    + intros more. apply filter_app.
    + intros _ m. rewrite list_elem_of_filter. unfold matchesQuery.
      rewrite !orb_true_iff, !includes_spec. split.
      * intros [[[(pre & post & H)|(pre & post & H)]|H] Hin]; split; try done.
        -- exists (content m), pre, post. split; [by left|done].
        -- exists (sender m), pre, post. split; [by right; left|done].
        -- destruct (mediaFileName m) as [fn|] eqn:Hfn; [|done].
           apply includes_spec in H as (pre & post & H).
           exists fn, pre, post. split; [by right; right|done].
      * intros [Hin (field & pre & post & [->|[->|Hfn]] & H)]; split; try done.
        -- left. left. by exists pre, post.
        -- left. right. by exists pre, post.
        -- right. rewrite Hfn. apply includes_spec. by exists pre, post.
Qed.

(** X17. Searching filters without reordering: a blank query returns all the
    messages; any other query keeps, in their order, exactly the messages
    in which the query in lower case is a substring of the content, the
    sender or the media file name in lower case (the query is not trimmed
    for this comparison); searching the result again with the same query
    changes nothing, and searching distributes over concatenation.  Lower
    case is that of the Unicode case conversion: a query of a small e with
    acute accent finds the content that starts with the capital one, and
    not the one that starts with a plain E. *)
Theorem search_keeps_the_messages_that_contain_the_query
    (messages0 : list Message) (query : jsstring) :
  (trim query = [] → searchMessages messages0 query = messages0)
  ∧ searchMessages messages0 query `sublist_of` messages0
  ∧ searchMessages (searchMessages messages0 query) query
    = searchMessages messages0 query
  ∧ (∀ more, searchMessages (messages0 ++ more) query
             = searchMessages messages0 query ++ searchMessages more query)
  ∧ (trim query ≠ [] →
     ∀ m, m ∈ searchMessages messages0 query ↔
          m ∈ messages0
          ∧ ∃ field pre post,
              (field = content m ∨ field = sender m
               ∨ mediaFileName m = Some field)
              ∧ toLowerCase field = pre ++ toLowerCase query ++ post)
  ∧ searchMessages [textMessage 0 (js "Ann") (201%N :: js "mile");
                    textMessage 1 (js "Bob") (js "Emile")] [233%N]
    = [textMessage 0 (js "Ann") (201%N :: js "mile")].
Proof.
  destruct (searchMessages_facts messages0 query) as (H1 & H2 & H3 & H4 & H5).
  split_and!; try done.
Qed.


(** * What every parsed message satisfies *)

Section CreatedFacts.

Lemma parseChatFile_messages now fileName0 content0 mediaFiles :
  messages (chat (parseChatFile now fileName0 content0 mediaFiles)) = []
  ∨ ∃ errs,
      parseMessages content0 mediaFiles []
      = (Normal (messages (chat (parseChatFile now fileName0 content0 mediaFiles))),
         errs).
Proof.
  unfold parseChatFile.
  destruct (parseMessages content0 mediaFiles []) as [[ms|e] errs] eqn:Hp.
  - right. by exists errs.
  - by left.
Qed.

Lemma parsed_assembled now fileName0 content0 mediaFiles msg :
  msg ∈ messages (chat (parseChatFile now fileName0 content0 mediaFiles)) →
  assembledFrom mediaFiles msg.
Proof.
  destruct (parseChatFile_messages now fileName0 content0 mediaFiles)
    as [->|[errs Hp]]; [by intros ?%elem_of_nil|].
  apply parseMessages_inv in Hp as [Hall _]. rewrite Forall_forall in Hall.
  apply Hall.
Qed.

Lemma parsed_created now fileName0 content0 mediaFiles msg :
  msg ∈ messages (chat (parseChatFile now fileName0 content0 mediaFiles)) →
  ∃ m seq, createMessage m mediaFiles seq = Normal msg.
Proof.
  intros [(m & seq & _ & H & _)|(m & seq & _ & H & _)]%parsed_assembled;
    by exists m, seq.
Qed.

Lemma getMessageTypeFromMime_not_sticker mime :
  getMessageTypeFromMime mime ≠ TSticker.
Proof.
  unfold getMessageTypeFromMime.
  destruct (startsWith mime (js "image/")) eqn:Hi; [done|].
  destruct (startsWith mime (js "video/")); [done|].
  destruct (startsWith mime (js "audio/")); [done|].
  destruct (decide (mime = js "image/webp")) as [->|Hne].
  - by vm_compute in Hi.
  - by rewrite bool_decide_eq_false_2.
Qed.

Lemma removeFirst_within r s y : y ∈ removeFirst r s → y ∈ s.
Proof.
  unfold removeFirst. destruct (exec r s) as [m|] eqn:Hm; [|done].
  intros [Hy|Hy]%elem_of_app.
  - eapply elem_of_submseteq; [exact Hy|].
    apply sublist_submseteq, sublist_take.
  - apply exec_Some in Hm as (skipped & inp & cs & -> & _ & Hm & _).
    eapply (matchRegex_within (skipped ++ inp)) in Hm
      as (rest & cs' & Hrest & _ & Heq).
    + injection Heq as Hr _. rewrite <- Hr in Hy. by apply Hrest.
    + intros z Hz. rewrite elem_of_app. by right.
    + by intros ? ? ? ?%elem_of_nil.
Qed.

Lemma findFile_elem pred mediaFiles file :
  findFile pred mediaFiles = Normal (Some file) → Some file ∈ mediaFiles.
Proof.
  induction mediaFiles as [|[f|] l IH]; simpl; [done| |done].
  destruct (pred f).
  - intros [= ->]. apply list_elem_of_here.
  - intros H. right. by apply IH.
Qed.

Lemma orTry_Some found next file :
  orTry found next = Normal (Some file) →
  found = Normal (Some file) ∨ next = Normal (Some file).
Proof.
  unfold orTry, bindC. destruct found as [[f|]|e]; [|by right|done].
  intros [= ->]. by left.
Qed.

Lemma findMediaFile_elem fileName0 mediaFiles file :
  findMediaFile fileName0 mediaFiles = Normal (Some file) →
  Some file ∈ mediaFiles.
Proof.
  unfold findMediaFile.
  intros [H|[H|[H|[H|H]%orTry_Some]%orTry_Some]%orTry_Some]%orTry_Some;
    try (by eapply findFile_elem).
  - destruct (_ && _); [by eapply findFile_elem|done].
  - destruct (truthy _); [by eapply findFile_elem|done].
Qed.

Lemma no_break_literal (s : string) :
  bool_decide (10%N ∈ js s) = false → 10%N ∉ js s.
Proof. by intros H%bool_decide_eq_false. Qed.

(** What [detectMessageType] returns. *)
Lemma detectMessageType_facts content0 mediaFiles d :
  detectMessageType content0 mediaFiles = Normal d →
  (10%N ∉ finalContent d)
  ∧ detectedType d ≠ TSticker
  ∧ ((d = textOnly (finalContent d))
     ∨ ∃ file, Some file ∈ mediaFiles
         ∧ d = {| detectedType := getMessageTypeFromMime (mimeType file);
                  detectedMediaUrl := Some (url file);
                  detectedMediaFileName := Some (fileName file);
                  detectedMediaMimeType := Some (mimeType file);
                  detectedMediaSize := fileSize file;
                  detectedDriveFileId := fileDriveFileId file;
                  detectedThumbnailUrl := thumbnailLink file;
                  finalContent := finalContent d |}).
Proof.
  unfold detectMessageType. set (c := normalizeWaText content0).
  assert (Hc : 10%N ∉ c) by apply normalizeWaText_no_break.
  destruct (existsb _ omittedPatterns).
  { intros [= <-]. split_and!; [|done|by left].
    apply no_break_literal. reflexivity. }
  destruct (firstMatch mediaPatterns c) as [[pattern m]|] eqn:Hfirst.
  - destruct (firstMatch_Some _ _ _ _ Hfirst) as [_ Hexec].
    assert (Hcap : 10%N ∉ trim (removeFirst pattern c)).
    { intros Hy%trim_within. by apply removeFirst_within in Hy. }
    intros (found & Hfound & Hd)%bindC_Normal.
    destruct found as [mediaFile|].
    + injection Hd as <-. split_and!; [done| |].
      * apply getMessageTypeFromMime_not_sticker.
      * right. exists mediaFile. split; [|done].
        by eapply findMediaFile_elem.
    + injection Hd as <-. split_and!; [|done|by left].
      cbn [finalContent textOnly]. unfold orString.
      destruct (truthy _); [done|]. unfold mediaNotFound.
      rewrite !elem_of_app. intros [Hy|[Hy|Hy]].
      * revert Hy. apply no_break_literal. reflexivity.
      * eapply groupOr_within in Hy; [|exact Hexec]. done.
      * revert Hy. apply no_break_literal. reflexivity.
  - intros [= <-]. split_and!; [done|done|by left].
Qed.

Lemma stripEditedMarker_within text y :
  y ∈ (stripEditedMarker text).1 → y ∈ text.
Proof.
  unfold stripEditedMarker. destruct (lastIndexOf text editedMarker) as [idx|];
    [|done].
  cbn [fst]. intros Hy%trim_within. apply elem_of_app in Hy as [Hy|Hy].
  - eapply elem_of_submseteq; [exact Hy|].
    apply sublist_submseteq, sublist_take.
  - eapply elem_of_submseteq; [exact Hy|].
    apply sublist_submseteq, sublist_drop.
Qed.

(** What [createMessage] returns. *)
Lemma createMessage_facts m mediaFiles seq msg :
  createMessage m mediaFiles seq = Normal msg →
  ∃ d,
    detectMessageType (matchContent m) mediaFiles = Normal d
    ∧ content msg = (stripEditedMarker (finalContent d)).1
    ∧ (10%N ∉ content msg)
    ∧ quotedMessage msg = None ∧ reactions msg = None ∧ isDeleted msg = None
    ∧ id msg = generateMessageId (matchTimestamp m) (matchSender m) seq
    ∧ timestamp msg = matchTimestamp m ∧ sender msg = matchSender m
    ∧ isOutgoing msg = negb (isSystemLine m) && isMeSender (matchSender m)
    ∧ type msg = (if isSystemLine m then TSystem
                  else if isCall (detectCallLog (content msg)) then TCall
                       else detectedType d)
    ∧ mediaUrl msg = detectedMediaUrl d
    ∧ mediaFileName msg = detectedMediaFileName d
    ∧ mediaMimeType msg = detectedMediaMimeType d
    ∧ mediaSize msg = detectedMediaSize d
    ∧ driveFileId msg = detectedDriveFileId d
    ∧ thumbnailUrl msg = detectedThumbnailUrl d.
Proof.
  unfold createMessage. intros (d & Hd & Hmsg)%bindC_Normal. exists d.
  split; [done|].
  destruct (detectMessageType_facts _ _ _ Hd) as (Hnb & _ & _).
  assert (Hnb' : 10%N ∉ (stripEditedMarker (finalContent d)).1).
  { intros Hy%stripEditedMarker_within. done. }
  destruct (stripEditedMarker (finalContent d)) as [editedCleaned isEdited0].
  cbn [fst] in *.
  rewrite (extractQuotedMessage_no_break _ Hnb') in Hmsg.
  injection Hmsg as <-. cbn. by split_and!.
Qed.

End CreatedFacts.

(** X18. A message returned by the parser is one line of text: its content
    holds no line feed (the lines of a multi-line message are joined by
    single spaces), and so the reply detection, which looks for a line
    break, never fires: no returned message carries a quoted message.  No
    returned message carries reactions or a deleted flag either. *)
Theorem parsed_messages_are_single_line_and_never_quote
    (now : Z) (fileName0 content0 : jsstring) (mediaFiles : MediaIndex)
    (msg : Message) :
  msg ∈ messages (chat (parseChatFile now fileName0 content0 mediaFiles)) →
  (10%N ∉ content msg)
  ∧ quotedMessage msg = None
  ∧ reactions msg = None
  ∧ isDeleted msg = None
  ∧ (∀ text, 10%N ∉ text → extractQuotedMessage text = (text, None)).
Proof.
  intros (m & seq & Hc)%parsed_created.
  apply createMessage_facts in Hc as (d & _ & _ & Hnb & Hq & Hr & Hdel & _).
  split_and!; try done. apply extractQuotedMessage_no_break.
Qed.

Lemma parsed_single_line_witness :
  let r := parseChatFile 0 (js "_chat.txt")
             (js "1/2/24, 10:00 - Ann: Bob: are you there" ++ [10%N]
              ++ js "yes I am") [] in
  (λ x, (content x, quotedMessage x)) <$> messages (chat r)
  = [(js "Bob: are you there yes I am", None)].
Proof.
  intros r.
  assert (Hin : ∃ msg, msg ∈ messages (chat r)
                       ∧ messages (chat r) = [msg]
                       ∧ content msg = js "Bob: are you there yes I am").
  { eexists. split_and!; [|vm_compute; reflexivity|vm_compute; reflexivity].
    vm_compute. apply list_elem_of_here. }
  destruct Hin as (msg & Hin & Hl & Hcontent).
  destruct (parsed_messages_are_single_line_and_never_quote
              0 (js "_chat.txt") _ [] msg Hin) as (_ & Hq & _).
  rewrite Hl. cbn [fmap list_fmap]. by rewrite Hq, Hcontent.
Defined.

(** X19. The parser never produces a sticker: a MIME type that starts with
    image/, image/webp included, is classified as an image before the
    sticker test is reached.  So the media gallery of a parsed chat holds
    exactly its images and videos. *)
Theorem parser_never_yields_a_sticker
    (now : Z) (fileName0 content0 : jsstring) (mediaFiles : MediaIndex) :
  let parsed := messages (chat (parseChatFile now fileName0 content0 mediaFiles)) in
  (∀ msg, msg ∈ parsed → type msg ≠ TSticker)
  ∧ extractMediaMessages parsed
    = filter (λ msg, type msg = TImage ∨ type msg = TVideo) parsed
  ∧ (∀ mime, getMessageTypeFromMime mime ≠ TSticker)
  ∧ getMessageTypeFromMime (js "image/webp") = TImage.
Proof.
  intros parsed.
  assert (Hns : ∀ msg, msg ∈ parsed → type msg ≠ TSticker).
  { intros msg (m & seq & Hc)%parsed_created.
    apply createMessage_facts in Hc as (d & Hd & Hrest).
    destruct Hrest as (_ & _ & _ & _ & _ & _ & _ & _ & _ & Hty & _).
    apply detectMessageType_facts in Hd as (_ & Hd & _).
    rewrite Hty. destruct (isSystemLine m); [done|].
    by destruct (isCall _). }
  split_and!; [done| |apply getMessageTypeFromMime_not_sticker|done].
  unfold extractMediaMessages. revert Hns. generalize parsed. intros l Hns.
  induction l as [|x l IH]; [done|].
  assert (Hx : type x ≠ TSticker) by (apply Hns; apply list_elem_of_here).
  assert (Hl : ∀ msg, msg ∈ l → type msg ≠ TSticker)
    by (intros msg Hm; apply Hns; by right).
  rewrite !filter_cons, (IH Hl).
  destruct (decide (type x = TImage ∨ type x = TVideo ∨ type x = TSticker))
    as [H1|H1];
    destruct (decide (type x = TImage ∨ type x = TVideo)) as [H2|H2];
    try done; exfalso; tauto.
Qed.

(** X20. A returned message is marked outgoing exactly when it is not a system
    message and its sender is the local user; a system message has the
    sender System and is never outgoing. *)
Theorem outgoing_messages_are_the_local_users
    (now : Z) (fileName0 content0 : jsstring) (mediaFiles : MediaIndex)
    (msg : Message) :
  msg ∈ messages (chat (parseChatFile now fileName0 content0 mediaFiles)) →
  (isOutgoing msg = true ↔ type msg ≠ TSystem ∧ isMeSender (sender msg) = true)
  ∧ (type msg = TSystem → sender msg = js "System" ∧ isOutgoing msg = false)
  ∧ isMeSender (js "System") = false.
Proof.
  intros Hin. apply parsed_assembled in Hin.
  split_and!; [| |done].
  - destruct Hin as [(m & seq & Ho & Hc & Hty)|(m & seq & Ho & Hc & Hty)];
      apply createMessage_facts in Hc as (d & _ & Hrest);
      destruct Hrest as (_ & _ & _ & _ & _ & _ & _ & Hs & Hout & Hty' & _).
    + apply userOrigin_not_system in Ho. rewrite Ho in Hout. simpl in Hout.
      rewrite Hout, Hs. tauto.
    + apply systemOrigin_system in Ho as [Ho _]. rewrite Ho in Hout.
      simpl in Hout. rewrite Hout. split; [done|]. intros [? _]. done.
  - intros Hsys.
    destruct Hin as [(m & seq & Ho & Hc & Hty)|(m & seq & Ho & Hc & Hty)];
      [done|].
    apply createMessage_facts in Hc as (d & _ & Hrest).
    destruct Hrest as (_ & _ & _ & _ & _ & _ & _ & Hs & Hout & _).
    apply systemOrigin_system in Ho as [Ho Hsender].
    rewrite Hs, Hout, Ho. done.
Qed.

Lemma outgoing_messages_witness :
  let r := parseChatFile 0 (js "WhatsApp Chat with John.txt") sampleChat [] in
  ∃ msg, msg ∈ messages (chat r) ∧ sender msg = js "Rajiv"
         ∧ isOutgoing msg = true.
Proof.
  intros r.
  assert (Hin : ∃ msg, messages (chat r) !! 2%nat = Some msg
                       ∧ sender msg = js "Rajiv" ∧ type msg = TText).
  { eexists. split_and!; vm_compute; reflexivity. }
  destruct Hin as (msg & Hin & Hs & Hty).
  apply list_elem_of_lookup_2 in Hin.
  exists msg. split_and!; [done|done|].
  apply (outgoing_messages_are_the_local_users
           0 (js "WhatsApp Chat with John.txt") sampleChat [] msg Hin).
  rewrite Hs, Hty. split; [done|reflexivity].
Defined.

(** X21. The parser never invents an attachment.  A returned message that
    carries a media file name carries the name, URL, MIME type, size,
    Drive id and thumbnail of one entry of the attachment index; a message
    without a media file name carries none of these fields; a message of
    type image, video, audio or document always carries a media file
    name. *)
Theorem attachments_come_from_the_index
    (now : Z) (fileName0 content0 : jsstring) (mediaFiles : MediaIndex)
    (msg : Message) :
  msg ∈ messages (chat (parseChatFile now fileName0 content0 mediaFiles)) →
  (∀ fn, mediaFileName msg = Some fn →
     ∃ file, Some file ∈ mediaFiles
             ∧ fn = fileName file
             ∧ mediaUrl msg = Some (url file)
             ∧ mediaMimeType msg = Some (mimeType file)
             ∧ mediaSize msg = fileSize file
             ∧ driveFileId msg = fileDriveFileId file
             ∧ thumbnailUrl msg = thumbnailLink file
             ∧ (type msg = getMessageTypeFromMime (mimeType file)
                ∨ type msg = TCall ∨ type msg = TSystem))
  ∧ (mediaFileName msg = None →
     mediaUrl msg = None ∧ mediaMimeType msg = None ∧ mediaSize msg = None
     ∧ driveFileId msg = None ∧ thumbnailUrl msg = None
     ∧ (type msg = TText ∨ type msg = TCall ∨ type msg = TSystem))
  ∧ (type msg = TImage ∨ type msg = TVideo ∨ type msg = TAudio
     ∨ type msg = TDocument → is_Some (mediaFileName msg)).
Proof.
  intros (m & seq & Hc)%parsed_created.
  apply createMessage_facts in Hc as (d & Hd & Hrest).
  destruct Hrest as (_ & _ & _ & _ & _ & _ & _ & _ & _ & Hty & Hurl & Hfn
                     & Hmime & Hsize & Hdrive & Hthumb).
  apply detectMessageType_facts in Hd as (_ & _ & Hshape).
  assert (Htype : ∀ t, detectedType d = t →
            type msg = t ∨ type msg = TCall ∨ type msg = TSystem).
  { intros t Ht. rewrite Hty. destruct (isSystemLine m); [by right; right|].
    destruct (isCall _); [by right; left|by left]. }
  rewrite Hurl, Hfn, Hmime, Hsize, Hdrive, Hthumb.
  destruct Hshape as [Hd|(file & Hfile & Hd)]; rewrite Hd; cbn.
  - split_and!.
    + by intros fn.
    + intros _. split_and!; try done. apply Htype. by rewrite Hd.
    + intros Ht. destruct (Htype TText) as [H|[H|H]]; [by rewrite Hd| | |];
        rewrite H in Ht; destruct Ht as [?|[?|[?|?]]]; done.
  - split_and!.
    + intros fn [= <-]. exists file. split_and!; try done.
      apply Htype. by rewrite Hd.
    + done.
    + intros _. by eexists.
Qed.

Lemma attachments_witness :
  let r := parseChatFile 0 (js "_chat.txt") samplePhotoChat [Some samplePhoto] in
  ∃ msg file, msg ∈ messages (chat r) ∧ Some file ∈ [Some samplePhoto]
              ∧ mediaFileName msg = Some (fileName file)
              ∧ mediaUrl msg = Some (url file).
Proof.
  intros r.
  assert (Hin : ∃ msg, messages (chat r) !! 0%nat = Some msg
                       ∧ mediaFileName msg = Some (fileName samplePhoto)).
  { eexists. split_and!; vm_compute; reflexivity. }
  destruct Hin as (msg & Hin & Hfn).
  apply list_elem_of_lookup_2 in Hin.
  destruct (attachments_come_from_the_index
              0 (js "_chat.txt") samplePhotoChat [Some samplePhoto] msg Hin)
    as (Hsome & _ & _).
  destruct (Hsome _ Hfn) as (file & Hfile & Hname & Hurl & _).
  exists msg, file. split_and!; [done|done| |done]. by rewrite Hfn, Hname.
Defined.

(** * Media lookup *)

Section LookupOrder.

Lemma findFile_first pred l1 file l2 :
  Forall (λ e, ∃ f, e = Some f ∧ pred f = false) l1 →
  pred file = true →
  findFile pred (l1 ++ Some file :: l2) = Normal (Some file).
Proof.
  induction l1 as [|e l1 IH]; intros Hall Hp; simpl.
  - by rewrite Hp.
  - apply Forall_cons in Hall as [(f & -> & Hf) Hall]. rewrite Hf.
    by apply IH.
Qed.

Lemma findFile_pred pred mediaFiles file :
  findFile pred mediaFiles = Normal (Some file) → pred file = true.
Proof.
  induction mediaFiles as [|[f|] l IH]; simpl; [done| |done].
  destruct (pred f) eqn:Hf; [by intros [= <-]|done].
Qed.

End LookupOrder.

(** X22. The media lookup returns an entry of the index, one that satisfies
    the strategy that found it; the first entry whose lower-case name is
    the wanted name, or ends with a slash and the wanted name, is returned
    whatever the other entries are; an empty index gives undefined.  Lower
    case is that of the Unicode case conversion, so names are found
    whatever the case of their accented letters. *)
Theorem media_lookup_returns_an_entry_and_prefers_the_exact_path
    (fileName0 : jsstring) (mediaFiles : MediaIndex) :
  (∀ file, findMediaFile fileName0 mediaFiles = Normal (Some file) →
     Some file ∈ mediaFiles
     ∧ (exactPathMatch (normalizedNameOf fileName0) file = true
        ∨ baseNameMatch (baseFileNameOf fileName0) file = true
        ∨ substringMatch (baseFileNameOf fileName0) file = true
        ∨ numericIdMatch (numericIdOf fileName0) file = true
        ∨ datePortionMatch (datePortionOf fileName0) file = true))
  ∧ (∀ l1 file l2,
       mediaFiles = l1 ++ Some file :: l2 →
       Forall (λ e, ∃ f, e = Some f
                         ∧ exactPathMatch (normalizedNameOf fileName0) f = false) l1 →
       exactPathMatch (normalizedNameOf fileName0) file = true →
       findMediaFile fileName0 mediaFiles = Normal (Some file))
  ∧ findMediaFile fileName0 [] = Normal None
  ∧ (let photo := {| fileName := js "Media/" ++ [201%N] ++ js "T" ++ [201%N] ++ js ".JPG";
                     url := js "blob:2"; mimeType := js "image/jpeg";
                     fileSize := None; fileDriveFileId := None;
                     thumbnailLink := None |} in
     findMediaFile ([233%N] ++ js "t" ++ [233%N] ++ js ".jpg ") [Some samplePhoto; Some photo]
     = Normal (Some photo)).
Proof.
  split_and!; [| | |vm_compute; reflexivity].
  - intros file Hfound. split; [by eapply findMediaFile_elem|].
    unfold findMediaFile in Hfound.
    apply orTry_Some in Hfound as [H|Hfound];
      [left; by eapply findFile_pred|].
    apply orTry_Some in Hfound as [H|Hfound];
      [right; left; by eapply findFile_pred|].
    apply orTry_Some in Hfound as [H|Hfound];
      [right; right; left; by eapply findFile_pred|].
    apply orTry_Some in Hfound as [H|H].
    + destruct (_ && _); [|done].
      right; right; right; left. by eapply findFile_pred.
    + destruct (truthy _); [|done].
      right; right; right; right. by eapply findFile_pred.
  - intros l1 file l2 -> Hall Hp. unfold findMediaFile.
    by rewrite (findFile_first _ l1 file l2 Hall Hp).
  - unfold findMediaFile. cbn [findFile orTry bindC].
    by destruct (_ && _), (truthy _).
Qed.

(** * Participants *)

Section ParticipantFacts.

Lemma firstOccurrencesBy_ext {A} (key : A → jsstring) l : ∀ e1 e2,
  (∀ k, k ∈ e1 ↔ k ∈ e2) →
  firstOccurrencesBy key e1 l = firstOccurrencesBy key e2 l.
Proof.
  induction l as [|x l IH]; intros e1 e2 Heq; simpl; [done|].
  rewrite (IH (e1 ++ [key x]) (e2 ++ [key x])).
  - destruct (decide (key x ∈ e1)) as [H|H], (decide (key x ∈ e2)) as [H'|H'];
      try done; exfalso; [apply H', Heq, H|apply H, Heq, H'].
  - intros k. rewrite !elem_of_app. by rewrite Heq.
Qed.

Lemma foldl_participantStep msgs : ∀ participantMap,
  foldl participantStep (participantMap, length participantMap) msgs
  = let new := firstOccurrencesBy sender participantMap.*1 (userMessages msgs) in
    (participantMap
       ++ imap (λ j m, (sender m,
                        participantOf (length participantMap + j) (sender m))) new,
     (length participantMap + length new)%nat).
Proof.
  induction msgs as [|m msgs IH]; intros pm; cbn zeta.
  - simpl. by rewrite app_nil_r, Nat.add_0_r.
  - cbn [foldl]. unfold participantStep at 2. unfold userMessages.
    destruct (decide (type m = TSystem)) as [Hsys|Hsys].
    + rewrite (bool_decide_eq_true_2 _ Hsys), andb_false_r.
      rewrite filter_cons_False by (by intros H; apply H).
      apply IH.
    + rewrite (bool_decide_eq_false_2 _ Hsys), andb_true_r.
      rewrite filter_cons_True by done. cbn [firstOccurrencesBy].
      destruct (decide (sender m ∈ pm.*1)) as [Hin|Hin].
      * rewrite (bool_decide_eq_true_2 _ Hin). cbn [negb app].
        rewrite (firstOccurrencesBy_ext sender _ (pm.*1 ++ [sender m]) pm.*1).
        { apply IH. }
        intros k. rewrite elem_of_app, list_elem_of_singleton.
        split; [intros [?| ->]; done|by left].
      * rewrite (bool_decide_eq_false_2 _ Hin). cbn [negb].
        pose proof (IH (pm ++ [(sender m,
                       participantOf (length pm) (sender m))])) as H.
        rewrite length_app in H. cbn [length] in H.
        rewrite Nat.add_1_r in H. unfold participantOf at 1 in H.
        rewrite H. cbn zeta. rewrite fmap_app. cbn [fmap list_fmap fst app].
        rewrite <- app_assoc. cbn [app imap length].
        rewrite Nat.add_0_r. fold (userMessages msgs). f_equal; [|lia].
        f_equal. f_equal. apply imap_ext. intros j x _. cbn beta.
        unfold compose. by rewrite Nat.add_succ_r.
Qed.

Lemma extractParticipants_eq msgs :
  extractParticipants msgs
  = imap (λ i m, participantOf i (sender m))
         (firstOccurrencesBy sender [] (userMessages msgs)).
Proof.
  unfold extractParticipants.
  change ([], O) with (@nil (jsstring * Participant), length (@nil (jsstring * Participant))).
  rewrite (foldl_participantStep msgs []). cbn zeta. cbn [app fst length].
  rewrite fmap_imap. apply imap_ext. by intros.
Qed.

Lemma extractParticipants_names msgs :
  participantName <$> extractParticipants msgs
  = sender <$> firstOccurrencesBy sender [] (userMessages msgs).
Proof.
  rewrite extractParticipants_eq, fmap_imap.
  rewrite <- (imap_const sender). by apply imap_ext.
Qed.

End ParticipantFacts.

(** X23. The participants of a chat are made from the user messages that are
    the first of their sender, in that order: one participant per sender
    of a user message, whose name is the sender as written, and whose
    colour is the palette entry at its position modulo twelve. *)
Theorem participants_are_the_senders_in_order_of_first_message
    (messages0 : list Message) :
  let ps := extractParticipants messages0 in
  ps = imap (λ i m, participantOf i (sender m))
            (firstOccurrencesBy sender [] (userMessages messages0))
  ∧ NoDup (participantName <$> ps)
  ∧ (∀ name, name ∈ participantName <$> ps
             ↔ ∃ m, m ∈ messages0 ∧ type m ≠ TSystem ∧ sender m = name)
  ∧ (∀ i p, ps !! i = Some p →
       generateParticipantColors !! (i mod 12)%nat = Some (color p)
       ∧ participantId p = generateParticipantId (participantName p)).
Proof.
  intros ps. subst ps. split_and!.
  - apply extractParticipants_eq.
  - rewrite extractParticipants_names. apply firstOccurrencesBy_NoDup.
  - intros name. rewrite extractParticipants_names, firstOccurrencesBy_keys.
    rewrite list_elem_of_fmap. unfold userMessages. split.
    + intros [(m & -> & Hm) _]. apply list_elem_of_filter in Hm as [Hty Hin].
      eauto.
    + intros (m & Hin & Hty & <-). split; [|apply not_elem_of_nil].
      exists m. split; [done|]. by apply list_elem_of_filter.
  - intros i p. rewrite extractParticipants_eq, list_lookup_imap.
    destruct (_ !! i) as [m|]; [|done]. intros [= <-].
    cbn [fmap option_fmap option_map participantOf color participantId
         participantName]. split; [|done].
    change (length generateParticipantColors) with 12%nat.
    destruct (generateParticipantColors !! (i mod 12)%nat) as [c|] eqn:Hc;
      [reflexivity|].
    apply lookup_ge_None in Hc.
    change (length generateParticipantColors) with 12%nat in Hc.
    pose proof (Nat.mod_upper_bound i 12). lia.
Qed.

(** * Group flag and one-to-one chats *)

Section GroupFacts.

Lemma execFrom_liti_found n p pre rest skipped : ∀ index,
  canonicalize pre = canonicalize (js p) →
  execFrom (liti p) n index (skipped ++ pre ++ rest) ≠ None.
Proof.
  induction skipped as [|c skipped IH]; intros index Hup;
    rewrite execFrom_unfold.
  - cbn [app]. by rewrite matchRegex_liti_complete.
  - destruct (matchRegex _ _ _ _ _) as [[r cs]|]; [done|].
    cbn [app]. by apply IH.
Qed.

Lemma test_liti s p : test (liti p) s = true ↔ containsIgnoreCase s p.
Proof.
  unfold test. split.
  - destruct (exec (liti p) s) as [m|] eqn:Hm; [|done]. intros _.
    apply exec_Some in Hm as (skipped & inp' & cs & -> & _ & Hm & _).
    apply matchRegex_liti in Hm as (pre & rest' & -> & Hup & _).
    by exists skipped, pre, rest'.
  - intros (skipped & pre & rest & -> & Hup). unfold exec.
    pose proof (execFrom_liti_found (length (skipped ++ pre ++ rest))
                  p pre rest skipped 0%nat Hup) as H.
    by destruct (execFrom _ _ _ _).
Qed.

Lemma detectGroupIndicators_spec content0 :
  detectGroupIndicators content0 = true
  ↔ ∃ p, p ∈ groupPhrases ∧ containsIgnoreCase content0 p.
Proof.
  unfold detectGroupIndicators.
  change groupPatterns with (liti <$> groupPhrases).
  rewrite existsb_exists. split.
  - intros (r & Hr & Ht). apply list_elem_of_In, list_elem_of_fmap in Hr
      as (p & -> & Hp).
    exists p. split; [done|]. by apply test_liti.
  - intros (p & Hp & Hc). exists (liti p). split; [|by apply test_liti].
    apply list_elem_of_In, list_elem_of_fmap. eauto.
Qed.

End GroupFacts.

(** X24. A chat is a group exactly when the parse succeeded and either more
    than two senders wrote user messages, or fewer than two did and the
    transcript contains one of the six group phrases, letter case aside;
    with exactly two senders it is never a group.  The participants of the
    result are those of the messages, up to their order. *)
Theorem group_flag_follows_the_number_of_senders
    (now : Z) (fileName0 content0 : jsstring) (mediaFiles : MediaIndex) :
  let c := chat (parseChatFile now fileName0 content0 mediaFiles) in
  (length (participants c) = 2%nat → isGroup c = false)
  ∧ ((2 < length (participants c))%nat → isGroup c = true)
  ∧ (∀ messages0 errs,
       parseMessages content0 mediaFiles [] = (Normal messages0, errs) →
       participants c ≡ₚ extractParticipants messages0
       ∧ ((length (participants c) < 2)%nat →
          (isGroup c = true
           ↔ ∃ p, p ∈ groupPhrases ∧ containsIgnoreCase content0 p)))
  ∧ (∀ message errs,
       parseMessages content0 mediaFiles [] = (Throw message, errs) →
       isGroup c = false).
Proof.
  intros c. subst c. unfold parseChatFile.
  destruct (parseMessages content0 mediaFiles []) as [[messages0|e] errs].
  - assert (Hperm : participants
                      (chat (buildChat now fileName0 content0 messages0 errs))
                    ≡ₚ extractParticipants messages0).
    { unfold buildChat. cbn [chat participants].
      destruct (extractParticipants messages0) as [|p1 [|p2 [|p3 ps]]];
        try done.
      cbn [length Nat.eqb]. cbn [list_find].
      destruct (decide (isMeSender (participantName p1) = true)) as [H1|H1],
               (decide (isMeSender (participantName p1) = false)) as [H1'|H1'];
        try congruence;
      destruct (decide (isMeSender (participantName p2) = true)) as [H2|H2],
               (decide (isMeSender (participantName p2) = false)) as [H2'|H2'];
        try congruence; cbn [fmap option_fmap option_map prod_map];
        try done; try apply Permutation_swap;
        try (by destruct (isMeSender (participantName p1)));
        try (by destruct (isMeSender (participantName p2))). }
    pose proof (Permutation_length Hperm) as Hlen.
    unfold buildChat in *. cbn [chat participants isGroup] in *.
    split_and!.
    + intros H2. rewrite H2 in Hlen. rewrite <- Hlen. cbn [Nat.eqb negb].
      by rewrite andb_false_r.
    + intros H2. rewrite Hlen in H2.
      destruct (Nat.ltb_spec 2 (length (extractParticipants messages0)));
        [|lia].
      destruct (Nat.eqb_spec (length (extractParticipants messages0)) 2);
        [lia|done].
    + intros ? ? [= <- <-]. split; [done|]. intros H2. rewrite Hlen in H2.
      destruct (Nat.ltb_spec 2 (length (extractParticipants messages0)));
        [lia|].
      destruct (Nat.eqb_spec (length (extractParticipants messages0)) 2);
        [lia|].
      cbn [orb negb]. rewrite andb_true_r. apply detectGroupIndicators_spec.
    + done.
  - cbn [chat minimalChat participants isGroup length]. split_and!; try done; lia.
Qed.

(** X25. In a chat of exactly two senders the title is the name of the first
    participant that is not the local user, and that participant comes
    first; when both are the local user the order of first appearance and
    the title from the file are kept. *)
Theorem one_to_one_chat_is_named_after_the_other_sender
    (now : Z) (fileName0 content0 : jsstring) (mediaFiles : MediaIndex)
    (messages0 : list Message) (errs : list jsstring) (p1 p2 : Participant) :
  parseMessages content0 mediaFiles [] = (Normal messages0, errs) →
  extractParticipants messages0 = [p1; p2] →
  let c := chat (parseChatFile now fileName0 content0 mediaFiles) in
  isGroup c = false
  ∧ chatId c = generateChatId now (chatName c)
  ∧ (isMeSender (participantName p1) = false →
     chatName c = participantName p1 ∧ participants c = [p1; p2])
  ∧ (isMeSender (participantName p1) = true →
     isMeSender (participantName p2) = false →
     chatName c = participantName p2 ∧ participants c = [p2; p1])
  ∧ (isMeSender (participantName p1) = true →
     isMeSender (participantName p2) = true →
     participants c = [p1; p2]
     ∧ (extractChatName fileName0 ≠ js "Unnamed Chat" →
        chatName c = extractChatName fileName0)).
Proof.
  intros Hparse Hps c. subst c. unfold parseChatFile. rewrite Hparse.
  unfold buildChat. rewrite Hps. cbn [chat participants isGroup chatName chatId
                                      length Nat.eqb negb list_find].
  split_and!.
  - by rewrite andb_false_r.
  - done.
  - intros H1.
    destruct (decide (isMeSender (participantName p1) = true)); [congruence|].
    destruct (decide (isMeSender (participantName p1) = false)); [|done].
    cbn [fmap option_fmap option_map prod_map].
    destruct (decide (isMeSender (participantName p2) = true)); done.
  - intros H1 H2.
    destruct (decide (isMeSender (participantName p1) = true)); [|done].
    destruct (decide (isMeSender (participantName p1) = false)); [congruence|].
    destruct (decide (isMeSender (participantName p2) = false)); [|done].
    done.
  - intros H1 H2.
    destruct (decide (isMeSender (participantName p1) = true)); [|done].
    destruct (decide (isMeSender (participantName p1) = false)); [congruence|].
    destruct (decide (isMeSender (participantName p2) = false)); [congruence|].
    cbn [fmap option_fmap option_map prod_map]. split; [done|].
    intros Hn. by rewrite bool_decide_eq_false_2.
Qed.

Lemma one_to_one_chat_witness :
  let c := chat (parseChatFile 0 (js "_chat.txt") sampleTwoSenders []) in
  chatName c = js "Ann"
  ∧ participantName <$> participants c = [js "Ann"; js "Rajiv"].
Proof.
  intros c.
  pose (messages0 := match parseMessages sampleTwoSenders [] [] with
                     | (Normal ms, _) => ms
                     | _ => []
                     end).
  pose (ps := extractParticipants messages0).
  pose (p1 := default (participantOf 0 []) (ps !! 0%nat)).
  pose (p2 := default (participantOf 0 []) (ps !! 1%nat)).
  destruct (one_to_one_chat_is_named_after_the_other_sender
              0 (js "_chat.txt") sampleTwoSenders [] messages0 [] p1 p2)
    as (_ & _ & _ & H & _).
  - vm_compute. reflexivity.
  - vm_compute. reflexivity.
  - destruct H as [Hn Hp].
    + vm_compute. reflexivity.
    + vm_compute. reflexivity.
    + subst c. rewrite Hn, Hp. vm_compute. split; reflexivity.
Defined.

(** * Message ids *)

Section IdFacts.

Lemma generateMessageId_seq ts ts' s s' i j :
  generateMessageId ts s i = generateMessageId ts' s' j → i = j.
Proof.
  unfold generateMessageId. intros Heq. apply app_inv_head in Heq.
  change (js "_") with [95%N] in Heq. cbn [app] in Heq.
  apply split_at_first in Heq as [_ Heq];
    [|apply numberToString_no_underscore..].
  apply (f_equal (λ x, parseDigits x 0)) in Heq.
  rewrite !(proj2 (numberToString_nat _)) in Heq. simpl in Heq. lia.
Qed.

Lemma idsBySeq_NoDup l : idsBySeq l → NoDup (id <$> l).
Proof.
  intros Hids. apply NoDup_alt. intros i j x.
  rewrite !list_lookup_fmap.
  destruct (l !! i) as [mi|] eqn:Hi; [|done].
  destruct (l !! j) as [mj|] eqn:Hj; [|done].
  intros [= <-] [= Heq].
  destruct (Hids _ _ Hi) as (ts & s & Hmi).
  destruct (Hids _ _ Hj) as (ts' & s' & Hmj).
  rewrite Hmi, Hmj in Heq. symmetry. by eapply generateMessageId_seq.
Qed.

Lemma pushCurrent_ids mediaFiles messages0 current messages1 :
  idsBySeq messages0 →
  pushCurrent messages0 current mediaFiles = Normal messages1 →
  idsBySeq messages1.
Proof.
  intros Hids (msg & Hc & [= <-])%bindC_Normal i x Hx.
  apply lookup_app_Some in Hx as [Hx|[Hge Hx]]; [by apply Hids|].
  apply list_lookup_singleton_Some in Hx as [Hi ->].
  apply createMessage_facts in Hc as (d & _ & _ & _ & _ & _ & _ & Hid & _).
  exists (matchTimestamp current), (matchSender current). rewrite Hid.
  f_equal. lia.
Qed.

Lemma parseLine_ids dateOrder mediaFiles i rawLine st st' :
  idsBySeq (messagesSoFar st) →
  parseLine dateOrder mediaFiles i rawLine st = Normal st' →
  idsBySeq (messagesSoFar st').
Proof.
  intros Hids. unfold parseLine.
  destruct (negb (truthy _)); [by intros [= <-]|].
  destruct (orElse _ _) as [m|].
  - intros (messages1 & Hpush & [= <-])%bindC_Normal. simpl.
    destruct (currentMessage st) as [current|]; [|by injection Hpush as <-].
    by eapply pushCurrent_ids.
  - destruct (currentMessage st) as [current|].
    + destruct (test _ _).
      * intros (messages1 & Hpush & [= <-])%bindC_Normal. simpl.
        destruct (truthy _); [|by injection Hpush as <-].
        by eapply pushCurrent_ids.
      * by intros [= <-].
    + destruct (i <? 5)%nat; by intros [= <-].
Qed.

Lemma parseLines_ids dateOrder mediaFiles lines : ∀ i st st' errs,
  idsBySeq (messagesSoFar st) →
  parseLines dateOrder mediaFiles i lines st = (Normal st', errs) →
  idsBySeq (messagesSoFar st').
Proof.
  induction lines as [|rawLine rest IH]; intros i st st' errs Hids; simpl.
  - by intros [= <- _].
  - destruct (parseLine _ _ _ _ _) as [st1|e] eqn:Hl; [|done].
    apply IH. by eapply parseLine_ids.
Qed.

Lemma parseMessages_ids content0 mediaFiles errors0 messages1 errs :
  parseMessages content0 mediaFiles errors0 = (Normal messages1, errs) →
  ∃ pushed, idsBySeq pushed
            ∧ messages1 = filter (λ msg, keepMessage msg = true) pushed.
Proof.
  unfold parseMessages.
  destruct (parseLines _ _ _ _ _) as [[st|e] errs'] eqn:Hl; [|done].
  apply parseLines_ids in Hl; [|by intros i msg ?].
  destruct (currentMessage st) as [current|].
  - destruct (pushCurrent _ _ _) as [messages2|e] eqn:Hp; [|done].
    intros [= <- _]. exists messages2. split; [|done].
    by eapply pushCurrent_ids.
  - intros [= <- _]. by exists (messagesSoFar st).
Qed.

End IdFacts.

(** X26. The ids of the messages of a parsed chat are pairwise distinct; each
    is made from the time stamp and sender of its message and a sequence
    number, and the sequence numbers grow along the chat. *)
Theorem message_ids_are_pairwise_distinct
    (now : Z) (fileName0 content0 : jsstring) (mediaFiles : MediaIndex) :
  let msgs := messages (chat (parseChatFile now fileName0 content0 mediaFiles)) in
  NoDup (id <$> msgs)
  ∧ ∃ seqs : list nat,
      length seqs = length msgs
      ∧ StronglySorted lt seqs
      ∧ ∀ i msg seq, msgs !! i = Some msg → seqs !! i = Some seq →
          id msg = generateMessageId (timestamp msg) (sender msg) seq.
Proof.
  intros msgs. subst msgs.
  destruct (parseChatFile_messages now fileName0 content0 mediaFiles)
    as [->|[errs Hp]].
  { split; [constructor|]. exists []. split_and!; [done|constructor|done]. }
  pose proof (parseMessages_inv _ _ _ _ _ Hp) as [Hasm _].
  apply parseMessages_ids in Hp as (pushed & Hids & Heq).
  set (msgs := messages _) in *. clearbody msgs. split.
  - rewrite Heq. eapply sublist_NoDup; [by apply idsBySeq_NoDup|].
    apply fmap_sublist, sublist_filter.
  - assert (Hgen : ∀ (l : list Message) (base : nat),
              (∀ i msg, l !! i = Some msg →
                 ∃ ts s, id msg = generateMessageId ts s (base + i)) →
              ∃ seqs : list nat,
                length seqs = length (filter (λ msg, keepMessage msg = true) l)
                ∧ StronglySorted lt seqs
                ∧ Forall (λ q, base ≤ q)%nat seqs
                ∧ ∀ i msg seq,
                    filter (λ msg, keepMessage msg = true) l !! i = Some msg →
                    seqs !! i = Some seq →
                    ∃ ts s, id msg = generateMessageId ts s seq).
    { induction l as [|x l IH]; intros base Hl.
      - exists []. split_and!; [done|constructor|constructor|done].
      - destruct (IH (S base)) as (seqs & Hlen & Hsort & Hlow & Hat).
        { intros i msg Hi. destruct (Hl (S i) msg Hi) as (ts & s & ->).
          exists ts, s. f_equal. lia. }
        destruct (decide (keepMessage x = true)) as [Hk|Hk].
        + rewrite filter_cons_True by done. exists (base :: seqs).
          split_and!.
          * simpl. by rewrite Hlen.
          * constructor; [done|]. eapply Forall_impl; [exact Hlow|].
            simpl. lia.
          * constructor; [lia|]. eapply Forall_impl; [exact Hlow|].
            simpl. lia.
          * intros [|i] msg seq; simpl.
            -- intros [= <-] [= <-]. destruct (Hl 0%nat x eq_refl) as (ts & s & ->).
               exists ts, s. f_equal. lia.
            -- apply Hat.
        + rewrite filter_cons_False by done. exists seqs.
          split_and!; [done|done| |done].
          eapply Forall_impl; [exact Hlow|]. simpl. lia. }
    destruct (Hgen pushed 0%nat) as (seqs & Hlen & Hsort & _ & Hat).
    { intros i msg Hi. by apply Hids. }
    exists seqs. rewrite Heq. split_and!; [done|done|].
    intros i msg seq Hi Hs. destruct (Hat _ _ _ Hi Hs) as (ts & s & Hid).
    assert (Hin : msg ∈ msgs).
    { rewrite Heq. by eapply list_elem_of_lookup_2. }
    rewrite Forall_forall in Hasm. apply Hasm in Hin.
    assert (∃ m q, createMessage m mediaFiles q = Normal msg) as (m & q & Hc).
    { destruct Hin as [(m & q & _ & H & _)|(m & q & _ & H & _)]; eauto. }
    apply createMessage_facts in Hc
      as (d & _ & _ & _ & _ & _ & _ & Hid' & Hts & Hsd & _).
    rewrite Hts, Hsd. rewrite Hid' in Hid |- *.
    f_equal. by eapply generateMessageId_seq.
Qed.


(** * Unresolved media references *)

Section AssembledUnresolved.

Lemma createMessage_returns mm mediaFiles seq d :
  detectMessageType (matchContent mm) mediaFiles = Normal d →
  ∃ msg, createMessage mm mediaFiles seq = Normal msg.
Proof.
  intros Hd. unfold createMessage. rewrite Hd. cbn [bindC].
  destruct (stripEditedMarker _) as [editedCleaned isEdited0].
  destruct (extractQuotedMessage _) as [replyCleaned quotedMessage0]. eauto.
Qed.

End AssembledUnresolved.





(** * Media cache: eviction order, memory map, hits *)

Section EvictionFacts.

Lemma evictLoop_prefix c n entries : ∀ storage mem freed,
  ∃ evicted rest,
    entries = evicted ++ rest
    ∧ evictLoop c n entries storage mem freed
      = (foldl (λ s e, cacheDelete (entryRequest e) s) storage evicted,
         foldl (λ m e, evictFromMemory e m) mem evicted,
         freed + residentSize evicted)
    ∧ (rest = [] ∨ belowThreshold (c - (freed + residentSize evicted) + n) = true)
    ∧ (∀ p q, evicted = p ++ q → q ≠ [] →
         belowThreshold (c - (freed + residentSize p) + n) = false).
Proof.
  induction entries as [|e entries IH]; intros storage mem freed.
  - exists [], []. split_and!; [done|simpl; by rewrite Z.add_0_r|by left|].
    intros p q Heq Hq. symmetry in Heq. by apply app_nil in Heq as [_ ->].
  - cbn [evictLoop]. destruct (belowThreshold (c - freed + n)) eqn:Hb.
    + exists [], (e :: entries).
      split_and!; [done|simpl; by rewrite Z.add_0_r| |].
      * right. simpl. by rewrite Z.add_0_r.
      * intros p q Heq Hq. symmetry in Heq. by apply app_nil in Heq as [_ ->].
    + destruct (IH (cacheDelete (entryRequest e) storage)
                  (evictFromMemory e mem) (freed + entryBlobSize e))
        as (evicted & rest & -> & -> & Hstop & Hmin).
      exists (e :: evicted), rest. cbn [foldl residentSize foldr].
      fold (residentSize evicted).
      split_and!; [done|f_equal; lia| |].
      * destruct Hstop as [->|Hs]; [by left|right].
        rewrite <- Hs. f_equal. lia.
      * intros [|x p] q Heq Hq.
        -- simpl. by rewrite Z.add_0_r.
        -- injection Heq as -> ->. cbn [residentSize foldr].
           fold (residentSize p). rewrite <- (Hmin p q eq_refl Hq).
           f_equal. lia.
Qed.

Lemma foldl_cacheDelete evicted : ∀ storage,
  foldl (λ s e, cacheDelete (entryRequest e) s) storage evicted
  = withoutRequests evicted storage.
Proof.
  unfold withoutRequests.
  induction evicted as [|e evicted IH]; intros storage; cbn [foldl].
  - induction storage as [|x storage IHs]; [done|].
    rewrite filter_cons_True by (simpl; apply not_elem_of_nil).
    by rewrite <- IHs.
  - rewrite IH. unfold cacheDelete. clear IH.
    induction storage as [|x storage IHs]; [done|].
    rewrite fmap_cons.
    destruct (decide (entryRequest x = entryRequest e)) as [Heq|Hne].
    + rewrite (filter_cons_False _ x storage) by (by intros H; apply H).
      rewrite (filter_cons_False _ x storage); [done|].
      intros H. apply H. rewrite Heq. by left.
    + rewrite (filter_cons_True _ x storage) by done.
      destruct (decide (entryRequest x ∈ entryRequest <$> evicted)) as [Hin|Hin].
      * rewrite filter_cons_False by (by intros H; apply H).
        rewrite filter_cons_False; [done|].
        intros H. apply H. by right.
      * rewrite filter_cons_True by done.
        rewrite filter_cons_True; [by rewrite IHs|].
        intros [H|H]%elem_of_cons; done.
Qed.

Lemma sorted_app_le {A} (f : A → Z) l1 l2 a b :
  StronglySorted (ascending f) (l1 ++ l2) → a ∈ l1 → b ∈ l2 → f a <= f b.
Proof.
  induction l1 as [|x l1 IH]; intros Hs Ha Hb; [by apply elem_of_nil in Ha|].
  cbn [app] in Hs. apply StronglySorted_inv in Hs as [Hs Hall].
  apply elem_of_cons in Ha as [->|Ha].
  - rewrite Forall_forall in Hall. apply Hall.
    rewrite elem_of_app. by right.
  - by apply IH.
Qed.

End EvictionFacts.


(** * The memory map and the stored pairs *)

Section MemoryFacts.

Lemma getCacheKey_inj a b : getCacheKey a = getCacheKey b → a = b.
Proof. unfold getCacheKey. apply app_inv_head. Qed.

Lemma evictFromMemory_sub e mem fid url :
  evictFromMemory e mem !! fid = Some url → mem !! fid = Some url.
Proof.
  unfold evictFromMemory. destruct (entryMetadata e) as [md|]; [|done].
  destruct (metaDriveFileId md) as [|c f]; [done|].
  destruct (mem !! (c :: f)) as [[|? ?]|]; [done| |done].
  by intros [_ H]%lookup_delete_Some.
Qed.

Lemma evictMemory_sub evicted : ∀ mem fid url,
  foldl (λ m e, evictFromMemory e m) mem evicted !! fid = Some url →
  mem !! fid = Some url.
Proof.
  induction evicted as [|e evicted IH]; intros mem fid url; cbn [foldl];
    [done|].
  intros H%IH. by eapply evictFromMemory_sub.
Qed.

Lemma evictMemory_gone evicted : ∀ mem e md,
  e ∈ evicted → entryMetadata e = Some md → metaDriveFileId md ≠ [] →
  (∀ u, mem !! metaDriveFileId md = Some u → u ≠ []) →
  foldl (λ m e, evictFromMemory e m) mem evicted !! metaDriveFileId md = None.
Proof.
  induction evicted as [|x evicted IH]; intros mem e md He Hmd Hfid Hurl;
    [by apply elem_of_nil in He|].
  cbn [foldl]. apply elem_of_cons in He as [<-|He].
  - destruct (foldl _ _ evicted !! metaDriveFileId md) as [u|] eqn:Hu;
      [|done].
    apply evictMemory_sub in Hu. exfalso. revert Hu.
    unfold evictFromMemory. rewrite Hmd.
    destruct (metaDriveFileId md) as [|c f] eqn:Hf; [done|].
    destruct (mem !! (c :: f)) as [[|? ?]|] eqn:Hm.
    + by specialize (Hurl [] eq_refl).
    + by rewrite lookup_delete_eq.
    + by rewrite Hm.
  - eapply IH; [done|done|done|].
    intros u Hu%evictFromMemory_sub. by apply Hurl.
Qed.

Lemma evictFromMemory_keep e mem fid :
  (∀ md, entryMetadata e = Some md → metaDriveFileId md ≠ fid) →
  evictFromMemory e mem !! fid = mem !! fid.
Proof.
  intros Hne. unfold evictFromMemory.
  destruct (entryMetadata e) as [md|]; [|done].
  specialize (Hne md eq_refl).
  destruct (metaDriveFileId md) as [|c f]; [done|].
  destruct (mem !! (c :: f)) as [[|? ?]|]; [done| |done].
  by rewrite lookup_delete_ne.
Qed.

Lemma evictMemory_keep evicted fid : ∀ mem,
  (∀ e md, e ∈ evicted → entryMetadata e = Some md →
     metaDriveFileId md ≠ fid) →
  foldl (λ m e, evictFromMemory e m) mem evicted !! fid = mem !! fid.
Proof.
  induction evicted as [|x evicted IH]; intros mem Hne; cbn [foldl]; [done|].
  rewrite IH.
  - apply evictFromMemory_keep. intros md Hmd. eapply Hne; [|done]. by left.
  - intros e md He. apply Hne. by right.
Qed.

(** What [evictLRU] leaves. *)
Lemma evictLRU_parts st n :
  ∃ evicted,
    evicted ⊆ cacheStorage st
    ∧ cacheStorage (evictLRU st n) = withoutRequests evicted (cacheStorage st)
    ∧ memoryCache (evictLRU st n)
      = foldl (λ m e, evictFromMemory e m) (memoryCache st) evicted.
Proof.
  unfold evictLRU.
  set (sorted := sortBy entryLastAccessed _).
  destruct (evictLoop_prefix (cacheSize st) n sorted
              (cacheStorage st) (memoryCache st) 0)
    as (evicted & rest & Hsplit & -> & _).
  exists evicted. cbn [cacheStorage memoryCache].
  rewrite foldl_cacheDelete. split_and!; [|done|done].
  intros e He.
  assert (Hs : e ∈ sorted) by (rewrite Hsplit, elem_of_app; by left).
  subst sorted. rewrite sortBy_Permutation in Hs.
  by apply list_elem_of_filter in Hs as [_ Hs].
Qed.

Lemma cachePut_requests e storage request :
  request ∈ entryRequest <$> cachePut e storage
  ↔ request = entryRequest e ∨ request ∈ entryRequest <$> storage.
Proof.
  unfold cachePut, cacheDelete. rewrite fmap_app, elem_of_app.
  cbn [fmap list_fmap]. rewrite list_elem_of_singleton, !list_elem_of_fmap.
  split.
  - intros [(x & -> & [_ Hx]%list_elem_of_filter)| ->]; [right|by left].
    by exists x.
  - intros [->|(x & -> & Hx)]; [by right|].
    destruct (decide (entryRequest x = entryRequest e)) as [Heq|Hne];
      [by right|left].
    exists x. split; [done|]. by apply list_elem_of_filter.
Qed.

Lemma cachePut_keyed e storage :
  (∃ md, entryMetadata e = Some md
         ∧ entryRequest e = getCacheKey (metaDriveFileId md)) →
  Forall (λ e, ∃ md, entryMetadata e = Some md
                     ∧ entryRequest e = getCacheKey (metaDriveFileId md)) storage →
  Forall (λ e, ∃ md, entryMetadata e = Some md
                     ∧ entryRequest e = getCacheKey (metaDriveFileId md))
         (cachePut e storage).
Proof.
  intros He Hall. unfold cachePut, cacheDelete. apply Forall_app. split.
  - rewrite Forall_forall in Hall. apply Forall_forall.
    intros x [_ Hx]%list_elem_of_filter. by apply Hall.
  - by apply Forall_singleton.
Qed.

Lemma updateAccessTime_sound st fid now :
  cacheKeyed st →
  let st' := updateAccessTime st fid now in
  cacheKeyed st'
  ∧ memoryCache st' = memoryCache st
  ∧ (∀ request, request ∈ entryRequest <$> cacheStorage st'
                ↔ request ∈ entryRequest <$> cacheStorage st).
Proof.
  intros Hk. unfold updateAccessTime.
  destruct (cacheMatch _ _) as [e|] eqn:Hm; [|done].
  destruct (entryMetadata e) as [md|] eqn:Hmd; [|done].
  apply cacheMatch_Some in Hm as [He Hreq].
  cbn [cacheStorage memoryCache]. split_and!; [|done|].
  - unfold cacheKeyed in *. cbn [cacheStorage].
    apply cachePut_keyed; [|done]. cbn [entryMetadata entryRequest].
    eexists. split; [done|]. cbn [metaDriveFileId].
    rewrite Forall_forall in Hk. destruct (Hk e He) as (md' & Hmd' & Hr).
    congruence.
  - intros request. rewrite cachePut_requests. cbn [entryRequest].
    split; [|by right]. intros [->|H]; [|done].
    by apply list_elem_of_fmap_2.
Qed.

Lemma init_parts st :
  cacheStorage (init st) = cacheStorage st
  ∧ memoryCache (init st) = memoryCache st
  ∧ initialized (init st) = true.
Proof. unfold init. by destruct (initialized st) eqn:Hi. Qed.

Lemma addToCache_parts st fid size now :
  ∃ evicted,
    evicted ⊆ cacheStorage st
    ∧ cacheStorage (addToCache st fid size now)
      = cachePut (newEntry fid size now)
          (withoutRequests evicted (cacheStorage st))
    ∧ memoryCache (addToCache st fid size now)
      = foldl (λ m e, evictFromMemory e m) (memoryCache st) evicted.
Proof.
  unfold addToCache. fold (newEntry fid size now).
  destruct (aboveThreshold (cacheSize st + size)).
  - destruct (evictLRU_parts st size) as (evicted & Hsub & Hs & Hm).
    exists evicted. cbn [cacheStorage memoryCache]. by rewrite Hs, Hm.
  - exists []. cbn [cacheStorage memoryCache foldl]. split_and!; [|f_equal|done].
    + by intros x Hx%elem_of_nil.
    + unfold withoutRequests.
      induction (cacheStorage st) as [|x l IH]; [done|].
      rewrite filter_cons_True by (simpl; apply not_elem_of_nil).
      by rewrite <- IH.
Qed.

Lemma getMedia_sound st r :
  cacheKeyed st → memoryBacked st → requestProper r →
  cacheKeyed (getMedia st r).1 ∧ memoryBacked (getMedia st r).1.
Proof.
  intros Hk Hb (Hfid & Hurl & _). unfold getMedia.
  destruct (init_parts st) as (Hs0 & Hm0 & Hi0).
  assert (Hk0 : cacheKeyed (init st)) by (unfold cacheKeyed; by rewrite Hs0).
  assert (Hb0 : memoryBacked (init st)).
  { unfold memoryBacked. by rewrite Hs0, Hm0. }
  set (st0 := init st) in *. clearbody st0. clear Hk Hb Hs0 Hm0 st.
  destruct (memoryCache st0 !! reqDriveFileId r) as [url|] eqn:Hmem;
    cbn [fst].
  { destruct (updateAccessTime_sound st0 (reqDriveFileId r) (reqNow r) Hk0)
      as (Hk1 & Hm1 & Hr1).
    split; [done|]. intros fid u. rewrite Hm1, Hr1. apply Hb0. }
  destruct (cacheMatch _ (cacheStorage st0)) as [e|] eqn:Hmatch; cbn [fst].
  { destruct (updateAccessTime_sound
                (setMemory st0 (reqDriveFileId r) (reqObjectUrl r))
                (reqDriveFileId r) (reqNow r) Hk0) as (Hk1 & Hm1 & Hr1).
    split; [done|]. intros fid u. rewrite Hm1, Hr1.
    cbn [setMemory memoryCache cacheStorage].
    intros [[<- <-]|[Hne Hu]]%lookup_insert_Some; [|by apply Hb0].
    split_and!; [done|done|].
    apply cacheMatch_Some in Hmatch as [He <-].
    by apply list_elem_of_fmap_2. }
  unfold fetchAndCache. destruct (reqFetchedSize r) as [size|]; cbn [fst];
    [|done].
  destruct (addToCache_parts
              (setMemory st0 (reqDriveFileId r) (reqObjectUrl r))
              (reqDriveFileId r) size (reqNow r))
    as (evicted & Hsub & Hs & Hm).
  cbn [setMemory cacheStorage memoryCache] in Hsub, Hs, Hm.
  unfold cacheKeyed, memoryBacked. rewrite Hs, Hm. split.
  - apply cachePut_keyed; [by eexists|].
    unfold withoutRequests. unfold cacheKeyed in Hk0.
    rewrite Forall_forall in Hk0.
    apply Forall_forall. intros x [_ Hx]%list_elem_of_filter. by apply Hk0.
  - intros fid u Hu. pose proof (evictMemory_sub _ _ _ _ Hu) as Hu0.
    apply lookup_insert_Some in Hu0 as [[<- <-]|[Hne Hu0]].
    + split_and!; [done|done|]. apply cachePut_requests. by left.
    + destruct (Hb0 fid u Hu0) as (Hf & Hun & Hin). split_and!; [done|done|].
      apply cachePut_requests. right.
      apply list_elem_of_fmap in Hin as (x & Hx & Hin).
      apply list_elem_of_fmap. exists x. split; [done|].
      apply list_elem_of_filter. split; [|done].
      intros (e & He & Hev)%list_elem_of_fmap.
      unfold cacheKeyed in Hk0. rewrite Forall_forall in Hk0.
      destruct (Hk0 e (Hsub e Hev)) as (md & Hmd & Hreq).
      assert (Hid : metaDriveFileId md = fid).
      { apply getCacheKey_inj. congruence. }
      pose proof (evictMemory_gone evicted
                    (<[reqDriveFileId r := reqObjectUrl r]> (memoryCache st0))
                    e md Hev Hmd) as Hgone.
      rewrite Hid in Hgone. rewrite Hgone in Hu; [done|done|].
      intros u'. rewrite lookup_insert_ne by done. intros Hu'.
      by destruct (Hb0 fid u' Hu') as (_ & ? & _).
Qed.

Lemma serveInTurn_sound browser rs :
  cachesInWindow browser = true → ∀ st,
  cacheConsistent st → cacheKeyed st → memoryBacked st →
  Forall requestProper rs →
  let st' := serveInTurn browser st rs in
  cacheConsistent st' ∧ cacheKeyed st' ∧ memoryBacked st'.
Proof.
  intros Hcaches.
  induction rs as [|r rs IH]; intros st Hc Hk Hb Hrs; [done|].
  apply Forall_cons in Hrs as [Hr Hrs]. unfold serveInTurn. cbn [foldl].
  rewrite getMedia_alone; [|done|apply Hc|apply Hr]. cbn [fst].
  destruct (getMedia_sound st r Hk Hb Hr).
  destruct (getMedia_cases st r Hc (proj2 Hr)) as (? & _).
  by apply IH.
Qed.

End MemoryFacts.



Section HitFacts.

Lemma cacheMatch_elem request storage :
  request ∈ entryRequest <$> storage →
  ∃ e, cacheMatch request storage = Some e.
Proof.
  intros Hin. destruct (cacheMatch request storage) as [e|] eqn:Hm; [eauto|].
  by apply cacheMatch_None in Hm.
Qed.

Lemma updateAccessTime_last st fid now :
  cacheKeyed st →
  getCacheKey fid ∈ entryRequest <$> cacheStorage st →
  ∃ e md, last (cacheStorage (updateAccessTime st fid now)) = Some e
          ∧ entryRequest e = getCacheKey fid
          ∧ entryMetadata e = Some md
          ∧ metaDriveFileId md = fid ∧ lastAccessed md = now.
Proof.
  intros Hk Hin. unfold updateAccessTime.
  destruct (cacheMatch_elem _ _ Hin) as [e Hm]. rewrite Hm.
  apply cacheMatch_Some in Hm as [He Hreq].
  unfold cacheKeyed in Hk. rewrite Forall_forall in Hk.
  destruct (Hk e He) as (md & Hmd & Hr). rewrite Hmd.
  cbn [cacheStorage]. unfold cachePut. rewrite last_snoc.
  eexists _, _. split; [done|].
  cbn [entryRequest entryMetadata metaDriveFileId lastAccessed].
  split_and!; try done.
  change (metaDriveFileId md = fid). apply getCacheKey_inj. by rewrite <- Hr.
Qed.

End HitFacts.




(** * ZIP extraction: which entries are read, and as what *)

Section ZipFacts.

Lemma splitOn_nonempty sep s : splitOn sep s ≠ [].
Proof.
  destruct s as [|c s]; simpl; [done|].
  destruct (c =? sep)%N; [done|]. by destruct (splitOn sep s).
Qed.

Lemma splitOn_whole sep s : sep ∉ s → splitOn sep s = [s].
Proof.
  induction s as [|c s IH]; intros Hnin; simpl; [done|].
  apply not_elem_of_cons in Hnin as [Hne Hnin].
  destruct (N.eqb_spec c sep); [congruence|]. by rewrite IH.
Qed.

Lemma splitOn_join sep a r :
  splitOn sep (a ++ sep :: r) = splitOn sep a ++ splitOn sep r.
Proof.
  induction a as [|c a IH]; simpl.
  - by rewrite N.eqb_refl.
  - destruct (c =? sep)%N; rewrite IH; [done|].
    pose proof (splitOn_nonempty sep a). by destruct (splitOn sep a).
Qed.

Lemma pop_extension pre e :
  46%N ∉ e → pop (splitOn 46 (pre ++ 46%N :: e)) = Some e.
Proof.
  intros Hnin. unfold pop.
  by rewrite splitOn_join, (splitOn_whole _ e Hnin), last_snoc.
Qed.

Lemma mediaExtensions_known :
  ∀ ext, ext ∈ mediaExtensions → knownExtension ext = true.
Proof.
  assert (H : forallb knownExtension mediaExtensions = true)
    by (vm_compute; reflexivity).
  rewrite forallb_forall in H. intros ext Hext. by apply H, list_elem_of_In.
Qed.

Lemma isMediaFile_mime fileName0 :
  isMediaFile fileName0 = true →
  ∃ ext m, (ext, m) ∈ mimeTypes
           ∧ getMimeType fileName0 = MimeString m
           ∧ endsWith (toLowerCase fileName0) (46%N :: ext) = true.
Proof.
  unfold isMediaFile. cbn zeta. rewrite existsb_exists.
  intros (ext & Hext%list_elem_of_In & Hends).
  pose proof (mediaExtensions_known ext Hext) as Hknown.
  unfold knownExtension in Hknown.
  destruct ext as [|d e]; [done|].
  apply andb_true_iff in Hknown as [Hknown Hmime].
  apply andb_true_iff in Hknown as [Hknown Hdot].
  apply andb_true_iff in Hknown as [Hd Hne].
  apply N.eqb_eq in Hd as ->.
  apply bool_decide_eq_true in Hdot. apply bool_decide_eq_true in Hne.
  destruct (lookupMime e) as [m|] eqn:Hm; [|done].
  exists e, m. split_and!; [| |done].
  - unfold lookupMime in Hm.
    destruct (list_find _ mimeTypes) as [[i [k v]]|] eqn:Hf; [|done].
    cbn in Hm. injection Hm as <-.
    apply list_find_Some in Hf as (Hi & Hk & _). cbn in Hk. subst k.
    by eapply list_elem_of_lookup_2.
  - unfold getMimeType. apply endsWith_spec in Hends as [pre ->].
    rewrite (pop_extension pre e Hdot). cbn [default].
    assert (Hor : orString e [] = e) by (by destruct e).
    unfold Datatypes.id. by rewrite Hor, Hm.
Qed.

Lemma isMediaFile_false fileName0 :
  isMediaFile fileName0 = false →
  ∀ ext, ext ∈ mediaExtensions → endsWith (toLowerCase fileName0) ext = false.
Proof.
  unfold isMediaFile. cbn zeta. intros Hnone ext Hext.
  destruct (endsWith _ ext) eqn:He; [|done].
  assert (existsb (λ ext, endsWith (toLowerCase fileName0) ext) mediaExtensions
          = true); [|congruence].
  apply existsb_exists. exists ext. split; [by apply list_elem_of_In|done].
Qed.

End ZipFacts.

(** X30. What is read from an archive entry depends on the last path segment
    alone.  A directory is left out.  A name that ends in .txt and contains
    chat, letter case aside, is read as a transcript under that name.
    Any other name with one of the media extensions is read as media
    under its full path, and its MIME type is the entry of the type table
    for that extension: never the fallback type, never a value inherited
    from the table object.  Everything else is left out. *)
Theorem zip_entries_are_classified_by_their_name
    (relativePath : jsstring) (dir : bool) :
  let name := baseName relativePath relativePath in
  match classifyZipEntry relativePath dir with
  | ChatTranscript n =>
      dir = false ∧ n = name
      ∧ endsWith (toLowerCase name) (js ".txt") = true
      ∧ includes (toLowerCase name) (js "chat") = true
  | MediaEntry path mime =>
      dir = false ∧ path = relativePath
      ∧ (∃ ext m, (ext, m) ∈ mimeTypes ∧ mime = MimeString m
                  ∧ endsWith (toLowerCase name) (46%N :: ext) = true)
      ∧ (endsWith (toLowerCase name) (js ".txt") = true →
         includes (toLowerCase name) (js "chat") = false)
  | NotExtracted =>
      dir = true
      ∨ ∀ ext, ext ∈ mediaExtensions → endsWith (toLowerCase name) ext = false
  end.
Proof.
  intros name. unfold classifyZipEntry. destruct dir; [by left|].
  fold name.
  assert (Hsub : includes (toLowerCase name) (js "_chat") = true →
                 includes (toLowerCase name) (js "chat") = true).
  { rewrite !includes_spec. intros (pre & post & ->).
    exists (pre ++ js "_"), post. by rewrite <- app_assoc. }
  destruct (endsWith (toLowerCase name) (js ".txt")) eqn:Htxt; cbn [andb].
  - destruct (includes (toLowerCase name) (js "chat")) eqn:Hchat; cbn [orb].
    + done.
    + destruct (includes (toLowerCase name) (js "_chat")) eqn:Hu;
        [by specialize (Hsub eq_refl)|].
      destruct (isMediaFile name) eqn:Hmedia.
      * split_and!; [done|done| |done].
        destruct (isMediaFile_mime name Hmedia) as (ext & m & ? & ? & ?).
        by exists ext, m.
      * right. by apply isMediaFile_false.
  - destruct (isMediaFile name) eqn:Hmedia.
    + split_and!; [done|done| |done].
      destruct (isMediaFile_mime name Hmedia) as (ext & m & ? & ? & ?).
      by exists ext, m.
    + right. by apply isMediaFile_false.
Qed.
